(** * Operator rules of the AD engine: a shallow embedding of include/ad/OpTraits.h

    Scalars ([double] in the source) are modelled by the real numbers: finite
    doubles without rounding, so NaN, infinities and signed zeros are outside
    the model.  Node references ([inputs[k]], a possibly null pointer into the
    graph) are [option nat] indices into the arena of nodes; dereferencing a
    null or dangling reference is undefined behaviour in the source and is a
    fault ([None]) of the state monad here.  Every read and write of a node
    slot or epoch tag is recorded in a trace, so that footprint statements
    ("writes only ...", "reads nothing") can be stated about the code. *)

From Stdlib Require Import String.
From Stdlib Require Import Reals Lra Lia List NArith Bool Arith.
Import ListNotations.
Open Scope R_scope.

(** ** Scalar helpers *)

Definition Rneqb (a b : R) : bool := if Req_dec_T a b then false else true.
Definition Rgeb (a b : R) : bool := if Rge_dec a b then true else false.
Definition Rgtb (a b : R) : bool := if Rgt_dec a b then true else false.
Definition Rleb (a b : R) : bool := if Rle_dec a b then true else false.

(** [inline double _safe_div(double a, double b)] *)
Definition _safe_div (a b : R) : R := if Rneqb b 0 then a / b else 0.

(** [std::erf]: the error function, 2/sqrt(pi) times the integral of
    exp(-t^2) from 0 to x. *)
Lemma gauss_continuous : forall x : R, continuity_pt (fun t => exp (- (t * t))) x.
Proof. intro x. reg. Qed.

Definition gauss_integral (a b : R) (H : a <= b) : R :=
  RiemannInt (continuity_implies_RiemannInt H (fun x _ => gauss_continuous x)).

Definition erf (x : R) : R :=
  2 / sqrt PI *
  match Rle_dec 0 x with
  | left H => gauss_integral 0 x H
  | right H => - gauss_integral x 0 (Rlt_le _ _ (Rnot_le_lt _ _ H))
  end.

Definition M_SQRT1_2 : R := 1 / sqrt 2.
Definition M_PI : R := PI.

(** ** Data model *)

(** Modelled from the spec: the [Operator] enum is declared outside
    OpTraits.h; the seventeen tags below are the operator set of the spec and
    of [op_name]'s switch, and [OpOther] stands for any other enumerator. *)
Inductive Operator : Type :=
  | cte | Var | Add | Subtract | Multiply | Divide
  | Sin | Cos | Tan | Exp | Log | Max
  | Tanh | Silu | Gelu | Relu | Softmax
  | OpOther (tag : N).

(** Modelled from the spec: [ADNode] is declared in ADGraph.h; these are the
    fields OpTraits.h uses.  Epoch tags are 64-bit unsigned counters. *)
Record ADNode : Type := mkNode {
  op : Operator;
  inputs : list (option nat);
  value : R;
  dot : R;
  gradient : R;
  grad_dot : R;
  val_epoch : N;
  dot_epoch : N;
  grad_epoch : N;
  gdot_epoch : N
}.

(** Modelled from the spec: [ADGraph] is declared in ADGraph.h; OpTraits.h
    only reads its four pass counters. *)
Record ADGraph : Type := mkGraph {
  cur_val_epoch_ : N;
  cur_dot_epoch_ : N;
  cur_grad_epoch_ : N;
  cur_gdot_epoch_ : N
}.

(** The four accumulators of a node; each names a slot, its epoch tag and the
    graph counter of the pass that owns it. *)
Inductive Slot : Type := SValue | SDot | SGradient | SGradDot.

Definition slot_get (s : Slot) (nd : ADNode) : R :=
  match s with
  | SValue => value nd
  | SDot => dot nd
  | SGradient => gradient nd
  | SGradDot => grad_dot nd
  end.

Definition tag_get (s : Slot) (nd : ADNode) : N :=
  match s with
  | SValue => val_epoch nd
  | SDot => dot_epoch nd
  | SGradient => grad_epoch nd
  | SGradDot => gdot_epoch nd
  end.

Definition slot_set (s : Slot) (v : R) (nd : ADNode) : ADNode :=
  match s with
  | SValue => mkNode (op nd) (inputs nd) v (dot nd) (gradient nd) (grad_dot nd)
                (val_epoch nd) (dot_epoch nd) (grad_epoch nd) (gdot_epoch nd)
  | SDot => mkNode (op nd) (inputs nd) (value nd) v (gradient nd) (grad_dot nd)
                (val_epoch nd) (dot_epoch nd) (grad_epoch nd) (gdot_epoch nd)
  | SGradient => mkNode (op nd) (inputs nd) (value nd) (dot nd) v (grad_dot nd)
                (val_epoch nd) (dot_epoch nd) (grad_epoch nd) (gdot_epoch nd)
  | SGradDot => mkNode (op nd) (inputs nd) (value nd) (dot nd) (gradient nd) v
                (val_epoch nd) (dot_epoch nd) (grad_epoch nd) (gdot_epoch nd)
  end.

Definition tag_set (s : Slot) (t : N) (nd : ADNode) : ADNode :=
  match s with
  | SValue => mkNode (op nd) (inputs nd) (value nd) (dot nd) (gradient nd) (grad_dot nd)
                t (dot_epoch nd) (grad_epoch nd) (gdot_epoch nd)
  | SDot => mkNode (op nd) (inputs nd) (value nd) (dot nd) (gradient nd) (grad_dot nd)
                (val_epoch nd) t (grad_epoch nd) (gdot_epoch nd)
  | SGradient => mkNode (op nd) (inputs nd) (value nd) (dot nd) (gradient nd) (grad_dot nd)
                (val_epoch nd) (dot_epoch nd) t (gdot_epoch nd)
  | SGradDot => mkNode (op nd) (inputs nd) (value nd) (dot nd) (gradient nd) (grad_dot nd)
                (val_epoch nd) (dot_epoch nd) (grad_epoch nd) t
  end.

Definition cur_epoch (s : Slot) (g : ADGraph) : N :=
  match s with
  | SValue => cur_val_epoch_ g
  | SDot => cur_dot_epoch_ g
  | SGradient => cur_grad_epoch_ g
  | SGradDot => cur_gdot_epoch_ g
  end.

Definition Slot_eqb (s t : Slot) : bool :=
  match s, t with
  | SValue, SValue | SDot, SDot | SGradient, SGradient | SGradDot, SGradDot => true
  | _, _ => false
  end.

(** One memory access to a node's slot or to its epoch tag. *)
Inductive Access : Type :=
  | RdSlot (p : nat) (s : Slot)
  | WrSlot (p : nat) (s : Slot)
  | RdTag (p : nat) (s : Slot)
  | WrTag (p : nat) (s : Slot).

Record World : Type := mkWorld {
  nodes : list ADNode;
  graph : ADGraph;
  trace : list Access
}.

(** [v[i] = x] on a vector; the source never indexes out of range. *)
Fixpoint list_set {A : Type} (i : nat) (x : A) (l : list A) : list A :=
  match l, i with
  | [], _ => []
  | _ :: t, O => x :: t
  | h :: t, S j => h :: list_set j x t
  end.

(** ** The state-and-fault monad of the pass functions *)

Definition M (A : Type) : Type := World -> option (A * World).

Definition ret {A : Type} (a : A) : M A := fun w => Some (a, w).

Definition bind {A B : Type} (m : M A) (k : A -> M B) : M B :=
  fun w => match m w with
           | Some (a, w') => k a w'
           | None => None
           end.

(** Undefined behaviour: a null or dangling reference was dereferenced. *)
Definition fault {A : Type} : M A := fun _ => None.

Notation "x <- m ;; k" := (bind m (fun x => k))
  (at level 61, m at next level, right associativity).
Notation "m ;; k" := (bind m (fun _ => k))
  (at level 61, right associativity).

Fixpoint for_each {A : Type} (l : list A) (body : A -> M unit) : M unit :=
  match l with
  | [] => ret tt
  | x :: t => body x ;; for_each t body
  end.

Fixpoint map_M {A B : Type} (f : A -> M B) (l : list A) : M (list B) :=
  match l with
  | [] => ret []
  | x :: t => y <- f x ;; ys <- map_M f t ;; ret (y :: ys)
  end.

Fixpoint fold_M {A B : Type} (f : B -> A -> M B) (l : list A) (b : B) : M B :=
  match l with
  | [] => ret b
  | x :: t => b' <- f b x ;; fold_M f t b'
  end.

Definition node_at (p : nat) : M ADNode :=
  fun w => match nth_error (nodes w) p with
           | Some nd => Some (nd, w)
           | None => None
           end.

Definition deref (r : option nat) : M nat :=
  match r with
  | Some p => ret p
  | None => fault
  end.

Definition emit (a : Access) : M unit :=
  fun w => Some (tt, mkWorld (nodes w) (graph w) (trace w ++ [a])).

Definition modify_node (p : nat) (f : ADNode -> ADNode) : M unit :=
  fun w => match nth_error (nodes w) p with
           | Some nd => Some (tt, mkWorld (list_set p (f nd) (nodes w)) (graph w) (trace w))
           | None => None
           end.

Definition current (s : Slot) : M N := fun w => Some (cur_epoch s (graph w), w).

(** [p->slot] read as an rvalue. *)
Definition rd (p : nat) (s : Slot) : M R :=
  nd <- node_at p ;; emit (RdSlot p s) ;; ret (slot_get s nd).

Definition rd_tag (p : nat) (s : Slot) : M N :=
  nd <- node_at p ;; emit (RdTag p s) ;; ret (tag_get s nd).

Definition wr (p : nat) (s : Slot) (v : R) : M unit :=
  modify_node p (slot_set s v) ;; emit (WrSlot p s).

Definition wr_tag (p : nat) (s : Slot) (t : N) : M unit :=
  modify_node p (tag_set s t) ;; emit (WrTag p s).

(** ** Epoch protocol *)

(** Modelled from the spec: [touch_epoch(tag, current)] of ADGraph.h marks the
    slot live for the current pass and does nothing else. *)
Definition touch_epoch (p : nat) (s : Slot) : M unit :=
  cur <- current s ;; wr_tag p s cur.

(** Modelled from the spec: [set_epoch_value(slot, tag, current, v)] of
    ADGraph.h writes [v] to the slot and sets its tag to [current]. *)
Definition set_epoch_value (p : nat) (s : Slot) (v : R) : M unit :=
  cur <- current s ;; wr p s v ;; wr_tag p s cur.

(** Modelled from the spec: [ensure_epoch_zero(slot, tag, current)] of
    ADGraph.h stores 0 and retags the slot when its tag is not [current], and
    returns a handle to the slot, here the pair [(p, s)] the caller holds. *)
Definition ensure_epoch_zero (p : nat) (s : Slot) : M unit :=
  cur <- current s ;;
  t <- rd_tag p s ;;
  if N.eqb t cur then ret tt else (wr p s 0 ;; wr_tag p s cur).

(** [handle += v] on a handle returned by [ensure_epoch_zero]. *)
Definition add_assign (p : nat) (s : Slot) (v : R) : M unit :=
  old <- rd p s ;; wr p s (old + v).

(** ** Arity predicates *)

Definition is_some {A : Type} (o : option A) : bool :=
  match o with Some _ => true | None => false end.

Definition _unary_ok (n : ADNode) : bool :=
  (length (inputs n) =? 1)%nat && is_some (nth 0 (inputs n) None).

Definition _binary_ok (n : ADNode) : bool :=
  (length (inputs n) =? 2)%nat && is_some (nth 0 (inputs n) None)
                               && is_some (nth 1 (inputs n) None).

Definition _nary_ok (n : ADNode) : bool :=
  negb (length (inputs n) =? 0)%nat.

(** ** Generic unary plumbing: [template <class Rule, ...> struct UnaryOp] *)

(** A unary [Rule]: [f], [df], [d2] and the optional custom [forward_dot]
    that the template selects with [if constexpr (requires ...)]. *)
Record UnaryRule : Type := mkUnaryRule {
  uf : R -> R;
  udf : R -> R;
  ud2 : R -> R;
  uforward_dot : option (nat -> M unit)
}.

Definition UnaryOp_forward (U : UnaryRule) (n : nat) : M unit :=
  nd <- node_at n ;;
  if negb (_unary_ok nd) then ret tt else
  a <- deref (nth 0 (inputs nd) None) ;;
  x <- rd a SValue ;;
  set_epoch_value n SValue (uf U x).

Definition UnaryOp_forward_dot (U : UnaryRule) (n : nat) : M unit :=
  nd <- node_at n ;;
  if negb (_unary_ok nd) then ret tt else
  match uforward_dot U with
  | Some custom => custom n
  | None =>
      a <- deref (nth 0 (inputs nd) None) ;;
      x <- rd a SValue ;;
      xdot <- rd a SDot ;;
      set_epoch_value n SDot (udf U x * xdot) ;;
      touch_epoch n SValue
  end.

(** In [ensure_epoch_zero(...) += rhs] the right operand is evaluated first. *)
Definition UnaryOp_backward (U : UnaryRule) (n : nat) : M unit :=
  nd <- node_at n ;;
  if negb (_unary_ok nd) then ret tt else
  a <- deref (nth 0 (inputs nd) None) ;;
  w <- rd n SGradient ;;
  x <- rd a SValue ;;
  ensure_epoch_zero a SGradient ;;
  add_assign a SGradient (w * udf U x).

Definition UnaryOp_hvp_backward (U : UnaryRule) (n : nat) : M unit :=
  nd <- node_at n ;;
  if negb (_unary_ok nd) then ret tt else
  a <- deref (nth 0 (inputs nd) None) ;;
  ensure_epoch_zero a SGradient ;;
  ensure_epoch_zero a SGradDot ;;
  x <- rd a SValue ;;
  xdot <- rd a SDot ;;
  let df := udf U x in
  let d2 := ud2 U x in
  w <- rd n SGradient ;;
  add_assign a SGradient (w * df) ;;
  wd <- rd n SGradDot ;;
  w' <- rd n SGradient ;;
  add_assign a SGradDot (wd * df + w' * d2 * xdot).

(** ** Concrete unary rules *)

Definition SinRule : UnaryRule :=
  mkUnaryRule (fun x => sin x) (fun x => cos x) (fun x => - sin x) None.

Definition CosRule : UnaryRule :=
  mkUnaryRule (fun x => cos x) (fun x => - sin x) (fun x => - cos x) None.

Definition ExpRule : UnaryRule :=
  mkUnaryRule (fun x => exp x) (fun x => exp x) (fun x => exp x) None.

Definition LogRule_forward_dot (n : nat) : M unit :=
  nd <- node_at n ;;
  a <- deref (nth 0 (inputs nd) None) ;;
  x <- rd a SValue ;;
  v <- (if Rneqb x 0 then (xdot <- rd a SDot ;; ret (xdot / x)) else ret 0) ;;
  set_epoch_value n SDot v ;;
  touch_epoch n SValue.

(** [std::log] is [ln]; the two differ only at [x <= 0], where the source
    yields an infinity or NaN. *)
Definition LogRule : UnaryRule :=
  mkUnaryRule (fun x => ln x)
              (fun x => if Rneqb x 0 then 1 / x else 0)
              (fun x => if Rneqb x 0 then (- 1) / (x * x) else 0)
              (Some LogRule_forward_dot).

Definition TanRule_forward_dot (n : nat) : M unit :=
  nd <- node_at n ;;
  a <- deref (nth 0 (inputs nd) None) ;;
  x <- rd a SValue ;;
  let c := cos x in
  v <- (if Rneqb c 0 then (xdot <- rd a SDot ;; ret (xdot / (c * c))) else ret 0) ;;
  set_epoch_value n SDot v ;;
  touch_epoch n SValue.

Definition TanRule : UnaryRule :=
  mkUnaryRule (fun x => tan x)
              (fun x => let c := cos x in if Rneqb c 0 then 1 / (c * c) else 0)
              (fun x => let s := sin x in let c := cos x in
                        if Rneqb c 0 then 2 * s / (c * c * c) else 0)
              (Some TanRule_forward_dot).

Definition TanhRule : UnaryRule :=
  mkUnaryRule (fun x => tanh x)
              (fun x => let t := tanh x in 1 - t * t)
              (fun x => let t := tanh x in let s2 := 1 - t * t in (- 2) * t * s2)
              None.

(** [inline double _sigmoid(double x)] *)
Definition _sigmoid (x : R) : R :=
  if Rgeb x 0 then let z := exp (- x) in 1 / (1 + z)
  else let z := exp x in z / (1 + z).

Definition SiLURule : UnaryRule :=
  mkUnaryRule (fun x => let s := _sigmoid x in x * s)
              (fun x => let s := _sigmoid x in s * (1 + x * (1 - s)))
              (fun x => let s := _sigmoid x in let sp := s * (1 - s) in
                        sp * (2 + x * (1 - 2 * s)))
              None.

Definition GELURule : UnaryRule :=
  mkUnaryRule (fun x => let z := x * M_SQRT1_2 in 0.5 * x * (1 + erf z))
              (fun x => let z := x * M_SQRT1_2 in
                        let A := sqrt (2 / M_PI) * exp (- 0.5 * x * x) in
                        0.5 * (1 + erf z) + 0.5 * x * A)
              (fun x => let A := sqrt (2 / M_PI) * exp (- 0.5 * x * x) in
                        A * (1 - 0.5 * x * x))
              None.

Definition ReluRule : UnaryRule :=
  mkUnaryRule (fun x => if Rgtb x 0 then x else 0)
              (fun x => if Rgtb x 0 then 1 else 0)
              (fun _ => 0)
              None.

(** ** Generic binary plumbing: [template <class Rule, ...> struct BinaryOp] *)

Record BinaryRule : Type := mkBinaryRule {
  bf : R -> R -> R;
  bdfa : R -> R -> R;
  bdfb : R -> R -> R;
  bd2aa : R -> R -> R;
  bd2ab : R -> R -> R;
  bd2bb : R -> R -> R;
  bforward_dot : option (nat -> M unit)
}.

Definition BinaryOp_forward (B : BinaryRule) (n : nat) : M unit :=
  nd <- node_at n ;;
  if negb (_binary_ok nd) then ret tt else
  a <- deref (nth 0 (inputs nd) None) ;;
  b <- deref (nth 1 (inputs nd) None) ;;
  va <- rd a SValue ;;
  vb <- rd b SValue ;;
  set_epoch_value n SValue (bf B va vb).

Definition BinaryOp_forward_dot (B : BinaryRule) (n : nat) : M unit :=
  nd <- node_at n ;;
  if negb (_binary_ok nd) then ret tt else
  a <- deref (nth 0 (inputs nd) None) ;;
  b <- deref (nth 1 (inputs nd) None) ;;
  match bforward_dot B with
  | Some custom => custom n
  | None =>
      va <- rd a SValue ;;
      vb <- rd b SValue ;;
      adot <- rd a SDot ;;
      bdot <- rd b SDot ;;
      set_epoch_value n SDot (bdfa B va vb * adot + bdfb B va vb * bdot) ;;
      touch_epoch n SValue
  end.

Definition BinaryOp_backward (B : BinaryRule) (n : nat) : M unit :=
  nd <- node_at n ;;
  if negb (_binary_ok nd) then ret tt else
  a <- deref (nth 0 (inputs nd) None) ;;
  b <- deref (nth 1 (inputs nd) None) ;;
  va <- rd a SValue ;;
  vb <- rd b SValue ;;
  w <- rd n SGradient ;;
  ensure_epoch_zero a SGradient ;;
  add_assign a SGradient (w * bdfa B va vb) ;;
  ensure_epoch_zero b SGradient ;;
  add_assign b SGradient (w * bdfb B va vb).

Definition BinaryOp_hvp_backward (B : BinaryRule) (n : nat) : M unit :=
  nd <- node_at n ;;
  if negb (_binary_ok nd) then ret tt else
  a <- deref (nth 0 (inputs nd) None) ;;
  b <- deref (nth 1 (inputs nd) None) ;;
  va <- rd a SValue ;;
  vb <- rd b SValue ;;
  adot <- rd a SDot ;;
  bdot <- rd b SDot ;;
  ensure_epoch_zero a SGradient ;;
  ensure_epoch_zero b SGradient ;;
  ensure_epoch_zero a SGradDot ;;
  ensure_epoch_zero b SGradDot ;;
  w <- rd n SGradient ;;
  wd <- rd n SGradDot ;;
  add_assign a SGradient (w * bdfa B va vb) ;;
  add_assign b SGradient (w * bdfb B va vb) ;;
  add_assign a SGradDot
    (wd * bdfa B va vb + w * (bd2aa B va vb * adot + bd2ab B va vb * bdot)) ;;
  add_assign b SGradDot
    (wd * bdfb B va vb + w * (bd2ab B va vb * adot + bd2bb B va vb * bdot)).

(** ** Concrete binary rules *)

Definition AddRule : BinaryRule :=
  mkBinaryRule (fun a b => a + b) (fun _ _ => 1) (fun _ _ => 1)
               (fun _ _ => 0) (fun _ _ => 0) (fun _ _ => 0) None.

Definition SubRule : BinaryRule :=
  mkBinaryRule (fun a b => a - b) (fun _ _ => 1) (fun _ _ => - 1)
               (fun _ _ => 0) (fun _ _ => 0) (fun _ _ => 0) None.

Definition DivRule_forward_dot (n : nat) : M unit :=
  nd <- node_at n ;;
  a <- deref (nth 0 (inputs nd) None) ;;
  b <- deref (nth 1 (inputs nd) None) ;;
  d <- rd b SValue ;;
  v <- (if Rneqb d 0
        then (adot <- rd a SDot ;; va <- rd a SValue ;; bdot <- rd b SDot ;;
              ret ((adot * d - va * bdot) / (d * d)))
        else ret 0) ;;
  set_epoch_value n SDot v ;;
  touch_epoch n SValue.

Definition DivRule : BinaryRule :=
  mkBinaryRule (fun a b => _safe_div a b)
               (fun _ b => if Rneqb b 0 then 1 / b else 0)
               (fun a b => if Rneqb b 0 then (- a) / (b * b) else 0)
               (fun _ _ => 0)
               (fun _ b => if Rneqb b 0 then (- 1) / (b * b) else 0)
               (fun a b => if Rneqb b 0 then 2 * a / (b * b * b) else 0)
               (Some DivRule_forward_dot).

(** ** Nullary operators: [OpTraits<Operator::cte>], [OpTraits<Operator::Var>] *)

Definition cte_forward (n : nat) : M unit := touch_epoch n SValue.
Definition cte_forward_dot (n : nat) : M unit :=
  touch_epoch n SDot ;; touch_epoch n SValue.
Definition cte_backward (n : nat) : M unit := ret tt.
Definition cte_hvp_backward (n : nat) : M unit := ret tt.

Definition Var_forward (n : nat) : M unit := touch_epoch n SValue.
Definition Var_forward_dot (n : nat) : M unit :=
  touch_epoch n SDot ;; touch_epoch n SValue.
Definition Var_backward (n : nat) : M unit := ret tt.
Definition Var_hvp_backward (n : nat) : M unit := ret tt.

(** ** Softmax component: [OpTraits<Operator::Softmax>] *)

(** The loops [x[i] = n.inputs[i]->value] (and [xd[i] = n.inputs[i]->dot])
    that fill the thread-local scratch vectors; the vectors are resized and
    fully overwritten on every call, so they are local lists here. *)
Definition read_values (ins : list (option nat)) : M (list R) :=
  map_M (fun r => a <- deref r ;; rd a SValue) ins.

Definition read_values_dots (ins : list (option nat)) : M (list R * list R) :=
  vd <- map_M (fun r => a <- deref r ;; v <- rd a SValue ;; d <- rd a SDot ;; ret (v, d)) ins ;;
  ret (split vd).

(** [if (x[i] > xmax) xmax = x[i]] with [xmax] started at minus infinity,
    which [None] stands for. *)
Definition max_step (acc : option R) (xi : R) : option R :=
  match acc with
  | None => Some xi
  | Some mx => if Rgtb xi mx then Some xi else Some mx
  end.

Definition vec_max (x : list R) : option R := fold_left max_step x None.

(** [xmax] after the loop; the vector is never empty behind [_nary_ok]. *)
Definition xmax_of (x : list R) : R :=
  match vec_max x with Some mx => mx | None => 0 end.

(** [y[i] = exp(x[i] - xmax); Z += y[i]; if (Z <= 0) Z = 1; y[i] /= Z]. *)
Definition softmax_y (x : list R) : list R :=
  let xmax := xmax_of x in
  let e := map (fun xi => exp (xi - xmax)) x in
  let Z0 := fold_left Rplus e 0 in
  let Z := if Rleb Z0 0 then 1 else Z0 in
  map (fun ei => ei / Z) e.

(** [sdot += y[j] * xd[j]] *)
Definition dot_product (y xd : list R) : R :=
  fold_left (fun s j => s + nth j y 0 * nth j xd 0) (seq 0 (length y)) 0.

Definition Softmax_forward (n : nat) : M unit :=
  nd <- node_at n ;;
  if negb (_nary_ok nd) then ret tt else
  x <- read_values (inputs nd) ;;
  let xmax := xmax_of x in
  let Z := fold_left (fun Z xi => Z + exp (xi - xmax)) x 0 in
  let yi := exp (nth 0 x 0 - xmax) / (if Rgtb Z 0 then Z else 1) in
  set_epoch_value n SValue yi.

Definition Softmax_forward_dot (n : nat) : M unit :=
  nd <- node_at n ;;
  if negb (_nary_ok nd) then ret tt else
  xs <- read_values_dots (inputs nd) ;;
  let x := fst xs in
  let xd := snd xs in
  let y := softmax_y x in
  let yi := nth 0 y 0 in
  let sdot := dot_product y xd in
  set_epoch_value n SDot (yi * (nth 0 xd 0 - sdot)) ;;
  touch_epoch n SValue.

Definition Softmax_backward (n : nat) : M unit :=
  nd <- node_at n ;;
  if negb (_nary_ok nd) then ret tt else
  let m := length (inputs nd) in
  x <- read_values (inputs nd) ;;
  let y := softmax_y x in
  let yi := nth 0 y 0 in
  w <- rd n SGradient ;;
  for_each (seq 0 m) (fun k =>
    let dfk := yi * (if (k =? 0)%nat then 1 else 0) - yi * nth k y 0 in
    a <- deref (nth k (inputs nd) None) ;;
    ensure_epoch_zero a SGradient ;;
    add_assign a SGradient (w * dfk)).

Definition Softmax_hvp_backward (n : nat) : M unit :=
  nd <- node_at n ;;
  if negb (_nary_ok nd) then ret tt else
  let m := length (inputs nd) in
  xs <- read_values_dots (inputs nd) ;;
  let x := fst xs in
  let xd := snd xs in
  let y := softmax_y x in
  let yi := nth 0 y 0 in
  w <- rd n SGradient ;;
  wd <- rd n SGradDot ;;
  let sdot := dot_product y xd in
  for_each (seq 0 m) (fun k =>
    let dfk := yi * (if (k =? 0)%nat then 1 else 0) - yi * nth k y 0 in
    let Hv_k := if (k =? 0)%nat
                then yi * (1 - 2 * yi) * (nth 0 xd 0 - sdot)
                else yi * nth k y 0 * (2 * sdot - nth 0 xd 0 - nth k xd 0) in
    a <- deref (nth k (inputs nd) None) ;;
    ensure_epoch_zero a SGradient ;;
    ensure_epoch_zero a SGradDot ;;
    add_assign a SGradient (w * dfk) ;;
    add_assign a SGradDot (wd * dfk + w * Hv_k)).

(** ** N-ary sum: [OpTraits<Operator::Add>]; all four passes of the binary
    base [BinaryOp<AddRule, ADD>] are overridden. *)

Definition Add_forward (n : nat) : M unit :=
  nd <- node_at n ;;
  if negb (_nary_ok nd) then ret tt else
  s <- fold_M (fun s r => a <- deref r ;; v <- rd a SValue ;; ret (s + v)) (inputs nd) 0 ;;
  set_epoch_value n SValue s.

Definition Add_forward_dot (n : nat) : M unit :=
  nd <- node_at n ;;
  if negb (_nary_ok nd) then ret tt else
  sd <- fold_M (fun s r => a <- deref r ;; v <- rd a SDot ;; ret (s + v)) (inputs nd) 0 ;;
  set_epoch_value n SDot sd ;;
  touch_epoch n SValue.

Definition Add_backward (n : nat) : M unit :=
  nd <- node_at n ;;
  if negb (_nary_ok nd) then ret tt else
  for_each (inputs nd) (fun r =>
    w <- rd n SGradient ;;
    a <- deref r ;;
    ensure_epoch_zero a SGradient ;;
    add_assign a SGradient w).

Definition Add_hvp_backward (n : nat) : M unit :=
  nd <- node_at n ;;
  if negb (_nary_ok nd) then ret tt else
  for_each (inputs nd) (fun r =>
    w <- rd n SGradient ;;
    a <- deref r ;;
    ensure_epoch_zero a SGradient ;;
    add_assign a SGradient w ;;
    wd <- rd n SGradDot ;;
    ensure_epoch_zero a SGradDot ;;
    add_assign a SGradDot wd).

(** ** N-ary product: [OpTraits<Operator::Multiply>] *)

(** [pre.assign(m + 1, 1.0); suf.assign(m + 1, 1.0)], then the ascending loop
    [pre[i + 1] = pre[i] * vals[i]] and the descending loop
    [suf[i] = suf[i + 1] * vals[i]]. *)
Definition build_prefix_suffix (vals : list R) : list R * list R :=
  let m := length vals in
  let pre :=
    fold_left (fun pre i => list_set (i + 1) (nth i pre 0 * nth i vals 0) pre)
              (seq 0 m) (repeat 1 (m + 1)) in
  let suf :=
    fold_left (fun suf i => list_set i (nth (i + 1) suf 0 * nth i vals 0) suf)
              (rev (seq 0 m)) (repeat 1 (m + 1)) in
  (pre, suf).

Definition Multiply_forward (n : nat) : M unit :=
  nd <- node_at n ;;
  if negb (_nary_ok nd) then ret tt else
  p <- fold_M (fun p r => a <- deref r ;; v <- rd a SValue ;; ret (p * v)) (inputs nd) 1 ;;
  set_epoch_value n SValue p.

Definition Multiply_forward_dot (n : nat) : M unit :=
  nd <- node_at n ;;
  if negb (_nary_ok nd) then ret tt else
  let m := length (inputs nd) in
  vd <- read_values_dots (inputs nd) ;;
  let vals := fst vd in
  let dots := snd vd in
  let ps := build_prefix_suffix vals in
  let pre := fst ps in
  let suf := snd ps in
  let ds := fold_left (fun ds i => ds + nth i dots 0 * nth i pre 0 * nth (i + 1) suf 0)
                      (seq 0 m) 0 in
  set_epoch_value n SDot ds ;;
  touch_epoch n SValue.

Definition Multiply_backward (n : nat) : M unit :=
  nd <- node_at n ;;
  if negb (_nary_ok nd) then ret tt else
  let m := length (inputs nd) in
  vals <- read_values (inputs nd) ;;
  let ps := build_prefix_suffix vals in
  let pre := fst ps in
  let suf := snd ps in
  for_each (seq 0 m) (fun i =>
    let P_wo_i := nth i pre 0 * nth (i + 1) suf 0 in
    w <- rd n SGradient ;;
    a <- deref (nth i (inputs nd) None) ;;
    ensure_epoch_zero a SGradient ;;
    add_assign a SGradient (w * P_wo_i)).

(** [for (t = a + 1; t < b; ++t) { mid_prod *= vals[t]; if (mid_prod == 0.0) break; }] *)
Fixpoint mid_loop (vals : list R) (ts : list nat) (mid_prod : R) : R :=
  match ts with
  | [] => mid_prod
  | t :: ts' =>
      let mid_prod' := mid_prod * nth t vals 0 in
      if Rneqb mid_prod' 0 then mid_loop vals ts' mid_prod' else mid_prod'
  end.

(** The inner loop over [k] of the general case, for one [i]. *)
Definition sum_term_of (vals dots pre suf : list R) (m i : nat) : R :=
  fold_left (fun sum_term k =>
      if (k =? i)%nat then sum_term else
      let a := if (i <? k)%nat then i else k in
      let b := if (i <? k)%nat then k else i in
      let mid_prod := mid_loop vals (seq (a + 1) (b - (a + 1))) 1 in
      let left := nth a pre 0 in
      let right := nth (b + 1) suf 0 in
      sum_term + nth k dots 0 * (left * mid_prod * right))
    (seq 0 m) 0.

Definition Multiply_hvp_backward (n : nat) : M unit :=
  nd <- node_at n ;;
  if negb (_nary_ok nd) then ret tt else
  let m := length (inputs nd) in
  if (m =? 2)%nat then
    a <- deref (nth 0 (inputs nd) None) ;;
    b <- deref (nth 1 (inputs nd) None) ;;
    aval <- rd a SValue ;;
    bval <- rd b SValue ;;
    adot <- rd a SDot ;;
    bdot <- rd b SDot ;;
    ybar <- rd n SGradient ;;
    ybdot <- rd n SGradDot ;;
    ensure_epoch_zero a SGradient ;;
    ensure_epoch_zero b SGradient ;;
    ensure_epoch_zero a SGradDot ;;
    ensure_epoch_zero b SGradDot ;;
    add_assign a SGradient (ybar * bval) ;;
    add_assign b SGradient (ybar * aval) ;;
    add_assign a SGradDot (ybdot * bval + ybar * bdot) ;;
    add_assign b SGradDot (ybdot * aval + ybar * adot)
  else
    vd <- read_values_dots (inputs nd) ;;
    let vals := fst vd in
    let dots := snd vd in
    let ps := build_prefix_suffix vals in
    let pre := fst ps in
    let suf := snd ps in
    for_each (seq 0 m) (fun i =>
      let P_wo_i := nth i pre 0 * nth (i + 1) suf 0 in
      let sum_term := sum_term_of vals dots pre suf m i in
      a <- deref (nth i (inputs nd) None) ;;
      ensure_epoch_zero a SGradient ;;
      ensure_epoch_zero a SGradDot ;;
      w <- rd n SGradient ;;
      add_assign a SGradient (w * P_wo_i) ;;
      wd <- rd n SGradDot ;;
      w' <- rd n SGradient ;;
      add_assign a SGradDot (wd * P_wo_i + w' * sum_term)).

(** ** Binary maximum: [OpTraits<Operator::Max>] *)

Definition Max_forward (n : nat) : M unit :=
  nd <- node_at n ;;
  if negb (_binary_ok nd) then ret tt else
  pa <- deref (nth 0 (inputs nd) None) ;;
  a <- rd pa SValue ;;
  pb <- deref (nth 1 (inputs nd) None) ;;
  b <- rd pb SValue ;;
  set_epoch_value n SValue (if Rgeb a b then a else b).

Definition Max_forward_dot (n : nat) : M unit :=
  nd <- node_at n ;;
  if negb (_binary_ok nd) then ret tt else
  a <- deref (nth 0 (inputs nd) None) ;;
  b <- deref (nth 1 (inputs nd) None) ;;
  va <- rd a SValue ;;
  vb <- rd b SValue ;;
  d <- (if Rgeb va vb then rd a SDot else rd b SDot) ;;
  set_epoch_value n SDot d ;;
  touch_epoch n SValue.

Definition Max_backward (n : nat) : M unit :=
  nd <- node_at n ;;
  if negb (_binary_ok nd) then ret tt else
  a <- deref (nth 0 (inputs nd) None) ;;
  b <- deref (nth 1 (inputs nd) None) ;;
  va <- rd a SValue ;;
  vb <- rd b SValue ;;
  if Rgeb va vb then
    w <- rd n SGradient ;;
    ensure_epoch_zero a SGradient ;;
    add_assign a SGradient w
  else
    w <- rd n SGradient ;;
    ensure_epoch_zero b SGradient ;;
    add_assign b SGradient w.

Definition Max_hvp_backward (n : nat) : M unit :=
  nd <- node_at n ;;
  if negb (_binary_ok nd) then ret tt else
  a <- deref (nth 0 (inputs nd) None) ;;
  b <- deref (nth 1 (inputs nd) None) ;;
  va <- rd a SValue ;;
  vb <- rd b SValue ;;
  if Rgeb va vb then
    w <- rd n SGradient ;;
    ensure_epoch_zero a SGradient ;;
    add_assign a SGradient w ;;
    wd <- rd n SGradDot ;;
    ensure_epoch_zero a SGradDot ;;
    add_assign a SGradDot wd
  else
    w <- rd n SGradient ;;
    ensure_epoch_zero b SGradient ;;
    add_assign b SGradient w ;;
    wd <- rd n SGradDot ;;
    ensure_epoch_zero b SGradDot ;;
    add_assign b SGradDot wd.

(** ** The trait table: [OpTraits<Op>] and [op_name] *)

Definition unary_rule_of (o : Operator) : option UnaryRule :=
  match o with
  | Sin => Some SinRule
  | Cos => Some CosRule
  | Exp => Some ExpRule
  | Log => Some LogRule
  | Tan => Some TanRule
  | Tanh => Some TanhRule
  | Silu => Some SiLURule
  | Gelu => Some GELURule
  | Relu => Some ReluRule
  | _ => None
  end.

(** [OpTraits<Op>::forward]; the primary template, a no-op, serves every tag
    without a specialisation. *)
Definition OpTraits_forward (o : Operator) (n : nat) : M unit :=
  match o with
  | cte => cte_forward n
  | Var => Var_forward n
  | Add => Add_forward n
  | Subtract => BinaryOp_forward SubRule n
  | Multiply => Multiply_forward n
  | Divide => BinaryOp_forward DivRule n
  | Sin => UnaryOp_forward SinRule n
  | Cos => UnaryOp_forward CosRule n
  | Tan => UnaryOp_forward TanRule n
  | Exp => UnaryOp_forward ExpRule n
  | Log => UnaryOp_forward LogRule n
  | Max => Max_forward n
  | Tanh => UnaryOp_forward TanhRule n
  | Silu => UnaryOp_forward SiLURule n
  | Gelu => UnaryOp_forward GELURule n
  | Relu => UnaryOp_forward ReluRule n
  | Softmax => Softmax_forward n
  | OpOther _ => ret tt
  end.

Definition OpTraits_forward_dot (o : Operator) (n : nat) : M unit :=
  match o with
  | cte => cte_forward_dot n
  | Var => Var_forward_dot n
  | Add => Add_forward_dot n
  | Subtract => BinaryOp_forward_dot SubRule n
  | Multiply => Multiply_forward_dot n
  | Divide => BinaryOp_forward_dot DivRule n
  | Sin => UnaryOp_forward_dot SinRule n
  | Cos => UnaryOp_forward_dot CosRule n
  | Tan => UnaryOp_forward_dot TanRule n
  | Exp => UnaryOp_forward_dot ExpRule n
  | Log => UnaryOp_forward_dot LogRule n
  | Max => Max_forward_dot n
  | Tanh => UnaryOp_forward_dot TanhRule n
  | Silu => UnaryOp_forward_dot SiLURule n
  | Gelu => UnaryOp_forward_dot GELURule n
  | Relu => UnaryOp_forward_dot ReluRule n
  | Softmax => Softmax_forward_dot n
  | OpOther _ => ret tt
  end.

Definition OpTraits_backward (o : Operator) (n : nat) : M unit :=
  match o with
  | cte => cte_backward n
  | Var => Var_backward n
  | Add => Add_backward n
  | Subtract => BinaryOp_backward SubRule n
  | Multiply => Multiply_backward n
  | Divide => BinaryOp_backward DivRule n
  | Sin => UnaryOp_backward SinRule n
  | Cos => UnaryOp_backward CosRule n
  | Tan => UnaryOp_backward TanRule n
  | Exp => UnaryOp_backward ExpRule n
  | Log => UnaryOp_backward LogRule n
  | Max => Max_backward n
  | Tanh => UnaryOp_backward TanhRule n
  | Silu => UnaryOp_backward SiLURule n
  | Gelu => UnaryOp_backward GELURule n
  | Relu => UnaryOp_backward ReluRule n
  | Softmax => Softmax_backward n
  | OpOther _ => ret tt
  end.

Definition OpTraits_hvp_backward (o : Operator) (n : nat) : M unit :=
  match o with
  | cte => cte_hvp_backward n
  | Var => Var_hvp_backward n
  | Add => Add_hvp_backward n
  | Subtract => BinaryOp_hvp_backward SubRule n
  | Multiply => Multiply_hvp_backward n
  | Divide => BinaryOp_hvp_backward DivRule n
  | Sin => UnaryOp_hvp_backward SinRule n
  | Cos => UnaryOp_hvp_backward CosRule n
  | Tan => UnaryOp_hvp_backward TanRule n
  | Exp => UnaryOp_hvp_backward ExpRule n
  | Log => UnaryOp_hvp_backward LogRule n
  | Max => Max_hvp_backward n
  | Tanh => UnaryOp_hvp_backward TanhRule n
  | Silu => UnaryOp_hvp_backward SiLURule n
  | Gelu => UnaryOp_hvp_backward GELURule n
  | Relu => UnaryOp_hvp_backward ReluRule n
  | Softmax => Softmax_hvp_backward n
  | OpOther _ => ret tt
  end.

(** [OpTraits<Op>::name] *)
Definition OpTraits_name (o : Operator) : string :=
  match o with
  | cte => "cte"
  | Var => "var"
  | Add => "add"
  | Subtract => "subtract"
  | Multiply => "multiply"
  | Divide => "divide"
  | Sin => "sin"
  | Cos => "cos"
  | Tan => "tan"
  | Exp => "exp"
  | Log => "log"
  | Max => "max"
  | Tanh => "tanh"
  | Silu => "silu"
  | Gelu => "gelu"
  | Relu => "relu"
  | Softmax => "softmax"
  | OpOther _ => "unknown"
  end%string.

(** [inline const char *op_name(Operator op)] *)
Definition op_name (o : Operator) : string :=
  match o with
  | Add | Subtract | Multiply | Divide | Sin | Cos | Tan | Exp | Log | Max
  | Var | cte | Tanh | Silu | Gelu | Softmax | Relu => OpTraits_name o
  | OpOther _ => "unknown"%string
  end.

(** The four passes. *)
Inductive Pass : Type := PForward | PForwardDot | PBackward | PHvpBackward.

Definition OpTraits_pass (P : Pass) : Operator -> nat -> M unit :=
  match P with
  | PForward => OpTraits_forward
  | PForwardDot => OpTraits_forward_dot
  | PBackward => OpTraits_backward
  | PHvpBackward => OpTraits_hvp_backward
  end.

(** * Reasoning about runs *)

(** ** Comparisons on reals *)

Lemma Rneqb_true : forall a b : R, a <> b -> Rneqb a b = true.
Proof. intros a b H. unfold Rneqb. destruct (Req_dec_T a b); [contradiction | reflexivity]. Qed.

Lemma Rneqb_false : forall a b : R, a = b -> Rneqb a b = false.
Proof. intros a b H. unfold Rneqb. destruct (Req_dec_T a b); [reflexivity | contradiction]. Qed.

Lemma Rneqb_refl : forall a : R, Rneqb a a = false.
Proof. intro a. apply Rneqb_false. reflexivity. Qed.

Lemma Rgeb_true : forall a b : R, a >= b -> Rgeb a b = true.
Proof. intros a b H. unfold Rgeb. destruct (Rge_dec a b); [reflexivity | contradiction]. Qed.

Lemma Rgeb_false : forall a b : R, a < b -> Rgeb a b = false.
Proof. intros a b H. unfold Rgeb. destruct (Rge_dec a b); [lra | reflexivity]. Qed.

Lemma Rgtb_true : forall a b : R, a > b -> Rgtb a b = true.
Proof. intros a b H. unfold Rgtb. destruct (Rgt_dec a b); [reflexivity | contradiction]. Qed.

Lemma Rgtb_false : forall a b : R, a <= b -> Rgtb a b = false.
Proof. intros a b H. unfold Rgtb. destruct (Rgt_dec a b); [lra | reflexivity]. Qed.

Lemma Rleb_false : forall a b : R, a > b -> Rleb a b = false.
Proof. intros a b H. unfold Rleb. destruct (Rle_dec a b); [lra | reflexivity]. Qed.

(** ** Vectors and the node arena *)

Lemma list_set_length : forall (A : Type) (l : list A) (i : nat) (x : A),
  length (list_set i x l) = length l.
Proof.
  induction l as [|h t IH]; intros [|i] x; simpl; auto.
Qed.

Lemma nth_error_list_set_eq : forall (A : Type) (l : list A) (i : nat) (x : A),
  (i < length l)%nat -> nth_error (list_set i x l) i = Some x.
Proof.
  induction l as [|h t IH]; intros [|i] x H; simpl in *; try lia; auto.
  apply IH. lia.
Qed.

Lemma nth_error_list_set_ne : forall (A : Type) (l : list A) (i j : nat) (x : A),
  i <> j -> nth_error (list_set i x l) j = nth_error l j.
Proof.
  induction l as [|h t IH]; intros [|i] [|j] x H; simpl in *; auto; try congruence.
Qed.

Lemma nth_list_set_eq : forall (l : list R) (i : nat) (x d : R),
  (i < length l)%nat -> nth i (list_set i x l) d = x.
Proof.
  induction l as [|h t IH]; intros [|i] x d H; simpl in *; try lia; auto.
  apply IH. lia.
Qed.

Lemma nth_list_set_ne : forall (l : list R) (i j : nat) (x d : R),
  i <> j -> nth j (list_set i x l) d = nth j l d.
Proof.
  induction l as [|h t IH]; intros [|i] [|j] x d H; simpl in *; auto; try congruence.
Qed.

(** [upd p f ns]: the arena after node [p] was rewritten by [f]. *)
Definition upd (p : nat) (f : ADNode -> ADNode) (ns : list ADNode) : list ADNode :=
  match nth_error ns p with
  | Some nd => list_set p (f nd) ns
  | None => ns
  end.

Lemma upd_length : forall p f ns, length (upd p f ns) = length ns.
Proof.
  intros p f ns. unfold upd. destruct (nth_error ns p); auto using list_set_length.
Qed.

Lemma nth_error_upd : forall p f ns q,
  nth_error (upd p f ns) q =
  if (p =? q)%nat then option_map f (nth_error ns q) else nth_error ns q.
Proof.
  intros p f ns q. unfold upd.
  destruct (Nat.eqb_spec p q) as [->|Hne].
  - destruct (nth_error ns q) as [nd|] eqn:E; simpl; auto.
    apply nth_error_list_set_eq. apply nth_error_Some. congruence.
  - destruct (nth_error ns p); auto using nth_error_list_set_ne.
Qed.

Lemma nth_error_upd_some : forall p f ns q nd,
  nth_error ns q = Some nd ->
  nth_error (upd p f ns) q = Some (if (p =? q)%nat then f nd else nd).
Proof.
  intros p f ns q nd H. rewrite nth_error_upd, H.
  destruct (p =? q)%nat; reflexivity.
Qed.

Lemma nth_error_upd_same : forall p f ns nd,
  nth_error ns p = Some nd -> nth_error (upd p f ns) p = Some (f nd).
Proof.
  intros p f ns nd H. rewrite (nth_error_upd_some p f ns p nd H), Nat.eqb_refl. reflexivity.
Qed.

Lemma nth_error_upd_other : forall p f ns q,
  p <> q -> nth_error (upd p f ns) q = nth_error ns q.
Proof.
  intros p f ns q H. rewrite nth_error_upd.
  destruct (Nat.eqb_spec p q); [contradiction | reflexivity].
Qed.

(** ** Effects of the protocol primitives on a node *)

Definition touched (s : Slot) (g : ADGraph) (nd : ADNode) : ADNode :=
  tag_set s (cur_epoch s g) nd.

Definition produced (s : Slot) (g : ADGraph) (v : R) (nd : ADNode) : ADNode :=
  tag_set s (cur_epoch s g) (slot_set s v nd).

Definition zeroed (s : Slot) (g : ADGraph) (nd : ADNode) : ADNode :=
  if N.eqb (tag_get s nd) (cur_epoch s g) then nd
  else tag_set s (cur_epoch s g) (slot_set s 0 nd).

Definition added (s : Slot) (v : R) (nd : ADNode) : ADNode :=
  slot_set s (slot_get s nd + v) nd.

(** [accumulated s g v]: [ensure_epoch_zero(slot, tag, cur) += v]. *)
Definition accumulated (s : Slot) (g : ADGraph) (v : R) (nd : ADNode) : ADNode :=
  added s v (zeroed s g nd).

(** A slot is live when its tag equals the graph's counter for its pass. *)
Definition live_node (s : Slot) (g : ADGraph) (nd : ADNode) : Prop :=
  tag_get s nd = cur_epoch s g.

(** The value an accumulation starts from: the slot if live, else zero. *)
Definition effective (s : Slot) (g : ADGraph) (nd : ADNode) : R :=
  if N.eqb (tag_get s nd) (cur_epoch s g) then slot_get s nd else 0.

Lemma slot_get_set : forall s t v nd,
  slot_get s (slot_set t v nd) = if Slot_eqb s t then v else slot_get s nd.
Proof. intros [] [] v nd; reflexivity. Qed.

Lemma slot_get_tag_set : forall s t e nd, slot_get s (tag_set t e nd) = slot_get s nd.
Proof. intros [] [] e nd; reflexivity. Qed.

Lemma tag_get_slot_set : forall s t v nd, tag_get s (slot_set t v nd) = tag_get s nd.
Proof. intros [] [] v nd; reflexivity. Qed.

Lemma tag_get_set : forall s t e nd,
  tag_get s (tag_set t e nd) = if Slot_eqb s t then e else tag_get s nd.
Proof. intros [] [] e nd; reflexivity. Qed.

Lemma op_slot_set : forall s v nd, op (slot_set s v nd) = op nd.
Proof. intros [] v nd; reflexivity. Qed.

Lemma op_tag_set : forall s e nd, op (tag_set s e nd) = op nd.
Proof. intros [] e nd; reflexivity. Qed.

Lemma inputs_slot_set : forall s v nd, inputs (slot_set s v nd) = inputs nd.
Proof. intros [] v nd; reflexivity. Qed.

Lemma inputs_tag_set : forall s e nd, inputs (tag_set s e nd) = inputs nd.
Proof. intros [] e nd; reflexivity. Qed.

Lemma Slot_eqb_refl : forall s, Slot_eqb s s = true.
Proof. intros []; reflexivity. Qed.

Lemma Slot_eqb_eq : forall s t, Slot_eqb s t = true <-> s = t.
Proof. intros [] []; simpl; split; intro H; congruence. Qed.

(** ** Evaluation judgement: what a computation does to the arena, whatever
    the trace collected so far *)

Definition eval {A : Type} (m : M A) (ns : list ADNode) (g : ADGraph)
                (a : A) (ns' : list ADNode) : Prop :=
  forall t, exists t', m (mkWorld ns g t) = Some (a, mkWorld ns' g t').

Lemma eval_ret : forall (A : Type) (a : A) ns g, eval (ret a) ns g a ns.
Proof. intros A a ns g t. exists t. reflexivity. Qed.

Lemma eval_bind : forall (A B : Type) (m : M A) (k : A -> M B) ns g a ns1 b ns2,
  eval m ns g a ns1 -> eval (k a) ns1 g b ns2 -> eval (bind m k) ns g b ns2.
Proof.
  intros A B m k ns g a ns1 b ns2 Hm Hk t.
  destruct (Hm t) as [t1 E1]. destruct (Hk t1) as [t2 E2].
  exists t2. unfold bind. rewrite E1. exact E2.
Qed.

Lemma eval_node_at : forall p ns g nd,
  nth_error ns p = Some nd -> eval (node_at p) ns g nd ns.
Proof.
  intros p ns g nd H t. exists t. unfold node_at. simpl. rewrite H. reflexivity.
Qed.

Lemma eval_deref : forall p ns g, eval (deref (Some p)) ns g p ns.
Proof. intros p ns g. apply eval_ret. Qed.

Lemma eval_emit : forall a ns g, eval (emit a) ns g tt ns.
Proof. intros a ns g t. eexists. reflexivity. Qed.

Lemma eval_modify : forall p f ns g nd,
  nth_error ns p = Some nd -> eval (modify_node p f) ns g tt (upd p f ns).
Proof.
  intros p f ns g nd H t. exists t. unfold modify_node, upd. simpl. rewrite H. reflexivity.
Qed.

Lemma eval_current : forall s ns g, eval (current s) ns g (cur_epoch s g) ns.
Proof. intros s ns g t. exists t. reflexivity. Qed.

Lemma eval_rd : forall p s ns g nd,
  nth_error ns p = Some nd -> eval (rd p s) ns g (slot_get s nd) ns.
Proof.
  intros p s ns g nd H. unfold rd.
  eapply eval_bind; [apply eval_node_at; eassumption|].
  eapply eval_bind; [apply eval_emit | apply eval_ret].
Qed.

Lemma eval_rd_tag : forall p s ns g nd,
  nth_error ns p = Some nd -> eval (rd_tag p s) ns g (tag_get s nd) ns.
Proof.
  intros p s ns g nd H. unfold rd_tag.
  eapply eval_bind; [apply eval_node_at; eassumption|].
  eapply eval_bind; [apply eval_emit | apply eval_ret].
Qed.

Lemma eval_wr : forall p s v ns g nd,
  nth_error ns p = Some nd -> eval (wr p s v) ns g tt (upd p (slot_set s v) ns).
Proof.
  intros p s v ns g nd H. unfold wr.
  eapply eval_bind; [eapply eval_modify; eassumption | apply eval_emit].
Qed.

Lemma eval_wr_tag : forall p s e ns g nd,
  nth_error ns p = Some nd -> eval (wr_tag p s e) ns g tt (upd p (tag_set s e) ns).
Proof.
  intros p s e ns g nd H. unfold wr_tag.
  eapply eval_bind; [eapply eval_modify; eassumption | apply eval_emit].
Qed.

Lemma upd_upd : forall p f h ns, upd p h (upd p f ns) = upd p (fun nd => h (f nd)) ns.
Proof.
  intros p f h ns. apply nth_error_ext. intro q.
  rewrite !nth_error_upd. destruct (p =? q)%nat; auto.
  destruct (nth_error ns q); reflexivity.
Qed.

Lemma upd_id : forall p f ns,
  (forall nd, nth_error ns p = Some nd -> f nd = nd) -> upd p f ns = ns.
Proof.
  intros p f ns H. apply nth_error_ext. intro q. rewrite nth_error_upd.
  destruct (Nat.eqb_spec p q) as [->|]; auto.
  destruct (nth_error ns q) eqn:E; simpl; auto. rewrite H; auto.
Qed.

Lemma upd_ext : forall p f h ns,
  (forall nd, nth_error ns p = Some nd -> f nd = h nd) -> upd p f ns = upd p h ns.
Proof.
  intros p f h ns H. apply nth_error_ext. intro q. rewrite !nth_error_upd.
  destruct (Nat.eqb_spec p q) as [->|]; auto.
  destruct (nth_error ns q) eqn:E; simpl; auto. rewrite H; auto.
Qed.

Lemma eval_touch_epoch : forall p s ns g nd,
  nth_error ns p = Some nd -> eval (touch_epoch p s) ns g tt (upd p (touched s g) ns).
Proof.
  intros p s ns g nd H. unfold touch_epoch.
  eapply eval_bind; [apply eval_current|].
  eapply eval_wr_tag; eassumption.
Qed.

Lemma eval_set_epoch_value : forall p s v ns g nd,
  nth_error ns p = Some nd ->
  eval (set_epoch_value p s v) ns g tt (upd p (produced s g v) ns).
Proof.
  intros p s v ns g nd H. unfold set_epoch_value.
  eapply eval_bind; [apply eval_current|].
  eapply eval_bind; [eapply eval_wr; eassumption|].
  unfold produced. rewrite <- (upd_upd p (slot_set s v) (tag_set s (cur_epoch s g))).
  eapply eval_wr_tag. apply nth_error_upd_same. eassumption.
Qed.

Lemma eval_ensure_epoch_zero : forall p s ns g nd,
  nth_error ns p = Some nd ->
  eval (ensure_epoch_zero p s) ns g tt (upd p (zeroed s g) ns).
Proof.
  intros p s ns g nd H. unfold ensure_epoch_zero.
  eapply eval_bind; [apply eval_current|].
  eapply eval_bind; [eapply eval_rd_tag; eassumption|].
  destruct (N.eqb (tag_get s nd) (cur_epoch s g)) eqn:E.
  - rewrite (upd_id p (zeroed s g) ns).
    + apply eval_ret.
    + intros nd' H'. assert (nd' = nd) by congruence. subst nd'.
      unfold zeroed. rewrite E. reflexivity.
  - rewrite (upd_ext p (zeroed s g)
               (fun x => tag_set s (cur_epoch s g) (slot_set s 0 x)) ns).
    + rewrite <- (upd_upd p (slot_set s 0) (tag_set s (cur_epoch s g))).
      eapply eval_bind; [eapply eval_wr; eassumption|].
      eapply eval_wr_tag. apply nth_error_upd_same. eassumption.
    + intros nd' H'. assert (nd' = nd) by congruence. subst nd'.
      unfold zeroed. rewrite E. reflexivity.
Qed.

Lemma eval_add_assign : forall p s v ns g nd,
  nth_error ns p = Some nd ->
  eval (add_assign p s v) ns g tt (upd p (added s v) ns).
Proof.
  intros p s v ns g nd H. unfold add_assign.
  eapply eval_bind; [eapply eval_rd; eassumption|].
  rewrite (upd_ext p (added s v) (slot_set s (slot_get s nd + v)) ns).
  - eapply eval_wr; eassumption.
  - intros nd' H'. assert (nd' = nd) by congruence. subst nd'. reflexivity.
Qed.

(** From the judgement back to a run on a world. *)
Lemma eval_run : forall (A : Type) (m : M A) (w : World) (a : A) ns',
  eval m (nodes w) (graph w) a ns' ->
  exists w', m w = Some (a, w') /\ nodes w' = ns' /\ graph w' = graph w.
Proof.
  intros A m [ns g t] a ns' H. simpl in H. destruct (H t) as [t' E].
  eexists; split; [exact E | split; reflexivity].
Qed.

(** * Unknown operator tags *)

(** C9: for every operator tag outside the seventeen specialised ones, each of
    the four pass functions returns the world it was given (no slot, epoch
    tag or graph counter changes and the access trace gains nothing), and
    [op_name] is the string "unknown". *)
Theorem unknown_operator_noop : forall (t : N) (P : Pass) (n : nat) (w : World),
  OpTraits_pass P (OpOther t) n w = Some (tt, w) /\
  op_name (OpOther t) = "unknown"%string /\
  OpTraits_name (OpOther t) = "unknown"%string.
Proof.
  intros t P n w. split; [destruct P; reflexivity | split; reflexivity].
Qed.

(** * Arity guards *)

(** The arity predicate each operator's passes start with; the nullary
    operators and the primary template have none. *)
Definition arity_ok (o : Operator) (nd : ADNode) : bool :=
  match o with
  | Sin | Cos | Tan | Exp | Log | Tanh | Silu | Gelu | Relu => _unary_ok nd
  | Subtract | Divide | Max => _binary_ok nd
  | Add | Multiply | Softmax => _nary_ok nd
  | cte | Var | OpOther _ => true
  end.

Definition is_nary (o : Operator) : bool :=
  match o with
  | Add | Multiply | Softmax => true
  | _ => false
  end.

Lemma run_node_at_bind : forall (A : Type) (k : ADNode -> M A) n w nd,
  nth_error (nodes w) n = Some nd -> (x <- node_at n ;; k x) w = k nd w.
Proof. intros A k n w nd H. unfold bind, node_at. rewrite H. reflexivity. Qed.

(** A pass whose arity predicate fails returns the world unchanged, trace
    included: nothing is read and nothing is written. *)
Lemma arity_guard_noop : forall (P : Pass) (o : Operator) (n : nat) (w : World) (nd : ADNode),
  nth_error (nodes w) n = Some nd ->
  arity_ok o nd = false ->
  OpTraits_pass P o n w = Some (tt, w).
Proof.
  intros P o n w nd Hn Hok.
  destruct P, o; simpl in Hok; try discriminate; simpl;
    match goal with
    | |- ?f _ _ _ = _ => unfold f
    | |- ?f _ _ = _ => unfold f
    end;
    rewrite (run_node_at_bind _ _ _ _ _ Hn), Hok; reflexivity.
Qed.

Lemma bind_fault : forall (A B : Type) (m : M A) (k : A -> M B) w,
  (forall a w', k a w' = None) -> bind m k w = None.
Proof.
  intros A B m k w H. unfold bind. destruct (m w) as [[a w']|]; auto.
Qed.

Lemma for_each_fault : forall (A : Type) (body : A -> M unit) (l : list A) (x : A),
  In x l -> (forall w, body x w = None) -> forall w, for_each l body w = None.
Proof.
  intros A body l x Hin Hx. induction l as [|y t IH]; intros w; [contradiction|].
  simpl. destruct Hin as [->|Hin].
  - unfold bind. rewrite Hx. reflexivity.
  - apply bind_fault. intros _ w'. apply IH. exact Hin.
Qed.

Lemma map_M_fault : forall (A B : Type) (f : A -> M B) (l : list A) (x : A),
  In x l -> (forall w, f x w = None) -> forall w, map_M f l w = None.
Proof.
  intros A B f l x Hin Hx. induction l as [|y t IH]; intros w; [contradiction|].
  simpl. destruct Hin as [->|Hin].
  - unfold bind. rewrite Hx. reflexivity.
  - apply bind_fault. intros b w'. unfold bind. rewrite IH; auto.
Qed.

Lemma fold_M_fault : forall (A B : Type) (f : B -> A -> M B) (l : list A) (x : A),
  In x l -> (forall b w, f b x w = None) -> forall b w, fold_M f l b w = None.
Proof.
  intros A B f l x Hin Hx. induction l as [|y t IH]; intros b w; [contradiction|].
  simpl. destruct Hin as [->|Hin].
  - unfold bind. rewrite Hx. reflexivity.
  - apply bind_fault. intros b' w'. apply IH. exact Hin.
Qed.

Lemma read_values_fault : forall ins w, In None ins -> read_values ins w = None.
Proof.
  intros ins w H. unfold read_values. eapply map_M_fault; eauto.
Qed.

Lemma read_values_dots_fault : forall ins w, In None ins -> read_values_dots ins w = None.
Proof.
  intros ins w H. unfold read_values_dots, bind.
  rewrite (map_M_fault _ _ _ ins None H); auto.
Qed.

Lemma index_loop_fault : forall (ins : list (option nat)) (body : nat -> M unit),
  In None ins ->
  (forall k w, nth k ins None = None -> body k w = None) ->
  forall w, for_each (seq 0 (length ins)) body w = None.
Proof.
  intros ins body Hin Hb w.
  destruct (In_nth _ _ None Hin) as [k [Hk Ek]].
  apply (for_each_fault _ body _ k).
  - apply in_seq. lia.
  - intros w'. apply Hb. exact Ek.
Qed.

(** C5, where the source departs from it: a null input reference passes the
    n-ary guard, which only tests that the input list is not empty.  When an
    n-ary node (Add, Multiply, Softmax) holds a null input reference, each of
    its four passes goes on and dereferences it, instead of returning. *)
Theorem nary_null_input_faults :
  forall (P : Pass) (o : Operator) (n : nat) (w : World) (nd : ADNode),
  is_nary o = true ->
  nth_error (nodes w) n = Some nd ->
  In None (inputs nd) ->
  arity_ok o nd = true /\ OpTraits_pass P o n w = None.
Proof.
  intros P o n w nd Ho Hn Hnull.
  assert (Hok : _nary_ok nd = true).
  { unfold _nary_ok. destruct (inputs nd); [contradiction | reflexivity]. }
  split; [destruct o; try discriminate; exact Hok|].
  destruct P, o; try discriminate; simpl;
    match goal with
    | |- ?f _ _ = _ => unfold f
    end;
    rewrite (run_node_at_bind _ _ _ _ _ Hn), Hok; cbn [negb].
  - unfold bind. rewrite (fold_M_fault _ _ _ _ None Hnull); auto.
  - unfold bind. rewrite (fold_M_fault _ _ _ _ None Hnull); auto.
  - unfold bind. rewrite read_values_fault; auto.
  - unfold bind. rewrite (fold_M_fault _ _ _ _ None Hnull); auto.
  - unfold bind. rewrite read_values_dots_fault; auto.
  - unfold bind. rewrite read_values_dots_fault; auto.
  - apply (for_each_fault _ _ _ None Hnull). intros w'.
    apply bind_fault. intros a w''. reflexivity.
  - unfold bind. rewrite read_values_fault; auto.
  - unfold bind. rewrite read_values_fault; auto.
  - apply (for_each_fault _ _ _ None Hnull). intros w'.
    apply bind_fault. intros a w''. reflexivity.
  - destruct (length (inputs nd) =? 2)%nat eqn:E2.
    + apply Nat.eqb_eq in E2.
      destruct (inputs nd) as [|x [|y [|z r]]]; simpl in E2; try discriminate.
      simpl nth. destruct x as [x|]; [|reflexivity].
      destruct y as [y|]; [|reflexivity].
      destruct Hnull as [H|[H|[]]]; discriminate.
    + unfold bind. rewrite read_values_dots_fault; auto.
  - unfold bind. rewrite read_values_dots_fault; auto.
Qed.

(** An Add node whose only input reference is null. *)
Definition null_input_node : ADNode := mkNode Add [None] 0 0 0 0 0 0 0 0.

Definition null_input_world : World :=
  mkWorld [null_input_node] (mkGraph 1 1 1 1) [].

Lemma nary_null_input_faults_witness :
  is_nary Add = true /\
  nth_error (nodes null_input_world) 0 = Some null_input_node /\
  In None (inputs null_input_node) /\
  arity_ok Add null_input_node = true /\
  OpTraits_pass PForward Add 0 null_input_world = None.
Proof.
  split; [reflexivity|]. split; [reflexivity|]. split; [left; reflexivity|].
  apply (nary_null_input_faults PForward Add 0 null_input_world null_input_node).
  - reflexivity.
  - reflexivity.
  - left; reflexivity.
Defined.

(** * Symbolic evaluation of pass bodies *)

Ltac lookup :=
  first [ eassumption | apply nth_error_upd_some; lookup ].

Ltac eval_step :=
  lazymatch goal with
  | |- eval (bind _ _) _ _ _ _ => eapply eval_bind; [eval_step | cbv beta]
  | |- eval (ret _) _ _ _ _ => apply eval_ret
  | |- eval (node_at _) _ _ _ _ => apply eval_node_at; lookup
  | |- eval (deref (Some _)) _ _ _ _ => apply eval_deref
  | |- eval (rd _ _) _ _ _ _ => eapply eval_rd; lookup
  | |- eval (set_epoch_value _ _ _) _ _ _ _ => eapply eval_set_epoch_value; lookup
  | |- eval (touch_epoch _ _) _ _ _ _ => eapply eval_touch_epoch; lookup
  | |- eval (ensure_epoch_zero _ _) _ _ _ _ => eapply eval_ensure_epoch_zero; lookup
  | |- eval (add_assign _ _ _) _ _ _ _ => eapply eval_add_assign; lookup
  end.

Ltac eval_all := repeat eval_step.

(** The value a slot of node [p] holds in world [w]. *)
Definition slot_of (w : World) (p : nat) (s : Slot) : option R :=
  option_map (slot_get s) (nth_error (nodes w) p).

Definition tag_of (w : World) (p : nat) (s : Slot) : option N :=
  option_map (tag_get s) (nth_error (nodes w) p).

Lemma eval_run_slot : forall (m : M unit) (w : World) ns' p s v,
  eval m (nodes w) (graph w) tt ns' ->
  option_map (slot_get s) (nth_error ns' p) = Some v ->
  exists w', m w = Some (tt, w') /\ slot_of w' p s = Some v.
Proof.
  intros m w ns' p s v He Hv.
  destruct (eval_run _ m w tt ns' He) as [w' [E [En _]]].
  exists w'. split; [exact E|]. unfold slot_of. rewrite En. exact Hv.
Qed.

(** * Divide *)

Lemma binary_ok_shape : forall nd pa pb,
  inputs nd = [Some pa; Some pb] -> _binary_ok nd = true.
Proof. intros nd pa pb H. unfold _binary_ok. rewrite H. reflexivity. Qed.

(** C6: the Divide rule.  [f] is [a / b] for a nonzero [b] and 0 otherwise;
    the partials are [1/b], [-a/b^2], [0], [-1/b^2], [2a/b^3], each 0 when
    [b = 0]; on a binary node, forward stores [f] in the node's value and the
    custom forward_dot stores [(adot*b - a*bdot)/b^2], or 0 when [b = 0], in
    the node's dot. *)
Theorem divide_rule_guarded :
  forall (w : World) (n pa pb : nat) (nd na nb : ADNode),
  nth_error (nodes w) n = Some nd ->
  inputs nd = [Some pa; Some pb] ->
  nth_error (nodes w) pa = Some na ->
  nth_error (nodes w) pb = Some nb ->
  (forall a b : R,
     bd2aa DivRule a b = 0 /\
     (b <> 0 ->
        bf DivRule a b = a / b /\ bdfa DivRule a b = 1 / b /\
        bdfb DivRule a b = - a / (b ^ 2) /\ bd2ab DivRule a b = - 1 / (b ^ 2) /\
        bd2bb DivRule a b = 2 * a / (b ^ 3)) /\
     (b = 0 ->
        bf DivRule a b = 0 /\ bdfa DivRule a b = 0 /\ bdfb DivRule a b = 0 /\
        bd2ab DivRule a b = 0 /\ bd2bb DivRule a b = 0)) /\
  (exists w' v, OpTraits_forward Divide n w = Some (tt, w') /\
     slot_of w' n SValue = Some v /\
     (value nb <> 0 -> v = value na / value nb) /\
     (value nb = 0 -> v = 0)) /\
  (exists w' d, OpTraits_forward_dot Divide n w = Some (tt, w') /\
     slot_of w' n SDot = Some d /\
     (value nb <> 0 ->
        d = (dot na * value nb - value na * dot nb) / (value nb ^ 2)) /\
     (value nb = 0 -> d = 0)).
Proof.
  intros w n pa pb nd na nb Hn Hin Ha Hb.
  pose proof (binary_ok_shape nd pa pb Hin) as Hok.
  split; [|split].
  - intros a b. split; [reflexivity|]. split; intro Hb0.
    + simpl. unfold _safe_div. rewrite (Rneqb_true b 0 Hb0).
      repeat split; field; exact Hb0.
    + simpl. unfold _safe_div. rewrite (Rneqb_false b 0 Hb0). repeat split.
  - assert (He : eval (OpTraits_forward Divide n) (nodes w) (graph w) tt
                   (upd n (produced SValue (graph w) (_safe_div (value na) (value nb)))
                        (nodes w))).
    { simpl. unfold BinaryOp_forward.
      eapply eval_bind; [apply eval_node_at; eassumption|]. cbv beta.
      rewrite Hok, Hin. cbn [negb nth]. eval_all. }
    destruct (eval_run_slot _ w _ n SValue (_safe_div (value na) (value nb)) He)
      as [w' [E Hv]].
    { rewrite (nth_error_upd_same _ _ _ _ Hn). reflexivity. }
    exists w', (_safe_div (value na) (value nb)). split; [exact E|]. split; [exact Hv|].
    unfold _safe_div. split; intro H0.
    + rewrite (Rneqb_true _ _ H0). reflexivity.
    + rewrite (Rneqb_false _ _ H0). reflexivity.
  - destruct (Req_dec_T (value nb) 0) as [H0|H0].
    + assert (He : eval (OpTraits_forward_dot Divide n) (nodes w) (graph w) tt
                     (upd n (touched SValue (graph w))
                        (upd n (produced SDot (graph w) 0) (nodes w)))).
      { simpl. unfold BinaryOp_forward_dot.
        eapply eval_bind; [apply eval_node_at; eassumption|]. cbv beta.
        rewrite Hok, Hin. cbn [negb nth]. eval_step. eval_step.
        simpl. unfold DivRule_forward_dot.
        eapply eval_bind; [apply eval_node_at; eassumption|]. cbv beta.
        rewrite Hin. cbn [nth]. eval_step. eval_step. eval_step.
        simpl slot_get. rewrite (Rneqb_false _ _ H0). eval_all. }
      destruct (eval_run_slot _ w _ n SDot 0 He) as [w' [E Hv]].
      { rewrite (nth_error_upd_same n _ _ (produced SDot (graph w) 0 nd)).
        - reflexivity.
        - apply nth_error_upd_same. exact Hn. }
      exists w', 0. split; [exact E|]. split; [exact Hv|].
      split; intro H; [contradiction | reflexivity].
    + set (d := (dot na * value nb - value na * dot nb) / (value nb * value nb)).
      assert (He : eval (OpTraits_forward_dot Divide n) (nodes w) (graph w) tt
                     (upd n (touched SValue (graph w))
                        (upd n (produced SDot (graph w) d) (nodes w)))).
      { simpl. unfold BinaryOp_forward_dot.
        eapply eval_bind; [apply eval_node_at; eassumption|]. cbv beta.
        rewrite Hok, Hin. cbn [negb nth]. eval_step. eval_step.
        simpl. unfold DivRule_forward_dot.
        eapply eval_bind; [apply eval_node_at; eassumption|]. cbv beta.
        rewrite Hin. cbn [nth]. eval_step. eval_step. eval_step.
        simpl slot_get. rewrite (Rneqb_true _ _ H0). eval_all. }
      destruct (eval_run_slot _ w _ n SDot d He) as [w' [E Hv]].
      { rewrite (nth_error_upd_same n _ _ (produced SDot (graph w) d nd)).
        - reflexivity.
        - apply nth_error_upd_same. exact Hn. }
      exists w', d. split; [exact E|]. split; [exact Hv|].
      split; intro H; [|contradiction]. unfold d. field. exact H0.
Qed.

Definition divide_world : World :=
  mkWorld [ mkNode Var [] 6 1 0 0 0 0 0 0;
            mkNode Var [] 3 2 0 0 0 0 0 0;
            mkNode Divide [Some 0%nat; Some 1%nat] 0 0 0 0 0 0 0 0 ]
          (mkGraph 1 1 1 1) [].

Lemma divide_rule_guarded_witness :
  exists w' v, OpTraits_forward Divide 2 divide_world = Some (tt, w') /\
               slot_of w' 2 SValue = Some v /\ v = 6 / 3.
Proof.
  destruct (divide_rule_guarded divide_world 2 0 1 _ _ _ eq_refl eq_refl eq_refl eq_refl)
    as [_ [[w' [v [E [Hv [H1 _]]]]] _]].
  exists w', v. split; [exact E|]. split; [exact Hv|].
  apply H1. simpl. lra.
Defined.

(** * Accumulation facts *)

Lemma accumulated_slot : forall s g v nd,
  slot_get s (accumulated s g v nd) = effective s g nd + v.
Proof.
  intros s g v nd. unfold accumulated, added, zeroed, effective.
  rewrite slot_get_set, Slot_eqb_refl.
  destruct (N.eqb (tag_get s nd) (cur_epoch s g)); [reflexivity|].
  rewrite slot_get_tag_set, slot_get_set, Slot_eqb_refl. reflexivity.
Qed.

Lemma accumulated_tag : forall s g v nd,
  tag_get s (accumulated s g v nd) = cur_epoch s g.
Proof.
  intros s g v nd. unfold accumulated, added, zeroed.
  rewrite tag_get_slot_set.
  destruct (N.eqb (tag_get s nd) (cur_epoch s g)) eqn:E.
  - apply N.eqb_eq. exact E.
  - rewrite tag_get_set, Slot_eqb_refl. reflexivity.
Qed.

Lemma accumulated_slot_other : forall s t g v nd,
  s <> t -> slot_get t (accumulated s g v nd) = slot_get t nd.
Proof.
  intros s t g v nd H. unfold accumulated, added, zeroed.
  destruct (N.eqb (tag_get s nd) (cur_epoch s g));
    destruct s, t; try congruence; reflexivity.
Qed.

Lemma accumulated_tag_other : forall s t g v nd,
  s <> t -> tag_get t (accumulated s g v nd) = tag_get t nd.
Proof.
  intros s t g v nd H. unfold accumulated, added, zeroed.
  destruct (N.eqb (tag_get s nd) (cur_epoch s g));
    destruct s, t; try congruence; reflexivity.
Qed.

Lemma accumulated_op : forall s g v nd, op (accumulated s g v nd) = op nd.
Proof.
  intros s g v nd. unfold accumulated, added, zeroed.
  destruct (N.eqb (tag_get s nd) (cur_epoch s g)); destruct s; reflexivity.
Qed.

Lemma accumulated_inputs : forall s g v nd, inputs (accumulated s g v nd) = inputs nd.
Proof.
  intros s g v nd. unfold accumulated, added, zeroed.
  destruct (N.eqb (tag_get s nd) (cur_epoch s g)); destruct s; reflexivity.
Qed.

Lemma effective_accumulated : forall s g v nd,
  effective s g (accumulated s g v nd) = effective s g nd + v.
Proof.
  intros s g v nd. unfold effective at 1.
  rewrite accumulated_tag, N.eqb_refl. apply accumulated_slot.
Qed.

Lemma effective_accumulated_other : forall s t g v nd,
  s <> t -> effective t g (accumulated s g v nd) = effective t g nd.
Proof.
  intros s t g v nd H. unfold effective.
  rewrite accumulated_tag_other, accumulated_slot_other by exact H. reflexivity.
Qed.

(** [ensure_epoch_zero(slot) += v] as one step. *)
Lemma eval_accumulate : forall (A : Type) (k : M A) p s v ns g nd a ns',
  nth_error ns p = Some nd ->
  eval k (upd p (accumulated s g v) ns) g a ns' ->
  eval (ensure_epoch_zero p s ;; add_assign p s v ;; k) ns g a ns'.
Proof.
  intros A k p s v ns g nd a ns' H Hk.
  eapply eval_bind; [eapply eval_ensure_epoch_zero; eassumption|].
  eapply eval_bind.
  - eapply eval_add_assign. apply nth_error_upd_same. eassumption.
  - rewrite upd_upd. exact Hk.
Qed.

Lemma eval_accumulate_last : forall p s v ns g nd,
  nth_error ns p = Some nd ->
  eval (ensure_epoch_zero p s ;; add_assign p s v) ns g tt (upd p (accumulated s g v) ns).
Proof.
  intros p s v ns g nd H.
  eapply eval_bind; [eapply eval_ensure_epoch_zero; eassumption|].
  rewrite <- (upd_upd p (zeroed s g) (added s v)).
  eapply eval_add_assign. apply nth_error_upd_same. eassumption.
Qed.

(** * Max *)

Lemma slot_of_upd_same : forall w' p f ns nd s,
  nodes w' = upd p f ns -> nth_error ns p = Some nd ->
  slot_of w' p s = Some (slot_get s (f nd)).
Proof.
  intros w' p f ns nd s E H. unfold slot_of. rewrite E.
  rewrite (nth_error_upd_same _ _ _ _ H). reflexivity.
Qed.

Lemma slot_get_if_accumulated : forall (c : bool) s t g v nd,
  s <> t -> slot_get t (if c then accumulated s g v nd else nd) = slot_get t nd.
Proof.
  intros [] s t g v nd H; [apply accumulated_slot_other; exact H | reflexivity].
Qed.

Lemma max_forward_eval : forall ns g n pa pb nd na nb,
  nth_error ns n = Some nd ->
  inputs nd = [Some pa; Some pb] ->
  nth_error ns pa = Some na ->
  nth_error ns pb = Some nb ->
  eval (Max_forward n) ns g tt
       (upd n (produced SValue g
                 (if Rgeb (value na) (value nb) then value na else value nb)) ns).
Proof.
  intros ns g n pa pb nd na nb Hn Hin Ha Hb.
  pose proof (binary_ok_shape nd pa pb Hin) as Hok.
  unfold Max_forward.
  eapply eval_bind; [apply eval_node_at; eassumption|]. cbv beta.
  rewrite Hok, Hin. cbn [negb nth]. eval_all.
Qed.

Lemma max_forward_dot_eval : forall ns g n pa pb nd na nb,
  nth_error ns n = Some nd ->
  inputs nd = [Some pa; Some pb] ->
  nth_error ns pa = Some na ->
  nth_error ns pb = Some nb ->
  eval (Max_forward_dot n) ns g tt
       (upd n (touched SValue g)
          (upd n (produced SDot g
                    (if Rgeb (value na) (value nb) then dot na else dot nb)) ns)).
Proof.
  intros ns g n pa pb nd na nb Hn Hin Ha Hb.
  pose proof (binary_ok_shape nd pa pb Hin) as Hok.
  unfold Max_forward_dot.
  eapply eval_bind; [apply eval_node_at; eassumption|]. cbv beta.
  rewrite Hok, Hin. cbn [negb nth]. do 4 eval_step. cbn [slot_get].
  destruct (Rgeb (value na) (value nb)); eval_all.
Qed.

Lemma max_backward_eval : forall ns g n pa pb nd na nb,
  nth_error ns n = Some nd ->
  inputs nd = [Some pa; Some pb] ->
  nth_error ns pa = Some na ->
  nth_error ns pb = Some nb ->
  eval (Max_backward n) ns g tt
       (upd (if Rgeb (value na) (value nb) then pa else pb)
            (accumulated SGradient g (gradient nd)) ns).
Proof.
  intros ns g n pa pb nd na nb Hn Hin Ha Hb.
  pose proof (binary_ok_shape nd pa pb Hin) as Hok.
  unfold Max_backward.
  eapply eval_bind; [apply eval_node_at; eassumption|]. cbv beta.
  rewrite Hok, Hin. cbn [negb nth]. do 4 eval_step. cbn [slot_get].
  destruct (Rgeb (value na) (value nb)).
  - eval_step. eapply eval_accumulate_last; lookup.
  - eval_step. eapply eval_accumulate_last; lookup.
Qed.

Lemma max_hvp_backward_eval : forall ns g n pa pb nd na nb,
  nth_error ns n = Some nd ->
  inputs nd = [Some pa; Some pb] ->
  nth_error ns pa = Some na ->
  nth_error ns pb = Some nb ->
  eval (Max_hvp_backward n) ns g tt
       (upd (if Rgeb (value na) (value nb) then pa else pb)
            (fun x => accumulated SGradDot g (grad_dot nd)
                        (accumulated SGradient g (gradient nd) x)) ns).
Proof.
  intros ns g n pa pb nd na nb Hn Hin Ha Hb.
  pose proof (binary_ok_shape nd pa pb Hin) as Hok.
  unfold Max_hvp_backward.
  eapply eval_bind; [apply eval_node_at; eassumption|]. cbv beta.
  rewrite Hok, Hin. cbn [negb nth]. do 4 eval_step. cbn [slot_get].
  destruct (Rgeb (value na) (value nb)).
  - eval_step. eapply eval_accumulate; [lookup|]. eval_step.
    rewrite slot_get_if_accumulated by discriminate.
    rewrite <- (upd_upd pa (accumulated SGradient g (gradient nd))
                           (accumulated SGradDot g (grad_dot nd))).
    eapply eval_accumulate_last; lookup.
  - eval_step. eapply eval_accumulate; [lookup|]. eval_step.
    rewrite slot_get_if_accumulated by discriminate.
    rewrite <- (upd_upd pb (accumulated SGradient g (gradient nd))
                           (accumulated SGradDot g (grad_dot nd))).
    eapply eval_accumulate_last; lookup.
Qed.

(** C7: binary Max.  Forward stores the larger input value, the first input's
    on a tie.  With the winner being the first input when
    [a.value >= b.value] and the second otherwise: forward_dot stores the
    winner's tangent; backward adds the node's gradient to the winner's
    gradient accumulator and hvp_backward also adds the node's grad_dot to the
    winner's grad_dot accumulator; every node other than the winner, the
    losing input among them, is left exactly as it was. *)
Theorem max_routes_to_winner :
  forall (w : World) (n pa pb : nat) (nd na nb : ADNode),
  nth_error (nodes w) n = Some nd ->
  inputs nd = [Some pa; Some pb] ->
  nth_error (nodes w) pa = Some na ->
  nth_error (nodes w) pb = Some nb ->
  let first_wins := Rgeb (value na) (value nb) in
  let win := if first_wins then pa else pb in
  let nwin := if first_wins then na else nb in
  (value na >= value nb -> first_wins = true) /\
  (value na < value nb -> first_wins = false) /\
  (exists w', OpTraits_forward Max n w = Some (tt, w') /\
     slot_of w' n SValue = Some (Rmax (value na) (value nb)) /\
     slot_of w' n SValue = Some (value nwin)) /\
  (exists w', OpTraits_forward_dot Max n w = Some (tt, w') /\
     slot_of w' n SDot = Some (dot nwin)) /\
  (exists w', OpTraits_backward Max n w = Some (tt, w') /\
     (forall p, p <> win -> nth_error (nodes w') p = nth_error (nodes w) p) /\
     slot_of w' win SGradient =
       Some (effective SGradient (graph w) nwin + gradient nd) /\
     slot_of w' win SGradDot = Some (grad_dot nwin)) /\
  (exists w', OpTraits_hvp_backward Max n w = Some (tt, w') /\
     (forall p, p <> win -> nth_error (nodes w') p = nth_error (nodes w) p) /\
     slot_of w' win SGradient =
       Some (effective SGradient (graph w) nwin + gradient nd) /\
     slot_of w' win SGradDot =
       Some (effective SGradDot (graph w) nwin + grad_dot nd)).
Proof.
  intros w n pa pb nd na nb Hn Hin Ha Hb first_wins win nwin.
  assert (Hwin : nth_error (nodes w) win = Some nwin).
  { unfold win, nwin. destruct first_wins; assumption. }
  split; [intro H; apply Rgeb_true; exact H|].
  split; [intro H; apply Rgeb_false; exact H|].
  split; [|split; [|split]].
  - destruct (eval_run _ _ w tt _ (max_forward_eval _ (graph w) _ _ _ _ _ _ Hn Hin Ha Hb))
      as [w' [E [En _]]].
    exists w'. split; [exact E|].
    rewrite (slot_of_upd_same w' n _ _ nd SValue En Hn).
    unfold produced. rewrite slot_get_tag_set, slot_get_set. cbn [Slot_eqb].
    unfold nwin, first_wins, Rgeb.
    destruct (Rge_dec (value na) (value nb)) as [H|H]; split; try reflexivity; f_equal.
    + symmetry. apply Rmax_left. lra.
    + symmetry. apply Rmax_right. lra.
  - destruct (eval_run _ _ w tt _ (max_forward_dot_eval _ (graph w) _ _ _ _ _ _ Hn Hin Ha Hb))
      as [w' [E [En _]]].
    exists w'. split; [exact E|].
    unfold slot_of. rewrite En.
    rewrite (nth_error_upd_same n _ _ (produced SDot (graph w)
               (if Rgeb (value na) (value nb) then dot na else dot nb) nd)).
    + unfold nwin, first_wins. destruct (Rgeb (value na) (value nb)); reflexivity.
    + apply nth_error_upd_same. exact Hn.
  - destruct (eval_run _ _ w tt _ (max_backward_eval _ (graph w) _ _ _ _ _ _ Hn Hin Ha Hb))
      as [w' [E [En _]]].
    fold first_wins in En. fold win in En.
    exists w'. split; [exact E|]. split; [|split].
    + intros p Hp. rewrite En. apply nth_error_upd_other. congruence.
    + rewrite (slot_of_upd_same w' win _ _ nwin SGradient En Hwin).
      rewrite accumulated_slot. reflexivity.
    + rewrite (slot_of_upd_same w' win _ _ nwin SGradDot En Hwin).
      rewrite accumulated_slot_other by discriminate. reflexivity.
  - destruct (eval_run _ _ w tt _ (max_hvp_backward_eval _ (graph w) _ _ _ _ _ _ Hn Hin Ha Hb))
      as [w' [E [En _]]].
    fold first_wins in En. fold win in En.
    exists w'. split; [exact E|]. split; [|split].
    + intros p Hp. rewrite En. apply nth_error_upd_other. congruence.
    + rewrite (slot_of_upd_same w' win _ _ nwin SGradient En Hwin).
      rewrite accumulated_slot_other by discriminate.
      rewrite accumulated_slot. reflexivity.
    + rewrite (slot_of_upd_same w' win _ _ nwin SGradDot En Hwin).
      rewrite accumulated_slot.
      rewrite effective_accumulated_other by discriminate. reflexivity.
Qed.

(** [max(3, 3)] with a seeded gradient of 1. *)
Definition max_tie_world : World :=
  mkWorld [ mkNode Var [] 3 0 0 0 0 0 0 0;
            mkNode Var [] 3 0 0 0 0 0 0 0;
            mkNode Max [Some 0%nat; Some 1%nat] 0 0 1 0 0 0 1 0 ]
          (mkGraph 1 1 1 1) [].

Lemma max_routes_to_winner_witness :
  exists w', OpTraits_backward Max 2 max_tie_world = Some (tt, w') /\
             nth_error (nodes w') 1 = nth_error (nodes max_tie_world) 1 /\
             slot_of w' 0 SGradient = Some (0 + 1).
Proof.
  destruct (max_routes_to_winner max_tie_world 2 0 1 _ _ _
              eq_refl eq_refl eq_refl eq_refl)
    as [Hge [_ [_ [_ [[w' [E [Hframe [Hg _]]]] _]]]]].
  assert (H33 : Rgeb 3 3 = true) by (apply Hge; simpl; lra).
  simpl in Hframe, Hg. rewrite H33 in Hframe, Hg.
  exists w'. split; [exact E|]. split.
  - apply Hframe. discriminate.
  - exact Hg.
Defined.

(** * Reading the inputs of an n-ary node *)

(** A reference that points at a node of the arena. *)
Definition valid_ref (ns : list ADNode) (r : option nat) : bool :=
  match r with
  | Some p => (p <? length ns)%nat
  | None => false
  end.

(** The slot [s] of the node a reference points at. *)
Definition ref_slot (ns : list ADNode) (s : Slot) (r : option nat) : R :=
  match r with
  | Some p => match nth_error ns p with Some nd => slot_get s nd | None => 0 end
  | None => 0
  end.

Definition input_slots (ns : list ADNode) (s : Slot) (ins : list (option nat)) : list R :=
  map (ref_slot ns s) ins.

Lemma valid_ref_lookup : forall ns r,
  valid_ref ns r = true -> exists p nd, r = Some p /\ nth_error ns p = Some nd.
Proof.
  intros ns [p|] H; simpl in H; [|discriminate].
  apply Nat.ltb_lt in H. destruct (nth_error ns p) as [nd|] eqn:E.
  - exists p, nd. auto.
  - apply nth_error_None in E. lia.
Qed.

Lemma eval_map_M : forall (A B : Type) (f : A -> M B) (h : A -> B) ns g (l : list A),
  (forall x, In x l -> eval (f x) ns g (h x) ns) ->
  eval (map_M f l) ns g (map h l) ns.
Proof.
  intros A B f h ns g l. induction l as [|x t IH]; intros H; simpl.
  - apply eval_ret.
  - eapply eval_bind; [apply H; left; reflexivity|].
    eapply eval_bind; [apply IH; intros y Hy; apply H; right; exact Hy|].
    apply eval_ret.
Qed.

Lemma eval_read_values : forall ns g ins,
  forallb (valid_ref ns) ins = true ->
  eval (read_values ins) ns g (input_slots ns SValue ins) ns.
Proof.
  intros ns g ins H. unfold read_values, input_slots.
  apply eval_map_M. intros r Hr.
  rewrite forallb_forall in H.
  destruct (valid_ref_lookup ns r (H r Hr)) as [p [nd [-> Hp]]].
  simpl ref_slot. rewrite Hp. eval_all.
Qed.

Lemma split_map_pair : forall (A B C : Type) (f : A -> B) (h : A -> C) (l : list A),
  split (map (fun x => (f x, h x)) l) = (map f l, map h l).
Proof.
  intros A B C f h l. induction l as [|x t IH]; simpl; [reflexivity|].
  rewrite IH. reflexivity.
Qed.

Lemma eval_read_values_dots : forall ns g ins,
  forallb (valid_ref ns) ins = true ->
  eval (read_values_dots ins) ns g
       (input_slots ns SValue ins, input_slots ns SDot ins) ns.
Proof.
  intros ns g ins H. unfold read_values_dots, input_slots.
  eapply eval_bind.
  - apply (eval_map_M _ _ _ (fun r => (ref_slot ns SValue r, ref_slot ns SDot r))).
    intros r Hr. rewrite forallb_forall in H.
    destruct (valid_ref_lookup ns r (H r Hr)) as [p [nd [-> Hp]]].
    simpl ref_slot. rewrite Hp. eval_all.
  - rewrite split_map_pair. apply eval_ret.
Qed.

(** * Sums *)

Definition Rsum (l : list R) : R := fold_right Rplus 0 l.

Lemma fold_left_Rplus_map : forall (A : Type) (f : A -> R) (l : list A) (a : R),
  fold_left (fun acc x => acc + f x) l a = a + Rsum (map f l).
Proof.
  intros A f l. induction l as [|x t IH]; intros a; simpl.
  - lra.
  - rewrite IH. unfold Rsum. simpl. lra.
Qed.

Lemma Rsum_nonneg : forall l, (forall x, In x l -> 0 <= x) -> 0 <= Rsum l.
Proof.
  induction l as [|x t IH]; intros H; simpl; [lra|].
  assert (0 <= x) by (apply H; left; reflexivity).
  assert (0 <= Rsum t) by (apply IH; intros y Hy; apply H; right; exact Hy).
  lra.
Qed.

Lemma Rsum_ge_member : forall l y,
  (forall x, In x l -> 0 <= x) -> In y l -> y <= Rsum l.
Proof.
  induction l as [|x t IH]; intros y H Hy; [contradiction|].
  simpl. destruct Hy as [->|Hy].
  - assert (0 <= Rsum t) by (apply Rsum_nonneg; intros z Hz; apply H; right; exact Hz). lra.
  - assert (y <= Rsum t) by (apply IH; auto; intros z Hz; apply H; right; exact Hz).
    assert (0 <= x) by (apply H; left; reflexivity). lra.
Qed.

(** * Softmax forward *)

Lemma max_step_fold : forall (x : list R) (m : R),
  exists mx, fold_left max_step x (Some m) = Some mx /\
             (mx = m \/ In mx x) /\ m <= mx /\ (forall xi, In xi x -> xi <= mx).
Proof.
  induction x as [|h t IH]; intros m; simpl.
  - exists m. repeat split; auto; try lra. intros xi [].
  - unfold Rgtb. destruct (Rgt_dec h m) as [Hgt|Hle].
    + destruct (IH h) as [mx [E [Hin [Hm Hall]]]].
      exists mx. split; [exact E|].
      split; [right; destruct Hin as [->|Hin]; [left; reflexivity | right; exact Hin]|].
      split; [lra|].
      intros xi [<-|Hxi]; auto.
    + destruct (IH m) as [mx [E [Hin [Hm Hall]]]].
      exists mx. split; [exact E|].
      split; [destruct Hin as [Hin|Hin]; [left | right; right]; exact Hin|].
      split; [lra|].
      intros xi [<-|Hxi]; auto. lra.
Qed.

Lemma xmax_of_is_max : forall x : list R,
  x <> [] -> In (xmax_of x) x /\ (forall xi, In xi x -> xi <= xmax_of x).
Proof.
  intros [|h t] Hne; [congruence|].
  unfold xmax_of, vec_max. simpl.
  destruct (max_step_fold t h) as [mx [E [Hin [Hm Hall]]]].
  rewrite E. split.
  - destruct Hin as [->|Hin]; [left; reflexivity | right; exact Hin].
  - intros xi [<-|Hxi]; auto.
Qed.

Lemma softmax_denominator : forall x : list R,
  x <> [] ->
  let e := map (fun xi => exp (xi - xmax_of x)) x in
  In 1 e /\ 1 <= Rsum e.
Proof.
  intros x Hne e.
  destruct (xmax_of_is_max x Hne) as [Hin _].
  assert (H1 : In 1 e).
  { unfold e. apply in_map_iff. exists (xmax_of x). split; [|exact Hin].
    replace (xmax_of x - xmax_of x) with 0 by lra. apply exp_0. }
  split; [exact H1|].
  apply Rsum_ge_member; [|exact H1].
  intros y Hy. unfold e in Hy. apply in_map_iff in Hy. destruct Hy as [xi [<- _]].
  left. apply exp_pos.
Qed.

Lemma nary_ok_nonempty : forall nd, _nary_ok nd = true <-> inputs nd <> [].
Proof.
  intros nd. unfold _nary_ok. destruct (inputs nd); simpl; split; congruence.
Qed.

(** C3: Softmax forward.  With [x] the input values, [xmax] their maximum,
    [e_i = exp(x_i - xmax)] and [Z] the sum of the [e_i], forward stores
    [e_0 / max(Z, 1)] in the node's value; that is [e_0 / Z], because one
    summand is 1 and none is negative, so [Z >= 1] and the guard
    [Z > 0 ? Z : 1] never takes its second branch. *)
Theorem softmax_forward_stable :
  forall (w : World) (n : nat) (nd : ADNode),
  nth_error (nodes w) n = Some nd ->
  _nary_ok nd = true ->
  forallb (valid_ref (nodes w)) (inputs nd) = true ->
  let x := input_slots (nodes w) SValue (inputs nd) in
  exists (w' : World) (xmax : R),
    OpTraits_forward Softmax n w = Some (tt, w') /\
    In xmax x /\ (forall xi, In xi x -> xi <= xmax) /\
    let e := map (fun xi => exp (xi - xmax)) x in
    let Z := Rsum e in
    slot_of w' n SValue = Some (nth 0 e 0 / Rmax Z 1) /\
    slot_of w' n SValue = Some (nth 0 e 0 / Z) /\
    tag_of w' n SValue = Some (cur_val_epoch_ (graph w)) /\
    In 1 e /\ 1 <= Z /\ ~ Z <= 0 /\
    (if Rgtb Z 0 then Z else 1) = Z.
Proof.
  intros w n nd Hn Hok Hval x.
  assert (Hne : x <> []).
  { unfold x, input_slots. apply nary_ok_nonempty in Hok.
    destruct (inputs nd); [congruence | discriminate]. }
  destruct (xmax_of_is_max x Hne) as [Hin Hmax].
  destruct (softmax_denominator x Hne) as [H1 HZ].
  set (e := map (fun xi => exp (xi - xmax_of x)) x) in *.
  set (Z := Rsum e) in *.
  assert (HZc : fold_left (fun Z xi => Z + exp (xi - xmax_of x)) x 0 = Z).
  { rewrite fold_left_Rplus_map. unfold Z, e. lra. }
  assert (He0 : exp (nth 0 x 0 - xmax_of x) = nth 0 e 0).
  { unfold e. destruct x as [|x0 t]; [congruence | reflexivity]. }
  assert (He : eval (OpTraits_forward Softmax n) (nodes w) (graph w) tt
                 (upd n (produced SValue (graph w) (nth 0 e 0 / Z)) (nodes w))).
  { simpl. unfold Softmax_forward.
    eapply eval_bind; [apply eval_node_at; eassumption|]. cbv beta.
    rewrite Hok. cbn [negb].
    eapply eval_bind; [apply eval_read_values; exact Hval|]. cbv beta zeta.
    fold x. rewrite HZc, He0, (Rgtb_true Z 0) by lra.
    eval_all. }
  destruct (eval_run _ _ w tt _ He) as [w' [E [En _]]].
  exists w', (xmax_of x). cbv zeta. fold e. fold Z.
  assert (EZ : Rsum e = Z) by reflexivity. clearbody Z.
  split; [exact E|]. split; [exact Hin|]. split; [exact Hmax|].
  assert (Hslot : slot_of w' n SValue = Some (nth 0 e 0 / Z)).
  { rewrite (slot_of_upd_same w' n _ _ nd SValue En Hn).
    unfold produced. rewrite slot_get_tag_set, slot_get_set. reflexivity. }
  split; [|split; [exact Hslot|split; [|split; [exact H1|split; [exact HZ|split]]]]].
  - rewrite Hslot. rewrite (Rmax_left Z 1 HZ). reflexivity.
  - unfold tag_of. rewrite En, (nth_error_upd_same _ _ _ _ Hn).
    unfold produced. simpl. reflexivity.
  - lra.
  - rewrite (Rgtb_true Z 0) by lra. reflexivity.
Qed.

Definition softmax_world : World :=
  mkWorld [ mkNode Var [] 1 0 0 0 0 0 0 0;
            mkNode Var [] 2 0 0 0 0 0 0 0;
            mkNode Var [] 3 0 0 0 0 0 0 0;
            mkNode Softmax [Some 0%nat; Some 1%nat; Some 2%nat] 0 0 0 0 0 0 0 0 ]
          (mkGraph 1 1 1 1) [].

Lemma softmax_forward_stable_witness :
  exists w', OpTraits_forward Softmax 3 softmax_world = Some (tt, w') /\
             tag_of w' 3 SValue = Some 1%N.
Proof.
  destruct (softmax_forward_stable softmax_world 3 _ eq_refl eq_refl eq_refl)
    as [w' [xmax [E [_ [_ H]]]]].
  cbv zeta in H. destruct H as [_ [_ [Ht _]]].
  exists w'. split; [exact E | exact Ht].
Defined.

(** * Footprints: which slots and tags a computation reads and writes *)

(** The skeleton of the arena: operator and input references of every node.
    No pass function changes it. *)
Definition shape (w : World) : list (Operator * list (option nat)) :=
  map (fun nd => (op nd, inputs nd)) (nodes w).

Definition live (w : World) (p : nat) (s : Slot) : Prop :=
  exists nd, nth_error (nodes w) p = Some nd /\ live_node s (graph w) nd.

Definition writes (l : list Access) (p : nat) (s : Slot) : Prop :=
  In (WrSlot p s) l \/ In (WrTag p s) l.

(** [step_ok Phi w w']: going from [w] to [w'] kept the graph counters and
    the skeleton, appended accesses that all satisfy [Phi], changed no slot
    or tag it did not write, left every written slot live and never made a
    live slot stale. *)
Record step_ok (Phi : Access -> Prop) (w w' : World) : Prop := mkStepOk {
  so_graph : graph w' = graph w;
  so_shape : shape w' = shape w;
  so_live : forall p s, live w p s -> live w' p s;
  so_trace : exists l,
      trace w' = trace w ++ l /\ Forall Phi l /\
      (forall p s, ~ In (WrSlot p s) l -> slot_of w' p s = slot_of w p s) /\
      (forall p s, ~ In (WrTag p s) l -> tag_of w' p s = tag_of w p s) /\
      (forall p s, writes l p s -> live w' p s)
}.

Lemma step_ok_refl : forall Phi w, step_ok Phi w w.
Proof.
  intros Phi w. constructor; auto.
  exists []. rewrite app_nil_r. repeat split; auto.
  intros p s [[]|[]].
Qed.

Lemma step_ok_trans : forall Phi w1 w2 w3,
  step_ok Phi w1 w2 -> step_ok Phi w2 w3 -> step_ok Phi w1 w3.
Proof.
  intros Phi w1 w2 w3 [G1 S1 L1 [l1 [T1 [F1 [U1 [V1 W1]]]]]]
                      [G2 S2 L2 [l2 [T2 [F2 [U2 [V2 W2]]]]]].
  constructor.
  - congruence.
  - congruence.
  - auto.
  - exists (l1 ++ l2). split; [rewrite T2, T1, app_assoc; reflexivity|].
    split; [apply Forall_app; auto|].
    split; [|split].
    + intros p s H. rewrite U2, U1; auto; intro H'; apply H, in_or_app; auto.
    + intros p s H. rewrite V2, V1; auto; intro H'; apply H, in_or_app; auto.
    + intros p s [H|H]; apply in_app_or in H; destruct H as [H|H].
      * apply L2, W1. left; exact H.
      * apply W2. left; exact H.
      * apply L2, W1. right; exact H.
      * apply W2. right; exact H.
Qed.

(** [sound Sh L Phi m L']: from any world with skeleton [Sh] in which the
    slots listed in [L] are live, [m] returns, the step it makes is
    [step_ok Phi], and the slots listed in [L'] are live afterwards. *)
Definition all_live (w : World) (L : list (nat * Slot)) : Prop :=
  forall p s, In (p, s) L -> live w p s.

Definition sound {A : Type} (Sh : list (Operator * list (option nat)))
           (L : list (nat * Slot)) (Phi : Access -> Prop) (m : M A)
           (L' : list (nat * Slot)) : Prop :=
  forall w, shape w = Sh -> all_live w L ->
            exists a w', m w = Some (a, w') /\ step_ok Phi w w' /\ all_live w' L'.

Lemma sound_ret : forall (A : Type) Sh L Phi (a : A), sound Sh L Phi (ret a) L.
Proof.
  intros A Sh L Phi a w _ HL. exists a, w.
  split; [reflexivity | split; [apply step_ok_refl | exact HL]].
Qed.

Lemma sound_bind : forall (A B : Type) Sh L L1 L2 Phi (m : M A) (k : A -> M B),
  sound Sh L Phi m L1 -> (forall a, sound Sh L1 Phi (k a) L2) ->
  sound Sh L Phi (bind m k) L2.
Proof.
  intros A B Sh L L1 L2 Phi m k Hm Hk w HS HL.
  destruct (Hm w HS HL) as [a [w1 [E1 [S1 HL1]]]].
  destruct (Hk a w1) as [b [w2 [E2 [S2 HL2]]]].
  - rewrite (so_shape _ _ _ S1). exact HS.
  - exact HL1.
  - exists b, w2. split; [unfold bind; rewrite E1; exact E2|].
    split; [eapply step_ok_trans; eassumption | exact HL2].
Qed.

Lemma sound_post : forall (A : Type) Sh L L1 L2 Phi (m : M A),
  sound Sh L Phi m L1 -> incl L2 L1 -> sound Sh L Phi m L2.
Proof.
  intros A Sh L L1 L2 Phi m Hm Hsub w HS HL.
  destruct (Hm w HS HL) as [a [w1 [E1 [S1 HL1]]]].
  exists a, w1. split; [exact E1|]. split; [exact S1|].
  intros p s H. apply HL1, Hsub, H.
Qed.

(** Whatever else became live, what was live stays live. *)
Lemma sound_forget : forall (A : Type) Sh L L1 Phi (m : M A),
  sound Sh L Phi m L1 -> sound Sh L Phi m L.
Proof.
  intros A Sh L L1 Phi m Hm w HS HL.
  destruct (Hm w HS HL) as [a [w1 [E1 [S1 HL1]]]].
  exists a, w1. split; [exact E1|]. split; [exact S1|].
  intros p s H. apply (so_live _ _ _ S1). apply HL. exact H.
Qed.

Lemma sound_if : forall (A : Type) Sh L L1 L2 Phi (c : bool) (m1 m2 : M A),
  sound Sh L Phi m1 L1 -> sound Sh L Phi m2 L2 ->
  sound Sh L Phi (if c then m1 else m2) L.
Proof.
  intros A Sh L L1 L2 Phi [] m1 m2 H1 H2; eapply sound_forget; eassumption.
Qed.

Lemma shape_lookup : forall w p o ins,
  nth_error (shape w) p = Some (o, ins) ->
  exists nd, nth_error (nodes w) p = Some nd /\ op nd = o /\ inputs nd = ins.
Proof.
  intros w p o ins H. unfold shape in H. rewrite nth_error_map in H.
  destruct (nth_error (nodes w) p) as [nd|]; simpl in H; [|discriminate].
  exists nd. inversion H. auto.
Qed.

Lemma shape_valid : forall w p,
  (p < length (shape w))%nat -> exists nd, nth_error (nodes w) p = Some nd.
Proof.
  intros w p H. unfold shape in H. rewrite length_map in H.
  destruct (nth_error (nodes w) p) as [nd|] eqn:E; [eauto|].
  apply nth_error_None in E. lia.
Qed.

Lemma sound_node_at_bind : forall (A : Type) Sh L L' Phi p o ins (k : ADNode -> M A),
  nth_error Sh p = Some (o, ins) ->
  (forall nd, op nd = o -> inputs nd = ins -> sound Sh L Phi (k nd) L') ->
  sound Sh L Phi (bind (node_at p) k) L'.
Proof.
  intros A Sh L L' Phi p o ins k Hp Hk w HS HL.
  rewrite <- HS in Hp. destruct (shape_lookup w p o ins Hp) as [nd [Hn [Ho Hi]]].
  destruct (Hk nd Ho Hi w HS HL) as [a [w' [E S]]].
  exists a, w'. split; [|exact S].
  rewrite (run_node_at_bind _ _ _ _ _ Hn). exact E.
Qed.

Lemma sound_deref : forall Sh L Phi p, sound Sh L Phi (deref (Some p)) L.
Proof. intros. apply sound_ret. Qed.

(** The step made by rewriting one node. *)
Lemma step_ok_upd : forall Phi w p f l nd,
  nth_error (nodes w) p = Some nd ->
  op (f nd) = op nd ->
  inputs (f nd) = inputs nd ->
  (forall t, tag_get t (f nd) = tag_get t nd \/ tag_get t (f nd) = cur_epoch t (graph w)) ->
  (forall t, ~ In (WrSlot p t) l -> slot_get t (f nd) = slot_get t nd) ->
  (forall t, ~ In (WrTag p t) l -> tag_get t (f nd) = tag_get t nd) ->
  (forall q t, writes l q t -> q = p /\ tag_get t (f nd) = cur_epoch t (graph w)) ->
  Forall Phi l ->
  step_ok Phi w (mkWorld (upd p f (nodes w)) (graph w) (trace w ++ l)).
Proof.
  intros Phi w p f l nd Hn Hop Hin Htag Hslot Hts Hwr HPhi.
  constructor; simpl.
  - reflexivity.
  - unfold shape; simpl. apply nth_error_ext. intro q.
    rewrite !nth_error_map, nth_error_upd.
    destruct (Nat.eqb_spec p q) as [<-|Hne]; [|reflexivity].
    rewrite Hn. simpl. rewrite Hop, Hin. reflexivity.
  - intros q t [nq [Hq Hl]]. unfold live; simpl. rewrite nth_error_upd.
    destruct (Nat.eqb_spec p q) as [<-|Hne].
    + rewrite Hn. simpl. exists (f nd). split; [reflexivity|].
      assert (nq = nd) by congruence. subst nq.
      unfold live_node in *. destruct (Htag t) as [H|H]; congruence.
    + exists nq. auto.
  - exists l. split; [reflexivity|]. split; [exact HPhi|]. split; [|split].
    + intros q t H. unfold slot_of; simpl. rewrite nth_error_upd.
      destruct (Nat.eqb_spec p q) as [<-|Hne]; [|reflexivity].
      rewrite Hn. simpl. rewrite Hslot; auto.
    + intros q t H. unfold tag_of; simpl. rewrite nth_error_upd.
      destruct (Nat.eqb_spec p q) as [<-|Hne]; [|reflexivity].
      rewrite Hn. simpl. rewrite Hts; auto.
    + intros q t H. destruct (Hwr q t H) as [-> Hc].
      exists (f nd). split; [|exact Hc].
      simpl. apply nth_error_upd_same. exact Hn.
Qed.

(** ** Exact runs of the protocol primitives, trace included *)

Lemma run_bind : forall (A B : Type) (m : M A) (k : A -> M B) w a w',
  m w = Some (a, w') -> bind m k w = k a w'.
Proof. intros A B m k w a w' H. unfold bind. rewrite H. reflexivity. Qed.

Lemma run_modify : forall p f w nd,
  nth_error (nodes w) p = Some nd ->
  modify_node p f w = Some (tt, mkWorld (upd p f (nodes w)) (graph w) (trace w)).
Proof.
  intros p f w nd H. unfold modify_node, upd. rewrite H. reflexivity.
Qed.

Lemma run_rd : forall p s w nd,
  nth_error (nodes w) p = Some nd ->
  rd p s w = Some (slot_get s nd, mkWorld (nodes w) (graph w) (trace w ++ [RdSlot p s])).
Proof.
  intros p s w nd H. unfold rd. rewrite (run_node_at_bind _ _ _ _ _ H). reflexivity.
Qed.

Lemma run_rd_tag : forall p s w nd,
  nth_error (nodes w) p = Some nd ->
  rd_tag p s w = Some (tag_get s nd, mkWorld (nodes w) (graph w) (trace w ++ [RdTag p s])).
Proof.
  intros p s w nd H. unfold rd_tag. rewrite (run_node_at_bind _ _ _ _ _ H). reflexivity.
Qed.

Lemma run_wr : forall p s v w nd,
  nth_error (nodes w) p = Some nd ->
  wr p s v w = Some (tt, mkWorld (upd p (slot_set s v) (nodes w)) (graph w)
                                 (trace w ++ [WrSlot p s])).
Proof.
  intros p s v w nd H. unfold wr.
  rewrite (run_bind _ _ _ _ _ _ _ (run_modify p _ w nd H)). reflexivity.
Qed.

Lemma run_wr_tag : forall p s e w nd,
  nth_error (nodes w) p = Some nd ->
  wr_tag p s e w = Some (tt, mkWorld (upd p (tag_set s e) (nodes w)) (graph w)
                                     (trace w ++ [WrTag p s])).
Proof.
  intros p s e w nd H. unfold wr_tag.
  rewrite (run_bind _ _ _ _ _ _ _ (run_modify p _ w nd H)). reflexivity.
Qed.

Lemma run_touch_epoch : forall p s w nd,
  nth_error (nodes w) p = Some nd ->
  touch_epoch p s w =
    Some (tt, mkWorld (upd p (touched s (graph w)) (nodes w)) (graph w)
                      (trace w ++ [WrTag p s])).
Proof.
  intros p s w nd H. unfold touch_epoch, current.
  unfold bind at 1. apply (run_wr_tag p s _ w nd H).
Qed.

Lemma run_set_epoch_value : forall p s v w nd,
  nth_error (nodes w) p = Some nd ->
  set_epoch_value p s v w =
    Some (tt, mkWorld (upd p (produced s (graph w) v) (nodes w)) (graph w)
                      (trace w ++ [WrSlot p s; WrTag p s])).
Proof.
  intros p s v w nd H. unfold set_epoch_value, current.
  unfold bind at 1.
  rewrite (run_bind _ _ _ _ _ _ _ (run_wr p s v w nd H)).
  set (w2 := mkWorld (upd p (slot_set s v) (nodes w)) (graph w) _).
  assert (H2 : nth_error (nodes w2) p = Some (slot_set s v nd)).
  { simpl. apply nth_error_upd_same. exact H. }
  rewrite (run_wr_tag p s _ w2 _ H2).
  simpl. rewrite upd_upd, <- app_assoc. reflexivity.
Qed.

Lemma run_ensure_epoch_zero : forall p s w nd,
  nth_error (nodes w) p = Some nd ->
  ensure_epoch_zero p s w =
    Some (tt, mkWorld (upd p (zeroed s (graph w)) (nodes w)) (graph w)
                      (trace w ++ RdTag p s ::
                         (if N.eqb (tag_get s nd) (cur_epoch s (graph w)) then []
                          else [WrSlot p s; WrTag p s]))).
Proof.
  intros p s w nd H. unfold ensure_epoch_zero, current.
  unfold bind at 1.
  rewrite (run_bind _ _ _ _ _ _ _ (run_rd_tag p s w nd H)).
  destruct (N.eqb (tag_get s nd) (cur_epoch s (graph w))) eqn:E.
  - unfold ret. rewrite (upd_id p (zeroed s (graph w))); [reflexivity|].
    intros nd' H'. assert (nd' = nd) by congruence. subst nd'.
    unfold zeroed. rewrite E. reflexivity.
  - set (w1 := mkWorld (nodes w) (graph w) (trace w ++ [RdTag p s])).
    assert (H1 : nth_error (nodes w1) p = Some nd) by exact H.
    rewrite (run_bind _ _ _ _ _ _ _ (run_wr p s 0 w1 nd H1)).
    set (w2 := mkWorld (upd p (slot_set s 0) (nodes w1)) (graph w1) _).
    assert (H2 : nth_error (nodes w2) p = Some (slot_set s 0 nd)).
    { simpl. apply nth_error_upd_same. exact H. }
    rewrite (run_wr_tag p s _ w2 _ H2).
    simpl. rewrite upd_upd, <- !app_assoc. simpl.
    rewrite (upd_ext p (zeroed s (graph w))
               (fun x => tag_set s (cur_epoch s (graph w)) (slot_set s 0 x))); [reflexivity|].
    intros nd' H'. assert (nd' = nd) by congruence. subst nd'.
    unfold zeroed. rewrite E. reflexivity.
Qed.

Lemma run_add_assign : forall p s v w nd,
  nth_error (nodes w) p = Some nd ->
  add_assign p s v w =
    Some (tt, mkWorld (upd p (added s v) (nodes w)) (graph w)
                      (trace w ++ [RdSlot p s; WrSlot p s])).
Proof.
  intros p s v w nd H. unfold add_assign.
  rewrite (run_bind _ _ _ _ _ _ _ (run_rd p s w nd H)).
  set (w1 := mkWorld (nodes w) (graph w) (trace w ++ [RdSlot p s])).
  assert (H1 : nth_error (nodes w1) p = Some nd) by exact H.
  rewrite (run_wr p s _ w1 nd H1).
  simpl. rewrite <- app_assoc. simpl.
  rewrite (upd_ext p (added s v) (slot_set s (slot_get s nd + v))); [reflexivity|].
  intros nd' H'. assert (nd' = nd) by congruence. subst nd'. reflexivity.
Qed.

(** ** Footprint rules of the primitives *)

Lemma In_singleton : forall (A : Type) (a b : A), In a [b] -> b = a.
Proof. intros A a b [H|[]]. exact H. Qed.

Lemma all_live_step : forall Phi w w' L,
  step_ok Phi w w' -> all_live w L -> all_live w' L.
Proof.
  intros Phi w w' L S HL p s H. apply (so_live _ _ _ S). apply HL. exact H.
Qed.

Lemma all_live_cons : forall w p s L,
  live w p s -> all_live w L -> all_live w ((p, s) :: L).
Proof.
  intros w p s L Hl HL q t [H|H]; [inversion H; subst; exact Hl | apply HL; exact H].
Qed.

Lemma step_ok_rd : forall Phi p s w nd,
  nth_error (nodes w) p = Some nd -> Phi (RdSlot p s) ->
  step_ok Phi w (mkWorld (nodes w) (graph w) (trace w ++ [RdSlot p s])).
Proof.
  intros Phi p s w nd Hn HPhi.
  rewrite <- (upd_id p (fun x => x) (nodes w)) at 1 by auto.
  apply step_ok_upd with (nd := nd).
  - exact Hn.
  - reflexivity.
  - reflexivity.
  - intros t. left; reflexivity.
  - intros t _. reflexivity.
  - intros t _. reflexivity.
  - intros q t [H|H]; apply In_singleton in H; discriminate.
  - repeat constructor. exact HPhi.
Qed.

Lemma sound_rd : forall Sh L Phi p s,
  (p < length Sh)%nat -> Phi (RdSlot p s) -> sound Sh L Phi (rd p s) L.
Proof.
  intros Sh L Phi p s Hp HPhi w HS HL.
  rewrite <- HS in Hp. destruct (shape_valid w p Hp) as [nd Hn].
  pose proof (step_ok_rd Phi p s w nd Hn HPhi) as S.
  eexists _, _. split; [apply (run_rd p s w nd Hn)|].
  split; [exact S | exact (all_live_step _ _ _ _ S HL)].
Qed.

Lemma step_ok_touch : forall Phi p s w nd,
  nth_error (nodes w) p = Some nd -> Phi (WrTag p s) ->
  step_ok Phi w (mkWorld (upd p (touched s (graph w)) (nodes w)) (graph w)
                         (trace w ++ [WrTag p s])).
Proof.
  intros Phi p s w nd Hn HPhi.
  apply step_ok_upd with (nd := nd); unfold touched.
  - exact Hn.
  - apply op_tag_set.
  - apply inputs_tag_set.
  - intros t. rewrite tag_get_set. destruct (Slot_eqb t s) eqn:E; auto.
    apply Slot_eqb_eq in E. subst t. auto.
  - intros t _. apply slot_get_tag_set.
  - intros t H. rewrite tag_get_set. destruct (Slot_eqb t s) eqn:E; auto.
    apply Slot_eqb_eq in E. subst t. exfalso. apply H. left; reflexivity.
  - intros q t [H|H]; apply In_singleton in H; inversion H; subst.
    split; [reflexivity|]. rewrite tag_get_set, Slot_eqb_refl. reflexivity.
  - repeat constructor. exact HPhi.
Qed.

Lemma sound_touch_epoch : forall Sh L Phi p s,
  (p < length Sh)%nat -> Phi (WrTag p s) ->
  sound Sh L Phi (touch_epoch p s) ((p, s) :: L).
Proof.
  intros Sh L Phi p s Hp HPhi w HS HL.
  rewrite <- HS in Hp. destruct (shape_valid w p Hp) as [nd Hn].
  pose proof (step_ok_touch Phi p s w nd Hn HPhi) as S.
  eexists _, _. split; [apply (run_touch_epoch p s w nd Hn)|].
  split; [exact S|]. apply all_live_cons; [|exact (all_live_step _ _ _ _ S HL)].
  exists (touched s (graph w) nd). split.
  - simpl. apply nth_error_upd_same. exact Hn.
  - unfold live_node, touched. simpl graph. rewrite tag_get_set, Slot_eqb_refl. reflexivity.
Qed.

Lemma step_ok_set : forall Phi p s v w nd,
  nth_error (nodes w) p = Some nd -> Phi (WrSlot p s) -> Phi (WrTag p s) ->
  step_ok Phi w (mkWorld (upd p (produced s (graph w) v) (nodes w)) (graph w)
                         (trace w ++ [WrSlot p s; WrTag p s])).
Proof.
  intros Phi p s v w nd Hn HPs HPt.
  apply step_ok_upd with (nd := nd); unfold produced.
  - exact Hn.
  - rewrite op_tag_set. apply op_slot_set.
  - rewrite inputs_tag_set. apply inputs_slot_set.
  - intros t. rewrite tag_get_set, tag_get_slot_set. destruct (Slot_eqb t s) eqn:E; auto.
    apply Slot_eqb_eq in E. subst t. auto.
  - intros t H. rewrite slot_get_tag_set, slot_get_set.
    destruct (Slot_eqb t s) eqn:E; auto.
    apply Slot_eqb_eq in E. subst t. exfalso. apply H. left; reflexivity.
  - intros t H. rewrite tag_get_set, tag_get_slot_set.
    destruct (Slot_eqb t s) eqn:E; auto.
    apply Slot_eqb_eq in E. subst t. exfalso. apply H. right; left; reflexivity.
  - intros q t [H|H]; simpl in H; destruct H as [H|[H|[]]]; inversion H; subst;
      (split; [reflexivity|]); rewrite tag_get_set, Slot_eqb_refl; reflexivity.
  - repeat constructor; assumption.
Qed.

Lemma sound_set_epoch_value : forall Sh L Phi p s v,
  (p < length Sh)%nat -> Phi (WrSlot p s) -> Phi (WrTag p s) ->
  sound Sh L Phi (set_epoch_value p s v) ((p, s) :: L).
Proof.
  intros Sh L Phi p s v Hp HPs HPt w HS HL.
  rewrite <- HS in Hp. destruct (shape_valid w p Hp) as [nd Hn].
  pose proof (step_ok_set Phi p s v w nd Hn HPs HPt) as S.
  eexists _, _. split; [apply (run_set_epoch_value p s v w nd Hn)|].
  split; [exact S|]. apply all_live_cons; [|exact (all_live_step _ _ _ _ S HL)].
  exists (produced s (graph w) v nd). split.
  - simpl. apply nth_error_upd_same. exact Hn.
  - unfold live_node, produced. simpl graph. rewrite tag_get_set, Slot_eqb_refl. reflexivity.
Qed.

Lemma zeroed_op : forall s g nd, op (zeroed s g nd) = op nd.
Proof.
  intros s g nd. unfold zeroed. destruct (N.eqb _ _); auto.
  rewrite op_tag_set. apply op_slot_set.
Qed.

Lemma zeroed_inputs : forall s g nd, inputs (zeroed s g nd) = inputs nd.
Proof.
  intros s g nd. unfold zeroed. destruct (N.eqb _ _); auto.
  rewrite inputs_tag_set. apply inputs_slot_set.
Qed.

Lemma zeroed_live : forall s g nd, tag_get s (zeroed s g nd) = cur_epoch s g.
Proof.
  intros s g nd. unfold zeroed. destruct (N.eqb _ _) eqn:E.
  - apply N.eqb_eq. exact E.
  - rewrite tag_get_set, Slot_eqb_refl. reflexivity.
Qed.

Lemma step_ok_ensure : forall Phi p s w nd,
  nth_error (nodes w) p = Some nd ->
  Phi (RdTag p s) -> Phi (WrSlot p s) -> Phi (WrTag p s) ->
  step_ok Phi w
    (mkWorld (upd p (zeroed s (graph w)) (nodes w)) (graph w)
             (trace w ++ RdTag p s ::
                (if N.eqb (tag_get s nd) (cur_epoch s (graph w)) then []
                 else [WrSlot p s; WrTag p s]))).
Proof.
  intros Phi p s w nd Hn HPr HPs HPt.
  apply step_ok_upd with (nd := nd).
  - exact Hn.
  - apply zeroed_op.
  - apply zeroed_inputs.
  - intros t. unfold zeroed. destruct (N.eqb _ _); auto.
    rewrite tag_get_set, tag_get_slot_set. destruct (Slot_eqb t s) eqn:E; auto.
    apply Slot_eqb_eq in E. subst t. auto.
  - intros t H. unfold zeroed in *. destruct (N.eqb _ _); auto.
    rewrite slot_get_tag_set, slot_get_set. destruct (Slot_eqb t s) eqn:E; auto.
    apply Slot_eqb_eq in E. subst t. exfalso. apply H. right; left; reflexivity.
  - intros t H. unfold zeroed in *. destruct (N.eqb _ _); auto.
    rewrite tag_get_set, tag_get_slot_set. destruct (Slot_eqb t s) eqn:E; auto.
    apply Slot_eqb_eq in E. subst t. exfalso. apply H. right; right; left; reflexivity.
  - intros q t Hw. assert (q = p /\ t = s) as [-> ->].
    { destruct (N.eqb _ _); destruct Hw as [H|H]; simpl in H;
        repeat (destruct H as [H|H]; [inversion H; auto|]); contradiction. }
    split; [reflexivity | apply zeroed_live].
  - destruct (N.eqb _ _); repeat constructor; auto.
Qed.

Lemma sound_ensure_epoch_zero : forall Sh L Phi p s,
  (p < length Sh)%nat ->
  Phi (RdTag p s) -> Phi (WrSlot p s) -> Phi (WrTag p s) ->
  sound Sh L Phi (ensure_epoch_zero p s) ((p, s) :: L).
Proof.
  intros Sh L Phi p s Hp HPr HPs HPt w HS HL.
  rewrite <- HS in Hp. destruct (shape_valid w p Hp) as [nd Hn].
  pose proof (step_ok_ensure Phi p s w nd Hn HPr HPs HPt) as S.
  eexists _, _. split; [apply (run_ensure_epoch_zero p s w nd Hn)|].
  split; [exact S|]. apply all_live_cons; [|exact (all_live_step _ _ _ _ S HL)].
  exists (zeroed s (graph w) nd). split.
  - simpl. apply nth_error_upd_same. exact Hn.
  - apply zeroed_live.
Qed.

Lemma step_ok_add : forall Phi p s v w nd,
  nth_error (nodes w) p = Some nd -> live_node s (graph w) nd ->
  Phi (RdSlot p s) -> Phi (WrSlot p s) ->
  step_ok Phi w (mkWorld (upd p (added s v) (nodes w)) (graph w)
                         (trace w ++ [RdSlot p s; WrSlot p s])).
Proof.
  intros Phi p s v w nd Hn Hlive HPr HPw.
  apply step_ok_upd with (nd := nd); unfold added.
  - exact Hn.
  - apply op_slot_set.
  - apply inputs_slot_set.
  - intros t. rewrite tag_get_slot_set. auto.
  - intros t H. rewrite slot_get_set. destruct (Slot_eqb t s) eqn:E; auto.
    apply Slot_eqb_eq in E. subst t. exfalso. apply H. right; left; reflexivity.
  - intros t _. apply tag_get_slot_set.
  - intros q t [H|H]; simpl in H; destruct H as [H|[H|[]]]; inversion H; subst.
    split; [reflexivity|]. rewrite tag_get_slot_set. exact Hlive.
  - repeat constructor; assumption.
Qed.

Lemma sound_add_assign : forall Sh L Phi p s v,
  In (p, s) L -> Phi (RdSlot p s) -> Phi (WrSlot p s) ->
  sound Sh L Phi (add_assign p s v) L.
Proof.
  intros Sh L Phi p s v HinL HPr HPw w HS HL.
  destruct (HL p s HinL) as [nd [Hn Hlive]].
  pose proof (step_ok_add Phi p s v w nd Hn Hlive HPr HPw) as S.
  eexists _, _. split; [apply (run_add_assign p s v w nd Hn)|].
  split; [exact S | exact (all_live_step _ _ _ _ S HL)].
Qed.

Lemma sound_for_each : forall (A : Type) Sh L Phi (body : A -> M unit) (l : list A),
  (forall x, In x l -> sound Sh L Phi (body x) L) -> sound Sh L Phi (for_each l body) L.
Proof.
  intros A Sh L Phi body l. induction l as [|x t IH]; intros H; simpl.
  - apply sound_ret.
  - eapply sound_bind; [apply H; left; reflexivity|].
    intros _. apply IH. intros y Hy. apply H. right; exact Hy.
Qed.

Lemma sound_map_M : forall (A B : Type) Sh L Phi (f : A -> M B) (l : list A),
  (forall x, In x l -> sound Sh L Phi (f x) L) -> sound Sh L Phi (map_M f l) L.
Proof.
  intros A B Sh L Phi f l. induction l as [|x t IH]; intros H; simpl.
  - apply sound_ret.
  - eapply sound_bind; [apply H; left; reflexivity|].
    intros y. eapply sound_bind; [apply IH; intros z Hz; apply H; right; exact Hz|].
    intros ys. apply sound_ret.
Qed.

Lemma sound_fold_M : forall (A B : Type) Sh L Phi (f : B -> A -> M B) (l : list A) (b : B),
  (forall b' x, In x l -> sound Sh L Phi (f b' x) L) -> sound Sh L Phi (fold_M f l b) L.
Proof.
  intros A B Sh L Phi f l. induction l as [|x t IH]; intros b H; simpl.
  - apply sound_ret.
  - eapply sound_bind; [apply H; left; reflexivity|].
    intros b'. apply IH. intros b'' y Hy. apply H. right; exact Hy.
Qed.

(** ** Footprint of a pass body, by symbolic traversal *)

Lemma unary_ok_shape : forall nd a, inputs nd = [Some a] -> _unary_ok nd = true.
Proof. intros nd a H. unfold _unary_ok. rewrite H. reflexivity. Qed.

Lemma unary_ok_inv : forall nd, _unary_ok nd = true -> exists a, inputs nd = [Some a].
Proof.
  intros nd H. unfold _unary_ok in H.
  destruct (inputs nd) as [|[a|] [|y t]]; simpl in H; try discriminate. eauto.
Qed.

Lemma binary_ok_inv : forall nd,
  _binary_ok nd = true -> exists a b, inputs nd = [Some a; Some b].
Proof.
  intros nd H. unfold _binary_ok in H.
  destruct (inputs nd) as [|[a|] [|[b|] [|z t]]]; simpl in H; try discriminate. eauto.
Qed.

Lemma nary_ok_inputs : forall nd ins,
  inputs nd = ins -> (0 < length ins)%nat -> _nary_ok nd = true.
Proof.
  intros nd ins H Hlen. unfold _nary_ok. rewrite H.
  destruct ins; simpl in *; [lia | reflexivity].
Qed.

Lemma sound_bind_deref : forall (A : Type) Sh L L' Phi p (k : nat -> M A),
  sound Sh L Phi (k p) L' -> sound Sh L Phi (bind (deref (Some p)) k) L'.
Proof. intros A Sh L L' Phi p k H. exact H. Qed.

Ltac solve_incl :=
  first [ apply incl_refl
        | let z := fresh "z" in let Hz := fresh "Hz" in
          intros z Hz; simpl in *; tauto ].

Ltac side_lt :=
  first [ assumption | lia ].

(** [resolve_ref Hval r]: turn the reference [r], known to be among the
    valid references, into [Some p]. *)
Ltac resolve_ref Hval r :=
  let Hr := fresh "Hr" in
  let p := fresh "p" in
  let Hp := fresh "Hp" in
  let Hin := fresh "Hin" in
  let E := fresh "E" in
  assert (Hr : In r _) by (first [ eassumption | apply nth_In; side_lt ]);
  destruct (Hval r Hr) as [p [E Hp]];
  assert (Hin : In (Some p) _) by (rewrite <- E; exact Hr);
  clear Hr; rewrite E; clear E.

Ltac sound_go Harity Hval phi :=
  cbv zeta;
  lazymatch goal with
  | |- sound _ _ _ (bind (node_at _) _) _ =>
      let nd' := fresh "nd'" in
      let Ho := fresh "Ho" in
      let Hi := fresh "Hi" in
      let Ha := fresh "Ha" in
      eapply sound_node_at_bind; [eassumption | intros nd' Ho Hi];
      pose proof (Harity nd' Hi) as Hq; cbn [arity_ok] in Hq;
      try rewrite Hq; cbn [negb]; clear Hq;
      rewrite ?Hi; cbn [nth]; sound_go Harity Hval phi
  | |- sound _ _ _ (bind (deref (Some _)) _) _ =>
      apply sound_bind_deref; sound_go Harity Hval phi
  | |- sound _ _ _ (bind (deref ?r) _) _ =>
      resolve_ref Hval r; sound_go Harity Hval phi
  | |- sound _ _ _ (bind _ _) _ =>
      eapply sound_bind; [sound_atom Harity Hval phi | intros ?; sound_go Harity Hval phi]
  | |- sound _ _ _ (if ?c then _ else _) _ =>
      let E := fresh "E" in
      destruct c eqn:E; try (apply Nat.eqb_eq in E); sound_go Harity Hval phi
  | |- _ => eapply sound_post; [sound_atom Harity Hval phi | solve_incl]
  end
with sound_atom Harity Hval phi :=
  lazymatch goal with
  | |- sound _ _ _ (ret _) _ => apply sound_ret
  | |- sound _ _ _ (deref (Some _)) _ => apply sound_deref
  | |- sound _ _ _ (rd _ _) _ => apply sound_rd; [side_lt | phi]
  | |- sound _ _ _ (touch_epoch _ _) _ => apply sound_touch_epoch; [side_lt | phi]
  | |- sound _ _ _ (set_epoch_value _ _ _) _ =>
      apply sound_set_epoch_value; [side_lt | phi | phi]
  | |- sound _ _ _ (ensure_epoch_zero _ _) _ =>
      apply sound_ensure_epoch_zero; [side_lt | phi | phi | phi]
  | |- sound _ _ _ (add_assign _ _ _) _ =>
      apply sound_add_assign; [simpl; tauto | phi | phi]
  | |- sound _ _ _ (if _ then _ else _) _ =>
      eapply sound_if; sound_go Harity Hval phi
  | |- sound _ _ _ (for_each _ _) _ =>
      let x := fresh "x" in let Hx := fresh "Hx" in
      apply sound_for_each; intros x Hx; try (apply in_seq in Hx);
      sound_go Harity Hval phi
  | |- sound _ _ _ (map_M _ _) _ =>
      let x := fresh "x" in let Hx := fresh "Hx" in
      apply sound_map_M; intros x Hx; sound_go Harity Hval phi
  | |- sound _ _ _ (fold_M _ _ _) _ =>
      let b := fresh "b" in let x := fresh "x" in let Hx := fresh "Hx" in
      apply sound_fold_M; intros b x Hx; sound_go Harity Hval phi
  | |- sound _ _ _ (bind _ _) _ => sound_go Harity Hval phi
  end.

Ltac unfold_pass :=
  cbn [OpTraits_pass OpTraits_forward OpTraits_forward_dot OpTraits_backward
       OpTraits_hvp_backward];
  unfold cte_forward, cte_forward_dot, cte_backward, cte_hvp_backward,
         Var_forward, Var_forward_dot, Var_backward, Var_hvp_backward,
         UnaryOp_forward, UnaryOp_forward_dot, UnaryOp_backward, UnaryOp_hvp_backward,
         BinaryOp_forward, BinaryOp_forward_dot, BinaryOp_backward, BinaryOp_hvp_backward,
         Add_forward, Add_forward_dot, Add_backward, Add_hvp_backward,
         Multiply_forward, Multiply_forward_dot, Multiply_backward, Multiply_hvp_backward,
         Softmax_forward, Softmax_forward_dot, Softmax_backward, Softmax_hvp_backward,
         Max_forward, Max_forward_dot, Max_backward, Max_hvp_backward;
  cbn [uforward_dot bforward_dot SinRule CosRule ExpRule LogRule TanRule TanhRule
       SiLURule GELURule ReluRule AddRule SubRule DivRule];
  unfold LogRule_forward_dot, TanRule_forward_dot, DivRule_forward_dot,
         read_values, read_values_dots.

(** What the arity predicate of [o] says about the input list. *)
Ltac arity_shape Harity Hval Sh ins :=
  let Hok := fresh "Hok" in
  pose proof (Harity (mkNode cte ins 0 0 0 0 0 0 0 0) eq_refl) as Hok;
  cbn [arity_ok] in Hok;
  lazymatch type of Hok with
  | _unary_ok _ = true =>
      apply unary_ok_inv in Hok;
      let a := fresh "a" in let Ea := fresh "Ea" in let Ha := fresh "Ha" in
      destruct Hok as [a Ea]; cbn [inputs] in Ea; subst ins;
      assert (Ha : (a < length Sh)%nat)
        by (destruct (Hval (Some a)) as [? [E ?]];
            [left; reflexivity | inversion E; subst; assumption])
  | _binary_ok _ = true =>
      apply binary_ok_inv in Hok;
      let a := fresh "a" in let b := fresh "b" in
      let Ea := fresh "Ea" in let Ha := fresh "Ha" in let Hb := fresh "Hb" in
      destruct Hok as [a [b Ea]]; cbn [inputs] in Ea; subst ins;
      assert (Ha : (a < length Sh)%nat)
        by (destruct (Hval (Some a)) as [? [E ?]];
            [left; reflexivity | inversion E; subst; assumption]);
      assert (Hb : (b < length Sh)%nat)
        by (destruct (Hval (Some b)) as [? [E ?]];
            [right; left; reflexivity | inversion E; subst; assumption])
  | _nary_ok _ = true =>
      let Hlen := fresh "Hlen" in
      assert (Hlen : (0 < length ins)%nat)
        by (unfold _nary_ok in Hok; cbn [inputs] in Hok;
            destruct ins; [discriminate | simpl; lia]);
      clear Hok
  | _ => clear Hok
  end.

(** The slots a pass is certain to leave live on the node it visits. *)
Definition own_slots (P : Pass) (o : Operator) (n : nat) : list (nat * Slot) :=
  match o with
  | OpOther _ => []
  | _ => match P with
         | PForward => [(n, SValue)]
         | PForwardDot => [(n, SDot); (n, SValue)]
         | PBackward | PHvpBackward => []
         end
  end.

Lemma pass_sound_any :
  forall (P : Pass) (o : Operator) (Sh : list (Operator * list (option nat)))
         (n : nat) (o' : Operator) (ins : list (option nat)),
  nth_error Sh n = Some (o', ins) ->
  (forall nd, inputs nd = ins -> arity_ok o nd = true) ->
  (forall r, In r ins -> exists p, r = Some p /\ (p < length Sh)%nat) ->
  sound Sh [] (fun _ => True) (OpTraits_pass P o n) (own_slots P o n).
Proof.
  intros P o Sh n o' ins HSh Harity Hval.
  assert (Hn : (n < length Sh)%nat) by (apply nth_error_Some; congruence).
  destruct o; cbn [own_slots]; arity_shape Harity Hval Sh ins;
    destruct P; unfold_pass; sound_go Harity Hval ltac:(exact I).
Qed.

Lemma arity_ok_inputs : forall o nd1 nd2,
  inputs nd1 = inputs nd2 -> arity_ok o nd1 = arity_ok o nd2.
Proof.
  intros o nd1 nd2 H.
  destruct o; simpl; unfold _unary_ok, _binary_ok, _nary_ok; rewrite ?H; reflexivity.
Qed.

Lemma shape_nth : forall w n nd,
  nth_error (nodes w) n = Some nd -> nth_error (shape w) n = Some (op nd, inputs nd).
Proof.
  intros w n nd H. unfold shape. rewrite nth_error_map, H. reflexivity.
Qed.

Lemma valid_refs_shape : forall w ins,
  forallb (valid_ref (nodes w)) ins = true ->
  forall r, In r ins -> exists p, r = Some p /\ (p < length (shape w))%nat.
Proof.
  intros w ins H r Hr. rewrite forallb_forall in H. specialize (H r Hr).
  destruct r as [p|]; simpl in H; [|discriminate].
  exists p. split; [reflexivity|]. unfold shape. rewrite length_map.
  apply Nat.ltb_lt. exact H.
Qed.

Lemma live_tag_of : forall w p s,
  live w p s -> tag_of w p s = Some (cur_epoch s (graph w)).
Proof.
  intros w p s [nd [Hn Hl]]. unfold tag_of. rewrite Hn. simpl. f_equal. exact Hl.
Qed.

(** * Epoch tags of written slots *)

(** C4: for every pass of every operator on a node that satisfies the
    operator's arity predicate (its input references pointing into the
    graph), the pass returns, leaves the graph counters alone, and every slot
    or epoch tag it wrote, as recorded by the access trace, belongs to an
    accumulator whose tag now equals the graph's counter for that
    accumulator; for the seventeen operators this includes the node's own
    value after forward and its own dot (and value) after forward_dot. *)
Theorem written_slots_are_live :
  forall (P : Pass) (o : Operator) (w : World) (n : nat) (nd : ADNode),
  nth_error (nodes w) n = Some nd ->
  arity_ok o nd = true ->
  forallb (valid_ref (nodes w)) (inputs nd) = true ->
  exists (w' : World) (l : list Access),
    OpTraits_pass P o n w = Some (tt, w') /\
    graph w' = graph w /\
    trace w' = trace w ++ l /\
    (forall p s, writes l p s -> tag_of w' p s = Some (cur_epoch s (graph w'))) /\
    (forall p s, In (p, s) (own_slots P o n) ->
                 tag_of w' p s = Some (cur_epoch s (graph w'))).
Proof.
  intros P o w n nd Hn Hok Hval.
  destruct (pass_sound_any P o (shape w) n (op nd) (inputs nd)) with (w := w)
    as [[] [w' [E [S HL]]]].
  - apply shape_nth. exact Hn.
  - intros nd' Hi. rewrite (arity_ok_inputs o nd' nd Hi). exact Hok.
  - apply valid_refs_shape. exact Hval.
  - reflexivity.
  - intros p s [].
  - destruct (so_trace _ _ _ S) as [l [Ht [_ [_ [_ Hw]]]]].
    exists w', l. split; [exact E|]. split; [exact (so_graph _ _ _ S)|].
    split; [exact Ht|]. split.
    + intros p s H. apply live_tag_of. apply Hw. exact H.
    + intros p s H. apply live_tag_of. apply HL. exact H.
Qed.

Lemma written_slots_are_live_witness :
  exists (w' : World) (l : list Access),
    OpTraits_pass PHvpBackward Divide 2 divide_world = Some (tt, w') /\
    trace w' = trace divide_world ++ l /\
    (forall p s, writes l p s -> tag_of w' p s = Some (cur_epoch s (graph w'))).
Proof.
  destruct (written_slots_are_live PHvpBackward Divide divide_world 2 _
              eq_refl eq_refl eq_refl) as [w' [l [E [_ [Ht [Hw _]]]]]].
  exists w', l. split; [exact E|]. split; [exact Ht | exact Hw].
Defined.

(** * Frame of the reverse passes *)

(** The accesses a reverse pass on node [n] with input references [ins] may
    make: of [n] itself it reads only [gradient] and [grad_dot]; tags are
    read and slots and tags are written only on the gradient and grad_dot
    accumulators of input nodes. *)
Definition reverse_access_ok (n : nat) (ins : list (option nat)) (a : Access) : Prop :=
  match a with
  | RdSlot p s => p = n -> s = SGradient \/ s = SGradDot
  | RdTag p s | WrSlot p s | WrTag p s =>
      In (Some p) ins /\ (s = SGradient \/ s = SGradDot)
  end.

Ltac phi_reverse Hnin :=
  cbn [reverse_access_ok];
  first [ solve [ intros _; auto ]
        | solve [ intros ->; exfalso; apply Hnin; first [ assumption | simpl; tauto ] ]
        | solve [ split; [ first [ assumption | simpl; tauto ] | auto ] ] ].

Lemma pass_sound_reverse :
  forall (P : Pass) (o : Operator) (Sh : list (Operator * list (option nat)))
         (n : nat) (o' : Operator) (ins : list (option nat)),
  P = PBackward \/ P = PHvpBackward ->
  nth_error Sh n = Some (o', ins) ->
  ~ In (Some n) ins ->
  (forall nd, inputs nd = ins -> arity_ok o nd = true) ->
  (forall r, In r ins -> exists p, r = Some p /\ (p < length Sh)%nat) ->
  sound Sh [] (reverse_access_ok n ins) (OpTraits_pass P o n) [].
Proof.
  intros P o Sh n o' ins HP HSh Hnin Harity Hval.
  assert (Hn : (n < length Sh)%nat) by (apply nth_error_Some; congruence).
  destruct HP as [-> | ->];
    destruct o; arity_shape Harity Hval Sh ins;
    unfold_pass; sound_go Harity Hval ltac:(phi_reverse Hnin).
Qed.

Lemma node_ext : forall nd nd' : ADNode,
  op nd' = op nd -> inputs nd' = inputs nd ->
  (forall s, slot_get s nd' = slot_get s nd) ->
  (forall s, tag_get s nd' = tag_get s nd) ->
  nd' = nd.
Proof.
  intros [o i v d g gd ve de ge gde] [o' i' v' d' g' gd' ve' de' ge' gde'] Ho Hi Hs Ht.
  simpl in Ho, Hi.
  pose proof (Hs SValue) as H1. pose proof (Hs SDot) as H2.
  pose proof (Hs SGradient) as H3. pose proof (Hs SGradDot) as H4.
  pose proof (Ht SValue) as H5. pose proof (Ht SDot) as H6.
  pose proof (Ht SGradient) as H7. pose proof (Ht SGradDot) as H8.
  simpl in *. congruence.
Qed.

(** C10: backward and hvp_backward of every operator, run on a node that is
    not among its own inputs (the graph is acyclic) and whose input
    references point into the graph, return and leave the visited node
    exactly as it was: its four slots and four epoch tags are unchanged.  Of
    the node itself they read only gradient and grad_dot; every tag they read
    and every slot or tag they write is a gradient or grad_dot accumulator of
    one of the node's inputs. *)
Theorem reverse_pass_frame :
  forall (P : Pass) (o : Operator) (w : World) (n : nat) (nd : ADNode),
  P = PBackward \/ P = PHvpBackward ->
  nth_error (nodes w) n = Some nd ->
  ~ In (Some n) (inputs nd) ->
  forallb (valid_ref (nodes w)) (inputs nd) = true ->
  exists (w' : World) (l : list Access),
    OpTraits_pass P o n w = Some (tt, w') /\
    nth_error (nodes w') n = Some nd /\
    graph w' = graph w /\
    trace w' = trace w ++ l /\
    Forall (reverse_access_ok n (inputs nd)) l.
Proof.
  intros P o w n nd HP Hn Hnin Hval.
  destruct (arity_ok o nd) eqn:Hok.
  - destruct (pass_sound_reverse P o (shape w) n (op nd) (inputs nd) HP) with (w := w)
      as [[] [w' [E [S _]]]].
    + apply shape_nth. exact Hn.
    + exact Hnin.
    + intros nd' Hi. rewrite (arity_ok_inputs o nd' nd Hi). exact Hok.
    + apply valid_refs_shape. exact Hval.
    + reflexivity.
    + intros p s [].
    + destruct (so_trace _ _ _ S) as [l [Ht [HF [Hs [Htg _]]]]].
      exists w', l. split; [exact E|]. split; [|split; [exact (so_graph _ _ _ S)|auto]].
      assert (Hnw : forall s, ~ In (WrSlot n s) l /\ ~ In (WrTag n s) l).
      { intros s. rewrite Forall_forall in HF.
        split; intro H; apply HF in H; simpl in H; tauto. }
      pose proof (shape_nth w n nd Hn) as HSn.
      rewrite <- (so_shape _ _ _ S) in HSn.
      destruct (shape_lookup w' n _ _ HSn) as [nd' [Hn' [Ho Hi]]].
      rewrite Hn'. f_equal. apply node_ext; auto.
      * intros s. pose proof (Hs n s (proj1 (Hnw s))) as H.
        unfold slot_of in H. rewrite Hn, Hn' in H. simpl in H. congruence.
      * intros s. pose proof (Htg n s (proj2 (Hnw s))) as H.
        unfold tag_of in H. rewrite Hn, Hn' in H. simpl in H. congruence.
  - exists w, []. rewrite (arity_guard_noop P o n w nd Hn Hok), app_nil_r.
    repeat split; auto.
Qed.

Lemma reverse_pass_frame_witness :
  exists (w' : World) (l : list Access),
    OpTraits_pass PHvpBackward Divide 2 divide_world = Some (tt, w') /\
    nth_error (nodes w') 2 = nth_error (nodes divide_world) 2.
Proof.
  destruct (reverse_pass_frame PHvpBackward Divide divide_world 2 _
              (or_intror eq_refl) eq_refl) as [w' [l [E [Hn _]]]].
  - simpl. intros [H|[H|[]]]; discriminate.
  - reflexivity.
  - exists w', l. split; [exact E | exact Hn].
Defined.

(** * N-ary Add against the binary template *)

(** [BinaryOp<Rule, Name>::pass], the generic binary template by pass. *)
Definition BinaryOp_pass (P : Pass) (B : BinaryRule) (n : nat) : M unit :=
  match P with
  | PForward => BinaryOp_forward B n
  | PForwardDot => BinaryOp_forward_dot B n
  | PBackward => BinaryOp_backward B n
  | PHvpBackward => BinaryOp_hvp_backward B n
  end.

(** Arenas built by chains of [upd] are compared node by node and field by
    field. *)
Lemma slot_get_added : forall s t v x,
  slot_get s (added t v x) = if Slot_eqb s t then slot_get s x + v else slot_get s x.
Proof. intros [] [] v x; reflexivity. Qed.

Lemma tag_get_added : forall s t v x, tag_get s (added t v x) = tag_get s x.
Proof. intros [] [] v x; reflexivity. Qed.

Lemma slot_get_zeroed : forall s t g x,
  slot_get s (zeroed t g x) = if Slot_eqb s t then effective s g x else slot_get s x.
Proof.
  intros s t g x. unfold zeroed, effective.
  destruct (Slot_eqb s t) eqn:E.
  - apply Slot_eqb_eq in E. subst t.
    destruct (N.eqb (tag_get s x) (cur_epoch s g)); [reflexivity|].
    rewrite slot_get_tag_set, slot_get_set, Slot_eqb_refl. reflexivity.
  - destruct (N.eqb (tag_get t x) (cur_epoch t g)); [reflexivity|].
    rewrite slot_get_tag_set, slot_get_set, E. reflexivity.
Qed.

Lemma tag_get_zeroed : forall s t g x,
  tag_get s (zeroed t g x) = if Slot_eqb s t then cur_epoch s g else tag_get s x.
Proof.
  intros s t g x. destruct (Slot_eqb s t) eqn:E.
  - apply Slot_eqb_eq in E. subst t. apply zeroed_live.
  - unfold zeroed. destruct (N.eqb (tag_get t x) (cur_epoch t g)); [reflexivity|].
    rewrite tag_get_set, tag_get_slot_set, E. reflexivity.
Qed.

Lemma slot_get_produced : forall s t g v x,
  slot_get s (produced t g v x) = if Slot_eqb s t then v else slot_get s x.
Proof. intros s t g v x. unfold produced. rewrite slot_get_tag_set. apply slot_get_set. Qed.

Lemma tag_get_produced : forall s t g v x,
  tag_get s (produced t g v x) = if Slot_eqb s t then cur_epoch t g else tag_get s x.
Proof. intros s t g v x. unfold produced. rewrite tag_get_set, tag_get_slot_set. reflexivity. Qed.

Lemma slot_get_touched : forall s t g x, slot_get s (touched t g x) = slot_get s x.
Proof. intros s t g x. apply slot_get_tag_set. Qed.

Lemma tag_get_touched : forall s t g x,
  tag_get s (touched t g x) = if Slot_eqb s t then cur_epoch t g else tag_get s x.
Proof. intros s t g x. apply tag_get_set. Qed.

Lemma op_added : forall s v x, op (added s v x) = op x.
Proof. intros. apply op_slot_set. Qed.

Lemma inputs_added : forall s v x, inputs (added s v x) = inputs x.
Proof. intros. apply inputs_slot_set. Qed.

Lemma op_produced : forall s g v x, op (produced s g v x) = op x.
Proof. intros. unfold produced. rewrite op_tag_set. apply op_slot_set. Qed.

Lemma inputs_produced : forall s g v x, inputs (produced s g v x) = inputs x.
Proof. intros. unfold produced. rewrite inputs_tag_set. apply inputs_slot_set. Qed.

Lemma op_touched : forall s g x, op (touched s g x) = op x.
Proof. intros. apply op_tag_set. Qed.

Lemma inputs_touched : forall s g x, inputs (touched s g x) = inputs x.
Proof. intros. apply inputs_tag_set. Qed.

Create Rewrite HintDb node_simpl.

#[local] Hint Rewrite slot_get_added tag_get_added slot_get_zeroed tag_get_zeroed
  slot_get_produced tag_get_produced slot_get_touched tag_get_touched
  op_added inputs_added zeroed_op zeroed_inputs op_produced inputs_produced
  op_touched inputs_touched accumulated_op accumulated_inputs : node_simpl.

Ltac node_fields :=
  unfold accumulated, effective;
  repeat (progress (autorewrite with node_simpl; cbn [Slot_eqb]; rewrite ?N.eqb_refl);
          unfold effective);
  repeat match goal with
         | |- context [N.eqb ?a ?b] => destruct (N.eqb a b)
         end;
  first [ reflexivity | lra ].

Ltac node_eq :=
  apply node_ext;
  [ node_fields | node_fields
  | let s := fresh "s" in intros s; destruct s; node_fields
  | let s := fresh "s" in intros s; destruct s; node_fields ].

Ltac arena_eq :=
  let q := fresh "q" in
  let x := fresh "x" in
  apply nth_error_ext; intro q; rewrite !nth_error_upd;
  repeat match goal with
         | |- context [(?a =? q)%nat] => destruct (a =? q)%nat
         end;
  destruct (nth_error _ q) as [x|]; cbn [option_map]; try reflexivity;
  f_equal; node_eq.

Lemma nary_ok_pair : forall nd pa pb,
  inputs nd = [Some pa; Some pb] -> _nary_ok nd = true.
Proof. intros nd pa pb H. unfold _nary_ok. rewrite H. reflexivity. Qed.

(** C8: on an Add node with exactly two inputs, both pointing into the graph
    and neither being the node itself, each of the four passes of the n-ary
    Add specialisation and of [BinaryOp<AddRule>] returns, and the two leave
    the same arena (every slot and epoch tag of every node) and the same
    graph counters. *)
Theorem add_nary_matches_binary :
  forall (P : Pass) (w : World) (n pa pb : nat) (nd na nb : ADNode),
  nth_error (nodes w) n = Some nd ->
  inputs nd = [Some pa; Some pb] ->
  nth_error (nodes w) pa = Some na ->
  nth_error (nodes w) pb = Some nb ->
  pa <> n -> pb <> n ->
  exists w1 w2 : World,
    OpTraits_pass P Add n w = Some (tt, w1) /\
    BinaryOp_pass P AddRule n w = Some (tt, w2) /\
    nodes w1 = nodes w2 /\ graph w1 = graph w2.
Proof.
  intros P w n pa pb nd na nb Hn Hin Ha Hb Han Hbn.
  pose proof (binary_ok_shape nd pa pb Hin) as Hok2.
  pose proof (nary_ok_pair nd pa pb Hin) as Hokn.
  apply Nat.eqb_neq in Han, Hbn.
  assert (H : exists ns1 ns2,
             eval (OpTraits_pass P Add n) (nodes w) (graph w) tt ns1 /\
             eval (BinaryOp_pass P AddRule n) (nodes w) (graph w) tt ns2 /\
             ns1 = ns2).
  { destruct P; cbn [OpTraits_pass OpTraits_forward OpTraits_forward_dot
                     OpTraits_backward OpTraits_hvp_backward BinaryOp_pass];
      unfold Add_forward, Add_forward_dot, Add_backward, Add_hvp_backward,
             BinaryOp_forward, BinaryOp_forward_dot, BinaryOp_backward,
             BinaryOp_hvp_backward;
      eexists; eexists; (split; [|split]).
    all: try (eapply eval_bind; [apply eval_node_at; eassumption|]; cbv beta;
              rewrite ?Hok2, ?Hokn, Hin; cbn [negb nth for_each fold_M bforward_dot AddRule];
              eval_all).
    all: rewrite ?Han, ?Hbn; cbn [slot_get bf bdfa bdfb bd2aa bd2ab bd2bb AddRule].
    all: arena_eq. }
  destruct H as [ns1 [ns2 [H1 [H2 E]]]].
  destruct (eval_run _ _ w tt _ H1) as [w1 [E1 [N1 G1]]].
  destruct (eval_run _ _ w tt _ H2) as [w2 [E2 [N2 G2]]].
  exists w1, w2. repeat split; congruence.
Qed.

Definition add_world : World :=
  mkWorld [ mkNode Var [] 2 1 0 0 0 0 0 0;
            mkNode Var [] 3 0 0 0 0 0 0 0;
            mkNode Add [Some 0%nat; Some 1%nat] 0 0 1 0 0 0 1 0 ]
          (mkGraph 1 1 1 1) [].

Lemma add_nary_matches_binary_witness :
  exists w1 w2 : World,
    OpTraits_pass PHvpBackward Add 2 add_world = Some (tt, w1) /\
    BinaryOp_pass PHvpBackward AddRule 2 add_world = Some (tt, w2) /\
    nodes w1 = nodes w2 /\ graph w1 = graph w2.
Proof.
  apply (add_nary_matches_binary PHvpBackward add_world 2 0 1 _ _ _
           eq_refl eq_refl eq_refl eq_refl); discriminate.
Defined.

(** * Prefix and suffix products *)

(** The product of the entries of [vals] at the indices [idx]. *)
Definition vprod (vals : list R) (idx : list nat) : R :=
  fold_right (fun l acc => nth l vals 0 * acc) 1 idx.

Lemma vprod_app : forall vals i1 i2,
  vprod vals (i1 ++ i2) = vprod vals i1 * vprod vals i2.
Proof.
  intros vals i1 i2. induction i1 as [|l t IH]; simpl; [ring|].
  rewrite IH. ring.
Qed.

Lemma vprod_seq_S : forall vals a k,
  vprod vals (seq a (S k)) = vprod vals (seq a k) * nth (a + k) vals 0.
Proof.
  intros vals a k. rewrite seq_S, vprod_app. simpl. ring.
Qed.

Lemma nth_repeat_1 : forall k i, nth i (repeat 1 k) 0 = if (i <? k)%nat then 1 else 0.
Proof.
  induction k as [|k IH]; intros [|i]; simpl; auto.
Qed.

Definition pre_step (vals : list R) (pre : list R) (i : nat) : list R :=
  list_set (i + 1) (nth i pre 0 * nth i vals 0) pre.

Definition suf_step (vals : list R) (suf : list R) (i : nat) : list R :=
  list_set i (nth (i + 1) suf 0 * nth i vals 0) suf.

Lemma pre_loop_spec : forall vals k,
  (k <= length vals)%nat ->
  let pre := fold_left (pre_step vals) (seq 0 k) (repeat 1 (length vals + 1)) in
  length pre = (length vals + 1)%nat /\
  forall i, (i <= k)%nat -> nth i pre 0 = vprod vals (seq 0 i).
Proof.
  intros vals k. induction k as [|k IH]; intros Hk; cbv zeta.
  - simpl. split; [apply repeat_length|].
    intros i Hi. assert (i = 0)%nat by lia. subst i.
    rewrite nth_repeat_1. destruct (0 <? length vals + 1)%nat eqn:E; [reflexivity|].
    apply Nat.ltb_ge in E. lia.
  - rewrite seq_S, fold_left_app. simpl fold_left.
    destruct IH as [Hlen Hnth]; [lia|].
    set (pre := fold_left (pre_step vals) (seq 0 k) (repeat 1 (length vals + 1))) in *.
    unfold pre_step. simpl Nat.add. split; [rewrite list_set_length; exact Hlen|].
    intros i Hi. destruct (Nat.eq_dec i (k + 1)) as [->|Hne].
    + rewrite nth_list_set_eq by lia. rewrite Hnth by lia.
      replace (k + 1)%nat with (S k) by lia. rewrite vprod_seq_S. reflexivity.
    + rewrite nth_list_set_ne by lia. apply Hnth. lia.
Qed.

Lemma suf_loop_spec : forall vals d,
  (d <= length vals)%nat ->
  let m := length vals in
  let suf := fold_left (suf_step vals) (rev (seq (m - d) d)) (repeat 1 (m + 1)) in
  length suf = (m + 1)%nat /\
  forall i, (m - d <= i <= m)%nat -> nth i suf 0 = vprod vals (seq i (m - i)).
Proof.
  intros vals d. induction d as [|d IH]; intros Hd; cbv zeta.
  - simpl. split; [apply repeat_length|].
    intros i Hi. assert (i = length vals) by lia. subst i.
    rewrite nth_repeat_1, Nat.sub_diag. simpl.
    destruct (length vals <? length vals + 1)%nat eqn:E; [reflexivity|].
    apply Nat.ltb_ge in E. lia.
  - replace (seq (length vals - S d) (S d))
      with ((length vals - S d)%nat :: seq (length vals - d) d)
      by (simpl; f_equal; f_equal; lia).
    simpl rev. rewrite fold_left_app. simpl fold_left.
    destruct IH as [Hlen Hnth]; [lia|].
    set (suf := fold_left (suf_step vals) (rev (seq (length vals - d) d))
                          (repeat 1 (length vals + 1))) in *.
    unfold suf_step. split; [rewrite list_set_length; exact Hlen|].
    intros i Hi. destruct (Nat.eq_dec i (length vals - S d)) as [->|Hne].
    + rewrite nth_list_set_eq by lia. rewrite Hnth by lia.
      replace (length vals - (length vals - S d))%nat
        with (S (length vals - (length vals - S d + 1))) by lia.
      simpl vprod. replace (S (length vals - S d)) with (length vals - S d + 1)%nat by lia.
      ring.
    + rewrite nth_list_set_ne by lia. apply Hnth. lia.
Qed.

Lemma build_prefix_suffix_spec : forall vals,
  let m := length vals in
  let ps := build_prefix_suffix vals in
  (forall i, (i <= m)%nat -> nth i (fst ps) 0 = vprod vals (seq 0 i)) /\
  (forall i, (i <= m)%nat -> nth i (snd ps) 0 = vprod vals (seq i (m - i))).
Proof.
  intros vals. cbv zeta. unfold build_prefix_suffix. simpl fst. simpl snd. split.
  - intros i Hi.
    destruct (pre_loop_spec vals (length vals) (le_n _)) as [_ H].
    apply H. exact Hi.
  - intros i Hi.
    destruct (suf_loop_spec vals (length vals) (le_n _)) as [_ H].
    rewrite Nat.sub_diag in H. apply H. lia.
Qed.

(** The early exit of the middle product does not change its value. *)
Lemma mid_loop_spec : forall vals ts acc,
  mid_loop vals ts acc = acc * vprod vals ts.
Proof.
  intros vals ts. induction ts as [|t ts IH]; intros acc; simpl; [ring|].
  unfold Rneqb. destruct (Req_dec_T (acc * nth t vals 0) 0) as [E|E].
  - rewrite <- Rmult_assoc, E. ring.
  - rewrite IH. ring.
Qed.

(** ** Products that leave indices out *)

(** The indices below [m] other than [i]. *)
Definition others (m i : nat) : list nat :=
  filter (fun l => negb (l =? i)%nat) (seq 0 m).

(** The indices below [m] other than [i] and [k]. *)
Definition others2 (m i k : nat) : list nat :=
  filter (fun l => negb (l =? i)%nat && negb (l =? k)%nat) (seq 0 m).

Lemma filter_seq_all : forall (f : nat -> bool) a k,
  (forall l, (a <= l < a + k)%nat -> f l = true) -> filter f (seq a k) = seq a k.
Proof.
  intros f a k. revert a. induction k as [|k IH]; intros a H; simpl; [reflexivity|].
  rewrite H by lia. f_equal. apply IH. intros l Hl. apply H. lia.
Qed.

Lemma seq_split3 : forall m i,
  (i < m)%nat -> seq 0 m = seq 0 i ++ [i] ++ seq (i + 1) (m - i - 1).
Proof.
  intros m i H. replace m with (i + (1 + (m - i - 1)))%nat at 1 by lia.
  rewrite seq_app. f_equal. rewrite seq_app. simpl. reflexivity.
Qed.

Lemma others_split : forall m i,
  (i < m)%nat -> others m i = seq 0 i ++ seq (i + 1) (m - i - 1).
Proof.
  intros m i H. unfold others. rewrite (seq_split3 m i H), !filter_app.
  rewrite (filter_seq_all _ 0 i), (filter_seq_all _ (i + 1) (m - i - 1)).
  - simpl. rewrite Nat.eqb_refl. reflexivity.
  - intros l Hl. apply negb_true_iff, Nat.eqb_neq. lia.
  - intros l Hl. apply negb_true_iff, Nat.eqb_neq. lia.
Qed.

Lemma others2_split : forall m a b,
  (a < b)%nat -> (b < m)%nat ->
  others2 m a b = seq 0 a ++ seq (a + 1) (b - (a + 1)) ++ seq (b + 1) (m - b - 1).
Proof.
  intros m a b Hab Hb. unfold others2.
  rewrite (seq_split3 m a) by lia. rewrite !filter_app.
  rewrite (filter_seq_all _ 0 a).
  2:{ intros l Hl. apply andb_true_iff; split; apply negb_true_iff, Nat.eqb_neq; lia. }
  f_equal. simpl filter at 1. rewrite Nat.eqb_refl. simpl.
  replace (m - a - 1)%nat with ((b - (a + 1)) + (1 + (m - b - 1)))%nat by lia.
  rewrite seq_app, filter_app.
  rewrite (filter_seq_all _ (a + 1) (b - (a + 1))).
  2:{ intros l Hl. apply andb_true_iff; split; apply negb_true_iff, Nat.eqb_neq; lia. }
  f_equal. replace (a + 1 + (b - (a + 1)))%nat with b by lia.
  rewrite seq_app, filter_app. simpl filter at 1.
  rewrite Nat.eqb_refl, andb_false_r. simpl.
  apply filter_seq_all.
  intros l Hl. apply andb_true_iff; split; apply negb_true_iff, Nat.eqb_neq; lia.
Qed.

Lemma others2_sym : forall m i k, others2 m i k = others2 m k i.
Proof.
  intros m i k. unfold others2. apply filter_ext. intros l. apply andb_comm.
Qed.

(** * Sequences of accumulations *)

(** One accumulation [ensure_epoch_zero(a.slot) += v]: target node, slot,
    amount. *)
Definition apply_acc (g : ADGraph) (ns : list ADNode) (u : nat * Slot * R) : list ADNode :=
  upd (fst (fst u)) (accumulated (snd (fst u)) g (snd u)) ns.

Definition apply_accs (g : ADGraph) (us : list (nat * Slot * R)) (ns : list ADNode)
  : list ADNode :=
  fold_left (apply_acc g) us ns.

Definition acc_hits (j : nat) (s : Slot) (u : nat * Slot * R) : bool :=
  (fst (fst u) =? j)%nat && Slot_eqb (snd (fst u)) s.

(** The total amount a sequence of accumulations adds to slot [s] of node [j]. *)
Definition acc_total (us : list (nat * Slot * R)) (j : nat) (s : Slot) : R :=
  Rsum (map snd (filter (acc_hits j s) us)).

Definition node_after (g : ADGraph) (us : list (nat * Slot * R)) (j : nat) (x : ADNode)
  : ADNode :=
  fold_left (fun x u => if (fst (fst u) =? j)%nat
                        then accumulated (snd (fst u)) g (snd u) x else x) us x.

Lemma nth_error_apply_accs : forall g us ns j,
  nth_error (apply_accs g us ns) j = option_map (node_after g us j) (nth_error ns j).
Proof.
  intros g us. unfold apply_accs.
  induction us as [|[[a s] v] t IH]; intros ns j; simpl.
  - destruct (nth_error ns j); reflexivity.
  - rewrite IH. unfold apply_acc. simpl.
    rewrite nth_error_upd.
    destruct (a =? j)%nat eqn:E; destruct (nth_error ns j); simpl;
      unfold node_after; simpl; rewrite ?E; reflexivity.
Qed.

Lemma apply_accs_length : forall g us ns, length (apply_accs g us ns) = length ns.
Proof.
  intros g us. unfold apply_accs.
  induction us as [|u t IH]; intros ns; simpl; [reflexivity|].
  rewrite IH. apply upd_length.
Qed.

Lemma apply_accs_app : forall g us1 us2 ns,
  apply_accs g (us1 ++ us2) ns = apply_accs g us2 (apply_accs g us1 ns).
Proof. intros. unfold apply_accs. apply fold_left_app. Qed.

Lemma Rsum_app : forall l1 l2, Rsum (l1 ++ l2) = Rsum l1 + Rsum l2.
Proof.
  intros l1 l2. induction l1 as [|h t IH]; simpl; [lra|].
  unfold Rsum in *. simpl. rewrite IH. lra.
Qed.

Lemma acc_total_app : forall us1 us2 j s,
  acc_total (us1 ++ us2) j s = acc_total us1 j s + acc_total us2 j s.
Proof.
  intros us1 us2 j s. unfold acc_total. rewrite filter_app, map_app. apply Rsum_app.
Qed.

Lemma effective_live : forall s g x,
  tag_get s x = cur_epoch s g -> effective s g x = slot_get s x.
Proof.
  intros s g x H. unfold effective. rewrite H, N.eqb_refl. reflexivity.
Qed.

Lemma acc_total_cons : forall u us j s,
  acc_total (u :: us) j s = (if acc_hits j s u then snd u else 0) + acc_total us j s.
Proof.
  intros u us j s. unfold acc_total. simpl.
  destruct (acc_hits j s u); simpl; lra.
Qed.

Lemma node_after_fields : forall g us j x,
  op (node_after g us j x) = op x /\
  inputs (node_after g us j x) = inputs x /\
  forall s,
    effective s g (node_after g us j x) = effective s g x + acc_total us j s /\
    (existsb (acc_hits j s) us = true ->
       tag_get s (node_after g us j x) = cur_epoch s g) /\
    (existsb (acc_hits j s) us = false ->
       tag_get s (node_after g us j x) = tag_get s x /\
       slot_get s (node_after g us j x) = slot_get s x).
Proof.
  intros g us j. induction us as [|[[a t] v] us IH]; intros x.
  - simpl. split; [reflexivity|]. split; [reflexivity|]. intros s.
    split; [unfold acc_total; simpl; lra|]. split; [discriminate | auto].
  - change (node_after g ((a, t, v) :: us) j x)
      with (node_after g us j (if (a =? j)%nat then accumulated t g v x else x)).
    destruct (IH (if (a =? j)%nat then accumulated t g v x else x)) as [Ho [Hi Hs]].
    split; [rewrite Ho; destruct (a =? j)%nat; [apply accumulated_op | reflexivity]|].
    split; [rewrite Hi; destruct (a =? j)%nat; [apply accumulated_inputs | reflexivity]|].
    intros s. destruct (Hs s) as [He [Ht Hu]].
    rewrite acc_total_cons. simpl existsb.
    assert (Hh : acc_hits j s (a, t, v) = ((a =? j)%nat && Slot_eqb t s)%bool)
      by reflexivity.
    rewrite !Hh. simpl snd. clear Hh.
    destruct (a =? j)%nat; simpl andb; simpl orb; [|split; [rewrite He; lra | auto]].
    destruct (Slot_eqb t s) eqn:Ets; simpl orb.
    + apply Slot_eqb_eq in Ets. subst t.
      split; [rewrite He, effective_accumulated; lra|].
      split; [|discriminate].
      intros _. destruct (existsb (acc_hits j s) us) eqn:Eex; [auto|].
      destruct (Hu eq_refl) as [Hu1 _]. rewrite Hu1. apply accumulated_tag.
    + assert (t <> s) by (intro; subst; rewrite Slot_eqb_refl in Ets; discriminate).
      split; [rewrite He, effective_accumulated_other by assumption; lra|].
      split; [exact Ht|].
      intros Hex. destruct (Hu Hex) as [Hu1 Hu2].
      rewrite Hu1, Hu2, accumulated_tag_other, accumulated_slot_other by assumption.
      auto.
Qed.

Lemma apply_accs_slot : forall g us ns j x s,
  nth_error ns j = Some x ->
  existsb (acc_hits j s) us = true ->
  exists x', nth_error (apply_accs g us ns) j = Some x' /\
             tag_get s x' = cur_epoch s g /\
             slot_get s x' = effective s g x + acc_total us j s.
Proof.
  intros g us ns j x s Hj Hex.
  exists (node_after g us j x). rewrite nth_error_apply_accs, Hj.
  split; [reflexivity|].
  destruct (node_after_fields g us j x) as [_ [_ Hs]].
  destruct (Hs s) as [He [Ht _]].
  split; [apply Ht; exact Hex|].
  rewrite <- He. symmetry. apply effective_live. apply Ht. exact Hex.
Qed.

Lemma apply_accs_untouched : forall g us ns j,
  (forall u, In u us -> fst (fst u) <> j) ->
  nth_error (apply_accs g us ns) j = nth_error ns j.
Proof.
  intros g us. unfold apply_accs.
  induction us as [|u t IH]; intros ns j H; simpl; [reflexivity|].
  rewrite IH.
  - unfold apply_acc. apply nth_error_upd_other. apply H. left; reflexivity.
  - intros u' Hu'. apply H. right; exact Hu'.
Qed.

(** ** Loops that accumulate *)

Lemma eval_for_each_inv :
  forall (A : Type) (I : list ADNode -> Prop) (body : A -> M unit)
         (F : A -> list ADNode -> list ADNode) g (l : list A) ns,
  I ns ->
  (forall x ns', In x l -> I ns' -> eval (body x) ns' g tt (F x ns') /\ I (F x ns')) ->
  eval (for_each l body) ns g tt (fold_left (fun a x => F x a) l ns) /\
  I (fold_left (fun a x => F x a) l ns).
Proof.
  intros A I body F g l. induction l as [|x t IH]; intros ns HI H; simpl.
  - split; [apply eval_ret | exact HI].
  - destruct (H x ns (or_introl eq_refl) HI) as [Hx HI'].
    destruct (IH (F x ns) HI') as [Ht HI''].
    + intros y ns' Hy. apply H. right; exact Hy.
    + split; [|exact HI''].
      eapply eval_bind; [exact Hx | exact Ht].
Qed.

Lemma fold_left_flat_map_accs : forall (A : Type) g (f : A -> list (nat * Slot * R)) l ns,
  fold_left (fun a x => apply_accs g (f x) a) l ns = apply_accs g (flat_map f l) ns.
Proof.
  intros A g f l. induction l as [|x t IH]; intros ns; simpl; [reflexivity|].
  rewrite IH, apply_accs_app. reflexivity.
Qed.

(** The invariant of a reverse loop of node [n]: [n] itself is untouched and
    every input reference stays valid. *)
Definition reverse_inv (n : nat) (nd : ADNode) (ns0 ns : list ADNode) : Prop :=
  nth_error ns n = Some nd /\ length ns = length ns0.

Lemma reverse_inv_upd : forall n nd ns0 ns a f,
  reverse_inv n nd ns0 ns -> a <> n -> reverse_inv n nd ns0 (upd a f ns).
Proof.
  intros n nd ns0 ns a f [H1 H2] Hne. split.
  - rewrite nth_error_upd_other; assumption.
  - rewrite upd_length. exact H2.
Qed.

Lemma reverse_inv_lookup : forall n nd ns0 ns a,
  reverse_inv n nd ns0 ns -> (a < length ns0)%nat -> exists x, nth_error ns a = Some x.
Proof.
  intros n nd ns0 ns a [_ H] Ha.
  destruct (nth_error ns a) as [x|] eqn:E; [eauto|].
  apply nth_error_None in E. lia.
Qed.

(** * N-ary Multiply, second order *)

(** The node an input reference points at (0 for a null reference, which
    the validity hypotheses exclude). *)
Definition ref_target (r : option nat) : nat :=
  match r with Some a => a | None => 0%nat end.

Lemma valid_ref_nth : forall ns ins i,
  forallb (valid_ref ns) ins = true -> (i < length ins)%nat ->
  exists a, nth i ins None = Some a /\ (a < length ns)%nat /\ In (Some a) ins.
Proof.
  intros ns ins i H Hi. rewrite forallb_forall in H.
  assert (Hin : In (nth i ins None) ins) by (apply nth_In; exact Hi).
  specialize (H _ Hin). destruct (nth i ins None) as [a|] eqn:E; simpl in H; [|discriminate].
  exists a. split; [reflexivity|]. split; [apply Nat.ltb_lt; exact H | exact Hin].
Qed.

Lemma eval_eq : forall (A : Type) (m : M A) ns g a ns1 ns2,
  eval m ns g a ns1 -> ns1 = ns2 -> eval m ns g a ns2.
Proof. intros A m ns g a ns1 ns2 H E. subst. exact H. Qed.

(** One iteration of a second-order reverse loop: both accumulators of the
    input are made live, then the first-order and the second-order amounts
    are added, the weights being read from the visited node. *)
Lemma eval_hvp_step : forall ns g n nd a x (Pv Sv : R),
  nth_error ns n = Some nd ->
  nth_error ns a = Some x ->
  a <> n ->
  eval (ensure_epoch_zero a SGradient ;;
        ensure_epoch_zero a SGradDot ;;
        w <- rd n SGradient ;;
        add_assign a SGradient (w * Pv) ;;
        wd <- rd n SGradDot ;;
        w' <- rd n SGradient ;;
        add_assign a SGradDot (wd * Pv + w' * Sv))
       ns g tt
       (apply_accs g [ (a, SGradient, gradient nd * Pv);
                       (a, SGradDot, grad_dot nd * Pv + gradient nd * Sv) ] ns).
Proof.
  intros ns g n nd a x Pv Sv Hn Ha Han.
  apply Nat.eqb_neq in Han.
  eapply eval_eq; [eval_all|].
  rewrite ?Han. cbn [slot_get]. unfold apply_accs, apply_acc. cbn [fold_left fst snd].
  arena_eq.
Qed.

(** The accumulations of the general case of [hvp_backward], in the order
    the loop makes them. *)
Definition multiply_hvp_accs (ins : list (option nat)) (vals dots : list R) (w wd : R)
  : list (nat * Slot * R) :=
  let m := length ins in
  let ps := build_prefix_suffix vals in
  flat_map (fun i =>
      let P_wo_i := nth i (fst ps) 0 * nth (i + 1) (snd ps) 0 in
      let sum_term := sum_term_of vals dots (fst ps) (snd ps) m i in
      [ (ref_target (nth i ins None), SGradient, w * P_wo_i);
        (ref_target (nth i ins None), SGradDot, wd * P_wo_i + w * sum_term) ])
    (seq 0 m).

Lemma reverse_inv_accs : forall n nd ns0 ns g us,
  reverse_inv n nd ns0 ns ->
  (forall u, In u us -> fst (fst u) <> n) ->
  reverse_inv n nd ns0 (apply_accs g us ns).
Proof.
  intros n nd ns0 ns g us [H1 H2] Hne. split.
  - rewrite apply_accs_untouched; assumption.
  - rewrite apply_accs_length. exact H2.
Qed.

Lemma multiply_hvp_general_eval : forall ns g n nd,
  nth_error ns n = Some nd ->
  inputs nd <> [] ->
  length (inputs nd) <> 2%nat ->
  forallb (valid_ref ns) (inputs nd) = true ->
  ~ In (Some n) (inputs nd) ->
  eval (Multiply_hvp_backward n) ns g tt
       (apply_accs g
          (multiply_hvp_accs (inputs nd) (input_slots ns SValue (inputs nd))
                             (input_slots ns SDot (inputs nd)) (gradient nd) (grad_dot nd))
          ns).
Proof.
  intros ns g n nd Hn Hne Hm2 Hval Hnin.
  assert (Hok : _nary_ok nd = true) by (apply nary_ok_nonempty; exact Hne).
  apply Nat.eqb_neq in Hm2.
  unfold Multiply_hvp_backward.
  eapply eval_bind; [apply eval_node_at; eassumption|]. cbv beta.
  rewrite Hok. cbn [negb]. cbv zeta. rewrite Hm2.
  eapply eval_bind; [apply eval_read_values_dots; exact Hval|]. cbv beta.
  cbn [fst snd].
  unfold multiply_hvp_accs. cbv zeta.
  rewrite <- fold_left_flat_map_accs.
  apply (eval_for_each_inv nat (reverse_inv n nd ns)).
  - split; [exact Hn | reflexivity].
  - intros i ns' Hi HI. apply in_seq in Hi.
    destruct (valid_ref_nth ns (inputs nd) i Hval) as [a [Ea [Ha Hina]]]; [lia|].
    assert (Han : a <> n) by (intro; subst a; contradiction).
    destruct (reverse_inv_lookup _ _ _ _ a HI Ha) as [x Hx].
    rewrite Ea. cbn [ref_target]. split.
    + destruct HI as [Hn' Hlen'].
      eapply eval_bind; [apply eval_deref|]. cbv beta.
      eapply eval_hvp_step; eassumption.
    + apply reverse_inv_accs; [exact HI|].
      intros u [<-|[<-|[]]]; exact Han.
Qed.

(** ** The amounts of the general case, mathematically *)

Lemma prefix_suffix_without : forall vals i,
  (i < length vals)%nat ->
  let ps := build_prefix_suffix vals in
  nth i (fst ps) 0 * nth (i + 1) (snd ps) 0 = vprod vals (others (length vals) i).
Proof.
  intros vals i Hi ps.
  destruct (build_prefix_suffix_spec vals) as [Hpre Hsuf]. cbv zeta in Hpre, Hsuf.
  unfold ps. rewrite Hpre, Hsuf by lia.
  rewrite (others_split _ i Hi), vprod_app.
  replace (length vals - (i + 1))%nat with (length vals - i - 1)%nat by lia.
  reflexivity.
Qed.

Lemma excluded_pair_ordered : forall vals a b,
  (a < b)%nat -> (b < length vals)%nat ->
  let ps := build_prefix_suffix vals in
  nth a (fst ps) 0 * mid_loop vals (seq (a + 1) (b - (a + 1))) 1 * nth (b + 1) (snd ps) 0
  = vprod vals (others2 (length vals) a b).
Proof.
  intros vals a b Hab Hb ps.
  destruct (build_prefix_suffix_spec vals) as [Hpre Hsuf]. cbv zeta in Hpre, Hsuf.
  unfold ps. rewrite Hpre, Hsuf by lia. rewrite mid_loop_spec.
  rewrite (others2_split _ a b Hab Hb), !vprod_app.
  replace (length vals - (b + 1))%nat with (length vals - b - 1)%nat by lia.
  ring.
Qed.

(** The excluded-pair product as the inner loop computes it, for indices in
    either order. *)
Definition excluded_pair_code (vals : list R) (i k : nat) : R :=
  let ps := build_prefix_suffix vals in
  let a := if (i <? k)%nat then i else k in
  let b := if (i <? k)%nat then k else i in
  nth a (fst ps) 0 * mid_loop vals (seq (a + 1) (b - (a + 1))) 1 * nth (b + 1) (snd ps) 0.

Lemma excluded_pair_exact : forall vals i k,
  (i < length vals)%nat -> (k < length vals)%nat -> i <> k ->
  excluded_pair_code vals i k = vprod vals (others2 (length vals) i k).
Proof.
  intros vals i k Hi Hk Hne. unfold excluded_pair_code. cbv zeta.
  destruct (i <? k)%nat eqn:E.
  - apply Nat.ltb_lt in E. apply excluded_pair_ordered; assumption.
  - apply Nat.ltb_ge in E. rewrite others2_sym. apply excluded_pair_ordered; lia.
Qed.

Lemma fold_left_skip : forall (f : nat -> R) (i : nat) (l : list nat) (a : R),
  fold_left (fun s k => if (k =? i)%nat then s else s + f k) l a =
  a + Rsum (map f (filter (fun k => negb (k =? i)%nat) l)).
Proof.
  intros f i l. induction l as [|k t IH]; intros a; simpl; [lra|].
  rewrite IH. destruct (k =? i)%nat; simpl; lra.
Qed.

(** The second-order cross term of input [i]: the sum over [k <> i] of
    [xdot_k] times the product of the values other than [v_i] and [v_k]. *)
Definition cross_term (vals dots : list R) (i : nat) : R :=
  Rsum (map (fun k => nth k dots 0 * vprod vals (others2 (length vals) i k))
            (others (length vals) i)).

Lemma Rsum_map_ext_in : forall (A : Type) (f h : A -> R) (l : list A),
  (forall x, In x l -> f x = h x) -> Rsum (map f l) = Rsum (map h l).
Proof.
  intros A f h l H. f_equal. apply map_ext_in. exact H.
Qed.

Lemma sum_term_exact : forall vals dots i,
  (i < length vals)%nat ->
  let ps := build_prefix_suffix vals in
  sum_term_of vals dots (fst ps) (snd ps) (length vals) i = cross_term vals dots i.
Proof.
  intros vals dots i Hi ps. unfold sum_term_of.
  rewrite (fold_left_skip
             (fun k => nth k dots 0 * excluded_pair_code vals i k) i).
  rewrite Rplus_0_l. unfold cross_term, others.
  apply Rsum_map_ext_in. intros k Hk.
  apply filter_In in Hk. destruct Hk as [Hk1 Hk2].
  apply in_seq in Hk1. apply negb_true_iff, Nat.eqb_neq in Hk2.
  rewrite excluded_pair_exact by lia. reflexivity.
Qed.

(** What [hvp_backward] adds to the grad_dot of input [i]. *)
Definition hvp_amount (vals dots : list R) (w wd : R) (i : nat) : R :=
  wd * vprod vals (others (length vals) i) + w * cross_term vals dots i.

(** The positions at which node [j] occurs among the input references. *)
Definition ref_is (j : nat) (r : option nat) : bool :=
  match r with Some a => (a =? j)%nat | None => false end.

Definition positions (ins : list (option nat)) (j : nat) : list nat :=
  filter (fun i => ref_is j (nth i ins None)) (seq 0 (length ins)).

Lemma acc_total_pairs : forall (tgt : nat -> nat) (y x : nat -> R) (l : list nat) j,
  acc_total (flat_map (fun i => [(tgt i, SGradient, y i); (tgt i, SGradDot, x i)]) l)
            j SGradDot
  = Rsum (map x (filter (fun i => (tgt i =? j)%nat) l)) /\
  acc_total (flat_map (fun i => [(tgt i, SGradient, y i); (tgt i, SGradDot, x i)]) l)
            j SGradient
  = Rsum (map y (filter (fun i => (tgt i =? j)%nat) l)) /\
  forall s, s = SGradient \/ s = SGradDot ->
    existsb (acc_hits j s)
      (flat_map (fun i => [(tgt i, SGradient, y i); (tgt i, SGradDot, x i)]) l)
    = existsb (fun i => (tgt i =? j)%nat) l.
Proof.
  intros tgt y x l j. induction l as [|i t [IH1 [IH2 IH3]]].
  - split; [reflexivity|]. split; [reflexivity|]. intros s _. reflexivity.
  - cbn [flat_map app]. rewrite !acc_total_cons.
    assert (HG : forall s v, acc_hits j s (tgt i, SGradient, v)
                             = ((tgt i =? j)%nat && Slot_eqb SGradient s)%bool)
      by reflexivity.
    assert (HD : forall s v, acc_hits j s (tgt i, SGradDot, v)
                             = ((tgt i =? j)%nat && Slot_eqb SGradDot s)%bool)
      by reflexivity.
    rewrite !HG, !HD, IH1, IH2. cbn [filter Slot_eqb snd].
    split; [|split].
    + destruct (tgt i =? j)%nat; cbn [andb map]; unfold Rsum; cbn [fold_right]; lra.
    + destruct (tgt i =? j)%nat; cbn [andb map]; unfold Rsum; cbn [fold_right]; lra.
    + intros s Hs. cbn [existsb]. rewrite HG, HD, (IH3 s Hs).
      destruct (tgt i =? j)%nat; cbn [andb orb]; [|reflexivity].
      destruct Hs as [-> | ->]; reflexivity.
Qed.

Lemma ref_is_target : forall ns ins i j,
  forallb (valid_ref ns) ins = true -> (i < length ins)%nat ->
  (ref_target (nth i ins None) =? j)%nat = ref_is j (nth i ins None).
Proof.
  intros ns ins i j Hval Hi.
  destruct (valid_ref_nth ns ins i Hval Hi) as [a [-> _]]. reflexivity.
Qed.

Lemma positions_nonempty : forall ins j,
  In (Some j) ins ->
  existsb (fun i => ref_is j (nth i ins None)) (seq 0 (length ins)) = true.
Proof.
  intros ins j H. apply existsb_exists.
  destruct (In_nth _ _ None H) as [i [Hi E]].
  exists i. split; [apply in_seq; lia|]. rewrite E. simpl. apply Nat.eqb_refl.
Qed.

Lemma existsb_ext_in : forall (A : Type) (f h : A -> bool) (l : list A),
  (forall x, In x l -> f x = h x) -> existsb f l = existsb h l.
Proof.
  intros A f h l. induction l as [|x t IH]; intros H; simpl; [reflexivity|].
  rewrite H by (left; reflexivity). f_equal. apply IH.
  intros y Hy. apply H. right; exact Hy.
Qed.

Lemma filter_ext_in_local : forall (A : Type) (f h : A -> bool) (l : list A),
  (forall x, In x l -> f x = h x) -> filter f l = filter h l.
Proof.
  intros A f h l. induction l as [|x t IH]; intros H; simpl; [reflexivity|].
  rewrite H by (left; reflexivity). rewrite IH; [reflexivity|].
  intros y Hy. apply H. right; exact Hy.
Qed.

Lemma input_slots_length : forall ns s ins, length (input_slots ns s ins) = length ins.
Proof. intros. unfold input_slots. apply length_map. Qed.

(** C2: n-ary Multiply with at least three inputs.  First, the
    excluded-pair product the inner loop computes without division,
    [pre[min(i,k)] * (v_{min+1} * ... * v_{max-1}) * suf[max(i,k)+1]] with its
    early exit, is the product of all values other than [v_i] and [v_k],
    whatever values are zero.  Second, hvp_backward returns, and every input
    node [j] ends with grad_dot equal to its starting point (its old grad_dot
    if live, else 0) plus, for every position [i] at which [j] is an input,
    [grad_dot_n * prod_{l <> i} v_l + gradient_n * sum_{k <> i} xdot_k *
    prod_{l not in {i,k}} v_l]; its gradient likewise gains
    [gradient_n * prod_{l <> i} v_l]; nodes that are not inputs are
    untouched. *)
Theorem multiply_hvp_exact :
  forall (w : World) (n : nat) (nd : ADNode),
  nth_error (nodes w) n = Some nd ->
  (3 <= length (inputs nd))%nat ->
  forallb (valid_ref (nodes w)) (inputs nd) = true ->
  ~ In (Some n) (inputs nd) ->
  let ins := inputs nd in
  let vals := input_slots (nodes w) SValue ins in
  let dots := input_slots (nodes w) SDot ins in
  (forall i k, (i < length ins)%nat -> (k < length ins)%nat -> i <> k ->
     excluded_pair_code vals i k = vprod vals (others2 (length ins) i k)) /\
  exists w' : World,
    OpTraits_hvp_backward Multiply n w = Some (tt, w') /\
    (forall j nj, nth_error (nodes w) j = Some nj -> In (Some j) ins ->
       slot_of w' j SGradDot =
         Some (effective SGradDot (graph w) nj +
               Rsum (map (hvp_amount vals dots (gradient nd) (grad_dot nd))
                         (positions ins j))) /\
       slot_of w' j SGradient =
         Some (effective SGradient (graph w) nj +
               Rsum (map (fun i => gradient nd * vprod vals (others (length ins) i))
                         (positions ins j))) /\
       tag_of w' j SGradDot = Some (cur_gdot_epoch_ (graph w)) /\
       tag_of w' j SGradient = Some (cur_grad_epoch_ (graph w))) /\
    (forall j, ~ In (Some j) ins -> nth_error (nodes w') j = nth_error (nodes w) j).
Proof.
  intros w n nd Hn Hm Hval Hnin ins vals dots.
  assert (Hlen : length vals = length ins) by apply input_slots_length.
  split.
  { intros i k Hi Hk Hne. rewrite <- Hlen. apply excluded_pair_exact; lia. }
  assert (Hne : inputs nd <> []) by (intro E; rewrite E in Hm; simpl in Hm; lia).
  assert (Hm2 : length (inputs nd) <> 2%nat) by lia.
  destruct (eval_run _ _ w tt _
              (multiply_hvp_general_eval _ (graph w) n nd Hn Hne Hm2 Hval Hnin))
    as [w' [E [En _]]].
  exists w'. split; [exact E|]. fold ins vals dots in En.
  unfold multiply_hvp_accs in En. cbv zeta in En.
  set (tgt := fun i => ref_target (nth i ins None)) in *.
  set (y := fun i => gradient nd *
                     (nth i (fst (build_prefix_suffix vals)) 0 *
                      nth (i + 1) (snd (build_prefix_suffix vals)) 0)) in *.
  set (x := fun i => grad_dot nd *
                     (nth i (fst (build_prefix_suffix vals)) 0 *
                      nth (i + 1) (snd (build_prefix_suffix vals)) 0) +
                     gradient nd *
                     sum_term_of vals dots (fst (build_prefix_suffix vals))
                                 (snd (build_prefix_suffix vals)) (length ins) i) in *.
  change (nodes w' =
          apply_accs (graph w)
            (flat_map (fun i => [(tgt i, SGradient, y i); (tgt i, SGradDot, x i)])
                      (seq 0 (length ins))) (nodes w)) in En.
  assert (Hfilter : forall j,
            filter (fun i => (tgt i =? j)%nat) (seq 0 (length ins)) = positions ins j).
  { intros j. unfold positions. apply filter_ext_in_local. intros i Hi.
    apply in_seq in Hi. unfold tgt. apply (ref_is_target (nodes w)); [exact Hval | lia]. }
  split.
  - intros j nj Hj Hin.
    destruct (acc_total_pairs tgt y x (seq 0 (length ins)) j) as [HtD [HtG Hex]].
    assert (Hhit : forall s, s = SGradient \/ s = SGradDot ->
              existsb (acc_hits j s)
                (flat_map (fun i => [(tgt i, SGradient, y i); (tgt i, SGradDot, x i)])
                          (seq 0 (length ins))) = true).
    { intros s Hs. rewrite (Hex s Hs).
      rewrite <- (positions_nonempty ins j Hin). apply existsb_ext_in.
      intros i Hi. apply in_seq in Hi. unfold tgt.
      apply (ref_is_target (nodes w)); [exact Hval | lia]. }
    destruct (apply_accs_slot (graph w) _ (nodes w) j nj SGradDot Hj
                (Hhit SGradDot (or_intror eq_refl))) as [x1 [Hx1 [Ht1 Hs1]]].
    destruct (apply_accs_slot (graph w) _ (nodes w) j nj SGradient Hj
                (Hhit SGradient (or_introl eq_refl))) as [x2 [Hx2 [Ht2 Hs2]]].
    rewrite <- En in Hx1, Hx2.
    unfold slot_of, tag_of. rewrite Hx1. cbn [option_map].
    assert (x2 = x1) by congruence. subst x2.
    rewrite Hs1, Hs2, Ht1, Ht2, HtD, HtG, !Hfilter.
    repeat split; try reflexivity; f_equal; f_equal.
    + apply Rsum_map_ext_in. intros i Hi. unfold positions in Hi.
      apply filter_In in Hi. destruct Hi as [Hi _]. apply in_seq in Hi.
      unfold x, hvp_amount. rewrite <- Hlen.
      rewrite prefix_suffix_without, sum_term_exact by lia. reflexivity.
    + apply Rsum_map_ext_in. intros i Hi. unfold positions in Hi.
      apply filter_In in Hi. destruct Hi as [Hi _]. apply in_seq in Hi.
      unfold y. rewrite <- Hlen. rewrite prefix_suffix_without by lia. reflexivity.
  - intros j Hj. rewrite En. apply apply_accs_untouched.
    intros u Hu. apply in_flat_map in Hu. destruct Hu as [i [Hi Hu]].
    apply in_seq in Hi.
    destruct (valid_ref_nth (nodes w) ins i Hval) as [a [Ea [_ Hina]]]; [lia|].
    assert (tgt i = a) by (unfold tgt; rewrite Ea; reflexivity).
    destruct Hu as [<-|[<-|[]]]; simpl; intro; subst; contradiction.
Qed.

(** [y = a * b * c] at [(a, b, c) = (2, 0, 5)] with tangents [(1, 0, 1)]
    and a seeded gradient of 1. *)
Definition product_world : World :=
  mkWorld [ mkNode Var [] 2 1 0 0 0 0 0 0;
            mkNode Var [] 0 0 0 0 0 0 0 0;
            mkNode Var [] 5 1 0 0 0 0 0 0;
            mkNode Multiply [Some 0%nat; Some 1%nat; Some 2%nat] 0 0 1 0 0 0 1 1 ]
          (mkGraph 1 1 1 1) [].

Lemma multiply_hvp_exact_witness :
  exists w' : World,
    OpTraits_hvp_backward Multiply 3 product_world = Some (tt, w') /\
    slot_of w' 1 SGradDot = Some 7.
Proof.
  destruct (multiply_hvp_exact product_world 3 _ eq_refl) as [_ [w' [E [H _]]]].
  - simpl. lia.
  - reflexivity.
  - simpl. intros [H|[H|[H|[]]]]; discriminate.
  - exists w'. split; [exact E|].
    destruct (H 1%nat _ eq_refl) as [HD _].
    + simpl. auto.
    + rewrite HD. f_equal. vm_compute. lra.
Defined.

(** * First-order linearisation of every operator *)

(** The partial derivatives a node's rule uses, one per input, as functions
    of the input values.  Both forward_dot and backward are built from
    them. *)
Definition partials (o : Operator) (vals : list R) : list R :=
  let a := nth 0 vals 0 in
  let b := nth 1 vals 0 in
  match o with
  | Add => map (fun _ => 1) vals
  | Multiply =>
      let ps := build_prefix_suffix vals in
      map (fun i => nth i (fst ps) 0 * nth (i + 1) (snd ps) 0) (seq 0 (length vals))
  | Softmax =>
      let y := softmax_y vals in
      let yi := nth 0 y 0 in
      map (fun k => yi * (if (k =? 0)%nat then 1 else 0) - yi * nth k y 0)
          (seq 0 (length vals))
  | Subtract => [bdfa SubRule a b; bdfb SubRule a b]
  | Divide => [bdfa DivRule a b; bdfb DivRule a b]
  | Max => if Rgeb a b then [1; 0] else [0; 1]
  | cte | Var | OpOther _ => []
  | _ => match unary_rule_of o with
         | Some U => [udf U a]
         | None => []
         end
  end.

(** The directional derivative of a node: partials times input tangents. *)
Definition jvp_value (o : Operator) (vals dots : list R) : R :=
  Rsum (map (fun k => nth k (partials o vals) 0 * nth k dots 0) (seq 0 (length vals))).

(** The accumulations backward makes on the inputs of a node with gradient
    [w]: one per input, except that Max only visits the winning input. *)
Definition backward_accs (o : Operator) (ins : list (option nat)) (vals : list R) (w : R)
  : list (nat * Slot * R) :=
  match o with
  | Max =>
      [ (ref_target (nth (if Rgeb (nth 0 vals 0) (nth 1 vals 0) then 0%nat else 1%nat) ins None),
         SGradient, w) ]
  | cte | Var | OpOther _ => []
  | _ =>
      map (fun k => (ref_target (nth k ins None), SGradient,
                     w * nth k (partials o vals) 0))
          (seq 0 (length ins))
  end.

Definition is_leaf (o : Operator) : bool :=
  match o with cte | Var => true | _ => false end.

Definition is_other (o : Operator) : bool :=
  match o with OpOther _ => true | _ => false end.

Lemma Rneqb_inv : forall a b : R, Rneqb a b = true -> a <> b.
Proof.
  intros a b H. unfold Rneqb in H. destruct (Req_dec_T a b); [discriminate | assumption].
Qed.

Lemma eval_dot_result : forall (m : M unit) ns g n v v',
  eval m ns g tt (upd n (touched SValue g) (upd n (produced SDot g v) ns)) ->
  v = v' ->
  eval m ns g tt (upd n (touched SValue g) (upd n (produced SDot g v') ns)).
Proof. intros m ns g n v v' H E. subst. exact H. Qed.

Lemma input_slots_1 : forall ns s a na,
  nth_error ns a = Some na -> input_slots ns s [Some a] = [slot_get s na].
Proof. intros ns s a na H. unfold input_slots. simpl. rewrite H. reflexivity. Qed.

Lemma input_slots_2 : forall ns s a b na nb,
  nth_error ns a = Some na -> nth_error ns b = Some nb ->
  input_slots ns s [Some a; Some b] = [slot_get s na; slot_get s nb].
Proof. intros ns s a b na nb Ha Hb. unfold input_slots. simpl. rewrite Ha, Hb. reflexivity. Qed.

(** ** forward_dot stores the directional derivative *)

Lemma unary_forward_dot_eval : forall o U ns g n nd a na,
  unary_rule_of o = Some U ->
  nth_error ns n = Some nd ->
  inputs nd = [Some a] ->
  nth_error ns a = Some na ->
  eval (OpTraits_forward_dot o n) ns g tt
       (upd n (touched SValue g)
          (upd n (produced SDot g
                    (jvp_value o (input_slots ns SValue (inputs nd))
                                 (input_slots ns SDot (inputs nd)))) ns)).
Proof.
  intros o U ns g n nd a na HU Hn Hin Ha.
  pose proof (unary_ok_shape nd a Hin) as Hok.
  rewrite Hin, (input_slots_1 ns SValue a na Ha), (input_slots_1 ns SDot a na Ha).
  unfold jvp_value. cbn [length seq map nth Rsum fold_right slot_get].
  destruct o; try discriminate; inversion HU; subst U; cbn [partials unary_rule_of nth];
    unfold_pass;
    (eapply eval_bind; [apply eval_node_at; eassumption|]); cbv beta;
    rewrite Hok; cbn [negb].
  all: try (rewrite Hin; cbn [nth]; eapply eval_dot_result; [eval_all | cbn; lra]).
  - eapply eval_bind; [apply eval_node_at; eassumption|]. cbv beta.
    rewrite Hin. cbn [nth]. eval_step. eval_step. cbn [slot_get udf TanRule].
    destruct (Rneqb (cos (value na)) 0) eqn:E.
    + apply Rneqb_inv in E.
      eapply eval_dot_result; [eval_all | cbn [slot_get]; field; exact E].
    + eapply eval_dot_result; [eval_all | lra].
  - eapply eval_bind; [apply eval_node_at; eassumption|]. cbv beta.
    rewrite Hin. cbn [nth]. eval_step. eval_step. cbn [slot_get udf LogRule].
    destruct (Rneqb (value na) 0) eqn:E.
    + apply Rneqb_inv in E.
      eapply eval_dot_result; [eval_all | cbn [slot_get]; field; exact E].
    + eapply eval_dot_result; [eval_all | lra].
Qed.

Lemma binary_forward_dot_eval : forall o ns g n nd a b na nb,
  o = Subtract \/ o = Divide \/ o = Max ->
  nth_error ns n = Some nd ->
  inputs nd = [Some a; Some b] ->
  nth_error ns a = Some na ->
  nth_error ns b = Some nb ->
  eval (OpTraits_forward_dot o n) ns g tt
       (upd n (touched SValue g)
          (upd n (produced SDot g
                    (jvp_value o (input_slots ns SValue (inputs nd))
                                 (input_slots ns SDot (inputs nd)))) ns)).
Proof.
  intros o ns g n nd a b na nb Ho Hn Hin Ha Hb.
  pose proof (binary_ok_shape nd a b Hin) as Hok.
  rewrite Hin, (input_slots_2 ns SValue a b na nb Ha Hb),
          (input_slots_2 ns SDot a b na nb Ha Hb).
  unfold jvp_value. cbn [length seq map nth Rsum fold_right slot_get].
  destruct Ho as [-> | [-> | ->]]; cbn [partials nth];
    unfold_pass;
    (eapply eval_bind; [apply eval_node_at; eassumption|]); cbv beta;
    rewrite Hok; cbn [negb]; rewrite Hin; cbn [nth].
  - eapply eval_dot_result; [eval_all | cbn; lra].
  - eval_step. eval_step.
    eapply eval_bind; [apply eval_node_at; eassumption|]. cbv beta.
    rewrite Hin. cbn [nth]. eval_step. eval_step. eval_step.
    cbn [slot_get bdfa bdfb DivRule].
    destruct (Rneqb (value nb) 0) eqn:E.
    + apply Rneqb_inv in E.
      eapply eval_dot_result; [eval_all | cbn [slot_get]; field; exact E].
    + eapply eval_dot_result; [eval_all | lra].
  - do 4 eval_step. cbn [slot_get].
    destruct (Rgeb (value na) (value nb)); cbn [nth];
      (eapply eval_dot_result; [eval_all | cbn [slot_get]; lra]).
Qed.

Lemma leaf_forward_dot_eval : forall o ns g n nd,
  is_leaf o = true ->
  nth_error ns n = Some nd ->
  eval (OpTraits_forward_dot o n) ns g tt
       (upd n (touched SValue g) (upd n (touched SDot g) ns)).
Proof.
  intros o ns g n nd Ho Hn.
  destruct o; try discriminate; unfold_pass; eval_all.
Qed.

(** ** Sums over index ranges *)

Lemma Rsum_map_scal : forall (A : Type) (c : R) (f : A -> R) (l : list A),
  Rsum (map (fun x => c * f x) l) = c * Rsum (map f l).
Proof.
  intros A c f l. induction l as [|x t IH]; simpl; [lra|].
  unfold Rsum in *. simpl. rewrite IH. lra.
Qed.

Lemma Rsum_map_minus : forall (A : Type) (f h : A -> R) (l : list A),
  Rsum (map (fun x => f x - h x) l) = Rsum (map f l) - Rsum (map h l).
Proof.
  intros A f h l. induction l as [|x t IH]; simpl; [lra|].
  unfold Rsum in *. simpl. rewrite IH. lra.
Qed.

Lemma Rsum_map_zero : forall (A : Type) (f : A -> R) (l : list A),
  (forall x, In x l -> f x = 0) -> Rsum (map f l) = 0.
Proof.
  intros A f l H. induction l as [|x t IH]; simpl; [reflexivity|].
  unfold Rsum in *. simpl. rewrite IH, H; [lra | left; reflexivity |].
  intros y Hy. apply H. right; exact Hy.
Qed.

Lemma nth_map_seq : forall (f : nat -> R) m k,
  (k < m)%nat -> nth k (map f (seq 0 m)) 0 = f k.
Proof.
  intros f m k H.
  rewrite (nth_indep _ 0 (f 0%nat)) by (rewrite length_map, length_seq; exact H).
  rewrite map_nth, seq_nth by exact H. reflexivity.
Qed.

Lemma nth_map_const : forall (A : Type) (c : R) (l : list A) k,
  (k < length l)%nat -> nth k (map (fun _ => c) l) 0 = c.
Proof.
  intros A c l. induction l as [|x t IH]; intros [|k] H; simpl in *; try lia; auto.
  apply IH. lia.
Qed.

Lemma Rsum_nth_seq : forall (l : list R),
  Rsum (map (fun k => nth k l 0) (seq 0 (length l))) = Rsum l.
Proof.
  intros l. f_equal. apply nth_ext with (d := 0) (d' := 0).
  - rewrite length_map, length_seq. reflexivity.
  - intros k Hk. rewrite length_map, length_seq in Hk.
    apply nth_map_seq. exact Hk.
Qed.

Lemma eval_fold_M : forall (A B : Type) (f : B -> A -> M B) (h : B -> A -> B) ns g
                           (l : list A) (b : B),
  (forall b' x, In x l -> eval (f b' x) ns g (h b' x) ns) ->
  eval (fold_M f l b) ns g (fold_left h l b) ns.
Proof.
  intros A B f h ns g l. induction l as [|x t IH]; intros b H; simpl.
  - apply eval_ret.
  - eapply eval_bind; [apply H; left; reflexivity|].
    apply IH. intros b' y Hy. apply H. right; exact Hy.
Qed.

Lemma eval_sum_slots : forall ns g s ins,
  forallb (valid_ref ns) ins = true ->
  eval (fold_M (fun acc r => a <- deref r ;; v <- rd a s ;; ret (acc + v)) ins 0)
       ns g (Rsum (input_slots ns s ins)) ns.
Proof.
  intros ns g s ins Hval.
  replace (Rsum (input_slots ns s ins))
    with (fold_left (fun acc r => acc + ref_slot ns s r) ins 0).
  - apply eval_fold_M. intros b r Hr. rewrite forallb_forall in Hval.
    destruct (valid_ref_lookup ns r (Hval r Hr)) as [p [x [-> Hp]]].
    simpl ref_slot. rewrite Hp. eval_all.
  - rewrite fold_left_Rplus_map. unfold input_slots. lra.
Qed.

Lemma nary_forward_dot_eval : forall o ns g n nd,
  o = Add \/ o = Multiply \/ o = Softmax ->
  nth_error ns n = Some nd ->
  inputs nd <> [] ->
  forallb (valid_ref ns) (inputs nd) = true ->
  eval (OpTraits_forward_dot o n) ns g tt
       (upd n (touched SValue g)
          (upd n (produced SDot g
                    (jvp_value o (input_slots ns SValue (inputs nd))
                                 (input_slots ns SDot (inputs nd)))) ns)).
Proof.
  intros o ns g n nd Ho Hn Hne Hval.
  assert (Hok : _nary_ok nd = true) by (apply nary_ok_nonempty; exact Hne).
  set (vals := input_slots ns SValue (inputs nd)).
  set (dots := input_slots ns SDot (inputs nd)).
  assert (Hlv : length vals = length (inputs nd)) by apply input_slots_length.
  assert (Hld : length dots = length (inputs nd)) by apply input_slots_length.
  destruct Ho as [-> | [-> | ->]]; unfold_pass;
    (eapply eval_bind; [apply eval_node_at; eassumption|]); cbv beta;
    rewrite Hok; cbn [negb]; cbv zeta.
  - eapply eval_bind; [apply eval_sum_slots; exact Hval|]. cbv beta.
    eapply eval_dot_result; [eval_all|].
    fold dots. unfold jvp_value. cbn [partials].
    rewrite <- (Rsum_nth_seq dots), Hld, Hlv.
    apply Rsum_map_ext_in. intros k Hk. apply in_seq in Hk.
    rewrite nth_map_const by lia. lra.
  - eapply eval_bind; [apply eval_read_values_dots; exact Hval|]. cbv beta.
    cbn [fst snd]. fold vals dots.
    eapply eval_dot_result; [eval_all|].
    rewrite fold_left_Rplus_map, Rplus_0_l. unfold jvp_value. cbn [partials].
    rewrite Hlv. apply Rsum_map_ext_in. intros k Hk. apply in_seq in Hk.
    rewrite nth_map_seq by lia. ring.
  - eapply eval_bind; [apply eval_read_values_dots; exact Hval|]. cbv beta.
    cbn [fst snd]. fold vals dots.
    eapply eval_dot_result; [eval_all|].
    unfold jvp_value. cbn [partials].
    assert (Hly : length (softmax_y vals) = length vals).
    { unfold softmax_y. rewrite !length_map. reflexivity. }
    rewrite (Rsum_map_ext_in _ _
               (fun k => nth 0 (softmax_y vals) 0
                           * ((if (k =? 0)%nat then 1 else 0) * nth k dots 0)
                         - nth 0 (softmax_y vals) 0
                           * (nth k (softmax_y vals) 0 * nth k dots 0))).
    2:{ intros k Hk. apply in_seq in Hk. rewrite nth_map_seq by lia. ring. }
    rewrite Rsum_map_minus, !Rsum_map_scal.
    assert (H0 : Rsum (map (fun k => (if (k =? 0)%nat then 1 else 0) * nth k dots 0)
                          (seq 0 (length vals))) = nth 0 dots 0).
    { assert (Hpos : (0 < length vals)%nat).
      { rewrite Hlv. destruct (inputs nd); [congruence | simpl; lia]. }
      destruct (length vals) as [|m']; [lia|].
      cbn [seq map Rsum fold_right Nat.eqb].
      fold (Rsum (map (fun k => (if (k =? 0)%nat then 1 else 0) * nth k dots 0)
                      (seq 1 m'))).
      rewrite Rsum_map_zero; [lra|].
      intros k Hk. apply in_seq in Hk. destruct k; [lia|]. simpl. lra. }
    rewrite H0. unfold dot_product.
    rewrite fold_left_Rplus_map, Rplus_0_l, Hly.
    ring.
Qed.

(** ** backward accumulates gradient times partial into every input *)

Lemma eval_acc_step : forall ns g a x v v',
  nth_error ns a = Some x -> v = v' ->
  eval (ensure_epoch_zero a SGradient ;; add_assign a SGradient v) ns g tt
       (apply_accs g [(a, SGradient, v')] ns).
Proof.
  intros ns g a x v v' Ha ->. unfold apply_accs, apply_acc. cbn [fold_left fst snd].
  eapply eval_accumulate_last. exact Ha.
Qed.

Lemma flat_map_singleton : forall (A B : Type) (f : A -> B) (l : list A),
  flat_map (fun x => [f x]) l = map f l.
Proof.
  intros A B f l. induction l as [|x t IH]; simpl; [reflexivity|]. rewrite IH. reflexivity.
Qed.

(** An index loop over the inputs of node [n], each iteration making one
    first-order accumulation into its input. *)
Lemma eval_index_loop : forall ns g n nd (body : nat -> M unit) (amount : nat -> R),
  nth_error ns n = Some nd ->
  forallb (valid_ref ns) (inputs nd) = true ->
  ~ In (Some n) (inputs nd) ->
  (forall i ns' a x,
      (i < length (inputs nd))%nat ->
      nth_error ns' n = Some nd ->
      nth i (inputs nd) None = Some a ->
      nth_error ns' a = Some x ->
      eval (body i) ns' g tt (apply_accs g [(a, SGradient, amount i)] ns')) ->
  eval (for_each (seq 0 (length (inputs nd))) body) ns g tt
       (apply_accs g
          (map (fun i => (ref_target (nth i (inputs nd) None), SGradient, amount i))
               (seq 0 (length (inputs nd)))) ns).
Proof.
  intros ns g n nd body amount Hn Hval Hnin Hbody.
  rewrite <- flat_map_singleton, <- fold_left_flat_map_accs.
  apply (eval_for_each_inv nat (reverse_inv n nd ns)).
  - split; [exact Hn | reflexivity].
  - intros i ns' Hi HI. apply in_seq in Hi.
    destruct (valid_ref_nth ns (inputs nd) i Hval) as [a [Ea [Ha Hina]]]; [lia|].
    assert (Han : a <> n) by (intro; subst a; contradiction).
    destruct (reverse_inv_lookup _ _ _ _ a HI Ha) as [x Hx].
    rewrite Ea. cbn [ref_target]. split.
    + destruct HI as [Hn' _]. apply (Hbody i ns' a x); auto; lia.
    + apply reverse_inv_accs; [exact HI|].
      intros u [<-|[]]. exact Han.
Qed.

Lemma eval_ext : forall (A : Type) (m m' : M A) ns g a ns',
  (forall w, m w = m' w) -> eval m ns g a ns' -> eval m' ns g a ns'.
Proof.
  intros A m m' ns g a ns' H He t. destruct (He t) as [t' E].
  exists t'. rewrite <- H. exact E.
Qed.

Lemma for_each_map : forall (A B : Type) (f : A -> B) (body : B -> M unit) (l : list A) w,
  for_each (map f l) body w = for_each l (fun x => body (f x)) w.
Proof.
  intros A B f body l. induction l as [|x t IH]; intros w; simpl; [reflexivity|].
  unfold bind. destruct (body (f x) w) as [[[] w']|]; [apply IH | reflexivity].
Qed.

Lemma nth_map_seq_from : forall (A : Type) (f : nat -> A) (d : A) m s k,
  (k < m)%nat -> nth k (map f (seq s m)) d = f (s + k)%nat.
Proof.
  intros A f d m. induction m as [|m IH]; intros s k H; [lia|].
  destruct k as [|k]; simpl.
  - f_equal. lia.
  - rewrite IH by lia. f_equal. lia.
Qed.

Lemma refs_nth_seq : forall (ins : list (option nat)),
  map (fun k => nth k ins None) (seq 0 (length ins)) = ins.
Proof.
  intros ins. apply nth_ext with (d := None) (d' := None).
  - rewrite length_map, length_seq. reflexivity.
  - intros k Hk. rewrite length_map, length_seq in Hk.
    rewrite nth_map_seq_from by exact Hk. reflexivity.
Qed.

Lemma for_each_refs : forall (body : option nat -> M unit) (ins : list (option nat)) w,
  for_each (seq 0 (length ins)) (fun k => body (nth k ins None)) w = for_each ins body w.
Proof.
  intros body ins w. rewrite <- for_each_map, refs_nth_seq. reflexivity.
Qed.

Lemma backward_eval : forall o ns g n nd,
  nth_error ns n = Some nd ->
  arity_ok o nd = true ->
  forallb (valid_ref ns) (inputs nd) = true ->
  ~ In (Some n) (inputs nd) ->
  eval (OpTraits_backward o n) ns g tt
       (apply_accs g
          (backward_accs o (inputs nd) (input_slots ns SValue (inputs nd)) (gradient nd))
          ns).
Proof.
  intros o ns g n nd Hn Hok Hval Hnin.
  destruct o; cbn [arity_ok] in Hok.
  (* nullary operators and unknown tags *)
  all: try (unfold_pass; apply eval_ret).
  (* unary rules *)
  all: try (destruct (unary_ok_inv nd Hok) as [a Hin];
            destruct (valid_ref_lookup ns (Some a)) as [a' [na [Ea Ha]]];
            [ rewrite Hin in Hval; simpl in Hval;
              rewrite andb_true_r in Hval; exact Hval | ];
            inversion Ea; subst a'; clear Ea;
            rewrite Hin, (input_slots_1 ns SValue a na Ha);
            cbn [backward_accs length seq map nth ref_target partials unary_rule_of];
            unfold_pass;
            (eapply eval_bind; [apply eval_node_at; eassumption|]); cbv beta;
            rewrite Hok, Hin; cbn [negb nth];
            do 3 eval_step; eapply eval_acc_step; [lookup | reflexivity]).
  - (* Add *)
    unfold_pass. eapply eval_bind; [apply eval_node_at; eassumption|]. cbv beta.
    rewrite Hok. cbn [negb backward_accs].
    eapply eval_ext; [intro w; apply for_each_refs|].
    apply (eval_index_loop ns g n nd _
             (fun k => gradient nd *
                       nth k (partials Add (input_slots ns SValue (inputs nd))) 0));
      try assumption.
    intros i ns' a x Hi Hn' Ea Hx. rewrite Ea.
    eval_step. eval_step. cbn [slot_get].
    eapply eval_acc_step; [exact Hx|].
    cbn [partials]. rewrite nth_map_const by (rewrite input_slots_length; exact Hi). lra.
  - (* Subtract *)
    destruct (binary_ok_inv nd Hok) as [a [b Hin]].
    rewrite Hin in Hval. simpl in Hval. rewrite andb_true_r in Hval.
    apply andb_true_iff in Hval. destruct Hval as [Hva Hvb].
    destruct (valid_ref_lookup ns (Some a) Hva) as [a' [na [Ea Ha]]].
    destruct (valid_ref_lookup ns (Some b) Hvb) as [b' [nb [Eb Hb]]].
    inversion Ea; subst a'. inversion Eb; subst b'. clear Ea Eb.
    rewrite Hin, (input_slots_2 ns SValue a b na nb Ha Hb).
    cbn [backward_accs length seq map nth ref_target partials].
    unfold_pass. eapply eval_bind; [apply eval_node_at; eassumption|]. cbv beta.
    rewrite Hok, Hin. cbn [negb nth]. do 5 eval_step. cbn [slot_get].
    eapply eval_accumulate; [lookup|].
    eapply eval_accumulate_last. lookup.
  - (* Multiply *)
    unfold_pass. eapply eval_bind; [apply eval_node_at; eassumption|]. cbv beta.
    rewrite Hok. cbn [negb backward_accs]. cbv zeta.
    eapply eval_bind; [apply eval_read_values; exact Hval|]. cbv beta.
    apply (eval_index_loop ns g n nd _
             (fun k => gradient nd *
                       nth k (partials Multiply (input_slots ns SValue (inputs nd))) 0));
      try assumption.
    intros i ns' a x Hi Hn' Ea Hx. rewrite Ea.
    eval_step. eval_step. cbn [slot_get].
    eapply eval_acc_step; [exact Hx|].
    cbn [partials]. rewrite nth_map_seq by (rewrite input_slots_length; exact Hi).
    reflexivity.
  - (* Divide *)
    destruct (binary_ok_inv nd Hok) as [a [b Hin]].
    rewrite Hin in Hval. simpl in Hval. rewrite andb_true_r in Hval.
    apply andb_true_iff in Hval. destruct Hval as [Hva Hvb].
    destruct (valid_ref_lookup ns (Some a) Hva) as [a' [na [Ea Ha]]].
    destruct (valid_ref_lookup ns (Some b) Hvb) as [b' [nb [Eb Hb]]].
    inversion Ea; subst a'. inversion Eb; subst b'. clear Ea Eb.
    rewrite Hin, (input_slots_2 ns SValue a b na nb Ha Hb).
    cbn [backward_accs length seq map nth ref_target partials].
    unfold_pass. eapply eval_bind; [apply eval_node_at; eassumption|]. cbv beta.
    rewrite Hok, Hin. cbn [negb nth]. do 5 eval_step. cbn [slot_get].
    eapply eval_accumulate; [lookup|].
    eapply eval_accumulate_last. lookup.
  - (* Max *)
    destruct (binary_ok_inv nd Hok) as [a [b Hin]].
    rewrite Hin in Hval. simpl in Hval. rewrite andb_true_r in Hval.
    apply andb_true_iff in Hval. destruct Hval as [Hva Hvb].
    destruct (valid_ref_lookup ns (Some a) Hva) as [a' [na [Ea Ha]]].
    destruct (valid_ref_lookup ns (Some b) Hvb) as [b' [nb [Eb Hb]]].
    inversion Ea; subst a'. inversion Eb; subst b'. clear Ea Eb.
    rewrite Hin, (input_slots_2 ns SValue a b na nb Ha Hb).
    cbn [backward_accs nth slot_get].
    eapply eval_eq; [apply (max_backward_eval ns g n a b nd na nb); assumption|].
    destruct (Rgeb (value na) (value nb)); reflexivity.
  - (* Softmax *)
    unfold_pass. eapply eval_bind; [apply eval_node_at; eassumption|]. cbv beta.
    rewrite Hok. cbn [negb backward_accs]. cbv zeta.
    eapply eval_bind; [apply eval_read_values; exact Hval|]. cbv beta.
    eval_step. cbn [slot_get].
    apply (eval_index_loop ns g n nd _
             (fun k => gradient nd *
                       nth k (partials Softmax (input_slots ns SValue (inputs nd))) 0));
      try assumption.
    intros i ns' a x Hi Hn' Ea Hx. rewrite Ea.
    eval_step.
    eapply eval_acc_step; [exact Hx|].
    cbn [partials]. rewrite nth_map_seq by (rewrite input_slots_length; exact Hi).
    reflexivity.
Qed.

(** * The scheduler *)

(** Modelled from the spec: the scheduler and the pass drivers are outside
    OpTraits.h.  "Each counter is incremented at the start of the
    corresponding pass"; the counters are 64-bit. *)
Definition next_epoch (e : N) : N := ((e + 1) mod 2 ^ 64)%N.

(** Modelled from the spec: the graph record "holds four process-monotonic
    counters", which its owner (not OpTraits.h) updates; this writes one of
    them. *)
Definition set_cur_epoch (s : Slot) (e : N) (g : ADGraph) : ADGraph :=
  match s with
  | SValue => mkGraph e (cur_dot_epoch_ g) (cur_grad_epoch_ g) (cur_gdot_epoch_ g)
  | SDot => mkGraph (cur_val_epoch_ g) e (cur_grad_epoch_ g) (cur_gdot_epoch_ g)
  | SGradient => mkGraph (cur_val_epoch_ g) (cur_dot_epoch_ g) e (cur_gdot_epoch_ g)
  | SGradDot => mkGraph (cur_val_epoch_ g) (cur_dot_epoch_ g) (cur_grad_epoch_ g) e
  end.

(** Modelled from the spec: the pass driver is missing; each counter "is
    incremented at the start of the corresponding pass". *)
Definition bump_epoch (s : Slot) : M unit :=
  fun w => Some (tt, mkWorld (nodes w)
                             (set_cur_epoch s (next_epoch (cur_epoch s (graph w))) (graph w))
                             (trace w)).

(** Modelled from the spec: the driver is missing.  A reverse rule reads the
    accumulators of the node it is run on, and "if a slot is not live, its
    stored numerical value is undefined and must be treated as zero before any
    read in an accumulation": before a reverse rule runs, the driver brings
    the node's own accumulators under the protocol.  The forward rules read
    produced slots only. *)
Definition settle (P : Pass) (n : nat) : M unit :=
  match P with
  | PForward | PForwardDot => ret tt
  | PBackward => ensure_epoch_zero n SGradient
  | PHvpBackward => ensure_epoch_zero n SGradient ;; ensure_epoch_zero n SGradDot
  end.

(** Modelled from the spec: "at each node it dispatches on the node's
    Operator and invokes the corresponding pass function". *)
Definition visit (P : Pass) (n : nat) : M unit :=
  nd <- node_at n ;; settle P n ;; OpTraits_pass P (op nd) n.

(** Modelled from the spec: a pass visits the nodes in the order the
    scheduler chose: topological for the forward passes, reverse topological
    for the reverse passes. *)
Definition run_pass (P : Pass) (order : list nat) : M unit :=
  for_each order (visit P).

(** Modelled from the spec: the driver of the forward pass is missing; it
    increments the value counter and visits the nodes. *)
Definition forward_pass (order : list nat) : M unit :=
  bump_epoch SValue ;; run_pass PForward order.

(** Modelled from the spec: the driver of the forward_dot pass is missing;
    it increments the tangent counter and visits the nodes. *)
Definition forward_dot_pass (order : list nat) : M unit :=
  bump_epoch SDot ;; run_pass PForwardDot order.

(** Modelled from the spec: the driver of the backward pass is missing; it
    increments the gradient counter, seeds [gradient_output = 1] and visits
    the nodes. *)
Definition backward_pass (order : list nat) (out : nat) : M unit :=
  bump_epoch SGradient ;;
  set_epoch_value out SGradient 1 ;;
  run_pass PBackward order.

(** Modelled from the spec: the caller of the three passes is missing;
    forward, forward_dot and backward run one after the other on one graph. *)
Definition differentiate (forder border : list nat) (out : nat) : M unit :=
  forward_pass forder ;; forward_dot_pass forder ;; backward_pass border out.

(** ** Well-formed graphs and orders *)

Definition skeleton (ns : list ADNode) : list (Operator * list (option nat)) :=
  map (fun nd => (op nd, inputs nd)) ns.

(** A node of a supported operator, of the right arity, whose references
    point into the graph; constants and variables have no inputs. *)
Definition wf_entry (N : nat) (e : Operator * list (option nat)) : bool :=
  negb (is_other (fst e)) &&
  arity_ok (fst e) (mkNode (fst e) (snd e) 0 0 0 0 0 0 0 0) &&
  forallb (fun r => match r with Some a => (a <? N)%nat | None => false end) (snd e) &&
  (if is_leaf (fst e) then (length (snd e) =? 0)%nat else true).

Definition wf_graph (ns : list ADNode) : bool :=
  forallb (wf_entry (length ns)) (skeleton ns).

Definition mem_nat (n : nat) (l : list nat) : bool := existsb (Nat.eqb n) l.

(** [topo_from Sh seen order]: every node of [order] is new and has all its
    inputs among the nodes seen before it. *)
Fixpoint topo_from (Sh : list (Operator * list (option nat))) (seen order : list nat)
  : bool :=
  match order with
  | [] => true
  | n :: rest =>
      match nth_error Sh n with
      | Some e =>
          negb (mem_nat n seen) &&
          forallb (fun r => match r with Some a => mem_nat a seen | None => false end)
                  (snd e) &&
          topo_from Sh (n :: seen) rest
      | None => false
      end
  end.

(** A topological order that visits every node. *)
Definition topological (ns : list ADNode) (order : list nat) : bool :=
  (length order =? length ns)%nat && topo_from (skeleton ns) [] order.

Definition is_max (o : Operator) : bool :=
  match o with Max => true | _ => false end.

(** Epoch tags never exceed their counter, and the counter can still be
    incremented. *)
Definition epochs_fresh (ns : list ADNode) (g : ADGraph) : bool :=
  forallb (fun nd => N.leb (grad_epoch nd) (cur_grad_epoch_ g)) ns &&
  N.ltb (cur_grad_epoch_ g) (2 ^ 64 - 1).

(** The sum over the variables of gradient times tangent. *)
Definition vjp_sum (ns : list ADNode) : R :=
  Rsum (map (fun nd => match op nd with Var => gradient nd * dot nd | _ => 0 end) ns).

(** ** A loop rule with an invariant over the visited prefix *)

Lemma eval_for_each_prefix :
  forall (A : Type) (I : list A -> list ADNode -> Prop) (body : A -> M unit) g
         (l : list A) ns,
  I [] ns ->
  (forall done x rest ns',
      l = done ++ x :: rest -> I done ns' ->
      exists ns'', eval (body x) ns' g tt ns'' /\ I (done ++ [x]) ns'') ->
  exists nsf, eval (for_each l body) ns g tt nsf /\ I l nsf.
Proof.
  intros A I body g l ns H0 Hstep.
  assert (Hgen : forall rest done ns',
             l = done ++ rest -> I done ns' ->
             exists nsf, eval (for_each rest body) ns' g tt nsf /\ I l nsf).
  { induction rest as [|x rest IH]; intros done ns' El HI.
    - exists ns'. split; [apply eval_ret|]. rewrite El, app_nil_r. exact HI.
    - destruct (Hstep done x rest ns' El HI) as [ns'' [Hx HI']].
      destruct (IH (done ++ [x]) ns'') as [nsf [Hr HIf]].
      + rewrite El, <- app_assoc. reflexivity.
      + exact HI'.
      + exists nsf. split; [|exact HIf].
        simpl. eapply eval_bind; [exact Hx | exact Hr]. }
  apply (Hgen l [] ns); [reflexivity | exact H0].
Qed.

(** ** What a pass keeps *)

(** [keeps S T x' x]: [x'] is [x] except for the slots in [S] and the tags
    in [T]. *)
Definition keeps (S T : Slot -> bool) (x' x : ADNode) : Prop :=
  op x' = op x /\ inputs x' = inputs x /\
  (forall s, S s = false -> slot_get s x' = slot_get s x) /\
  (forall s, T s = false -> tag_get s x' = tag_get s x).

Definition arena_keeps (S T : Slot -> bool) (ns' ns : list ADNode) : Prop :=
  length ns' = length ns /\
  forall j x x', nth_error ns j = Some x -> nth_error ns' j = Some x' -> keeps S T x' x.

Lemma keeps_refl : forall S T x, keeps S T x x.
Proof. intros. repeat split; auto. Qed.

Lemma keeps_trans : forall S T x1 x2 x3,
  keeps S T x2 x1 -> keeps S T x3 x2 -> keeps S T x3 x1.
Proof.
  intros S T x1 x2 x3 [A1 [B1 [C1 D1]]] [A2 [B2 [C2 D2]]].
  repeat split; try congruence.
  - intros s Hs. rewrite C2, C1; auto.
  - intros s Hs. rewrite D2, D1; auto.
Qed.

Lemma arena_keeps_refl : forall S T ns, arena_keeps S T ns ns.
Proof.
  intros S T ns. split; [reflexivity|].
  intros j x x' H H'. assert (x' = x) by congruence. subst. apply keeps_refl.
Qed.

Lemma arena_keeps_upd : forall S T ns' ns p F,
  arena_keeps S T ns' ns ->
  (forall x, keeps S T (F x) x) ->
  arena_keeps S T (upd p F ns') ns.
Proof.
  intros S T ns' ns p F [Hlen H] HF. split; [rewrite upd_length; exact Hlen|].
  intros j x x' Hj Hj'. rewrite nth_error_upd in Hj'.
  destruct (p =? j)%nat.
  - destruct (nth_error ns' j) as [y|] eqn:E; simpl in Hj'; [|discriminate].
    inversion Hj'; subst x'. eapply keeps_trans; [apply (H j x y); auto | apply HF].
  - apply (H j x x'); auto.
Qed.

Lemma arena_keeps_skeleton : forall S T ns' ns,
  arena_keeps S T ns' ns -> skeleton ns' = skeleton ns.
Proof.
  intros S T ns' ns [Hlen H]. unfold skeleton. apply nth_error_ext. intro j.
  rewrite !nth_error_map.
  destruct (nth_error ns j) as [x|] eqn:E; destruct (nth_error ns' j) as [x'|] eqn:E'.
  - destruct (H j x x' E E') as [Ho [Hi _]]. simpl. rewrite Ho, Hi. reflexivity.
  - apply nth_error_None in E'. assert (j < length ns)%nat by (apply nth_error_Some; congruence). lia.
  - apply nth_error_None in E. assert (j < length ns')%nat by (apply nth_error_Some; congruence). lia.
  - reflexivity.
Qed.

Lemma arena_keeps_lookup : forall S T ns' ns j x,
  arena_keeps S T ns' ns -> nth_error ns j = Some x ->
  exists x', nth_error ns' j = Some x' /\ keeps S T x' x.
Proof.
  intros S T ns' ns j x [Hlen H] Hj.
  destruct (nth_error ns' j) as [x'|] eqn:E.
  - exists x'. split; [reflexivity|]. apply (H j x x'); auto.
  - apply nth_error_None in E. assert (j < length ns)%nat by (apply nth_error_Some; congruence). lia.
Qed.

Lemma arena_keeps_lookup_back : forall S T ns' ns j x',
  arena_keeps S T ns' ns -> nth_error ns' j = Some x' ->
  exists x, nth_error ns j = Some x /\ keeps S T x' x.
Proof.
  intros S T ns' ns j x' [Hlen H] Hj.
  destruct (nth_error ns j) as [x|] eqn:E.
  - exists x. split; [reflexivity|]. apply (H j x x'); auto.
  - apply nth_error_None in E. assert (j < length ns')%nat by (apply nth_error_Some; congruence). lia.
Qed.

(** ** What one visit does *)

Definition only_slot (s t : Slot) : bool := Slot_eqb t s.

Definition dot_tags (t : Slot) : bool :=
  match t with SValue | SDot => true | _ => false end.

Lemma keeps_touched : forall s g x, keeps (only_slot s) (only_slot s) (touched s g x) x.
Proof.
  intros s g x. unfold keeps, only_slot.
  repeat split; try (destruct s; reflexivity);
    intros t Ht; destruct s, t; try discriminate; reflexivity.
Qed.

Lemma keeps_produced : forall s g v x,
  keeps (only_slot s) (only_slot s) (produced s g v x) x.
Proof.
  intros s g v x. unfold keeps, only_slot.
  repeat split; try (destruct s; reflexivity);
    intros t Ht; destruct s, t; try discriminate; reflexivity.
Qed.

Lemma keeps_accumulated : forall s g v x,
  keeps (only_slot s) (only_slot s) (accumulated s g v x) x.
Proof.
  intros s g v x. unfold keeps, only_slot.
  split; [apply accumulated_op|]. split; [apply accumulated_inputs|].
  split; intros t Ht.
  - apply accumulated_slot_other. intro E. subst t. destruct s; discriminate.
  - apply accumulated_tag_other. intro E. subst t. destruct s; discriminate.
Qed.

Lemma keeps_weaken : forall (S T S' T' : Slot -> bool) x' x,
  (forall s, S s = true -> S' s = true) ->
  (forall s, T s = true -> T' s = true) ->
  keeps S T x' x -> keeps S' T' x' x.
Proof.
  intros S T S' T' x' x HS HT [A [B [C D]]]. repeat split; auto.
  - intros s Hs. apply C. destruct (S s) eqn:E; [|reflexivity].
    rewrite (HS s E) in Hs. discriminate.
  - intros s Hs. apply D. destruct (T s) eqn:E; [|reflexivity].
    rewrite (HT s E) in Hs. discriminate.
Qed.

Lemma keeps_dot_update : forall g x y,
  keeps (only_slot SDot) (only_slot SDot) y x ->
  keeps (only_slot SDot) dot_tags (touched SValue g y) x.
Proof.
  intros g x y H.
  apply keeps_trans with (x2 := y).
  - eapply keeps_weaken; [| |exact H]; intros s Hs; auto.
    destruct s; try discriminate; reflexivity.
  - unfold keeps. repeat split; intros s Hs; destruct s; try discriminate; reflexivity.
Qed.

Lemma valid_refs_1 : forall ns a,
  forallb (valid_ref ns) [Some a] = true -> exists na, nth_error ns a = Some na.
Proof.
  intros ns a H. simpl in H. rewrite andb_true_r in H.
  destruct (valid_ref_lookup ns (Some a) H) as [a' [na [E Ha]]].
  inversion E; subst. exists na. exact Ha.
Qed.

Lemma valid_refs_2 : forall ns a b,
  forallb (valid_ref ns) [Some a; Some b] = true ->
  exists na nb, nth_error ns a = Some na /\ nth_error ns b = Some nb.
Proof.
  intros ns a b H. simpl in H. rewrite andb_true_r in H.
  apply andb_true_iff in H. destruct H as [Ha Hb].
  destruct (valid_ref_lookup ns (Some a) Ha) as [a' [na [Ea Hna]]].
  destruct (valid_ref_lookup ns (Some b) Hb) as [b' [nb [Eb Hnb]]].
  inversion Ea; inversion Eb; subst. exists na, nb. split; assumption.
Qed.

(** forward writes the value slot of its own node and nothing else. *)
Lemma forward_eval : forall o ns g n nd,
  nth_error ns n = Some nd ->
  is_other o = false ->
  arity_ok o nd = true ->
  forallb (valid_ref ns) (inputs nd) = true ->
  exists F, eval (OpTraits_forward o n) ns g tt (upd n F ns) /\
            forall x, keeps (only_slot SValue) (only_slot SValue) (F x) x.
Proof.
  intros o ns g n nd Hn Hoth Hok Hval.
  destruct o; try discriminate; cbn [arity_ok] in Hok.
  (* leaves *)
  all: try solve [exists (touched SValue g); split;
                  [unfold_pass; eval_all | intro x; apply keeps_touched]].
  (* unary rules *)
  all: try solve [destruct (unary_ok_inv nd Hok) as [a Hin];
            rewrite Hin in Hval; destruct (valid_refs_1 ns a Hval) as [na Ha];
            eexists; split;
            [ unfold_pass;
              (eapply eval_bind; [apply eval_node_at; eassumption|]); cbv beta;
              rewrite Hok, Hin; cbn [negb nth]; eval_all
            | intro x; apply keeps_produced ]].
  (* binary rules and Max *)
  all: try solve [destruct (binary_ok_inv nd Hok) as [a [b Hin]];
            rewrite Hin in Hval; destruct (valid_refs_2 ns a b Hval) as [na [nb [Ha Hb]]];
            eexists; split;
            [ unfold_pass;
              (eapply eval_bind; [apply eval_node_at; eassumption|]); cbv beta;
              rewrite Hok, Hin; cbn [negb nth]; eval_all
            | intro x; apply keeps_produced ]].
  - (* Add *)
    eexists; split.
    + unfold_pass. eapply eval_bind; [apply eval_node_at; eassumption|]. cbv beta.
      rewrite Hok. cbn [negb].
      eapply eval_bind; [apply eval_sum_slots; exact Hval|]. cbv beta. eval_all.
    + intro x; apply keeps_produced.
  - (* Multiply *)
    eexists; split.
    + unfold_pass. eapply eval_bind; [apply eval_node_at; eassumption|]. cbv beta.
      rewrite Hok. cbn [negb].
      eapply eval_bind.
      * apply (eval_fold_M _ _ _ (fun p r => p * ref_slot ns SValue r)).
        intros b r Hr. rewrite forallb_forall in Hval.
        destruct (valid_ref_lookup ns r (Hval r Hr)) as [p [x [-> Hp]]].
        simpl ref_slot. rewrite Hp. eval_all.
      * cbv beta. eval_all.
    + intro x; apply keeps_produced.
  - (* Softmax *)
    eexists; split.
    + unfold_pass. eapply eval_bind; [apply eval_node_at; eassumption|]. cbv beta.
      rewrite Hok. cbn [negb].
      eapply eval_bind; [apply eval_read_values; exact Hval|]. cbv beta zeta. eval_all.
    + intro x; apply keeps_produced.
Qed.

(** The node forward_dot leaves behind: a leaf keeps its tangent, any other
    node receives the directional derivative [v]. *)
Definition dot_update (o : Operator) (g : ADGraph) (v : R) (x : ADNode) : ADNode :=
  touched SValue g (if is_leaf o then touched SDot g x else produced SDot g v x).

Lemma forward_dot_eval : forall o ns g n nd,
  nth_error ns n = Some nd ->
  is_other o = false ->
  arity_ok o nd = true ->
  forallb (valid_ref ns) (inputs nd) = true ->
  eval (OpTraits_forward_dot o n) ns g tt
       (upd n (dot_update o g (jvp_value o (input_slots ns SValue (inputs nd))
                                           (input_slots ns SDot (inputs nd)))) ns).
Proof.
  intros o ns g n nd Hn Hoth Hok Hval.
  unfold dot_update.
  destruct (is_leaf o) eqn:Hleaf.
  - rewrite <- upd_upd. apply (leaf_forward_dot_eval o ns g n nd Hleaf Hn).
  - rewrite <- (upd_upd n (produced SDot g _) (touched SValue g)).
    destruct o; try discriminate; cbn [arity_ok] in Hok.
    all: try solve [destruct (unary_ok_inv nd Hok) as [a Hin];
              pose proof Hval as Hval'; rewrite Hin in Hval';
              destruct (valid_refs_1 ns a Hval') as [na Ha];
              eapply unary_forward_dot_eval; [reflexivity | eassumption..]].
    all: try solve [destruct (binary_ok_inv nd Hok) as [a [b Hin]];
              pose proof Hval as Hval'; rewrite Hin in Hval';
              destruct (valid_refs_2 ns a b Hval') as [na [nb [Ha Hb]]];
              eapply binary_forward_dot_eval; [tauto | eassumption..]].
    all: apply nary_forward_dot_eval;
      [tauto | exact Hn | apply nary_ok_nonempty; exact Hok | exact Hval].
Qed.

Lemma keeps_dot_update_any : forall o g v x,
  keeps (only_slot SDot) dot_tags (dot_update o g v x) x.
Proof.
  intros o g v x. unfold dot_update. apply keeps_dot_update.
  destruct (is_leaf o); [apply keeps_touched | apply keeps_produced].
Qed.

(** ** Well-formedness, unpacked *)

Lemma wf_graph_node : forall ns n nd,
  wf_graph ns = true -> nth_error ns n = Some nd ->
  is_other (op nd) = false /\ arity_ok (op nd) nd = true /\
  forallb (valid_ref ns) (inputs nd) = true /\
  (is_leaf (op nd) = true -> inputs nd = []).
Proof.
  intros ns n nd Hwf Hn. unfold wf_graph in Hwf. rewrite forallb_forall in Hwf.
  assert (Hin : In (op nd, inputs nd) (skeleton ns)).
  { unfold skeleton. apply in_map_iff. exists nd. split; [reflexivity|].
    eapply nth_error_In; eassumption. }
  specialize (Hwf _ Hin). unfold wf_entry in Hwf. cbn [fst snd] in Hwf.
  apply andb_true_iff in Hwf. destruct Hwf as [Hwf Hleaf].
  apply andb_true_iff in Hwf. destruct Hwf as [Hwf Hrefs].
  apply andb_true_iff in Hwf. destruct Hwf as [Hoth Har].
  split; [apply negb_true_iff; exact Hoth|].
  split; [rewrite <- Har; apply arity_ok_inputs; reflexivity|].
  split; [exact Hrefs|].
  intro Hl. rewrite Hl in Hleaf. apply Nat.eqb_eq in Hleaf.
  destruct (inputs nd); [reflexivity | discriminate].
Qed.

Lemma wf_graph_keeps : forall S T ns' ns,
  arena_keeps S T ns' ns -> wf_graph ns = true -> wf_graph ns' = true.
Proof.
  intros S T ns' ns Hk Hwf. unfold wf_graph in *.
  rewrite (arena_keeps_skeleton S T ns' ns Hk). destruct Hk as [Hlen _].
  rewrite Hlen. exact Hwf.
Qed.

Lemma topological_keeps : forall S T ns' ns order,
  arena_keeps S T ns' ns -> topological ns order = true -> topological ns' order = true.
Proof.
  intros S T ns' ns order Hk H. unfold topological in *.
  rewrite (arena_keeps_skeleton S T ns' ns Hk). destruct Hk as [Hlen _].
  rewrite Hlen. exact H.
Qed.

(** ** Topological orders *)

Lemma mem_nat_In : forall n l, mem_nat n l = true <-> In n l.
Proof.
  intros n l. unfold mem_nat. rewrite existsb_exists. split.
  - intros [x [Hx E]]. apply Nat.eqb_eq in E. subst. exact Hx.
  - intro H. exists n. split; [exact H | apply Nat.eqb_refl].
Qed.

Lemma topo_from_spec : forall Sh order seen,
  topo_from Sh seen order = true ->
  NoDup order /\
  (forall n, In n order -> ~ In n seen /\ (n < length Sh)%nat) /\
  (forall l1 n l2 e, order = l1 ++ n :: l2 -> nth_error Sh n = Some e ->
     forall a, In (Some a) (snd e) -> In a seen \/ In a l1).
Proof.
  intros Sh order. induction order as [|n rest IH]; intros seen H.
  - split; [constructor|]. split; [intros n []|].
    intros l1 n l2 e E. destruct l1; discriminate.
  - simpl in H. destruct (nth_error Sh n) as [e|] eqn:En; [|discriminate].
    apply andb_true_iff in H. destruct H as [H Hrest].
    apply andb_true_iff in H. destruct H as [Hnew Hins].
    destruct (IH (n :: seen) Hrest) as [Hnd [Hall Hpre]].
    assert (Hnseen : ~ In n seen).
    { intro Hc. apply mem_nat_In in Hc. rewrite Hc in Hnew. discriminate. }
    split; [|split].
    + constructor; [|exact Hnd]. intro Hc. destruct (Hall n Hc) as [Hx _].
      apply Hx. left. reflexivity.
    + intros m [<- | Hm].
      * split; [exact Hnseen|]. apply nth_error_Some. congruence.
      * destruct (Hall m Hm) as [Hx Hlt]. split; [|exact Hlt].
        intro Hc. apply Hx. right. exact Hc.
    + intros l1 m l2 e' E Hm a Ha. destruct l1 as [|x l1].
      * simpl in E. inversion E; subst m l2. left.
        rewrite En in Hm. inversion Hm; subst e'.
        rewrite forallb_forall in Hins. specialize (Hins _ Ha). simpl in Hins.
        apply mem_nat_In. exact Hins.
      * simpl in E. inversion E; subst x rest.
        destruct (Hpre l1 m l2 e' eq_refl Hm a Ha) as [[<- | Hs] | Hl].
        -- right. left. reflexivity.
        -- left. exact Hs.
        -- right. right. exact Hl.
Qed.

(** What a topological order of all the nodes provides. *)
Record topo_spec (Sh : list (Operator * list (option nat))) (order : list nat) : Prop := {
  ts_nodup : NoDup order;
  ts_all : forall n, In n order <-> (n < length Sh)%nat;
  ts_before : forall l1 n l2 e, order = l1 ++ n :: l2 -> nth_error Sh n = Some e ->
              forall a, In (Some a) (snd e) -> In a l1
}.

Lemma topological_spec : forall ns order,
  topological ns order = true -> topo_spec (skeleton ns) order.
Proof.
  intros ns order H. unfold topological in H. apply andb_true_iff in H.
  destruct H as [Hlen Htopo]. apply Nat.eqb_eq in Hlen.
  destruct (topo_from_spec _ _ _ Htopo) as [Hnd [Hall Hpre]].
  assert (HlenS : length (skeleton ns) = length ns) by (unfold skeleton; apply length_map).
  constructor.
  - exact Hnd.
  - intro n. split; [intro Hn; apply (Hall n Hn)|].
    intro Hn.
    assert (Hincl : incl (seq 0 (length ns)) order).
    { apply NoDup_length_incl; [exact Hnd | rewrite length_seq; lia |].
      intros m Hm. apply in_seq. destruct (Hall m Hm) as [_ Hlt]. lia. }
    apply Hincl. apply in_seq. lia.
  - intros l1 n l2 e E Hn a Ha.
    destruct (Hpre l1 n l2 e E Hn a Ha) as [[] | Hl]. exact Hl.
Qed.

Lemma topo_not_before : forall Sh order l1 n l2,
  topo_spec Sh order -> order = l1 ++ n :: l2 -> ~ In n l1 /\ ~ In n l2.
Proof.
  intros Sh order l1 n l2 H E. pose proof (ts_nodup _ _ H) as Hnd. subst order.
  apply NoDup_remove_2 in Hnd. split; intro Hc; apply Hnd; apply in_or_app; tauto.
Qed.

(** In a reverse topological order the inputs of a node come after it and
    its consumers before it. *)
Lemma rev_topo_facts : forall Sh border done n rest e,
  topo_spec Sh (rev border) ->
  border = done ++ n :: rest ->
  nth_error Sh n = Some e ->
  (forall a, In (Some a) (snd e) -> In a rest) /\
  ~ In n done /\ ~ In n rest /\
  (forall c ec, nth_error Sh c = Some ec -> In (Some n) (snd ec) -> In c done).
Proof.
  intros Sh border done n rest e H E Hn.
  assert (Erev : rev border = rev rest ++ n :: rev done).
  { subst border. rewrite rev_app_distr. simpl. rewrite <- app_assoc. reflexivity. }
  destruct (topo_not_before _ _ _ _ _ H Erev) as [Hn1 Hn2].
  assert (Hnr : ~ In n rest) by (intro Hc; apply Hn1; apply in_rev in Hc; exact Hc).
  assert (Hndn : ~ In n done) by (intro Hc; apply Hn2; apply in_rev in Hc; exact Hc).
  assert (Hins : forall a, In (Some a) (snd e) -> In a rest).
  { intros a Ha. apply in_rev. apply (ts_before _ _ H _ _ _ _ Erev Hn a Ha). }
  split; [exact Hins|]. split; [exact Hndn|]. split; [exact Hnr|].
  intros c ec Hc Hmention.
  assert (Hcb : In c border).
  { apply in_rev. apply (ts_all _ _ H). apply nth_error_Some. congruence. }
  rewrite E in Hcb. apply in_app_or in Hcb. destruct Hcb as [Hd | [<- | Hr]].
  - exact Hd.
  - exfalso. rewrite Hn in Hc. inversion Hc; subst ec. apply Hnr. apply Hins. exact Hmention.
  - exfalso. apply in_split in Hr. destruct Hr as [r1 [r2 Er]].
    assert (Erev2 : rev border = rev r2 ++ c :: rev (done ++ n :: r1)).
    { subst border rest. rewrite app_comm_cons, app_assoc, rev_app_distr. simpl.
      rewrite <- app_assoc. reflexivity. }
    pose proof (ts_before _ _ H _ _ _ _ Erev2 Hc n Hmention) as Hin.
    apply in_rev in Hin. apply Hnr. rewrite Er. apply in_or_app. right. right. exact Hin.
Qed.

Lemma skeleton_lookup : forall ns n nd,
  nth_error ns n = Some nd -> nth_error (skeleton ns) n = Some (op nd, inputs nd).
Proof. intros ns n nd H. unfold skeleton. rewrite nth_error_map, H. reflexivity. Qed.

Lemma skeleton_length : forall ns, length (skeleton ns) = length ns.
Proof. intro ns. unfold skeleton. apply length_map. Qed.

Lemma input_slots_upd_other : forall ns p F s ins,
  ~ In (Some p) ins -> input_slots (upd p F ns) s ins = input_slots ns s ins.
Proof.
  intros ns p F s ins H. unfold input_slots. apply map_ext_in.
  intros [a|] Ha; [|reflexivity]. simpl. rewrite nth_error_upd.
  destruct (p =? a)%nat eqn:E; [|reflexivity].
  apply Nat.eqb_eq in E. subst a. contradiction.
Qed.

Lemma eval_visit : forall P ns g n nd ns1 ns',
  nth_error ns n = Some nd ->
  eval (settle P n) ns g tt ns1 ->
  eval (OpTraits_pass P (op nd) n) ns1 g tt ns' ->
  eval (visit P n) ns g tt ns'.
Proof.
  intros P ns g n nd ns1 ns' Hn Hs H. unfold visit.
  eapply eval_bind; [apply eval_node_at; exact Hn|].
  eapply eval_bind; [exact Hs | exact H].
Qed.

(** Going forward a visit is the rule alone. *)
Lemma eval_visit_forward : forall P ns g n nd ns',
  P = PForward \/ P = PForwardDot ->
  nth_error ns n = Some nd ->
  eval (OpTraits_pass P (op nd) n) ns g tt ns' ->
  eval (visit P n) ns g tt ns'.
Proof.
  intros P ns g n nd ns' HP Hn H.
  apply (eval_visit P ns g n nd ns ns' Hn); [|exact H].
  destruct HP as [-> | ->]; apply eval_ret.
Qed.

(** ** The forward pass *)

Lemma forward_pass_run : forall ns g order,
  wf_graph ns = true ->
  (forall n, In n order -> (n < length ns)%nat) ->
  exists ns1, eval (run_pass PForward order) ns g tt ns1 /\
              arena_keeps (only_slot SValue) (only_slot SValue) ns1 ns.
Proof.
  intros ns g order Hwf Hlt. unfold run_pass.
  apply (eval_for_each_prefix nat
           (fun _ ns' => arena_keeps (only_slot SValue) (only_slot SValue) ns' ns)).
  - apply arena_keeps_refl.
  - intros done x rest ns' E HI.
    assert (Hx : (x < length ns)%nat).
    { apply Hlt. rewrite E. apply in_or_app. right. left. reflexivity. }
    destruct (nth_error ns' x) as [nd|] eqn:En.
    2:{ apply nth_error_None in En. destruct HI as [Hlen _]. lia. }
    destruct (wf_graph_node ns' x nd (wf_graph_keeps _ _ _ _ HI Hwf) En)
      as [Hoth [Har [Hval _]]].
    destruct (forward_eval (op nd) ns' g x nd En Hoth Har Hval) as [F [HF HK]].
    exists (upd x F ns'). split.
    + eapply eval_visit_forward; [left; reflexivity | exact En | exact HF].
    + apply arena_keeps_upd; assumption.
Qed.

(** ** The forward_dot pass *)

(** Every node that is not a leaf holds the directional derivative of its
    operator at its inputs. *)
Definition tangents_ok (ns : list ADNode) (n : nat) : Prop :=
  forall x, nth_error ns n = Some x -> is_leaf (op x) = false ->
            dot x = jvp_value (op x) (input_slots ns SValue (inputs x))
                                     (input_slots ns SDot (inputs x)).

Lemma dot_of_dot_update : forall o g v x,
  is_leaf o = false -> dot (dot_update o g v x) = v.
Proof. intros o g v x H. unfold dot_update. rewrite H. reflexivity. Qed.

Lemma dot_of_dot_update_leaf : forall o g v x,
  is_leaf o = true -> dot (dot_update o g v x) = dot x.
Proof. intros o g v x H. unfold dot_update. rewrite H. reflexivity. Qed.

(** Leaves carry the same tangent in both arenas. *)
Definition leaf_dots_kept (ns' ns : list ADNode) : Prop :=
  forall j x x', nth_error ns j = Some x -> nth_error ns' j = Some x' ->
                 is_leaf (op x) = true -> dot x' = dot x.

Lemma forward_dot_pass_run : forall ns g order,
  wf_graph ns = true ->
  topo_spec (skeleton ns) order ->
  exists ns2, eval (run_pass PForwardDot order) ns g tt ns2 /\
              arena_keeps (only_slot SDot) dot_tags ns2 ns /\
              leaf_dots_kept ns2 ns /\
              forall n, tangents_ok ns2 n.
Proof.
  intros ns g order Hwf Htopo.
  assert (Hgoal : exists ns2, eval (run_pass PForwardDot order) ns g tt ns2 /\
             (arena_keeps (only_slot SDot) dot_tags ns2 ns /\
              leaf_dots_kept ns2 ns /\
              forall n, In n order -> tangents_ok ns2 n)).
  { unfold run_pass.
    apply (eval_for_each_prefix nat
             (fun done ns' => arena_keeps (only_slot SDot) dot_tags ns' ns /\
                              leaf_dots_kept ns' ns /\
                              forall n, In n done -> tangents_ok ns' n)).
    - split; [apply arena_keeps_refl|]. split; [|intros n []].
      intros j x x' Hj Hj' _. congruence.
    - intros done x rest ns' E [HK [HL HT]].
      assert (Hx : (x < length ns)%nat).
      { rewrite <- skeleton_length. apply (ts_all _ _ Htopo). rewrite E.
        apply in_or_app. right. left. reflexivity. }
      destruct (nth_error ns' x) as [nd|] eqn:En.
      2:{ apply nth_error_None in En. destruct HK as [Hlen _]. lia. }
      destruct (wf_graph_node ns' x nd (wf_graph_keeps _ _ _ _ HK Hwf) En)
        as [Hoth [Har [Hval _]]].
      pose proof (arena_keeps_skeleton _ _ _ _ HK) as Hsk.
      assert (Hbefore : forall m y, nth_error ns' m = Some y ->
                 forall l1 l2, order = l1 ++ m :: l2 ->
                 forall a, In (Some a) (inputs y) -> In a l1).
      { intros m y Hm l1 l2 El a Ha.
        apply (ts_before _ _ Htopo l1 m l2 (op y, inputs y) El); [|exact Ha].
        rewrite <- Hsk. apply skeleton_lookup. exact Hm. }
      destruct (topo_not_before _ _ _ _ _ Htopo E) as [Hxd Hxr].
      assert (Hself : ~ In (Some x) (inputs nd)).
      { intro Hc. apply Hxd. apply (Hbefore x nd En done rest E x Hc). }
      eexists. split; [eapply eval_visit_forward; [right; reflexivity | exact En|];
                       apply (forward_dot_eval (op nd) ns' g x nd En Hoth Har Hval)|].
      split; [|split].
      + apply arena_keeps_upd; [exact HK | intro y; apply keeps_dot_update_any].
      + intros j y0 y' Hj Hj' Hleaf. rewrite nth_error_upd in Hj'.
        destruct (x =? j)%nat eqn:Exj.
        * apply Nat.eqb_eq in Exj. subst j. rewrite En in Hj'. simpl in Hj'.
          inversion Hj'; subst y'. clear Hj'.
          destruct HK as [_ HK]. destruct (HK x y0 nd Hj En) as [Eop _].
          rewrite dot_of_dot_update_leaf by (rewrite Eop; exact Hleaf).
          apply (HL x y0 nd Hj En Hleaf).
        * apply (HL j y0 y' Hj Hj' Hleaf).
      + intros m Hm y Hy Hleaf. apply in_app_or in Hm.
        rewrite nth_error_upd in Hy.
        destruct (x =? m)%nat eqn:Exm.
        * apply Nat.eqb_eq in Exm. subst m. rewrite En in Hy. simpl in Hy.
          inversion Hy; subst y. clear Hy.
          destruct (keeps_dot_update_any (op nd) g
                      (jvp_value (op nd) (input_slots ns' SValue (inputs nd))
                                 (input_slots ns' SDot (inputs nd))) nd)
            as [Eop [Ein _]].
          rewrite Eop, Ein in *.
          rewrite dot_of_dot_update by exact Hleaf.
          rewrite !input_slots_upd_other by exact Hself. reflexivity.
        * apply Nat.eqb_neq in Exm.
          destruct Hm as [Hm | [Hm | []]]; [|congruence].
          assert (Hnot : ~ In (Some x) (inputs y)).
          { intro Hc. apply in_split in Hm. destruct Hm as [d1 [d2 Ed]].
            assert (El : order = d1 ++ m :: (d2 ++ x :: rest)).
            { rewrite E, Ed, <- app_assoc. reflexivity. }
            pose proof (Hbefore m y Hy d1 _ El x Hc) as Hin.
            apply Hxd. rewrite Ed. apply in_or_app. left. exact Hin. }
          rewrite !input_slots_upd_other by exact Hnot.
          apply (HT m Hm y Hy Hleaf). }
  destruct Hgoal as [ns2 [He [HK [HL HT]]]].
  exists ns2. split; [exact He|]. split; [exact HK|]. split; [exact HL|].
  intros n x Hx. apply (HT n); [|exact Hx].
  apply (ts_all _ _ Htopo). rewrite skeleton_length.
  destruct HK as [Hlen _]. rewrite <- Hlen. apply nth_error_Some. congruence.
Qed.

(** ** Sums over the nodes *)

Lemma Rsum_map_plus : forall (A : Type) (f h : A -> R) (l : list A),
  Rsum (map (fun x => f x + h x) l) = Rsum (map f l) + Rsum (map h l).
Proof.
  intros A f h l. induction l as [|x t IH]; simpl; [lra|]. rewrite IH. lra.
Qed.

Lemma Rsum_single_from : forall (c : R) (a m s : nat),
  Rsum (map (fun j => if (j =? a)%nat then c else 0) (seq s m)) =
  if ((s <=? a) && (a <? s + m))%nat then c else 0.
Proof.
  intros c a m. induction m as [|m IH]; intro s.
  - simpl. destruct (s <=? a)%nat eqn:E1; simpl; [|reflexivity].
    destruct (a <? s + 0)%nat eqn:E2; [|reflexivity].
    apply Nat.leb_le in E1. apply Nat.ltb_lt in E2. lia.
  - cbn [seq map Rsum fold_right]. fold (Rsum (map (fun j => if (j =? a)%nat then c else 0)
                                             (seq (S s) m))).
    rewrite IH.
    destruct (s =? a)%nat eqn:E.
    + apply Nat.eqb_eq in E. subst a.
      replace (S s <=? s)%nat with false by (symmetry; apply Nat.leb_gt; lia).
      replace (s <=? s)%nat with true by (symmetry; apply Nat.leb_le; lia).
      replace (s <? s + S m)%nat with true by (symmetry; apply Nat.ltb_lt; lia).
      simpl. lra.
    + apply Nat.eqb_neq in E.
      destruct (S s <=? a)%nat eqn:E1; destruct (s <=? a)%nat eqn:E2;
        destruct (a <? S s + m)%nat eqn:E3; destruct (a <? s + S m)%nat eqn:E4;
        simpl; try lra;
        repeat match goal with
               | H : (_ <=? _)%nat = true |- _ => apply Nat.leb_le in H
               | H : (_ <=? _)%nat = false |- _ => apply Nat.leb_gt in H
               | H : (_ <? _)%nat = true |- _ => apply Nat.ltb_lt in H
               | H : (_ <? _)%nat = false |- _ => apply Nat.ltb_ge in H
               end; lia.
Qed.

Lemma Rsum_single : forall (c : R) (a m : nat),
  (a < m)%nat -> Rsum (map (fun j => if (j =? a)%nat then c else 0) (seq 0 m)) = c.
Proof.
  intros c a m H. rewrite Rsum_single_from.
  replace (0 <=? a)%nat with true by (symmetry; apply Nat.leb_le; lia).
  replace (a <? 0 + m)%nat with true by (symmetry; apply Nat.ltb_lt; lia).
  reflexivity.
Qed.

(** A sum over the nodes, by index. *)
Lemma Rsum_by_index : forall (f : ADNode -> R) (ns : list ADNode),
  Rsum (map f ns) =
  Rsum (map (fun j => match nth_error ns j with Some x => f x | None => 0 end)
            (seq 0 (length ns))).
Proof.
  intros f ns. rewrite <- (Rsum_nth_seq (map f ns)). rewrite length_map.
  apply Rsum_map_ext_in. intros j Hj. apply in_seq in Hj.
  destruct (nth_error ns j) as [x|] eqn:E.
  - rewrite (nth_indep _ 0 (f x)) by (rewrite length_map; lia).
    rewrite map_nth. f_equal. apply nth_error_nth. exact E.
  - apply nth_error_None in E. lia.
Qed.

(** Summing what a sequence of accumulations adds, node by node, is summing
    over the accumulations. *)
Lemma acc_total_swap : forall (s : Slot) (f : nat -> R) (m : nat) us,
  (forall u, In u us -> snd (fst u) = s /\ (fst (fst u) < m)%nat) ->
  Rsum (map (fun j => acc_total us j s * f j) (seq 0 m)) =
  Rsum (map (fun u => snd u * f (fst (fst u))) us).
Proof.
  intros s f m us. induction us as [|u us IH]; intro H.
  - simpl. apply Rsum_map_zero. intros j _. unfold acc_total. simpl. lra.
  - cbn [map Rsum fold_right]. fold (Rsum (map (fun u => snd u * f (fst (fst u))) us)).
    rewrite <- IH by (intros v Hv; apply H; right; exact Hv).
    destruct (H u (or_introl eq_refl)) as [Hs Hlt].
    rewrite <- (Rsum_single (snd u * f (fst (fst u))) (fst (fst u)) m Hlt).
    rewrite <- Rsum_map_plus. apply Rsum_map_ext_in. intros j _.
    rewrite acc_total_cons. unfold acc_hits. rewrite Hs.
    replace (Slot_eqb s s) with true by (destruct s; reflexivity).
    rewrite andb_true_r. rewrite (Nat.eqb_sym j).
    destruct (fst (fst u) =? j)%nat eqn:E.
    + apply Nat.eqb_eq in E. rewrite E. lra.
    + lra.
Qed.

(** ** The accumulations of one backward visit *)

Definition grad_accs (ns : list ADNode) (ins : list (option nat))
                     (us : list (nat * Slot * R)) : Prop :=
  forall u, In u us -> snd (fst u) = SGradient /\ In (Some (fst (fst u))) ins.

Lemma backward_accs_generic : forall o ins vals w,
  is_leaf o = false -> is_other o = false -> is_max o = false ->
  backward_accs o ins vals w =
  map (fun k => (ref_target (nth k ins None), SGradient, w * nth k (partials o vals) 0))
      (seq 0 (length ins)).
Proof. intros o ins vals w H1 H2 H3. destruct o; try discriminate; reflexivity. Qed.

Lemma backward_accs_leaf : forall o ins vals w,
  is_leaf o = true -> backward_accs o ins vals w = [].
Proof. intros o ins vals w H. destruct o; try discriminate; reflexivity. Qed.

Lemma backward_accs_targets : forall o ns nd vals w,
  is_other o = false ->
  arity_ok o nd = true ->
  forallb (valid_ref ns) (inputs nd) = true ->
  grad_accs ns (inputs nd) (backward_accs o (inputs nd) vals w).
Proof.
  intros o ns nd vals w Hoth Har Hval u Hu.
  destruct (is_leaf o) eqn:Hleaf; [rewrite backward_accs_leaf in Hu by exact Hleaf; destruct Hu|].
  destruct (is_max o) eqn:Hmax.
  - destruct o; try discriminate. cbn [arity_ok] in Har.
    destruct (binary_ok_inv nd Har) as [a [b Hin]]. rewrite Hin in *.
    cbn [backward_accs] in Hu.
    destruct (Rgeb (nth 0 vals 0) (nth 1 vals 0)); destruct Hu as [<- | []];
      cbn; split; auto.
  - rewrite backward_accs_generic in Hu by assumption.
    apply in_map_iff in Hu. destruct Hu as [k [<- Hk]]. apply in_seq in Hk.
    cbn [fst snd]. split; [reflexivity|].
    destruct (valid_ref_nth ns (inputs nd) k Hval) as [a [Ea [_ Hin]]]; [lia|].
    rewrite Ea. exact Hin.
Qed.

(** The tangent of a node, by index. *)
Definition dt (ns : list ADNode) (j : nat) : R :=
  match nth_error ns j with Some x => dot x | None => 0 end.

Lemma nth_input_dot : forall ns ins k,
  forallb (valid_ref ns) ins = true -> (k < length ins)%nat ->
  nth k (input_slots ns SDot ins) 0 = dt ns (ref_target (nth k ins None)).
Proof.
  intros ns ins k Hval Hk. unfold input_slots.
  rewrite (nth_indep _ 0 (ref_slot ns SDot None)) by (rewrite length_map; exact Hk).
  rewrite map_nth.
  destruct (valid_ref_nth ns ins k Hval Hk) as [a [Ea _]]. rewrite Ea.
  reflexivity.
Qed.

(** The local identity behind the agreement of the two modes: what a node
    sends to its inputs, weighted by their tangents, is its weight times its
    own directional derivative. *)
Lemma backward_accs_identity : forall o ns nd vals w,
  is_other o = false ->
  arity_ok o nd = true ->
  forallb (valid_ref ns) (inputs nd) = true ->
  length vals = length (inputs nd) ->
  Rsum (map (fun u => snd u * dt ns (fst (fst u))) (backward_accs o (inputs nd) vals w)) =
  w * jvp_value o vals (input_slots ns SDot (inputs nd)).
Proof.
  intros o ns nd vals w Hoth Har Hval Hlen.
  destruct (is_leaf o) eqn:Hleaf.
  { rewrite backward_accs_leaf by exact Hleaf. unfold jvp_value. simpl.
    rewrite Rsum_map_zero; [lra|].
    intros k _. destruct o; try discriminate; cbn [partials]; destruct k; simpl; lra. }
  destruct (is_max o) eqn:Hmax.
  - destruct o; try discriminate. cbn [arity_ok] in Har.
    destruct (binary_ok_inv nd Har) as [a [b Hin]]. rewrite Hin in *.
    destruct vals as [|va [|vb [|]]]; try discriminate.
    unfold jvp_value. cbn [backward_accs partials nth length seq map Rsum fold_right
                           input_slots ref_slot ref_target fst snd].
    unfold dt.
    destruct (Rgeb va vb); cbn [nth ref_target];
      destruct (nth_error ns a), (nth_error ns b); cbn [slot_get]; lra.
  - rewrite backward_accs_generic by assumption.
    rewrite map_map. cbn [fst snd]. unfold jvp_value. rewrite Hlen.
    rewrite <- Rsum_map_scal. apply Rsum_map_ext_in. intros k Hk. apply in_seq in Hk.
    rewrite nth_input_dot by (try exact Hval; lia). lra.
Qed.

Lemma arena_keeps_apply_accs : forall g us ns ns0,
  (forall u, In u us -> snd (fst u) = SGradient) ->
  arena_keeps (only_slot SGradient) (only_slot SGradient) ns ns0 ->
  arena_keeps (only_slot SGradient) (only_slot SGradient) (apply_accs g us ns) ns0.
Proof.
  intros g us. unfold apply_accs. induction us as [|u us IH]; intros ns ns0 H HK.
  - exact HK.
  - simpl. apply IH; [intros v Hv; apply H; right; exact Hv|].
    unfold apply_acc. apply arena_keeps_upd; [exact HK|].
    intro x. rewrite (H u (or_introl eq_refl)). apply keeps_accumulated.
Qed.

Lemma arena_keeps_trans : forall S T ns1 ns2 ns3,
  arena_keeps S T ns2 ns1 -> arena_keeps S T ns3 ns2 -> arena_keeps S T ns3 ns1.
Proof.
  intros S T ns1 ns2 ns3 H12 H23. split.
  - destruct H12, H23. congruence.
  - intros j x x3 Hj Hj3.
    destruct (arena_keeps_lookup _ _ _ _ _ _ H12 Hj) as [x2 [Hj2 K2]].
    destruct H23 as [_ H23]. eapply keeps_trans; [exact K2 | apply (H23 j x2 x3 Hj2 Hj3)].
Qed.

Lemma arena_keeps_weaken : forall (S T S' T' : Slot -> bool) ns' ns,
  (forall s, S s = true -> S' s = true) ->
  (forall s, T s = true -> T' s = true) ->
  arena_keeps S T ns' ns -> arena_keeps S' T' ns' ns.
Proof.
  intros S T S' T' ns' ns HS HT [Hlen H]. split; [exact Hlen|].
  intros j x x' Hj Hj'. eapply keeps_weaken; [exact HS | exact HT | apply (H j x x' Hj Hj')].
Qed.

Lemma NoDup_app_disjoint : forall (l1 l2 : list nat),
  NoDup (l1 ++ l2) -> forall a, In a l1 -> ~ In a l2.
Proof.
  intros l1. induction l1 as [|x l1 IH]; intros l2 H a Ha; [destruct Ha|].
  simpl in H. inversion H as [|? ? Hx Hnd]; subst.
  destruct Ha as [<- | Ha].
  - intro Hc. apply Hx. apply in_or_app. right. exact Hc.
  - apply IH; assumption.
Qed.

Lemma acc_total_no_hit : forall us j s,
  (forall u, In u us -> fst (fst u) <> j) -> acc_total us j s = 0.
Proof.
  intros us j s. induction us as [|u us IH]; intro H.
  - reflexivity.
  - rewrite acc_total_cons, IH by (intros v Hv; apply H; right; exact Hv).
    unfold acc_hits. destruct (fst (fst u) =? j)%nat eqn:E.
    + apply Nat.eqb_eq in E. exfalso. apply (H u); [left; reflexivity | exact E].
    + simpl. lra.
Qed.

Lemma input_slots_keeps : forall S T ns' ns s ins,
  arena_keeps S T ns' ns -> S s = false ->
  input_slots ns' s ins = input_slots ns s ins.
Proof.
  intros S T ns' ns s ins HK Hs. unfold input_slots. apply map_ext.
  intros [a|]; [|reflexivity]. simpl.
  destruct (nth_error ns a) as [x|] eqn:E.
  - destruct (arena_keeps_lookup _ _ _ _ _ _ HK E) as [x' [E' [_ [_ [Hsl _]]]]].
    rewrite E'. apply Hsl. exact Hs.
  - destruct (nth_error ns' a) as [x'|] eqn:E'; [|reflexivity].
    destruct (arena_keeps_lookup_back _ _ _ _ _ _ HK E') as [x [Ex _]]. congruence.
Qed.

Lemma mem_nat_app_last : forall j l n,
  mem_nat j (l ++ [n]) = mem_nat j l || (j =? n)%nat.
Proof.
  intros j l n. unfold mem_nat. rewrite existsb_app. simpl. rewrite orb_false_r. reflexivity.
Qed.

Lemma mem_nat_false : forall n l, ~ In n l -> mem_nat n l = false.
Proof.
  intros n l H. destruct (mem_nat n l) eqn:E; [|reflexivity].
  apply mem_nat_In in E. contradiction.
Qed.

(** ** The backward pass *)

Lemma keeps_zeroed : forall s g x,
  keeps (only_slot s) (only_slot s) (zeroed s g x) x.
Proof.
  intros s g x. unfold keeps, only_slot.
  split; [apply zeroed_op|]. split; [apply zeroed_inputs|].
  split; intros t Ht.
  - rewrite slot_get_zeroed, Ht. reflexivity.
  - rewrite tag_get_zeroed, Ht. reflexivity.
Qed.

(** Zeroing a stale accumulator does not change what an accumulation sees. *)
Lemma effective_zeroed : forall s g x,
  effective s g (zeroed s g x) = effective s g x.
Proof.
  intros s g x. rewrite effective_live by apply zeroed_live.
  rewrite slot_get_zeroed, Slot_eqb_refl. reflexivity.
Qed.

Section BackwardPass.

Variable g : ADGraph.
Variable nsb : list ADNode.
Variable out : nat.
Variable border : list nat.

Hypothesis Hwf : wf_graph nsb = true.
Hypothesis Htopo : topo_spec (skeleton nsb) (rev border).
(* the output is seeded *)
Hypothesis Hseed : exists xo, nth_error nsb out = Some xo /\
                              grad_epoch xo = cur_grad_epoch_ g /\ gradient xo = 1.
(* every other gradient is stale *)
Hypothesis Hstale : forall j x, nth_error nsb j = Some x -> j <> out ->
                                grad_epoch x <> cur_grad_epoch_ g.
Hypothesis Htan : forall n, tangents_ok nsb n.

(** The gradient of a node as an accumulation would see it. *)
Definition eg (ns : list ADNode) (j : nat) : R :=
  match nth_error ns j with Some x => effective SGradient g x | None => 0 end.

Definition leafb (ns : list ADNode) (j : nat) : bool :=
  match nth_error ns j with Some x => is_leaf (op x) | None => false end.

(** A node still counts in the sum until it has passed its gradient on;
    leaves keep theirs. *)
Definition pending (done : list nat) (ns : list ADNode) (j : nat) : R :=
  if mem_nat j done && negb (leafb ns j) then 0 else 1.

Definition pending_sum (done : list nat) (ns : list ADNode) : R :=
  Rsum (map (fun j => pending done ns j * eg ns j * dt ns j) (seq 0 (length ns))).

Record binv (done : list nat) (ns : list ADNode) : Prop := {
  bi_keeps : arena_keeps (only_slot SGradient) (only_slot SGradient) ns nsb;
  bi_sum : pending_sum done ns = dt nsb out;
  bi_raw : forall j x, In j done -> nth_error ns j = Some x ->
                       gradient x = effective SGradient g x
}.

Lemma binv_init : binv [] nsb.
Proof.
  destruct Hseed as [xo [Hout [Htag Hone]]].
  constructor.
  - apply arena_keeps_refl.
  - unfold pending_sum.
    rewrite <- (Rsum_single (dt nsb out) out (length nsb))
      by (apply nth_error_Some; congruence).
    apply Rsum_map_ext_in. intros j Hj. apply in_seq in Hj.
    unfold pending, eg, dt. cbn [mem_nat existsb andb].
    destruct (nth_error nsb j) as [x|] eqn:E.
    2:{ apply nth_error_None in E. lia. }
    unfold effective. cbn [tag_get slot_get cur_epoch].
    destruct (j =? out)%nat eqn:Ej.
    + apply Nat.eqb_eq in Ej. subst j. rewrite Hout in *. inversion E; subst x.
      rewrite Htag, N.eqb_refl, Hone. lra.
    + apply Nat.eqb_neq in Ej.
      replace (N.eqb (grad_epoch x) (cur_grad_epoch_ g)) with false; [lra|].
      symmetry. apply N.eqb_neq. apply (Hstale j x E Ej).
  - intros j x [].
Qed.

Lemma border_lt : forall n, In n border -> (n < length nsb)%nat.
Proof.
  intros n Hn. rewrite <- skeleton_length. apply (ts_all _ _ Htopo).
  apply -> in_rev. exact Hn.
Qed.

Lemma border_nodup : NoDup border.
Proof.
  rewrite <- (rev_involutive border). apply NoDup_rev. apply (ts_nodup _ _ Htopo).
Qed.

(** Bringing the gradient of a node that is still to be visited under the
    protocol keeps the invariant. *)
Lemma binv_settle : forall done n ns,
  ~ In n done -> binv done ns -> binv done (upd n (zeroed SGradient g) ns).
Proof.
  intros done n ns Hnd HI.
  assert (Hnode : forall j, match nth_error ns j with
                            | Some x => exists x', nth_error (upd n (zeroed SGradient g) ns) j
                                                   = Some x' /\
                                          op x' = op x /\ dot x' = dot x /\
                                          effective SGradient g x' = effective SGradient g x /\
                                          (j <> n -> x' = x)
                            | None => nth_error (upd n (zeroed SGradient g) ns) j = None
                            end).
  { intro j. rewrite nth_error_upd. destruct (nth_error ns j) as [x|] eqn:Ej.
    - destruct (n =? j)%nat eqn:Enj; cbn [option_map].
      + apply Nat.eqb_eq in Enj. eexists. split; [reflexivity|].
        split; [apply zeroed_op|]. split; [|split].
        * apply (slot_get_zeroed SDot SGradient).
        * apply effective_zeroed.
        * intro Hc. congruence.
      + exists x. repeat split; reflexivity.
    - destruct (n =? j)%nat; reflexivity. }
  constructor.
  - apply arena_keeps_upd; [apply (bi_keeps _ _ HI) | intro x; apply keeps_zeroed].
  - rewrite <- (bi_sum _ _ HI). unfold pending_sum. rewrite upd_length.
    apply Rsum_map_ext_in. intros j _. specialize (Hnode j).
    unfold pending, leafb, eg, dt.
    destruct (nth_error ns j) as [x|].
    + destruct Hnode as [x' [-> [-> [-> [-> _]]]]]. reflexivity.
    + rewrite Hnode. reflexivity.
  - intros j x Hj Hx. specialize (Hnode j).
    destruct (nth_error ns j) as [x0|] eqn:Ej.
    + destruct Hnode as [x' [Hx' [_ [_ [_ Hsame]]]]].
      rewrite Hx in Hx'. inversion Hx'; subst x'.
      rewrite Hsame by (intro Hc; subst j; contradiction).
      apply (bi_raw _ _ HI j x0 Hj Ej).
    + congruence.
Qed.

Lemma binv_step : forall done n rest ns0,
  border = done ++ n :: rest ->
  binv done ns0 ->
  exists ns', eval (visit PBackward n) ns0 g tt ns' /\ binv (done ++ [n]) ns'.
Proof.
  intros done n rest ns0 E HI0.
  assert (Hn : (n < length nsb)%nat).
  { apply border_lt. rewrite E. apply in_or_app. right. left. reflexivity. }
  destruct (nth_error nsb n) as [xb|] eqn:Enb.
  2:{ apply nth_error_None in Enb. lia. }
  destruct (rev_topo_facts _ border done n rest (op xb, inputs xb) Htopo E
              (skeleton_lookup _ _ _ Enb)) as [Hins [Hnd [Hnr _]]].
  cbn [snd] in Hins.
  destruct (arena_keeps_lookup _ _ _ _ _ _ (bi_keeps _ _ HI0) Enb) as [x0 [En0 _]].
  (* the driver first brings the node's gradient under the protocol *)
  set (ns := upd n (zeroed SGradient g) ns0).
  pose proof (binv_settle done n ns0 Hnd HI0) as HI. fold ns in HI.
  assert (En : nth_error ns n = Some (zeroed SGradient g x0)).
  { unfold ns. apply nth_error_upd_same. exact En0. }
  set (x := zeroed SGradient g x0) in *.
  assert (Hraw : gradient x = effective SGradient g x).
  { symmetry. apply (effective_live SGradient). apply zeroed_live. }
  pose proof (bi_keeps _ _ HI) as HK.
  assert (Hlen : length ns = length nsb) by (destruct HK; assumption).
  destruct (arena_keeps_lookup _ _ _ _ _ _ HK Enb) as [x' [En' [Eop [Ein [Hslots Htags]]]]].
  rewrite En in En'. inversion En'; subst x'. clear En'.
  destruct (wf_graph_node ns n x (wf_graph_keeps _ _ _ _ HK Hwf) En)
    as [Hoth [Har [Hval Hleafin]]].
  assert (Hdisj : forall a, In a done -> ~ In a rest).
  { intros a Ha Hc. pose proof border_nodup as Hnodup. rewrite E in Hnodup.
    apply (NoDup_app_disjoint _ _ Hnodup a Ha). right. exact Hc. }
  assert (Hself : ~ In (Some n) (inputs x)).
  { rewrite Ein. intro Hc. apply Hnr. apply Hins. exact Hc. }
  set (us := backward_accs (op x) (inputs x) (input_slots ns SValue (inputs x)) (gradient x)).
  assert (Hacc : grad_accs ns (inputs x) us).
  { apply backward_accs_targets; assumption. }
  assert (Hgrad : forall u, In u us -> snd (fst u) = SGradient).
  { intros u Hu. apply (Hacc u Hu). }
  assert (Hrest : forall u, In u us -> In (fst (fst u)) rest).
  { intros u Hu. apply Hins. rewrite <- Ein. apply (Hacc u Hu). }
  assert (Hunt : forall j, ~ In j rest ->
                 nth_error (apply_accs g us ns) j = nth_error ns j).
  { intros j Hj. apply apply_accs_untouched. intros u Hu Ec. apply Hj.
    rewrite <- Ec. apply Hrest. exact Hu. }
  assert (HK' : arena_keeps (only_slot SGradient) (only_slot SGradient)
                            (apply_accs g us ns) ns).
  { apply arena_keeps_apply_accs; [exact Hgrad | apply arena_keeps_refl]. }
  exists (apply_accs g us ns). split.
  { apply (eval_visit PBackward ns0 g n x0 ns _ En0).
    - apply (eval_ensure_epoch_zero n SGradient ns0 g x0 En0).
    - replace (op x0) with (op x) by apply zeroed_op.
      apply (backward_eval (op x) ns g n x En Har Hval Hself). }
  constructor.
  - (* frame *)
    apply arena_keeps_apply_accs; assumption.
  - (* the sum *)
    rewrite <- (bi_sum _ _ HI). unfold pending_sum. rewrite apply_accs_length.
    set (c := if is_leaf (op x) then 0 else eg ns n * dt ns n).
    transitivity
      (Rsum (map (fun j => pending done ns j * eg ns j * dt ns j +
                           acc_total us j SGradient * dt ns j -
                           (if (j =? n)%nat then c else 0))
                 (seq 0 (length ns)))).
    + apply Rsum_map_ext_in. intros j Hj. apply in_seq in Hj.
      destruct (nth_error ns j) as [xj|] eqn:Ej.
      2:{ apply nth_error_None in Ej. lia. }
      assert (Ej' : nth_error (apply_accs g us ns) j = Some (node_after g us j xj)).
      { rewrite nth_error_apply_accs, Ej. reflexivity. }
      destruct HK' as [_ HK']. destruct (HK' j xj _ Ej Ej') as [Eopj [_ [Hsl _]]].
      destruct (node_after_fields g us j xj) as [_ [_ Hf]].
      destruct (Hf SGradient) as [Heff _].
      unfold pending, leafb, eg, dt. rewrite Ej', Ej, Eopj, Heff.
      rewrite (Hsl SDot eq_refl : dot (node_after g us j xj) = dot xj).
      rewrite mem_nat_app_last.
      destruct (j =? n)%nat eqn:Ejn.
      * apply Nat.eqb_eq in Ejn. subst j. rewrite Ej in En. inversion En; subst xj.
        rewrite (mem_nat_false n done Hnd), orb_true_r.
        rewrite acc_total_no_hit
          by (intros u Hu Ec; apply Hnr; rewrite <- Ec; apply Hrest; exact Hu).
        unfold c, eg, dt. rewrite Ej.
        destruct (is_leaf (op x)); cbn [negb andb]; lra.
      * rewrite orb_false_r.
        destruct (mem_nat j done) eqn:Ejd.
        -- apply mem_nat_In in Ejd.
           rewrite acc_total_no_hit
             by (intros u Hu Ec; apply (Hdisj j Ejd); rewrite <- Ec; apply Hrest; exact Hu).
           lra.
        -- cbn [andb]. lra.
    + rewrite Rsum_map_minus, Rsum_map_plus.
      rewrite (Rsum_single c n (length ns)) by lia.
      rewrite (acc_total_swap SGradient (dt ns) (length ns) us).
      2:{ intros u Hu. split; [apply Hgrad; exact Hu|].
          destruct (Hacc u Hu) as [_ Hin].
          rewrite forallb_forall in Hval. specialize (Hval _ Hin).
          apply Nat.ltb_lt. exact Hval. }
      enough (Hloc : Rsum (map (fun u => snd u * dt ns (fst (fst u))) us) = c) by lra.
      unfold c, us. destruct (is_leaf (op x)) eqn:Hleaf.
      * rewrite backward_accs_leaf by exact Hleaf. reflexivity.
      * rewrite (backward_accs_identity (op x) ns x _ (gradient x) Hoth Har Hval)
          by apply input_slots_length.
        unfold eg, dt. rewrite En, <- Hraw. f_equal.
        rewrite (Hslots SDot eq_refl : dot x = dot xb).
        rewrite (Htan n xb Enb) by (rewrite <- Eop; exact Hleaf).
        rewrite Eop, Ein.
        rewrite (input_slots_keeps _ _ _ _ SValue _ HK eq_refl).
        rewrite (input_slots_keeps _ _ _ _ SDot _ HK eq_refl).
        reflexivity.
  - (* processed nodes *)
    intros j xj Hj Hxj. apply in_app_or in Hj.
    assert (Hjr : ~ In j rest).
    { destruct Hj as [Hj | [<- | []]]; [apply Hdisj; exact Hj | exact Hnr]. }
    rewrite (Hunt j Hjr) in Hxj.
    destruct Hj as [Hj | [<- | []]].
    + apply (bi_raw _ _ HI j xj Hj Hxj).
    + rewrite En in Hxj. inversion Hxj; subst xj. exact Hraw.
Qed.

(** The backward pass runs to completion, and afterwards the leaves carry
    the whole sum. *)
Lemma backward_pass_run :
  exists nsf, eval (run_pass PBackward border) nsb g tt nsf /\
              arena_keeps (only_slot SGradient) (only_slot SGradient) nsf nsb /\
              Rsum (map (fun x => if is_leaf (op x) then gradient x * dot x else 0) nsf) =
              dt nsb out.
Proof.
  destruct (eval_for_each_prefix nat binv (visit PBackward) g border nsb binv_init)
    as [nsf [He HI]].
  { intros done x rest ns' E HI. apply (binv_step done x rest ns' E HI). }
  exists nsf. split; [exact He|]. split; [apply (bi_keeps _ _ HI)|].
  rewrite <- (bi_sum _ _ HI). unfold pending_sum. rewrite Rsum_by_index.
  apply Rsum_map_ext_in. intros j Hj. apply in_seq in Hj.
  destruct (nth_error nsf j) as [x|] eqn:Ej.
  2:{ apply nth_error_None in Ej. lia. }
  assert (Hjb : In j border).
  { apply in_rev. apply (ts_all _ _ Htopo). rewrite skeleton_length.
    destruct (bi_keeps _ _ HI) as [Hlen _]. lia. }
  unfold pending, leafb, eg, dt. rewrite Ej.
  replace (mem_nat j border) with true by (symmetry; apply mem_nat_In; exact Hjb).
  rewrite <- (bi_raw _ _ HI j x Hjb Ej).
  destruct (is_leaf (op x)); cbn [negb andb]; lra.
Qed.

End BackwardPass.

(** ** The three passes together *)

Definition any_slot (s : Slot) : bool := true.

Lemma run_bump : forall (s : Slot) (m : M unit) ns g t,
  (bump_epoch s ;; m) (mkWorld ns g t) =
  m (mkWorld ns (set_cur_epoch s (next_epoch (cur_epoch s g)) g) t).
Proof. reflexivity. Qed.

Lemma next_epoch_fresh : forall e tag,
  (e <? 2 ^ 64 - 1)%N = true -> (tag <=? e)%N = true -> tag <> next_epoch e.
Proof.
  intros e tag He Ht. apply N.ltb_lt in He. apply N.leb_le in Ht.
  unfold next_epoch. rewrite N.mod_small by lia. lia.
Qed.

Lemma tangents_ok_keeps : forall S T ns' ns n,
  arena_keeps S T ns' ns -> S SValue = false -> S SDot = false ->
  tangents_ok ns n -> tangents_ok ns' n.
Proof.
  intros S T ns' ns n HK HV HD H x' Hx' Hleaf.
  destruct (arena_keeps_lookup_back _ _ _ _ _ _ HK Hx') as [x [Hx [Eop [Ein [Hsl _]]]]].
  rewrite (Hsl SDot HD : dot x' = dot x), Eop, Ein.
  rewrite (input_slots_keeps _ _ _ _ SValue _ HK HV).
  rewrite (input_slots_keeps _ _ _ _ SDot _ HK HD).
  apply (H x Hx). rewrite <- Eop. exact Hleaf.
Qed.

Definition bumped (s : Slot) (g : ADGraph) : ADGraph :=
  set_cur_epoch s (next_epoch (cur_epoch s g)) g.

Lemma run_pass_then : forall (s : Slot) (m k : M unit) ns g t ns',
  eval m ns (bumped s g) tt ns' ->
  exists t', ((bump_epoch s ;; m) ;; k) (mkWorld ns g t) = k (mkWorld ns' (bumped s g) t').
Proof.
  intros s m k ns g t ns' H. destruct (H t) as [t' E]. exists t'.
  unfold bind, bump_epoch. cbn [nodes graph trace]. fold (bumped s g).
  rewrite E. reflexivity.
Qed.

Lemma run_pass_last : forall (s : Slot) (m : M unit) ns g t ns',
  eval m ns (bumped s g) tt ns' ->
  exists t', (bump_epoch s ;; m) (mkWorld ns g t) = Some (tt, mkWorld ns' (bumped s g) t').
Proof.
  intros s m ns g t ns' H. destruct (H t) as [t' E]. exists t'.
  rewrite run_bump. exact E.
Qed.

(** C1.  In a well-formed DAG of supported operators (constants carry no
    tangent; no gradient tag exceeds the gradient counter, which can still be
    incremented): a forward pass and a forward_dot pass in a topological
    order, followed by a backward pass in a reverse topological order seeded
    with gradient 1 at the output node, run to completion, and afterwards the
    sum over the variables of gradient times tangent equals the tangent
    stored at the output node.  Gradients left over from earlier passes do
    not matter. *)
Theorem vjp_matches_jvp : forall ns g t forder border out,
  wf_graph ns = true ->
  topological ns forder = true ->
  topological ns (rev border) = true ->
  (out <? length ns)%nat = true ->
  epochs_fresh ns g = true ->
  (forall x, In x ns -> op x = cte -> dot x = 0) ->
  exists w' xo,
    differentiate forder border out (mkWorld ns g t) = Some (tt, w') /\
    nth_error (nodes w') out = Some xo /\
    vjp_sum (nodes w') = dot xo.
Proof.
  intros ns g t forder border out Hwf Hf Hb Hout Hep Hcte.
  apply Nat.ltb_lt in Hout.
  pose proof (topological_spec _ _ Hf) as Tf.
  (* forward *)
  set (g1 := bumped SValue g).
  destruct (forward_pass_run ns g1 forder Hwf) as [ns1 [E1 K1]].
  { intros n Hn. rewrite <- skeleton_length. apply (ts_all _ _ Tf). exact Hn. }
  (* forward_dot *)
  set (g2 := bumped SDot g1).
  destruct (forward_dot_pass_run ns1 g2 forder (wf_graph_keeps _ _ _ _ K1 Hwf))
    as [ns2 [E2 [K2 [L2 T2]]]].
  { apply topological_spec. apply (topological_keeps _ _ _ _ _ K1 Hf). }
  (* the seed *)
  set (g3 := bumped SGradient g2).
  assert (K12 : arena_keeps dot_tags dot_tags ns2 ns).
  { apply arena_keeps_trans with (ns2 := ns1).
    - eapply arena_keeps_weaken; [| |exact K1]; intros [] H; try discriminate; reflexivity.
    - eapply arena_keeps_weaken; [| |exact K2]; intros [] H; try discriminate; reflexivity. }
  assert (Hlen2 : length ns2 = length ns) by (destruct K12; assumption).
  destruct (nth_error ns2 out) as [x2|] eqn:Eo2.
  2:{ apply nth_error_None in Eo2. lia. }
  set (nsb := upd out (produced SGradient g3 1) ns2).
  assert (Kb : arena_keeps (only_slot SGradient) (only_slot SGradient) nsb ns2).
  { apply arena_keeps_upd; [apply arena_keeps_refl | intro; apply keeps_produced]. }
  assert (Kb0 : arena_keeps any_slot any_slot nsb ns).
  { apply arena_keeps_trans with (ns2 := ns2).
    - eapply arena_keeps_weaken; [| |exact K12]; intros; reflexivity.
    - eapply arena_keeps_weaken; [| |exact Kb]; intros; reflexivity. }
  assert (Hgrad0 : forall j x xb, nth_error ns j = Some x -> nth_error nsb j = Some xb ->
                     j <> out -> grad_epoch xb = grad_epoch x).
  { intros j x xb Hx Hxb Hj. unfold nsb in Hxb.
    rewrite nth_error_upd in Hxb.
    replace (out =? j)%nat with false in Hxb by (symmetry; apply Nat.eqb_neq; congruence).
    destruct K12 as [_ K12]. destruct (K12 j x xb Hx Hxb) as [_ [_ [_ Htg]]].
    apply (Htg SGradient eq_refl). }
  unfold epochs_fresh in Hep. apply andb_true_iff in Hep. destruct Hep as [Htags Hroom].
  assert (Ecur : cur_grad_epoch_ g3 = next_epoch (cur_grad_epoch_ g)) by reflexivity.
  destruct (backward_pass_run g3 nsb out border) as [nsf [E3 [K3 Hsum]]].
  - apply (wf_graph_keeps _ _ _ _ Kb0 Hwf).
  - apply topological_spec. apply (topological_keeps _ _ _ _ _ Kb0 Hb).
  - exists (produced SGradient g3 1 x2). unfold nsb.
    rewrite nth_error_upd, Nat.eqb_refl, Eo2. repeat split.
  - intros j xb Hxb Hj.
    destruct (arena_keeps_lookup_back _ _ _ _ _ _ Kb0 Hxb) as [x [Hx _]].
    rewrite (Hgrad0 j x xb Hx Hxb Hj), Ecur.
    apply next_epoch_fresh; [exact Hroom|].
    rewrite forallb_forall in Htags. apply Htags. eapply nth_error_In. exact Hx.
  - intro n. apply (tangents_ok_keeps _ _ _ _ n Kb); [reflexivity | reflexivity | apply T2].
  - (* the run *)
    destruct (run_pass_then SValue (run_pass PForward forder)
                (forward_dot_pass forder ;; backward_pass border out) ns g t ns1 E1)
      as [t1 R1].
    destruct (run_pass_then SDot (run_pass PForwardDot forder)
                (backward_pass border out) ns1 g1 t1 ns2 E2) as [t2 R2].
    destruct (run_pass_last SGradient
                (set_epoch_value out SGradient 1 ;; run_pass PBackward border)
                ns2 g2 t2 nsf) as [t3 R3].
    { eapply eval_bind; [apply (eval_set_epoch_value out SGradient 1 ns2 g3 x2 Eo2) | exact E3]. }
    destruct (arena_keeps_lookup _ _ _ _ _ _ Kb Eo2) as [xb [Hxb [_ [_ [Hslb _]]]]].
    destruct (arena_keeps_lookup _ _ _ _ _ _ K3 Hxb) as [xo [Hxo [_ [_ [Hslo _]]]]].
    exists (mkWorld nsf g3 t3), xo.
    split; [|split].
    + unfold differentiate, forward_pass. rewrite R1.
      unfold forward_dot_pass. fold g1. rewrite R2.
      unfold backward_pass. fold g2. exact R3.
    + exact Hxo.
    + cbn [nodes]. unfold dt in Hsum. rewrite Hxb in Hsum.
      rewrite (Hslo SDot eq_refl : dot xo = dot xb). rewrite <- Hsum.
      unfold vjp_sum. apply Rsum_map_ext_in. intros x Hx.
      destruct (op x) eqn:Eop; cbn [is_leaf]; try reflexivity.
      (* a constant *)
      apply In_nth_error in Hx. destruct Hx as [j Hj].
      destruct (arena_keeps_lookup_back _ _ _ _ _ _ K3 Hj) as [yb [Hyb [Eo3 [_ [Hs3 _]]]]].
      destruct (arena_keeps_lookup_back _ _ _ _ _ _ Kb Hyb) as [y2 [Hy2 [Eob [_ [Hsb _]]]]].
      destruct (arena_keeps_lookup_back _ _ _ _ _ _ K2 Hy2) as [y1 [Hy1 [Eo2' _]]].
      destruct (arena_keeps_lookup_back _ _ _ _ _ _ K1 Hy1) as [y0 [Hy0 [Eo1 [_ [Hs1 _]]]]].
      assert (Hc0 : op y0 = cte) by congruence.
      assert (Hd : dot x = 0).
      { rewrite (Hs3 SDot eq_refl : dot x = dot yb).
        rewrite (Hsb SDot eq_refl : dot yb = dot y2).
        rewrite (L2 j y1 y2 Hy1 Hy2) by (rewrite Eo1, Hc0; reflexivity).
        rewrite (Hs1 SDot eq_refl : dot y1 = dot y0).
        apply Hcte; [eapply nth_error_In; exact Hy0 | exact Hc0]. }
      rewrite Hd. lra.
Qed.

(** The graph [max(x0, x1 + 0)] evaluated a second time: the gradients are
    those an earlier backward pass left when Max chose its second input; now
    [x0 = 1] and [x1 = 0], so Max chooses its first, and the gradient the Add
    node kept is not passed on. *)
Definition stale_world : World :=
  mkWorld [ mkNode Var [] 1 0 0 0 1 1 0 0;
            mkNode Var [] 0 1 1 0 1 1 1 0;
            mkNode Add [Some 1%nat] 1 1 1 0 1 1 1 0;
            mkNode Max [Some 0%nat; Some 2%nat] 1 1 1 0 1 1 1 0 ]
          (mkGraph 1 1 1 0) [].

Lemma vjp_matches_jvp_witness :
  exists w' xo,
    differentiate [0; 1; 2; 3]%nat [3; 2; 1; 0]%nat 3 stale_world = Some (tt, w') /\
    nth_error (nodes w') 3 = Some xo /\
    vjp_sum (nodes w') = dot xo.
Proof.
  apply (vjp_matches_jvp (nodes stale_world) (graph stale_world) (trace stale_world)
           [0; 1; 2; 3]%nat [3; 2; 1; 0]%nat 3%nat).
  - reflexivity.
  - reflexivity.
  - reflexivity.
  - reflexivity.
  - reflexivity.
  - intros x Hx Hc. simpl in Hx.
    destruct Hx as [<- | [<- | [<- | [<- | []]]]]; discriminate.
Defined.

(** * Further properties of the rules *)

(** ** The stable sigmoid *)

Lemma exp_opp_inv : forall x, exp (- x) = / exp x.
Proof. intro x. apply exp_Ropp. Qed.

Lemma sigmoid_eq : forall x, _sigmoid x = 1 / (1 + exp (- x)).
Proof.
  intro x. unfold _sigmoid. destruct (Rgeb x 0); cbv zeta; [reflexivity|].
  rewrite exp_opp_inv. pose proof (exp_pos x) as Hp. field. lra.
Qed.

Lemma sigmoid_bounds : forall x, 0 < _sigmoid x < 1.
Proof.
  intro x. rewrite sigmoid_eq. pose proof (exp_pos (- x)) as Hp.
  split.
  - apply Rdiv_lt_0_compat; lra.
  - apply Rmult_lt_reg_r with (1 + exp (- x)); [lra|].
    unfold Rdiv. rewrite Rmult_assoc, Rinv_l by lra. lra.
Qed.

(** X1: the two branches of [_sigmoid] compute the same function,
    [1 / (1 + exp(-x))]; its value lies strictly between 0 and 1, and
    [_sigmoid(-x) = 1 - _sigmoid(x)]. *)
Theorem sigmoid_stable : forall x : R,
  _sigmoid x = 1 / (1 + exp (- x)) /\
  0 < _sigmoid x < 1 /\
  _sigmoid (- x) = 1 - _sigmoid x.
Proof.
  intro x. split; [apply sigmoid_eq|]. split; [apply sigmoid_bounds|].
  rewrite !sigmoid_eq, Ropp_involutive, exp_opp_inv.
  pose proof (exp_pos x) as Hp.
  field. split; lra.
Qed.

(** ** Derivatives of the scalar rules *)

Lemma D_eq : forall (f : R -> R) (x l l' : R),
  derivable_pt_lim f x l -> l = l' -> derivable_pt_lim f x l'.
Proof. intros f x l l' H E. subst. exact H. Qed.

Lemma D_const : forall (c x : R), derivable_pt_lim (fun _ => c) x 0.
Proof. intros c x. apply (derivable_pt_lim_const c x). Qed.

Lemma D_id : forall x : R, derivable_pt_lim (fun t => t) x 1.
Proof. intro x. apply (derivable_pt_lim_id x). Qed.

Lemma D_plus : forall (f h : R -> R) (x lf lh : R),
  derivable_pt_lim f x lf -> derivable_pt_lim h x lh ->
  derivable_pt_lim (fun t => f t + h t) x (lf + lh).
Proof. intros f h x lf lh Hf Hh. apply (derivable_pt_lim_plus f h x lf lh Hf Hh). Qed.

Lemma D_minus : forall (f h : R -> R) (x lf lh : R),
  derivable_pt_lim f x lf -> derivable_pt_lim h x lh ->
  derivable_pt_lim (fun t => f t - h t) x (lf - lh).
Proof. intros f h x lf lh Hf Hh. apply (derivable_pt_lim_minus f h x lf lh Hf Hh). Qed.

Lemma D_opp : forall (f : R -> R) (x lf : R),
  derivable_pt_lim f x lf -> derivable_pt_lim (fun t => - f t) x (- lf).
Proof. intros f x lf Hf. apply (derivable_pt_lim_opp f x lf Hf). Qed.

Lemma D_mult : forall (f h : R -> R) (x lf lh : R),
  derivable_pt_lim f x lf -> derivable_pt_lim h x lh ->
  derivable_pt_lim (fun t => f t * h t) x (lf * h x + f x * lh).
Proof. intros f h x lf lh Hf Hh. apply (derivable_pt_lim_mult f h x lf lh Hf Hh). Qed.

Lemma D_div : forall (f h : R -> R) (x lf lh : R),
  derivable_pt_lim f x lf -> derivable_pt_lim h x lh -> h x <> 0 ->
  derivable_pt_lim (fun t => f t / h t) x ((lf * h x - lh * f x) / Rsqr (h x)).
Proof. intros f h x lf lh Hf Hh Hx. apply (derivable_pt_lim_div f h x lf lh Hf Hh Hx). Qed.

Lemma D_comp : forall (f h : R -> R) (x lf lh : R),
  derivable_pt_lim f x lf -> derivable_pt_lim h (f x) lh ->
  derivable_pt_lim (fun t => h (f t)) x (lh * lf).
Proof. intros f h x lf lh Hf Hh. apply (derivable_pt_lim_comp f h x lf lh Hf Hh). Qed.

Lemma D_exp : forall (f : R -> R) (x lf : R),
  derivable_pt_lim f x lf -> derivable_pt_lim (fun t => exp (f t)) x (exp (f x) * lf).
Proof. intros f x lf Hf. apply (D_comp f exp); [exact Hf | apply derivable_pt_lim_exp]. Qed.

Lemma D_sin : forall (f : R -> R) (x lf : R),
  derivable_pt_lim f x lf -> derivable_pt_lim (fun t => sin (f t)) x (cos (f x) * lf).
Proof. intros f x lf Hf. apply (D_comp f sin); [exact Hf | apply derivable_pt_lim_sin]. Qed.

Lemma D_cos : forall (f : R -> R) (x lf : R),
  derivable_pt_lim f x lf -> derivable_pt_lim (fun t => cos (f t)) x (- sin (f x) * lf).
Proof. intros f x lf Hf. apply (D_comp f cos); [exact Hf | apply derivable_pt_lim_cos]. Qed.

(** Two functions that agree near [x] have the same derivative at [x]. *)
Lemma D_near : forall (f h : R -> R) (x l d : R),
  0 < d ->
  (forall z, x - d < z < x + d -> f z = h z) ->
  derivable_pt_lim f x l -> derivable_pt_lim h x l.
Proof.
  intros f h x l d Hd Hfh Hf.
  apply (derivable_pt_lim_locally_ext f h x (x - d) (x + d) l); [lra | exact Hfh | exact Hf].
Qed.

(** A continuous function that is not zero at [x] is not zero near [x]. *)
Lemma nonzero_near : forall (f : R -> R) (x : R),
  continuity_pt f x -> f x <> 0 ->
  exists d, 0 < d /\ forall z, x - d < z < x + d -> f z <> 0.
Proof.
  intros f x Hc Hx.
  assert (He : 0 < Rabs (f x)) by (apply Rabs_pos_lt; exact Hx).
  destruct (Hc (Rabs (f x)) He) as [d [Hd Hlim]].
  exists d. split; [exact Hd|].
  intros z Hz Ez.
  destruct (Req_dec z x) as [-> | Hne]; [contradiction|].
  specialize (Hlim z). simpl in Hlim. unfold R_dist, D_x, no_cond in Hlim.
  assert (Hl : Rabs (f z - f x) < Rabs (f x)).
  { apply Hlim. split; [split; [exact I | congruence]|].
    apply Rabs_def1; lra. }
  rewrite Ez in Hl. replace (0 - f x) with (- f x) in Hl by lra.
  rewrite Rabs_Ropp in Hl. lra.
Qed.

Ltac deriv :=
  repeat first
    [ apply D_const
    | apply D_id
    | apply derivable_pt_lim_exp
    | apply derivable_pt_lim_sin
    | apply derivable_pt_lim_cos
    | eapply D_plus
    | eapply D_minus
    | eapply D_opp
    | eapply D_mult
    | eapply D_exp
    | eapply D_sin
    | eapply D_cos ].

Lemma sigmoid_derivative : forall x,
  derivable_pt_lim _sigmoid x (_sigmoid x * (1 - _sigmoid x)).
Proof.
  intro x.
  apply (derivable_pt_lim_ext (fun t => 1 / (1 + exp (- t)))).
  { intro z. symmetry. apply sigmoid_eq. }
  pose proof (exp_pos (- x)) as Hp.
  eapply D_eq.
  - apply (D_div (fun _ => 1) (fun t => 1 + exp (- t))); [deriv | deriv | cbv beta; apply Rgt_not_eq; lra].
  - cbv beta. rewrite sigmoid_eq. unfold Rsqr. field. lra.
Qed.

Lemma cosh_pos : forall x, 0 < cosh x.
Proof.
  intro x. unfold cosh. pose proof (exp_pos x). pose proof (exp_pos (- x)). lra.
Qed.

Lemma cosh_sinh_sqr : forall x, cosh x * cosh x - sinh x * sinh x = 1.
Proof.
  intro x. unfold cosh, sinh.
  assert (H : exp x * exp (- x) = 1) by (rewrite <- exp_plus, Rplus_opp_r; apply exp_0).
  nra.
Qed.

Lemma tanh_derivative : forall x,
  derivable_pt_lim tanh x (1 - tanh x * tanh x).
Proof.
  intro x. pose proof (cosh_pos x) as Hc. pose proof (cosh_sinh_sqr x) as Hs.
  eapply D_eq.
  - apply (D_div sinh cosh); [apply derivable_pt_lim_sinh | apply derivable_pt_lim_cosh | apply Rgt_not_eq; lra].
  - unfold tanh, Rsqr.
    replace (cosh x * cosh x - sinh x * sinh x) with 1 by lra. field_simplify; try lra.
    rewrite <- Hs at 1. field. lra.
Qed.

(** *** The error function *)

Lemma gauss_integral_irrelevant : forall a b (H : a <= b) (pr : Riemann_integrable (fun t : R => exp (- (t * t))) a b),
  gauss_integral a b H = RiemannInt pr.
Proof. intros a b H pr. unfold gauss_integral. apply RiemannInt_P5. Qed.

Lemma primitive_inside : forall (f : R -> R) a b (h : a <= b)
    (pr : forall x, a <= x -> x <= b -> Riemann_integrable f a x) z
    (Haz : a <= z) (Hzb : z <= b),
  primitive h pr z = RiemannInt (pr z Haz Hzb).
Proof.
  intros f a b h pr z Haz Hzb. unfold primitive.
  destruct (Rle_dec a z) as [r|r]; [|contradiction].
  destruct (Rle_dec z b) as [r0|r0]; [|contradiction].
  apply RiemannInt_P5.
Qed.

Lemma erf_derivative : forall x,
  derivable_pt_lim erf x (2 / sqrt PI * exp (- (x * x))).
Proof.
  intro x.
  set (a := Rmin 0 x - 1). set (b := Rmax 0 x + 1).
  assert (Ha0 : a < 0) by (unfold a; pose proof (Rmin_l 0 x); lra).
  assert (Hax : a < x - 1 + 1 /\ a <= x - 1) by (unfold a; pose proof (Rmin_r 0 x); lra).
  assert (Hb0 : 0 < b) by (unfold b; pose proof (Rmax_l 0 x); lra).
  assert (Hbx : x + 1 <= b) by (unfold b; pose proof (Rmax_r 0 x); lra).
  assert (h : a <= b) by lra.
  set (C0 := fun (t : R) (_ : a <= t <= b) => gauss_continuous t).
  set (P := primitive h (FTC_P1 h C0)).
  assert (HP : derivable_pt_lim P x ((fun t : R => exp (- (t * t))) x)).
  { apply (RiemannInt_P27 h C0). lra. }
  assert (Hloc : forall z, x - 1 < z < x + 1 ->
            P z - P 0 =
            match Rle_dec 0 z with
            | left H => gauss_integral 0 z H
            | right H => - gauss_integral z 0 (Rlt_le _ _ (Rnot_le_lt _ _ H))
            end).
  { intros z Hz.
    assert (Haz : a <= z) by lra. assert (Hzb : z <= b) by lra.
    assert (Ha0' : a <= 0) by lra. assert (H0b : 0 <= b) by lra.
    unfold P.
    rewrite (primitive_inside _ a b h (FTC_P1 h C0) z Haz Hzb).
    rewrite (primitive_inside _ a b h (FTC_P1 h C0) 0 Ha0' H0b).
    destruct (Rle_dec 0 z) as [H0z | Hz0].
    - assert (pr : Riemann_integrable (fun t : R => exp (- (t * t))) 0 z).
      { apply continuity_implies_RiemannInt; [exact H0z | intros t _; apply gauss_continuous]. }
      rewrite (gauss_integral_irrelevant 0 z H0z pr).
      rewrite <- (RiemannInt_P26 (FTC_P1 h C0 Ha0' H0b) pr (FTC_P1 h C0 Haz Hzb)). lra.
    - assert (Hz0' : z <= 0) by lra.
      assert (pr : Riemann_integrable (fun t : R => exp (- (t * t))) z 0).
      { apply continuity_implies_RiemannInt; [exact Hz0' | intros t _; apply gauss_continuous]. }
      rewrite (gauss_integral_irrelevant z 0 _ pr).
      rewrite <- (RiemannInt_P26 (FTC_P1 h C0 Haz Hzb) pr (FTC_P1 h C0 Ha0' H0b)). lra. }
  unfold erf.
  apply (D_near (fun z => 2 / sqrt PI * (P z - P 0)) _ x _ 1); [lra | |].
  - intros z Hz. rewrite (Hloc z Hz). reflexivity.
  - eapply D_eq.
    + eapply D_mult; [apply D_const|]. eapply D_minus; [exact HP | apply D_const].
    + cbv beta. ring.
Qed.

Lemma D_erf : forall (f : R -> R) (x lf : R),
  derivable_pt_lim f x lf ->
  derivable_pt_lim (fun t => erf (f t)) x (2 / sqrt PI * exp (- (f x * f x)) * lf).
Proof. intros f x lf Hf. apply (D_comp f erf); [exact Hf | apply erf_derivative]. Qed.

Lemma D_tanh : forall (f : R -> R) (x lf : R),
  derivable_pt_lim f x lf ->
  derivable_pt_lim (fun t => tanh (f t)) x ((1 - tanh (f x) * tanh (f x)) * lf).
Proof. intros f x lf Hf. apply (D_comp f tanh); [exact Hf | apply tanh_derivative]. Qed.

Lemma D_sigmoid : forall (f : R -> R) (x lf : R),
  derivable_pt_lim f x lf ->
  derivable_pt_lim (fun t => _sigmoid (f t)) x
                   (_sigmoid (f x) * (1 - _sigmoid (f x)) * lf).
Proof. intros f x lf Hf. apply (D_comp f _sigmoid); [exact Hf | apply sigmoid_derivative]. Qed.

Ltac deriv_rules :=
  with_strategy opaque [erf _sigmoid tanh]
    (repeat first
       [ apply D_const
       | apply D_id
       | apply derivable_pt_lim_exp
       | apply derivable_pt_lim_sin
       | apply derivable_pt_lim_cos
       | apply tanh_derivative
       | apply sigmoid_derivative
       | apply erf_derivative
       | eapply D_erf
       | eapply D_tanh
       | eapply D_sigmoid
       | eapply D_exp
       | eapply D_sin
       | eapply D_cos
       | eapply D_plus
       | eapply D_minus
       | eapply D_opp
       | eapply D_mult ]).

Lemma half_pos : 0.5 = 1 / 2.
Proof. lra. Qed.

Lemma half_neg : -0.5 = - (1 / 2).
Proof. lra. Qed.

Lemma sqrt2_sqr : sqrt 2 * sqrt 2 = 2.
Proof. apply sqrt_sqrt. lra. Qed.

Lemma sqrt2_pos : 0 < sqrt 2.
Proof. apply sqrt_lt_R0. lra. Qed.

Lemma sqrtPI_pos : 0 < sqrt PI.
Proof. apply sqrt_lt_R0. apply PI_RGT_0. Qed.

(** The constant of the GELU derivative: [(2 / sqrt pi) / sqrt 2 = sqrt (2 / pi)]. *)
Lemma gelu_constant : 2 / sqrt PI * M_SQRT1_2 = sqrt (2 / M_PI).
Proof.
  unfold M_SQRT1_2, M_PI.
  rewrite sqrt_div_alt by apply PI_RGT_0.
  pose proof sqrt2_pos. pose proof sqrtPI_pos.
  rewrite <- sqrt2_sqr at 1.
  field. split; apply Rgt_not_eq; lra.
Qed.

Lemma gelu_exponent : forall x,
  - (x * M_SQRT1_2 * (x * M_SQRT1_2)) = - 0.5 * x * x.
Proof.
  intro x. unfold M_SQRT1_2. pose proof sqrt2_sqr. pose proof sqrt2_pos.
  replace (x * (1 / sqrt 2) * (x * (1 / sqrt 2))) with (x * x / (sqrt 2 * sqrt 2))
    by (field; apply Rgt_not_eq; lra).
  rewrite H. lra.
Qed.

(** Where the rule's [df] is meant to be the derivative: the logarithm on
    the positive reals, the tangent away from the zeros of the cosine, the
    rectifier away from its kink. *)
Definition rule_domain (o : Operator) (x : R) : Prop :=
  match o with
  | Log => 0 < x
  | Tan => cos x <> 0
  | Relu => x <> 0
  | _ => True
  end.

Lemma relu_near : forall x, x <> 0 ->
  forall z, x - Rabs x < z < x + Rabs x -> Rgtb z 0 = Rgtb x 0.
Proof.
  intros x Hx z Hz. unfold Rgtb.
  destruct (Rgt_dec x 0) as [Hp|Hn].
  - rewrite Rabs_right in Hz by lra. destruct (Rgt_dec z 0); [reflexivity | lra].
  - rewrite Rabs_left in Hz by lra. destruct (Rgt_dec z 0); [lra | reflexivity].
Qed.

(** X2: for each of the nine unary rules, [df] is the derivative of [f] on
    the rule's domain. *)
Theorem unary_rule_df_is_derivative : forall (o : Operator) (U : UnaryRule) (x : R),
  unary_rule_of o = Some U ->
  rule_domain o x ->
  derivable_pt_lim (uf U) x (udf U x).
Proof.
  intros o U x HU Hdom.
  destruct o; try discriminate; inversion HU; subst U; clear HU;
    cbn [uf udf SinRule CosRule ExpRule LogRule TanRule TanhRule SiLURule GELURule
         ReluRule rule_domain] in *; cbv zeta.
  - (* Sin *) apply derivable_pt_lim_sin.
  - (* Cos *) apply derivable_pt_lim_cos.
  - (* Tan *)
    rewrite (Rneqb_true _ _ Hdom).
    apply (derivable_pt_lim_ext (fun t => sin t / cos t)); [intro; reflexivity|].
    eapply D_eq.
    + apply (D_div sin cos); [deriv_rules | deriv_rules | exact Hdom].
    + pose proof (sin2_cos2 x) as Hs. unfold Rsqr in *.
      replace (cos x * cos x - - sin x * sin x) with 1 by lra. reflexivity.
  - (* Exp *) apply derivable_pt_lim_exp.
  - (* Log *)
    rewrite Rneqb_true by lra.
    eapply D_eq; [apply (derivable_pt_lim_ln x Hdom) | lra].
  - (* Tanh *) apply tanh_derivative.
  - (* Silu *)
    eapply D_eq; [deriv_rules | cbv beta; ring].
  - (* Gelu *)
    eapply D_eq; [deriv_rules | cbv beta].
    rewrite gelu_exponent. pose proof gelu_constant as HK.
    set (c := 2 / sqrt PI) in *. rewrite <- HK. ring.
  - (* Relu *)
    apply (D_near (fun z => if Rgtb x 0 then z else 0) _ x _ (Rabs x)).
    + apply Rabs_pos_lt. exact Hdom.
    + intros z Hz. rewrite (relu_near x Hdom z Hz). reflexivity.
    + destruct (Rgtb x 0); deriv_rules.
Qed.

Lemma unary_rule_df_is_derivative_witness :
  rule_domain Log 2 /\ derivable_pt_lim (uf LogRule) 2 (udf LogRule 2).
Proof.
  split; [simpl; lra|].
  apply (unary_rule_df_is_derivative Log LogRule 2); [reflexivity | simpl; lra].
Defined.

(** X3: for each of the nine unary rules, [d2] is the derivative of [df] on
    the rule's domain. *)
Theorem unary_rule_d2_is_derivative : forall (o : Operator) (U : UnaryRule) (x : R),
  unary_rule_of o = Some U ->
  rule_domain o x ->
  derivable_pt_lim (udf U) x (ud2 U x).
Proof.
  intros o U x HU Hdom.
  destruct o; try discriminate; inversion HU; subst U; clear HU;
    cbn [udf ud2 SinRule CosRule ExpRule LogRule TanRule TanhRule SiLURule GELURule
         ReluRule rule_domain] in *; cbv zeta.
  - (* Sin *) apply derivable_pt_lim_cos.
  - (* Cos *) eapply D_eq; [deriv_rules | cbv beta; ring].
  - (* Tan *)
    rewrite (Rneqb_true _ _ Hdom).
    destruct (nonzero_near cos x (continuity_cos x) Hdom) as [d [Hd Hnz]].
    apply (D_near (fun z => 1 / (cos z * cos z)) _ x _ d Hd).
    { intros z Hz. rewrite (Rneqb_true _ _ (Hnz z Hz)). reflexivity. }
    eapply D_eq.
    + apply (D_div (fun _ => 1) (fun t => cos t * cos t)); [deriv_rules | deriv_rules |].
      cbv beta. apply Rmult_integral_contrapositive_currified; exact Hdom.
    + cbv beta. unfold Rsqr. field. exact Hdom.
  - (* Exp *) apply derivable_pt_lim_exp.
  - (* Log *)
    rewrite Rneqb_true by lra.
    apply (D_near (fun z => 1 / z) _ x _ x Hdom).
    { intros z Hz. rewrite Rneqb_true by lra. reflexivity. }
    eapply D_eq.
    + apply (D_div (fun _ => 1) (fun t => t)); [deriv_rules | deriv_rules | lra].
    + cbv beta. unfold Rsqr. field. lra.
  - (* Tanh *) eapply D_eq; [deriv_rules | cbv beta; ring].
  - (* Silu *) eapply D_eq; [deriv_rules | cbv beta; ring].
  - (* Gelu *)
    eapply D_eq; [deriv_rules | cbv beta].
    rewrite gelu_exponent. pose proof gelu_constant as HK.
    set (c := 2 / sqrt PI) in *. rewrite <- HK.
    rewrite half_neg, half_pos. field.
  - (* Relu *)
    apply (D_near (fun _ => if Rgtb x 0 then 1 else 0) _ x _ (Rabs x)).
    + apply Rabs_pos_lt. exact Hdom.
    + intros z Hz. rewrite (relu_near x Hdom z Hz). reflexivity.
    + apply D_const.
Qed.

Lemma unary_rule_d2_is_derivative_witness :
  rule_domain Tan 0 /\ derivable_pt_lim (udf TanRule) 0 (ud2 TanRule 0).
Proof.
  assert (H : cos 0 <> 0) by (rewrite cos_0; lra).
  split; [exact H|].
  apply (unary_rule_d2_is_derivative Tan TanRule 0); [reflexivity | exact H].
Defined.

Lemma nonzero_nearby : forall b z : R, b <> 0 -> b - Rabs b < z < b + Rabs b -> z <> 0.
Proof.
  intros b z Hb Hz. destruct (Rlt_dec b 0) as [Hn|Hp].
  - rewrite Rabs_left in Hz by lra. lra.
  - rewrite Rabs_right in Hz by lra. lra.
Qed.

(** X4: for the three binary rules, [dfa] and [dfb] are the partial
    derivatives of [f], and [d2aa], [d2ab], [d2bb] those of [dfa] and [dfb]
    (the mixed one from either side); for Divide wherever [b <> 0]. *)
Theorem binary_rule_partials : forall (B : BinaryRule) (a b : R),
  B = AddRule \/ B = SubRule \/ (B = DivRule /\ b <> 0) ->
  derivable_pt_lim (fun t => bf B t b) a (bdfa B a b) /\
  derivable_pt_lim (fun t => bf B a t) b (bdfb B a b) /\
  derivable_pt_lim (fun t => bdfa B t b) a (bd2aa B a b) /\
  derivable_pt_lim (fun t => bdfa B a t) b (bd2ab B a b) /\
  derivable_pt_lim (fun t => bdfb B t b) a (bd2ab B a b) /\
  derivable_pt_lim (fun t => bdfb B a t) b (bd2bb B a b).
Proof.
  intros B a b [-> | [-> | [-> Hb]]];
    cbn [bf bdfa bdfb bd2aa bd2ab bd2bb AddRule SubRule DivRule].
  - repeat split; (eapply D_eq; [deriv_rules | cbv beta; ring]).
  - repeat split; (eapply D_eq; [deriv_rules | cbv beta; ring]).
  - unfold _safe_div. rewrite (Rneqb_true b 0 Hb).
    assert (Hd : 0 < Rabs b) by (apply Rabs_pos_lt; exact Hb).
    split; [|split; [|split; [|split; [|split]]]].
    + eapply D_eq.
      * apply (D_div (fun t => t) (fun _ => b)); [deriv_rules | deriv_rules | exact Hb].
      * cbv beta. unfold Rsqr. field. exact Hb.
    + apply (D_near (fun t => a / t) _ b _ (Rabs b) Hd).
      { intros z Hz. rewrite (Rneqb_true z 0 (nonzero_nearby b z Hb Hz)). reflexivity. }
      eapply D_eq.
      * apply (D_div (fun _ => a) (fun t => t)); [deriv_rules | deriv_rules | exact Hb].
      * cbv beta. unfold Rsqr. field. exact Hb.
    + apply D_const.
    + apply (D_near (fun t => 1 / t) _ b _ (Rabs b) Hd).
      { intros z Hz. rewrite (Rneqb_true z 0 (nonzero_nearby b z Hb Hz)). reflexivity. }
      eapply D_eq.
      * apply (D_div (fun _ => 1) (fun t => t)); [deriv_rules | deriv_rules | exact Hb].
      * cbv beta. unfold Rsqr. field. exact Hb.
    + eapply D_eq.
      * apply (D_div (fun t => - t) (fun _ => b * b)); [deriv_rules | deriv_rules |].
        apply Rmult_integral_contrapositive_currified; exact Hb.
      * cbv beta. unfold Rsqr. field. exact Hb.
    + apply (D_near (fun t => - a / (t * t)) _ b _ (Rabs b) Hd).
      { intros z Hz. rewrite (Rneqb_true z 0 (nonzero_nearby b z Hb Hz)). reflexivity. }
      eapply D_eq.
      * apply (D_div (fun _ => - a) (fun t => t * t)); [deriv_rules | deriv_rules |].
        apply Rmult_integral_contrapositive_currified; exact Hb.
      * cbv beta. unfold Rsqr. field. exact Hb.
Qed.

Lemma binary_rule_partials_witness :
  derivable_pt_lim (fun t => bf DivRule 3 t) 2 (bdfb DivRule 3 2) /\
  derivable_pt_lim (fun t => bdfb DivRule 3 t) 2 (bd2bb DivRule 3 2).
Proof.
  destruct (binary_rule_partials DivRule 3 2) as [_ [H1 [_ [_ [_ H2]]]]].
  - right. right. split; [reflexivity | lra].
  - split; assumption.
Defined.

(** ** What hvp_backward accumulates *)

(** The second-order factor of each input: what multiplies the node's
    gradient in the amount hvp_backward adds to the input's grad_dot. *)
Definition hessians (o : Operator) (vals dots : list R) : list R :=
  let a := nth 0 vals 0 in
  let b := nth 1 vals 0 in
  let adot := nth 0 dots 0 in
  let bdot := nth 1 dots 0 in
  match o with
  | Add => map (fun _ => 0) vals
  | Multiply =>
      let ps := build_prefix_suffix vals in
      map (fun i => sum_term_of vals dots (fst ps) (snd ps) (length vals) i)
          (seq 0 (length vals))
  | Softmax =>
      let y := softmax_y vals in
      let yi := nth 0 y 0 in
      let sdot := dot_product y dots in
      map (fun k => if (k =? 0)%nat
                    then yi * (1 - 2 * yi) * (nth 0 dots 0 - sdot)
                    else yi * nth k y 0 * (2 * sdot - nth 0 dots 0 - nth k dots 0))
          (seq 0 (length vals))
  | Subtract => [ bd2aa SubRule a b * adot + bd2ab SubRule a b * bdot;
                  bd2ab SubRule a b * adot + bd2bb SubRule a b * bdot ]
  | Divide => [ bd2aa DivRule a b * adot + bd2ab DivRule a b * bdot;
                bd2ab DivRule a b * adot + bd2bb DivRule a b * bdot ]
  | Max => [0; 0]
  | cte | Var | OpOther _ => []
  | _ => match unary_rule_of o with
         | Some U => [ud2 U a * adot]
         | None => []
         end
  end.

(** The accumulations hvp_backward makes on the inputs of a node with
    gradient [w] and grad_dot [wd]: two per input, except that Max only
    visits the winning input. *)
Definition hvp_accs (o : Operator) (ins : list (option nat)) (vals dots : list R) (w wd : R)
  : list (nat * Slot * R) :=
  match o with
  | Max =>
      let k := if Rgeb (nth 0 vals 0) (nth 1 vals 0) then 0%nat else 1%nat in
      [ (ref_target (nth k ins None), SGradient, w);
        (ref_target (nth k ins None), SGradDot, wd) ]
  | cte | Var | OpOther _ => []
  | _ =>
      flat_map (fun k =>
          [ (ref_target (nth k ins None), SGradient, w * nth k (partials o vals) 0);
            (ref_target (nth k ins None), SGradDot,
             wd * nth k (partials o vals) 0 + w * nth k (hessians o vals dots) 0) ])
        (seq 0 (length ins))
  end.

Lemma eval_index_loop2 : forall ns g n nd (body : nat -> M unit) (amount amount2 : nat -> R),
  nth_error ns n = Some nd ->
  forallb (valid_ref ns) (inputs nd) = true ->
  ~ In (Some n) (inputs nd) ->
  (forall i ns' a x,
      (i < length (inputs nd))%nat ->
      nth_error ns' n = Some nd ->
      nth i (inputs nd) None = Some a ->
      nth_error ns' a = Some x ->
      a <> n ->
      eval (body i) ns' g tt
           (apply_accs g [(a, SGradient, amount i); (a, SGradDot, amount2 i)] ns')) ->
  eval (for_each (seq 0 (length (inputs nd))) body) ns g tt
       (apply_accs g
          (flat_map (fun i => [ (ref_target (nth i (inputs nd) None), SGradient, amount i);
                                (ref_target (nth i (inputs nd) None), SGradDot, amount2 i) ])
                    (seq 0 (length (inputs nd)))) ns).
Proof.
  intros ns g n nd body amount amount2 Hn Hval Hnin Hbody.
  rewrite <- fold_left_flat_map_accs.
  apply (eval_for_each_inv nat (reverse_inv n nd ns)).
  - split; [exact Hn | reflexivity].
  - intros i ns' Hi HI. apply in_seq in Hi.
    destruct (valid_ref_nth ns (inputs nd) i Hval) as [a [Ea [Ha Hina]]]; [lia|].
    assert (Han : a <> n) by (intro; subst a; contradiction).
    destruct (reverse_inv_lookup _ _ _ _ a HI Ha) as [x Hx].
    rewrite Ea. cbn [ref_target]. split.
    + destruct HI as [Hn' _]. apply (Hbody i ns' a x); auto; lia.
    + apply reverse_inv_accs; [exact HI|].
      intros u [<-|[<-|[]]]; exact Han.
Qed.

Lemma zeroed_keeps : forall s t g x,
  Slot_eqb s t = false -> slot_get s (zeroed t g x) = slot_get s x.
Proof.
  intros s t g x H. unfold zeroed.
  destruct (N.eqb (tag_get t x) (cur_epoch t g)); [reflexivity|].
  destruct s, t; try discriminate; reflexivity.
Qed.

(** One step of a reverse loop, whatever the order in which the source
    zeroes and adds. *)
Ltac acc_steps :=
  eapply eval_eq; [eval_all|];
  rewrite ?Nat.eqb_refl;
  repeat match goal with
         | H : (_ =? _)%nat = false |- _ => progress rewrite H
         end;
  rewrite ?zeroed_keeps by reflexivity;
  cbn [slot_get]; unfold apply_accs, apply_acc; cbn [fold_left fst snd];
  arena_eq.

Lemma apply_accs_ext : forall g (A : Type) (f h : A -> list (nat * Slot * R)) l ns,
  (forall x, In x l -> f x = h x) ->
  apply_accs g (flat_map f l) ns = apply_accs g (flat_map h l) ns.
Proof.
  intros g A f h l ns H. f_equal.
  induction l as [|x t IH]; [reflexivity|].
  simpl. rewrite (H x) by (left; reflexivity).
  rewrite IH by (intros y Hy; apply H; right; exact Hy). reflexivity.
Qed.

Lemma input_refs_2 : forall ns (nd : ADNode),
  length (inputs nd) = 2%nat ->
  forallb (valid_ref ns) (inputs nd) = true ->
  exists a b, inputs nd = [Some a; Some b].
Proof.
  intros ns nd Hlen Hval.
  destruct (inputs nd) as [|r1 [|r2 [|r3 l]]]; try discriminate.
  simpl in Hval.
  apply andb_true_iff in Hval. destruct Hval as [H1 Hval].
  apply andb_true_iff in Hval. destruct Hval as [H2 _].
  destruct r1 as [a|]; [|discriminate]. destruct r2 as [b|]; [|discriminate].
  exists a, b. reflexivity.
Qed.

Lemma hvp_backward_eval : forall o ns g n nd,
  nth_error ns n = Some nd ->
  arity_ok o nd = true ->
  forallb (valid_ref ns) (inputs nd) = true ->
  ~ In (Some n) (inputs nd) ->
  eval (OpTraits_hvp_backward o n) ns g tt
       (apply_accs g
          (hvp_accs o (inputs nd) (input_slots ns SValue (inputs nd))
                      (input_slots ns SDot (inputs nd)) (gradient nd) (grad_dot nd))
          ns).
Proof.
  intros o ns g n nd Hn Hok Hval Hnin.
  destruct o; cbn [arity_ok] in Hok.
  (* nullary operators and unknown tags *)
  all: try (unfold_pass; apply eval_ret).
  (* unary rules *)
  all: try (destruct (unary_ok_inv nd Hok) as [a Hin];
            pose proof Hval as Hval'; rewrite Hin in Hval';
            destruct (valid_refs_1 ns a Hval') as [na Ha];
            assert (Han : (a =? n)%nat = false)
              by (apply Nat.eqb_neq; intro; subst a; apply Hnin; rewrite Hin; left; reflexivity);
            rewrite Hin, (input_slots_1 ns SValue a na Ha), (input_slots_1 ns SDot a na Ha);
            cbn [hvp_accs length seq flat_map app nth ref_target partials hessians
                 unary_rule_of slot_get];
            unfold_pass;
            (eapply eval_bind; [apply eval_node_at; eassumption|]); cbv beta;
            rewrite Hok, Hin; cbn [negb nth]; cbv zeta;
            acc_steps).
  (* binary rules *)
  all: try (destruct (binary_ok_inv nd Hok) as [a [b Hin]];
            pose proof Hval as Hval'; rewrite Hin in Hval';
            destruct (valid_refs_2 ns a b Hval') as [na [nb [Ha Hb]]];
            assert (Han : (a =? n)%nat = false)
              by (apply Nat.eqb_neq; intro; subst a; apply Hnin; rewrite Hin; left; reflexivity);
            assert (Hbn : (b =? n)%nat = false)
              by (apply Nat.eqb_neq; intro; subst b; apply Hnin; rewrite Hin;
                  right; left; reflexivity)).
  - (* Add *)
    unfold_pass. eapply eval_bind; [apply eval_node_at; eassumption|]. cbv beta.
    rewrite Hok. cbn [negb hvp_accs].
    eapply eval_ext; [intro w; apply for_each_refs|].
    apply (eval_index_loop2 ns g n nd _
             (fun k => gradient nd * nth k (partials Add (input_slots ns SValue (inputs nd))) 0)
             (fun k => grad_dot nd * nth k (partials Add (input_slots ns SValue (inputs nd))) 0
                       + gradient nd *
                         nth k (hessians Add (input_slots ns SValue (inputs nd))
                                             (input_slots ns SDot (inputs nd))) 0));
      try assumption.
    intros i ns' a x Hi Hn' Ea Hx Hne. rewrite Ea.
    apply Nat.eqb_neq in Hne.
    cbn [partials hessians].
    rewrite !nth_map_const by (rewrite input_slots_length; exact Hi).
    acc_steps.
  - (* Subtract *)
    rewrite Hin, (input_slots_2 ns SValue a b na nb Ha Hb),
            (input_slots_2 ns SDot a b na nb Ha Hb).
    cbn [hvp_accs length seq flat_map app nth ref_target partials hessians slot_get].
    unfold_pass. eapply eval_bind; [apply eval_node_at; eassumption|]. cbv beta.
    rewrite Hok, Hin. cbn [negb nth].
    acc_steps.
  - (* Multiply *)
    destruct (Nat.eq_dec (length (inputs nd)) 2) as [H2|H2].
    + destruct (input_refs_2 ns nd H2 Hval) as [a [b Hin]].
      pose proof Hval as Hval'. rewrite Hin in Hval'.
      destruct (valid_refs_2 ns a b Hval') as [na [nb [Ha Hb]]].
      assert (Han : (a =? n)%nat = false)
        by (apply Nat.eqb_neq; intro; subst a; apply Hnin; rewrite Hin; left; reflexivity).
      assert (Hbn : (b =? n)%nat = false)
        by (apply Nat.eqb_neq; intro; subst b; apply Hnin; rewrite Hin;
            right; left; reflexivity).
      rewrite Hin, (input_slots_2 ns SValue a b na nb Ha Hb),
              (input_slots_2 ns SDot a b na nb Ha Hb).
      cbn [hvp_accs length seq flat_map app nth ref_target slot_get].
      unfold partials, hessians, sum_term_of, build_prefix_suffix.
      cbn [length seq rev app fold_left repeat Nat.add list_set nth map fst snd
           Nat.eqb Nat.ltb Nat.leb Nat.sub mid_loop].
      unfold_pass. eapply eval_bind; [apply eval_node_at; eassumption|]. cbv beta.
      rewrite Hok, Hin. cbn [negb nth length Nat.eqb]. cbv zeta.
      acc_steps.
    + eapply eval_eq.
      * apply (multiply_hvp_general_eval ns g n nd Hn); try assumption.
        apply nary_ok_nonempty. exact Hok.
      * unfold multiply_hvp_accs, hvp_accs. cbv zeta.
        apply apply_accs_ext. intros i Hi. apply in_seq in Hi.
        cbn [partials hessians].
        rewrite !nth_map_seq by (rewrite input_slots_length; lia).
        rewrite input_slots_length. reflexivity.
  - (* Divide *)
    rewrite Hin, (input_slots_2 ns SValue a b na nb Ha Hb),
            (input_slots_2 ns SDot a b na nb Ha Hb).
    cbn [hvp_accs length seq flat_map app nth ref_target partials hessians slot_get].
    unfold_pass. eapply eval_bind; [apply eval_node_at; eassumption|]. cbv beta.
    rewrite Hok, Hin. cbn [negb nth].
    acc_steps.
  - (* Max *)
    rewrite Hin, (input_slots_2 ns SValue a b na nb Ha Hb).
    eapply eval_eq; [apply (max_hvp_backward_eval ns g n a b nd na nb); assumption|].
    cbn [hvp_accs nth slot_get]. unfold apply_accs, apply_acc.
    destruct (Rgeb (value na) (value nb)); cbn [fold_left fst snd nth ref_target];
      rewrite upd_upd; reflexivity.
  - (* Softmax *)
    unfold_pass. eapply eval_bind; [apply eval_node_at; eassumption|]. cbv beta.
    rewrite Hok. cbn [negb hvp_accs]. cbv zeta.
    eapply eval_bind; [apply eval_read_values_dots; exact Hval|]. cbv beta.
    cbn [fst snd].
    eapply eval_bind; [eapply eval_rd; eassumption|]. cbv beta.
    eapply eval_bind; [eapply eval_rd; eassumption|]. cbv beta.
    cbn [slot_get].
    eapply eval_eq.
    + apply (eval_index_loop2 ns g n nd _
               (fun k => gradient nd *
                         nth k (partials Softmax (input_slots ns SValue (inputs nd))) 0)
               (fun k => grad_dot nd *
                         nth k (partials Softmax (input_slots ns SValue (inputs nd))) 0
                         + gradient nd *
                           nth k (hessians Softmax (input_slots ns SValue (inputs nd))
                                                   (input_slots ns SDot (inputs nd))) 0));
        try assumption.
      intros i ns' a x Hi Hn' Ea Hx Hne. rewrite Ea.
      apply Nat.eqb_neq in Hne.
      cbn [partials hessians].
      rewrite !nth_map_seq by (rewrite input_slots_length; exact Hi).
      acc_steps.
    + reflexivity.
Qed.

(** The gradient accumulations of hvp_backward are those of backward. *)
Lemma hvp_accs_gradient_part : forall o ins vals dots w wd,
  filter (fun u => Slot_eqb (snd (fst u)) SGradient) (hvp_accs o ins vals dots w wd) =
  backward_accs o ins vals w.
Proof.
  intros o ins vals dots w wd.
  assert (Hgen : forall (tgt : nat -> nat) (y x : nat -> R) l,
             filter (fun u : nat * Slot * R => Slot_eqb (snd (fst u)) SGradient)
                    (flat_map (fun k => [(tgt k, SGradient, y k); (tgt k, SGradDot, x k)]) l)
             = map (fun k => (tgt k, SGradient, y k)) l).
  { intros tgt y x l. induction l as [|k l IH]; [reflexivity|].
    simpl. rewrite IH. reflexivity. }
  destruct o; cbn [hvp_accs backward_accs]; try reflexivity;
    try (apply (Hgen (fun k => ref_target (nth k ins None)))).
Qed.

(** Slot [s] of a node after a sequence of accumulations depends only on the
    accumulations made on slot [s]. *)
Lemma node_after_slotwise : forall g s us j x x',
  slot_get s x = slot_get s x' -> tag_get s x = tag_get s x' ->
  slot_get s (node_after g us j x) =
    slot_get s (node_after g (filter (fun u => Slot_eqb (snd (fst u)) s) us) j x') /\
  tag_get s (node_after g us j x) =
    tag_get s (node_after g (filter (fun u => Slot_eqb (snd (fst u)) s) us) j x').
Proof.
  intros g s us j. unfold node_after.
  induction us as [|u us IH]; intros x x' Hs Ht; [split; assumption|].
  cbn [fold_left filter].
  destruct (Slot_eqb (snd (fst u)) s) eqn:Es.
  - cbn [fold_left]. apply Slot_eqb_eq in Es.
    destruct (fst (fst u) =? j)%nat; [|apply IH; assumption].
    apply IH; rewrite Es.
    + rewrite !accumulated_slot. unfold effective. rewrite Hs, Ht. reflexivity.
    + rewrite !accumulated_tag. reflexivity.
  - destruct (fst (fst u) =? j)%nat; [|apply IH; assumption].
    assert (Hne : snd (fst u) <> s).
    { intro E. rewrite E, Slot_eqb_refl in Es. discriminate. }
    apply IH.
    + rewrite accumulated_slot_other by exact Hne. exact Hs.
    + rewrite accumulated_tag_other by exact Hne. exact Ht.
Qed.

(** X5: on any node that passes its operator's arity guard, with inputs
    that point into the graph and are not the node itself, hvp_backward
    leaves in every gradient slot and gradient tag of the graph exactly what
    backward leaves there: its first-order part is the backward rule. *)
Theorem hvp_backward_extends_backward :
  forall (o : Operator) (w : World) (n : nat) (nd : ADNode),
  nth_error (nodes w) n = Some nd ->
  arity_ok o nd = true ->
  forallb (valid_ref (nodes w)) (inputs nd) = true ->
  ~ In (Some n) (inputs nd) ->
  exists wb wh,
    OpTraits_backward o n w = Some (tt, wb) /\
    OpTraits_hvp_backward o n w = Some (tt, wh) /\
    forall j, slot_of wh j SGradient = slot_of wb j SGradient /\
              tag_of wh j SGradient = tag_of wb j SGradient.
Proof.
  intros o w n nd Hn Hok Hval Hnin.
  destruct (eval_run _ _ w tt _ (backward_eval o (nodes w) (graph w) n nd Hn Hok Hval Hnin))
    as [wb [Eb [Nb _]]].
  destruct (eval_run _ _ w tt _ (hvp_backward_eval o (nodes w) (graph w) n nd Hn Hok Hval Hnin))
    as [wh [Eh [Nh _]]].
  exists wb, wh. split; [exact Eb|]. split; [exact Eh|].
  intro j. unfold slot_of, tag_of. rewrite Nb, Nh, !nth_error_apply_accs.
  destruct (nth_error (nodes w) j) as [x|]; cbn [option_map]; [|split; reflexivity].
  rewrite <- (hvp_accs_gradient_part o (inputs nd)
                (input_slots (nodes w) SValue (inputs nd))
                (input_slots (nodes w) SDot (inputs nd)) (gradient nd) (grad_dot nd)).
  destruct (node_after_slotwise (graph w) SGradient
              (hvp_accs o (inputs nd) (input_slots (nodes w) SValue (inputs nd))
                        (input_slots (nodes w) SDot (inputs nd)) (gradient nd) (grad_dot nd))
              j x x eq_refl eq_refl) as [Hs Ht].
  split; f_equal; assumption.
Qed.

Lemma hvp_backward_extends_backward_witness :
  exists wb wh,
    OpTraits_backward Multiply 3 product_world = Some (tt, wb) /\
    OpTraits_hvp_backward Multiply 3 product_world = Some (tt, wh) /\
    forall j, slot_of wh j SGradient = slot_of wb j SGradient /\
              tag_of wh j SGradient = tag_of wb j SGradient.
Proof.
  apply (hvp_backward_extends_backward Multiply product_world 3 _ eq_refl).
  - reflexivity.
  - reflexivity.
  - simpl. intros [H|[H|[H|[]]]]; discriminate.
Defined.

(** ** The reverse rules, operator by operator *)

Lemma unary_accs : forall o U a v d w wd,
  unary_rule_of o = Some U ->
  backward_accs o [Some a] [v] w = [(a, SGradient, w * udf U v)] /\
  hvp_accs o [Some a] [v] [d] w wd =
    [(a, SGradient, w * udf U v); (a, SGradDot, wd * udf U v + w * (ud2 U v * d))].
Proof.
  intros o U a v d w wd HU.
  destruct o; try discriminate; inversion HU; subst U; split; reflexivity.
Qed.

(** A node after one accumulation on its gradient and one on its grad_dot. *)
Lemma apply_accs_pair : forall g ns a x v1 v2,
  nth_error ns a = Some x ->
  exists x', nth_error (apply_accs g [(a, SGradient, v1); (a, SGradDot, v2)] ns) a = Some x' /\
    gradient x' = effective SGradient g x + v1 /\
    grad_dot x' = effective SGradDot g x + v2 /\
    grad_epoch x' = cur_grad_epoch_ g /\
    gdot_epoch x' = cur_gdot_epoch_ g /\
    value x' = value x /\ dot x' = dot x /\
    val_epoch x' = val_epoch x /\ dot_epoch x' = dot_epoch x /\
    (forall p, p <> a ->
       nth_error (apply_accs g [(a, SGradient, v1); (a, SGradDot, v2)] ns) p = nth_error ns p).
Proof.
  intros g ns a x v1 v2 Ha.
  exists (accumulated SGradDot g v2 (accumulated SGradient g v1 x)).
  unfold apply_accs, apply_acc. cbn [fold_left fst snd].
  split.
  { rewrite nth_error_upd, Nat.eqb_refl, nth_error_upd, Nat.eqb_refl, Ha. reflexivity. }
  split.
  { change (slot_get SGradient (accumulated SGradDot g v2 (accumulated SGradient g v1 x))
            = effective SGradient g x + v1).
    rewrite accumulated_slot_other by discriminate. apply accumulated_slot. }
  split.
  { change (slot_get SGradDot (accumulated SGradDot g v2 (accumulated SGradient g v1 x))
            = effective SGradDot g x + v2).
    rewrite accumulated_slot. rewrite effective_accumulated_other by discriminate.
    reflexivity. }
  split.
  { change (tag_get SGradient (accumulated SGradDot g v2 (accumulated SGradient g v1 x))
            = cur_epoch SGradient g).
    rewrite accumulated_tag_other by discriminate. apply accumulated_tag. }
  split.
  { change (tag_get SGradDot (accumulated SGradDot g v2 (accumulated SGradient g v1 x))
            = cur_epoch SGradDot g).
    apply accumulated_tag. }
  split.
  { change (slot_get SValue (accumulated SGradDot g v2 (accumulated SGradient g v1 x))
            = slot_get SValue x).
    rewrite !accumulated_slot_other by discriminate. reflexivity. }
  split.
  { change (slot_get SDot (accumulated SGradDot g v2 (accumulated SGradient g v1 x))
            = slot_get SDot x).
    rewrite !accumulated_slot_other by discriminate. reflexivity. }
  split.
  { change (tag_get SValue (accumulated SGradDot g v2 (accumulated SGradient g v1 x))
            = tag_get SValue x).
    rewrite !accumulated_tag_other by discriminate. reflexivity. }
  split.
  { change (tag_get SDot (accumulated SGradDot g v2 (accumulated SGradient g v1 x))
            = tag_get SDot x).
    rewrite !accumulated_tag_other by discriminate. reflexivity. }
  intros p Hp. rewrite !nth_error_upd_other by congruence. reflexivity.
Qed.

(** X6: the second-order rule of the nine unary operators.  On a unary
    node [n] whose input [a] is another node, hvp_backward returns; the
    input's gradient becomes its starting point (the old gradient if live,
    else 0) plus [n.gradient * df(a.value)], its grad_dot becomes its
    starting point plus [n.grad_dot * df(a.value) + n.gradient * d2(a.value) *
    a.dot], both tags become current, the input's value and tangent stay,
    and no other node changes. *)
Theorem unary_hvp_backward_rule :
  forall (o : Operator) (U : UnaryRule) (w : World) (n a : nat) (nd na : ADNode),
  unary_rule_of o = Some U ->
  nth_error (nodes w) n = Some nd ->
  inputs nd = [Some a] ->
  nth_error (nodes w) a = Some na ->
  a <> n ->
  exists w' na',
    OpTraits_hvp_backward o n w = Some (tt, w') /\
    nth_error (nodes w') a = Some na' /\
    gradient na' = effective SGradient (graph w) na + gradient nd * udf U (value na) /\
    grad_dot na' = effective SGradDot (graph w) na +
                   (grad_dot nd * udf U (value na) +
                    gradient nd * ud2 U (value na) * dot na) /\
    grad_epoch na' = cur_grad_epoch_ (graph w) /\
    gdot_epoch na' = cur_gdot_epoch_ (graph w) /\
    value na' = value na /\ dot na' = dot na /\
    (forall p, p <> a -> nth_error (nodes w') p = nth_error (nodes w) p).
Proof.
  intros o U w n a nd na HU Hn Hin Ha Han.
  assert (Hok : arity_ok o nd = true).
  { destruct o; try discriminate; apply (unary_ok_shape nd a Hin). }
  assert (Hval : forallb (valid_ref (nodes w)) (inputs nd) = true).
  { rewrite Hin. simpl. rewrite andb_true_r. apply Nat.ltb_lt.
    apply nth_error_Some. congruence. }
  assert (Hnin : ~ In (Some n) (inputs nd)).
  { rewrite Hin. intros [E|[]]. congruence. }
  destruct (eval_run _ _ w tt _ (hvp_backward_eval o (nodes w) (graph w) n nd Hn Hok Hval Hnin))
    as [w' [E [N' _]]].
  rewrite Hin, (input_slots_1 _ SValue a na Ha), (input_slots_1 _ SDot a na Ha) in N'.
  cbn [slot_get] in N'.
  destruct (unary_accs o U a (value na) (dot na) (gradient nd) (grad_dot nd) HU) as [_ Hacc].
  rewrite Hacc in N'.
  destruct (apply_accs_pair (graph w) (nodes w) a na
              (gradient nd * udf U (value na))
              (grad_dot nd * udf U (value na) + gradient nd * (ud2 U (value na) * dot na)) Ha)
    as [na' [Hna' [Hg [Hgd [Htg [Htgd [Hv [Hd [_ [_ Hframe]]]]]]]]]].
  exists w', na'. rewrite N'.
  split; [exact E|]. split; [exact Hna'|].
  split; [exact Hg|]. split; [rewrite Hgd; ring|].
  repeat (split; [assumption|]). exact Hframe.
Qed.

Definition sine_world : World :=
  mkWorld [ mkNode Var [] 0 2 5 7 1 1 0 0;
            mkNode Sin [Some 0%nat] 0 2 3 4 1 1 1 1 ]
          (mkGraph 1 1 1 1) [].

Lemma unary_hvp_backward_rule_witness :
  exists w' na',
    OpTraits_hvp_backward Sin 1 sine_world = Some (tt, w') /\
    nth_error (nodes w') 0 = Some na' /\
    gradient na' = 0 + 3 * cos 0 /\
    grad_dot na' = 0 + (4 * cos 0 + 3 * - sin 0 * 2).
Proof.
  destruct (unary_hvp_backward_rule Sin SinRule sine_world 1 0 _ _
              eq_refl eq_refl eq_refl eq_refl)
    as [w' [na' [E [Hn [Hg [Hgd _]]]]]].
  - lia.
  - exists w', na'. split; [exact E|]. split; [exact Hn|].
    split; [exact Hg | exact Hgd].
Defined.

(** The rules hooked to [OpTraits] through [BinaryOp]:
    [OpTraits<Subtract> : BinaryOp<SubRule, SUB>] and
    [OpTraits<Divide> : BinaryOp<DivRule, DIV>]. *)
Definition binary_rule_of (o : Operator) : option BinaryRule :=
  match o with
  | Subtract => Some SubRule
  | Divide => Some DivRule
  | _ => None
  end.

Lemma binary_accs : forall o B a b va vb da db w wd,
  binary_rule_of o = Some B ->
  backward_accs o [Some a; Some b] [va; vb] w =
    [(a, SGradient, w * bdfa B va vb); (b, SGradient, w * bdfb B va vb)] /\
  hvp_accs o [Some a; Some b] [va; vb] [da; db] w wd =
    [(a, SGradient, w * bdfa B va vb);
     (a, SGradDot, wd * bdfa B va vb + w * (bd2aa B va vb * da + bd2ab B va vb * db))] ++
    [(b, SGradient, w * bdfb B va vb);
     (b, SGradDot, wd * bdfb B va vb + w * (bd2ab B va vb * da + bd2bb B va vb * db))].
Proof.
  intros o B a b va vb da db w wd HB.
  destruct o; try discriminate; inversion HB; subst B; split; reflexivity.
Qed.

Lemma binary_node_ok : forall o B ns n a b (nd na nb : ADNode),
  binary_rule_of o = Some B ->
  nth_error ns n = Some nd ->
  inputs nd = [Some a; Some b] ->
  nth_error ns a = Some na ->
  nth_error ns b = Some nb ->
  a <> n -> b <> n ->
  arity_ok o nd = true /\ forallb (valid_ref ns) (inputs nd) = true /\
  ~ In (Some n) (inputs nd).
Proof.
  intros o B ns n a b nd na nb HB Hn Hin Ha Hb Han Hbn.
  split; [|split].
  - destruct o; try discriminate; apply (binary_ok_shape nd a b Hin).
  - rewrite Hin. simpl. rewrite andb_true_r. apply andb_true_iff.
    split; apply Nat.ltb_lt; apply nth_error_Some; congruence.
  - rewrite Hin. intros [E|[E|[]]]; congruence.
Qed.

(** X7: backward of Subtract and Divide.  With [w = n.gradient], input
    [a] gains [w * dfa] and input [b] gains [w * dfb] on top of their
    starting points; when both inputs are the same node it is zeroed once and
    gains both amounts, so for [x - x] the gradient of [x] ends at its
    starting point.  Both gradient tags become current and no other node
    changes. *)
Theorem binary_backward_rule :
  forall (o : Operator) (B : BinaryRule) (w : World) (n a b : nat) (nd na nb : ADNode),
  binary_rule_of o = Some B ->
  nth_error (nodes w) n = Some nd ->
  inputs nd = [Some a; Some b] ->
  nth_error (nodes w) a = Some na ->
  nth_error (nodes w) b = Some nb ->
  a <> n -> b <> n ->
  let dfa := bdfa B (value na) (value nb) in
  let dfb := bdfb B (value na) (value nb) in
  exists w',
    OpTraits_backward o n w = Some (tt, w') /\
    (a <> b ->
       slot_of w' a SGradient =
         Some (effective SGradient (graph w) na + gradient nd * dfa) /\
       slot_of w' b SGradient =
         Some (effective SGradient (graph w) nb + gradient nd * dfb)) /\
    (a = b ->
       slot_of w' a SGradient =
         Some (effective SGradient (graph w) na + (gradient nd * dfa + gradient nd * dfb)) /\
       (o = Subtract ->
          slot_of w' a SGradient = Some (effective SGradient (graph w) na))) /\
    tag_of w' a SGradient = Some (cur_grad_epoch_ (graph w)) /\
    tag_of w' b SGradient = Some (cur_grad_epoch_ (graph w)) /\
    (forall p, p <> a -> p <> b -> nth_error (nodes w') p = nth_error (nodes w) p).
Proof.
  intros o B w n a b nd na nb HB Hn Hin Ha Hb Han Hbn dfa dfb.
  destruct (binary_node_ok o B (nodes w) n a b nd na nb HB Hn Hin Ha Hb Han Hbn)
    as [Hok [Hval Hnin]].
  destruct (eval_run _ _ w tt _ (backward_eval o (nodes w) (graph w) n nd Hn Hok Hval Hnin))
    as [w' [E [N' _]]].
  rewrite Hin, (input_slots_2 _ SValue a b na nb Ha Hb) in N'. cbn [slot_get] in N'.
  destruct (binary_accs o B a b (value na) (value nb) 0 0 (gradient nd) 0 HB) as [Hacc _].
  rewrite Hacc in N'. fold dfa dfb in N'.
  exists w'. split; [exact E|].
  set (us := [(a, SGradient, gradient nd * dfa); (b, SGradient, gradient nd * dfb)]) in *.
  assert (Hhit_a : existsb (acc_hits a SGradient) us = true).
  { unfold us, acc_hits. cbn [existsb fst snd Slot_eqb]. rewrite Nat.eqb_refl. reflexivity. }
  assert (Hhit_b : existsb (acc_hits b SGradient) us = true).
  { unfold us, acc_hits. cbn [existsb fst snd Slot_eqb]. rewrite Nat.eqb_refl.
    rewrite !andb_true_r. apply orb_true_r. }
  destruct (apply_accs_slot (graph w) us (nodes w) a na SGradient Ha Hhit_a)
    as [xa [Hxa [Hta Hsa]]].
  destruct (apply_accs_slot (graph w) us (nodes w) b nb SGradient Hb Hhit_b)
    as [xb [Hxb [Htb Hsb]]].
  assert (Tot_a : acc_total us a SGradient =
                  gradient nd * dfa + (if (b =? a)%nat then gradient nd * dfb else 0)).
  { unfold us. rewrite !acc_total_cons. unfold acc_hits at 1 2. cbn [fst snd Slot_eqb].
    rewrite Nat.eqb_refl, !andb_true_r. unfold acc_total. simpl.
    destruct (b =? a)%nat; lra. }
  assert (Tot_b : acc_total us b SGradient =
                  (if (a =? b)%nat then gradient nd * dfa else 0) + gradient nd * dfb).
  { unfold us. rewrite !acc_total_cons. unfold acc_hits at 1 2. cbn [fst snd Slot_eqb].
    rewrite Nat.eqb_refl, !andb_true_r. unfold acc_total. simpl.
    destruct (a =? b)%nat; lra. }
  unfold slot_of, tag_of. rewrite N'.
  split; [|split; [|split; [|split]]].
  - intro Hab. rewrite Hxa, Hxb. cbn [option_map]. rewrite Hsa, Hsb, Tot_a, Tot_b.
    replace (b =? a)%nat with false by (symmetry; apply Nat.eqb_neq; congruence).
    replace (a =? b)%nat with false by (symmetry; apply Nat.eqb_neq; congruence).
    split; f_equal; lra.
  - intro Hab. rewrite Hxa. cbn [option_map]. rewrite Hsa, Tot_a.
    replace (b =? a)%nat with true by (symmetry; apply Nat.eqb_eq; congruence).
    split; [reflexivity|].
    intro Ho. subst o. inversion HB; subst B. unfold dfa, dfb. cbn [bdfa bdfb SubRule].
    f_equal. lra.
  - rewrite Hxa. cbn [option_map]. f_equal. exact Hta.
  - rewrite Hxb. cbn [option_map]. f_equal. exact Htb.
  - intros p Hpa Hpb. apply apply_accs_untouched.
    intros u [<-|[<-|[]]]; cbn [fst]; congruence.
Qed.

Definition difference_world : World :=
  mkWorld [ mkNode Var [] 4 1 9 0 1 1 1 0;
            mkNode Subtract [Some 0%nat; Some 0%nat] 0 0 2 0 1 1 1 0 ]
          (mkGraph 1 1 1 1) [].

Lemma binary_backward_rule_witness :
  exists w',
    OpTraits_backward Subtract 1 difference_world = Some (tt, w') /\
    slot_of w' 0 SGradient = Some 9.
Proof.
  destruct (binary_backward_rule Subtract SubRule difference_world 1 0 0 _ _ _
              eq_refl eq_refl eq_refl eq_refl eq_refl)
    as [w' [E [_ [Hsame _]]]].
  - lia.
  - lia.
  - exists w'. split; [exact E|].
    destruct (Hsame eq_refl) as [_ H]. exact (H eq_refl).
Defined.

(** X8: hvp_backward of Subtract and Divide on two distinct inputs.  With
    [w = n.gradient] and [wd = n.grad_dot], input [a] gains [w * dfa] in its
    gradient and [wd * dfa + w * (d2aa * a.dot + d2ab * b.dot)] in its
    grad_dot, input [b] gains [w * dfb] and
    [wd * dfb + w * (d2ab * a.dot + d2bb * b.dot)], each on top of the slot's
    starting point; the four tags become current and no other node changes. *)
Theorem binary_hvp_backward_rule :
  forall (o : Operator) (B : BinaryRule) (w : World) (n a b : nat) (nd na nb : ADNode),
  binary_rule_of o = Some B ->
  nth_error (nodes w) n = Some nd ->
  inputs nd = [Some a; Some b] ->
  nth_error (nodes w) a = Some na ->
  nth_error (nodes w) b = Some nb ->
  a <> n -> b <> n -> a <> b ->
  let va := value na in
  let vb := value nb in
  exists w' na' nb',
    OpTraits_hvp_backward o n w = Some (tt, w') /\
    nth_error (nodes w') a = Some na' /\
    nth_error (nodes w') b = Some nb' /\
    gradient na' = effective SGradient (graph w) na + gradient nd * bdfa B va vb /\
    grad_dot na' = effective SGradDot (graph w) na +
                   (grad_dot nd * bdfa B va vb +
                    gradient nd * (bd2aa B va vb * dot na + bd2ab B va vb * dot nb)) /\
    gradient nb' = effective SGradient (graph w) nb + gradient nd * bdfb B va vb /\
    grad_dot nb' = effective SGradDot (graph w) nb +
                   (grad_dot nd * bdfb B va vb +
                    gradient nd * (bd2ab B va vb * dot na + bd2bb B va vb * dot nb)) /\
    grad_epoch na' = cur_grad_epoch_ (graph w) /\
    gdot_epoch na' = cur_gdot_epoch_ (graph w) /\
    grad_epoch nb' = cur_grad_epoch_ (graph w) /\
    gdot_epoch nb' = cur_gdot_epoch_ (graph w) /\
    (forall p, p <> a -> p <> b -> nth_error (nodes w') p = nth_error (nodes w) p).
Proof.
  intros o B w n a b nd na nb HB Hn Hin Ha Hb Han Hbn Hab va vb.
  destruct (binary_node_ok o B (nodes w) n a b nd na nb HB Hn Hin Ha Hb Han Hbn)
    as [Hok [Hval Hnin]].
  destruct (eval_run _ _ w tt _ (hvp_backward_eval o (nodes w) (graph w) n nd Hn Hok Hval Hnin))
    as [w' [E [N' _]]].
  rewrite Hin, (input_slots_2 _ SValue a b na nb Ha Hb),
          (input_slots_2 _ SDot a b na nb Ha Hb) in N'.
  cbn [slot_get] in N'.
  destruct (binary_accs o B a b (value na) (value nb) (dot na) (dot nb)
              (gradient nd) (grad_dot nd) HB) as [_ Hacc].
  rewrite Hacc, apply_accs_app in N'. fold va vb in N'.
  destruct (apply_accs_pair (graph w) (nodes w) a na
              (gradient nd * bdfa B va vb)
              (grad_dot nd * bdfa B va vb +
               gradient nd * (bd2aa B va vb * dot na + bd2ab B va vb * dot nb)) Ha)
    as [na' [Hna' [Hga [Hgda [Hta [Htda [_ [_ [_ [_ Hframe_a]]]]]]]]]].
  set (ns1 := apply_accs (graph w)
                [(a, SGradient, gradient nd * bdfa B va vb);
                 (a, SGradDot, grad_dot nd * bdfa B va vb +
                    gradient nd * (bd2aa B va vb * dot na + bd2ab B va vb * dot nb))]
                (nodes w)) in *.
  assert (Hb1 : nth_error ns1 b = Some nb) by (rewrite Hframe_a by congruence; exact Hb).
  destruct (apply_accs_pair (graph w) ns1 b nb
              (gradient nd * bdfb B va vb)
              (grad_dot nd * bdfb B va vb +
               gradient nd * (bd2ab B va vb * dot na + bd2bb B va vb * dot nb)) Hb1)
    as [nb' [Hnb' [Hgb [Hgdb [Htb [Htdb [_ [_ [_ [_ Hframe_b]]]]]]]]]].
  exists w', na', nb'. rewrite N'.
  split; [exact E|].
  split; [rewrite Hframe_b by congruence; exact Hna'|].
  split; [exact Hnb'|].
  repeat (split; [assumption|]).
  intros p Hpa Hpb. rewrite Hframe_b by exact Hpb. apply Hframe_a. exact Hpa.
Qed.

Definition quotient_world : World :=
  mkWorld [ mkNode Var [] 6 1 0 0 1 1 0 0;
            mkNode Var [] 2 0 0 0 1 1 0 0;
            mkNode Divide [Some 0%nat; Some 1%nat] 3 0 1 0 1 1 1 1 ]
          (mkGraph 1 1 1 1) [].

Lemma binary_hvp_backward_rule_witness :
  exists w' na' nb',
    OpTraits_hvp_backward Divide 2 quotient_world = Some (tt, w') /\
    nth_error (nodes w') 0 = Some na' /\
    nth_error (nodes w') 1 = Some nb' /\
    gradient na' = 0 + 1 * bdfa DivRule 6 2 /\
    grad_dot nb' = 0 + (0 * bdfb DivRule 6 2 +
                        1 * (bd2ab DivRule 6 2 * 1 + bd2bb DivRule 6 2 * 0)).
Proof.
  destruct (binary_hvp_backward_rule Divide DivRule quotient_world 2 0 1 _ _ _
              eq_refl eq_refl eq_refl eq_refl eq_refl)
    as [w' [na' [nb' [E [Ha [Hb [Hga [_ [_ [Hgdb _]]]]]]]]]]; try lia.
  exists w', na', nb'. repeat (split; [assumption|]). exact Hgdb.
Defined.

(** ** The forward rules, operator by operator *)

Lemma unary_traits : forall o U,
  unary_rule_of o = Some U ->
  OpTraits_forward o = UnaryOp_forward U /\
  OpTraits_forward_dot o = UnaryOp_forward_dot U /\
  OpTraits_backward o = UnaryOp_backward U /\
  OpTraits_hvp_backward o = UnaryOp_hvp_backward U.
Proof.
  intros o U HU. destruct o; try discriminate; inversion HU; subst U;
    repeat split; reflexivity.
Qed.

Lemma jvp_value_unary : forall o U v d,
  unary_rule_of o = Some U -> jvp_value o [v] [d] = udf U v * d.
Proof.
  intros o U v d HU. unfold jvp_value.
  destruct o; try discriminate; inversion HU; subst U;
    cbn [length seq map nth partials unary_rule_of Rsum fold_right]; lra.
Qed.

(** X9: forward and forward_dot of the nine unary operators.  On a unary
    node with input [a], forward stores [f(a.value)] in the node's value;
    forward_dot stores [df(a.value) * a.dot] in the node's dot (for Log and
    Tan through their own guarded code, which agrees with the guarded [df]
    everywhere, also where the guard fires), marks the node's value tag and
    leaves the value itself alone.  The written tags are current and no other
    node changes. *)
Theorem unary_forward_rules :
  forall (o : Operator) (U : UnaryRule) (w : World) (n a : nat) (nd na : ADNode),
  unary_rule_of o = Some U ->
  nth_error (nodes w) n = Some nd ->
  inputs nd = [Some a] ->
  nth_error (nodes w) a = Some na ->
  (exists w',
     OpTraits_forward o n w = Some (tt, w') /\
     slot_of w' n SValue = Some (uf U (value na)) /\
     tag_of w' n SValue = Some (cur_val_epoch_ (graph w)) /\
     (forall p, p <> n -> nth_error (nodes w') p = nth_error (nodes w) p)) /\
  (exists w',
     OpTraits_forward_dot o n w = Some (tt, w') /\
     slot_of w' n SDot = Some (udf U (value na) * dot na) /\
     slot_of w' n SValue = Some (value nd) /\
     tag_of w' n SDot = Some (cur_dot_epoch_ (graph w)) /\
     tag_of w' n SValue = Some (cur_val_epoch_ (graph w)) /\
     (forall p, p <> n -> nth_error (nodes w') p = nth_error (nodes w) p)).
Proof.
  intros o U w n a nd na HU Hn Hin Ha.
  destruct (unary_traits o U HU) as [Ef _].
  pose proof (unary_ok_shape nd a Hin) as Hok.
  split.
  - assert (He : eval (OpTraits_forward o n) (nodes w) (graph w) tt
                      (upd n (produced SValue (graph w) (uf U (value na))) (nodes w))).
    { rewrite Ef. unfold UnaryOp_forward.
      eapply eval_bind; [apply eval_node_at; eassumption|]. cbv beta.
      rewrite Hok, Hin. cbn [negb nth]. eval_all. }
    destruct (eval_run _ _ w tt _ He) as [w' [E [N' _]]].
    exists w'. unfold slot_of, tag_of. rewrite N'.
    split; [exact E|].
    rewrite (nth_error_upd_same n _ _ nd Hn). cbn [option_map].
    split; [reflexivity|]. split; [reflexivity|].
    intros p Hp. apply nth_error_upd_other. congruence.
  - destruct (eval_run _ _ w tt _
                (unary_forward_dot_eval o U (nodes w) (graph w) n nd a na HU Hn Hin Ha))
      as [w' [E [N' _]]].
    rewrite Hin, (input_slots_1 _ SValue a na Ha), (input_slots_1 _ SDot a na Ha) in N'.
    rewrite (jvp_value_unary o U _ _ HU) in N'. cbn [slot_get] in N'.
    exists w'. unfold slot_of, tag_of. rewrite N', upd_upd.
    split; [exact E|].
    rewrite (nth_error_upd_same n _ _ nd Hn). cbn [option_map].
    repeat (split; [reflexivity|]).
    intros p Hp. apply nth_error_upd_other. congruence.
Qed.

Definition log_world : World :=
  mkWorld [ mkNode Var [] 0 3 0 0 1 1 0 0;
            mkNode Log [Some 0%nat] 0 9 0 0 1 0 0 0 ]
          (mkGraph 1 1 1 1) [].

Lemma unary_forward_rules_witness :
  exists w',
    OpTraits_forward_dot Log 1 log_world = Some (tt, w') /\
    slot_of w' 1 SDot = Some (udf LogRule 0 * 3).
Proof.
  destruct (unary_forward_rules Log LogRule log_world 1 0 _ _
              eq_refl eq_refl eq_refl eq_refl)
    as [_ [w' [E [Hd _]]]].
  exists w'. split; [exact E | exact Hd].
Defined.

(** ** Reverse rules of the n-ary operators: what each input node gains *)

Lemma Rsum_const : forall (A : Type) (c : R) (l : list A),
  Rsum (map (fun _ => c) l) = INR (length l) * c.
Proof.
  intros A c l. induction l as [|x t IH].
  - simpl. lra.
  - cbn [map Rsum fold_right]. fold (Rsum (map (fun _ : A => c) t)).
    rewrite IH. change (length (x :: t)) with (S (length t)). rewrite S_INR. lra.
Qed.

Lemma target_positions : forall ns ins j,
  forallb (valid_ref ns) ins = true ->
  filter (fun i => (ref_target (nth i ins None) =? j)%nat) (seq 0 (length ins)) =
  positions ins j.
Proof.
  intros ns ins j Hval. unfold positions. apply filter_ext_in_local.
  intros i Hi. apply in_seq in Hi. apply (ref_is_target ns); [exact Hval | lia].
Qed.

(** After a reverse loop that visits every input once, adding [y i] to the
    gradient and [x i] to the grad_dot of the input at position [i]: an input
    node holds its starting points plus the amounts of all its positions. *)
Lemma pair_accs_node : forall g ns ins (y x : nat -> R) j nj,
  forallb (valid_ref ns) ins = true ->
  nth_error ns j = Some nj ->
  In (Some j) ins ->
  exists nj',
    nth_error (apply_accs g
                 (flat_map (fun i => [ (ref_target (nth i ins None), SGradient, y i);
                                       (ref_target (nth i ins None), SGradDot, x i) ])
                           (seq 0 (length ins))) ns) j = Some nj' /\
    gradient nj' = effective SGradient g nj + Rsum (map y (positions ins j)) /\
    grad_dot nj' = effective SGradDot g nj + Rsum (map x (positions ins j)) /\
    grad_epoch nj' = cur_grad_epoch_ g /\
    gdot_epoch nj' = cur_gdot_epoch_ g /\
    value nj' = value nj /\ dot nj' = dot nj.
Proof.
  intros g ns ins y x j nj Hval Hj Hin.
  set (tgt := fun i => ref_target (nth i ins None)).
  set (us := flat_map (fun i => [(tgt i, SGradient, y i); (tgt i, SGradDot, x i)])
                      (seq 0 (length ins))).
  destruct (acc_total_pairs tgt y x (seq 0 (length ins)) j) as [HtD [HtG Hex]].
  fold us in HtD, HtG, Hex.
  assert (Hhit : forall s, s = SGradient \/ s = SGradDot ->
            existsb (acc_hits j s) us = true).
  { intros s Hs. rewrite (Hex s Hs).
    rewrite <- (positions_nonempty ins j Hin). apply existsb_ext_in.
    intros i Hi. apply in_seq in Hi. unfold tgt.
    apply (ref_is_target ns); [exact Hval | lia]. }
  exists (node_after g us j nj).
  split; [rewrite nth_error_apply_accs, Hj; reflexivity|].
  destruct (node_after_fields g us j nj) as [_ [_ Hs]].
  unfold tgt in HtD, HtG. rewrite (target_positions ns ins j Hval) in HtD, HtG.
  destruct (Hs SGradient) as [HeG [HtagG _]].
  destruct (Hs SGradDot) as [HeD [HtagD _]].
  specialize (HtagG (Hhit SGradient (or_introl eq_refl))).
  specialize (HtagD (Hhit SGradDot (or_intror eq_refl))).
  rewrite (effective_live _ _ _ HtagG) in HeG.
  rewrite (effective_live _ _ _ HtagD) in HeD.
  cbn [slot_get tag_get cur_epoch] in *.
  split; [rewrite HeG, HtG; reflexivity|].
  split; [rewrite HeD, HtD; reflexivity|].
  split; [exact HtagG|]. split; [exact HtagD|].
  assert (Hmiss : forall s, s = SValue \/ s = SDot -> existsb (acc_hits j s) us = false).
  { intros s Hsv. unfold us. clear -Hsv.
    induction (seq 0 (length ins)) as [|i l IH]; [reflexivity|].
    cbn [flat_map app existsb]. rewrite IH. unfold acc_hits. cbn [fst snd].
    destruct Hsv as [-> | ->]; cbn [Slot_eqb]; rewrite !andb_false_r; reflexivity. }
  destruct (Hs SValue) as [_ [_ HmV]]. destruct (Hs SDot) as [_ [_ HmD]].
  destruct (HmV (Hmiss SValue (or_introl eq_refl))) as [_ HV].
  destruct (HmD (Hmiss SDot (or_intror eq_refl))) as [_ HD].
  split; assumption.
Qed.

Lemma pair_accs_frame : forall g ns ins (y x : nat -> R) j,
  forallb (valid_ref ns) ins = true ->
  ~ In (Some j) ins ->
  nth_error (apply_accs g
               (flat_map (fun i => [ (ref_target (nth i ins None), SGradient, y i);
                                     (ref_target (nth i ins None), SGradDot, x i) ])
                         (seq 0 (length ins))) ns) j = nth_error ns j.
Proof.
  intros g ns ins y x j Hval Hj. apply apply_accs_untouched.
  intros u Hu. apply in_flat_map in Hu. destruct Hu as [i [Hi Hu]].
  apply in_seq in Hi.
  destruct (valid_ref_nth ns ins i Hval) as [a [Ea [_ Hina]]]; [lia|].
  rewrite Ea in Hu. cbn [ref_target] in Hu.
  destruct Hu as [<-|[<-|[]]]; cbn [fst]; intro; subst; contradiction.
Qed.

(** The same for a loop that only adds to gradients. *)
Lemma single_accs_node : forall g ns ins (y : nat -> R) j nj,
  forallb (valid_ref ns) ins = true ->
  nth_error ns j = Some nj ->
  In (Some j) ins ->
  exists nj',
    nth_error (apply_accs g
                 (map (fun i => (ref_target (nth i ins None), SGradient, y i))
                      (seq 0 (length ins))) ns) j = Some nj' /\
    gradient nj' = effective SGradient g nj + Rsum (map y (positions ins j)) /\
    grad_epoch nj' = cur_grad_epoch_ g /\
    grad_dot nj' = grad_dot nj /\ gdot_epoch nj' = gdot_epoch nj /\
    value nj' = value nj /\ dot nj' = dot nj.
Proof.
  intros g ns ins y j nj Hval Hj Hin.
  set (us := map (fun i => (ref_target (nth i ins None), SGradient, y i))
                 (seq 0 (length ins))).
  set (us2 := flat_map (fun i => [ (ref_target (nth i ins None), SGradient, y i);
                                   (ref_target (nth i ins None), SGradDot, 0) ])
                       (seq 0 (length ins))).
  assert (Hfil : filter (fun u => Slot_eqb (snd (fst u)) SGradient) us2 = us).
  { unfold us, us2. induction (seq 0 (length ins)) as [|i l IH]; [reflexivity|].
    simpl. rewrite IH. reflexivity. }
  destruct (pair_accs_node g ns ins y (fun _ => 0) j nj Hval Hj Hin)
    as [n2 [Hn2 [Hg2 [_ [Ht2 _]]]]].
  fold us2 in Hn2. rewrite nth_error_apply_accs, Hj in Hn2. cbn [option_map] in Hn2.
  inversion Hn2 as [En2]. clear Hn2.
  destruct (node_after_slotwise g SGradient us2 j nj nj eq_refl eq_refl) as [Hs Ht].
  rewrite Hfil, En2 in Hs, Ht. cbn [slot_get tag_get] in Hs, Ht.
  exists (node_after g us j nj).
  split; [rewrite nth_error_apply_accs, Hj; reflexivity|].
  split; [rewrite <- Hs; exact Hg2|].
  split; [rewrite <- Ht; exact Ht2|].
  assert (Hmiss : forall s, s <> SGradient -> existsb (acc_hits j s) us = false).
  { intros s Hsv. unfold us. clear -Hsv.
    induction (seq 0 (length ins)) as [|i l IH]; [reflexivity|].
    cbn [map existsb]. rewrite IH. unfold acc_hits. cbn [fst snd].
    destruct s; try congruence; cbn [Slot_eqb]; rewrite !andb_false_r; reflexivity. }
  destruct (node_after_fields g us j nj) as [_ [_ Hf]].
  destruct (Hf SGradDot) as [_ [_ HmD]]. destruct (HmD (Hmiss SGradDot ltac:(discriminate)))
    as [HtD HsD].
  destruct (Hf SValue) as [_ [_ HmV]]. destruct (HmV (Hmiss SValue ltac:(discriminate)))
    as [_ HsV].
  destruct (Hf SDot) as [_ [_ HmT]]. destruct (HmT (Hmiss SDot ltac:(discriminate)))
    as [_ HsT].
  cbn [slot_get tag_get] in *.
  repeat (split; [assumption|]). assumption.
Qed.

Lemma single_accs_frame : forall g ns ins (y : nat -> R) j,
  forallb (valid_ref ns) ins = true ->
  ~ In (Some j) ins ->
  nth_error (apply_accs g
               (map (fun i => (ref_target (nth i ins None), SGradient, y i))
                    (seq 0 (length ins))) ns) j = nth_error ns j.
Proof.
  intros g ns ins y j Hval Hj. apply apply_accs_untouched.
  intros u Hu. apply in_map_iff in Hu. destruct Hu as [i [<- Hi]].
  apply in_seq in Hi.
  destruct (valid_ref_nth ns ins i Hval) as [a [Ea [_ Hina]]]; [lia|].
  rewrite Ea. cbn [ref_target fst]. intro; subst; contradiction.
Qed.

(** X10: the n-ary sum going forward.  On an Add node with at least one
    input, all pointing into the graph, forward stores the sum of the input
    values and forward_dot the sum of the input tangents (an input listed
    twice counts twice); the written tags are current, forward_dot keeps the
    node's value, and no other node changes. *)
Theorem add_forward_rules : forall (w : World) (n : nat) (nd : ADNode),
  nth_error (nodes w) n = Some nd ->
  inputs nd <> [] ->
  forallb (valid_ref (nodes w)) (inputs nd) = true ->
  (exists w',
     OpTraits_forward Add n w = Some (tt, w') /\
     slot_of w' n SValue = Some (Rsum (input_slots (nodes w) SValue (inputs nd))) /\
     tag_of w' n SValue = Some (cur_val_epoch_ (graph w)) /\
     (forall p, p <> n -> nth_error (nodes w') p = nth_error (nodes w) p)) /\
  (exists w',
     OpTraits_forward_dot Add n w = Some (tt, w') /\
     slot_of w' n SDot = Some (Rsum (input_slots (nodes w) SDot (inputs nd))) /\
     slot_of w' n SValue = Some (value nd) /\
     tag_of w' n SDot = Some (cur_dot_epoch_ (graph w)) /\
     tag_of w' n SValue = Some (cur_val_epoch_ (graph w)) /\
     (forall p, p <> n -> nth_error (nodes w') p = nth_error (nodes w) p)).
Proof.
  intros w n nd Hn Hne Hval.
  assert (Hok : _nary_ok nd = true) by (apply nary_ok_nonempty; exact Hne).
  split.
  - assert (He : eval (OpTraits_forward Add n) (nodes w) (graph w) tt
                      (upd n (produced SValue (graph w)
                                (Rsum (input_slots (nodes w) SValue (inputs nd)))) (nodes w))).
    { unfold_pass. eapply eval_bind; [apply eval_node_at; eassumption|]. cbv beta.
      rewrite Hok. cbn [negb].
      eapply eval_bind; [apply eval_sum_slots; exact Hval|]. cbv beta. eval_all. }
    destruct (eval_run _ _ w tt _ He) as [w' [E [N' _]]].
    exists w'. unfold slot_of, tag_of. rewrite N'.
    split; [exact E|].
    rewrite (nth_error_upd_same n _ _ nd Hn). cbn [option_map].
    split; [reflexivity|]. split; [reflexivity|].
    intros p Hp. apply nth_error_upd_other. congruence.
  - assert (He : eval (OpTraits_forward_dot Add n) (nodes w) (graph w) tt
                      (upd n (touched SValue (graph w))
                         (upd n (produced SDot (graph w)
                                   (Rsum (input_slots (nodes w) SDot (inputs nd))))
                              (nodes w)))).
    { unfold_pass. eapply eval_bind; [apply eval_node_at; eassumption|]. cbv beta.
      rewrite Hok. cbn [negb].
      eapply eval_bind; [apply eval_sum_slots; exact Hval|]. cbv beta. eval_all. }
    destruct (eval_run _ _ w tt _ He) as [w' [E [N' _]]].
    exists w'. unfold slot_of, tag_of. rewrite N', upd_upd.
    split; [exact E|].
    rewrite (nth_error_upd_same n _ _ nd Hn). cbn [option_map].
    repeat (split; [reflexivity|]).
    intros p Hp. apply nth_error_upd_other. congruence.
Qed.

Definition sum_world : World :=
  mkWorld [ mkNode Var [] 2 1 0 0 1 1 0 0;
            mkNode Var [] 5 3 0 0 1 1 0 0;
            mkNode Add [Some 0%nat; Some 1%nat; Some 0%nat] 0 0 4 6 0 0 1 1 ]
          (mkGraph 1 1 1 1) [].

Lemma add_forward_rules_witness :
  exists w',
    OpTraits_forward Add 2 sum_world = Some (tt, w') /\
    slot_of w' 2 SValue = Some (2 + (5 + (2 + 0))).
Proof.
  destruct (add_forward_rules sum_world 2 _ eq_refl) as [[w' [E [Hv _]]] _].
  - discriminate.
  - reflexivity.
  - exists w'. split; [exact E | exact Hv].
Defined.

(** X11: the n-ary sum going backward.  On an Add node that is not among
    its own inputs, backward adds [n.gradient] to the gradient of every input
    once per position at which it is listed, starting from the gradient's
    starting point, and leaves grad_dot alone; hvp_backward does the same and
    also adds [n.grad_dot] per position to the input's grad_dot.  The
    accumulators' tags become current; nodes that are not inputs do not
    change. *)
Theorem add_reverse_rules : forall (w : World) (n : nat) (nd : ADNode),
  nth_error (nodes w) n = Some nd ->
  inputs nd <> [] ->
  forallb (valid_ref (nodes w)) (inputs nd) = true ->
  ~ In (Some n) (inputs nd) ->
  let times := fun j => INR (length (positions (inputs nd) j)) in
  (exists w',
     OpTraits_backward Add n w = Some (tt, w') /\
     (forall j nj, nth_error (nodes w) j = Some nj -> In (Some j) (inputs nd) ->
        exists nj', nth_error (nodes w') j = Some nj' /\
          gradient nj' = effective SGradient (graph w) nj + times j * gradient nd /\
          grad_epoch nj' = cur_grad_epoch_ (graph w) /\
          grad_dot nj' = grad_dot nj /\ gdot_epoch nj' = gdot_epoch nj) /\
     (forall j, ~ In (Some j) (inputs nd) ->
        nth_error (nodes w') j = nth_error (nodes w) j)) /\
  (exists w',
     OpTraits_hvp_backward Add n w = Some (tt, w') /\
     (forall j nj, nth_error (nodes w) j = Some nj -> In (Some j) (inputs nd) ->
        exists nj', nth_error (nodes w') j = Some nj' /\
          gradient nj' = effective SGradient (graph w) nj + times j * gradient nd /\
          grad_dot nj' = effective SGradDot (graph w) nj + times j * grad_dot nd /\
          grad_epoch nj' = cur_grad_epoch_ (graph w) /\
          gdot_epoch nj' = cur_gdot_epoch_ (graph w)) /\
     (forall j, ~ In (Some j) (inputs nd) ->
        nth_error (nodes w') j = nth_error (nodes w) j)).
Proof.
  intros w n nd Hn Hne Hval Hnin times.
  assert (Hok : arity_ok Add nd = true) by (apply nary_ok_nonempty; exact Hne).
  set (vals := input_slots (nodes w) SValue (inputs nd)).
  set (dots := input_slots (nodes w) SDot (inputs nd)).
  assert (Hlen : length vals = length (inputs nd)) by apply input_slots_length.
  assert (Hpos : forall j i, In i (positions (inputs nd) j) -> (i < length vals)%nat).
  { intros j i Hi. unfold positions in Hi. apply filter_In in Hi.
    destruct Hi as [Hi _]. apply in_seq in Hi. lia. }
  split.
  - destruct (eval_run _ _ w tt _ (backward_eval Add (nodes w) (graph w) n nd Hn Hok Hval Hnin))
      as [w' [E [N' _]]].
    fold vals in N'. cbn [backward_accs] in N'.
    exists w'. rewrite N'. split; [exact E|]. split.
    + intros j nj Hj Hin.
      destruct (single_accs_node (graph w) (nodes w) (inputs nd)
                  (fun k => gradient nd * nth k (partials Add vals) 0) j nj Hval Hj Hin)
        as [nj' [Hnj' [Hg [Ht [Hgd [Htd _]]]]]].
      exists nj'. split; [exact Hnj'|].
      split; [|repeat (split; [assumption|]); assumption].
      rewrite Hg. f_equal. unfold times.
      rewrite <- (Rsum_const nat (gradient nd)).
      apply Rsum_map_ext_in. intros i Hi. cbn [partials].
      rewrite nth_map_const by (apply (Hpos j); exact Hi). lra.
    + intros j Hj. apply single_accs_frame; assumption.
  - destruct (eval_run _ _ w tt _
                (hvp_backward_eval Add (nodes w) (graph w) n nd Hn Hok Hval Hnin))
      as [w' [E [N' _]]].
    fold vals dots in N'. cbn [hvp_accs] in N'.
    exists w'. rewrite N'. split; [exact E|]. split.
    + intros j nj Hj Hin.
      destruct (pair_accs_node (graph w) (nodes w) (inputs nd)
                  (fun k => gradient nd * nth k (partials Add vals) 0)
                  (fun k => grad_dot nd * nth k (partials Add vals) 0 +
                            gradient nd * nth k (hessians Add vals dots) 0)
                  j nj Hval Hj Hin)
        as [nj' [Hnj' [Hg [Hgd [Ht [Htd _]]]]]].
      exists nj'. split; [exact Hnj'|].
      split; [|split; [|split; assumption]].
      * rewrite Hg. f_equal. unfold times.
        rewrite <- (Rsum_const nat (gradient nd)).
        apply Rsum_map_ext_in. intros i Hi. cbn [partials].
        rewrite nth_map_const by (apply (Hpos j); exact Hi). lra.
      * rewrite Hgd. f_equal. unfold times.
        rewrite <- (Rsum_const nat (grad_dot nd)).
        apply Rsum_map_ext_in. intros i Hi. cbn [partials hessians].
        rewrite !nth_map_const by (apply (Hpos j); exact Hi). lra.
    + intros j Hj. apply pair_accs_frame; assumption.
Qed.

Lemma add_reverse_rules_witness :
  exists w' nj',
    OpTraits_hvp_backward Add 2 sum_world = Some (tt, w') /\
    nth_error (nodes w') 0 = Some nj' /\
    gradient nj' = 0 + 2 * 4 /\ grad_dot nj' = 0 + 2 * 6.
Proof.
  destruct (add_reverse_rules sum_world 2 _ eq_refl) as [_ [w' [E [H _]]]].
  - discriminate.
  - reflexivity.
  - simpl. intros [H|[H|[H|[]]]]; discriminate.
  - destruct (H 0%nat _ eq_refl) as [nj' [Hn [Hg [Hgd _]]]].
    + simpl. auto.
    + exists w', nj'. split; [exact E|]. split; [exact Hn|].
      split; [exact Hg | exact Hgd].
Defined.

(** ** The n-ary product *)

Lemma vprod_shift : forall x t m s,
  vprod (x :: t) (seq (S s) m) = vprod t (seq s m).
Proof.
  intros x t m. induction m as [|m IH]; intro s; [reflexivity|].
  cbn [seq]. unfold vprod in *. cbn [fold_right nth]. rewrite IH. reflexivity.
Qed.

Lemma vprod_all : forall vals,
  vprod vals (seq 0 (length vals)) = fold_right Rmult 1 vals.
Proof.
  induction vals as [|x t IH]; [reflexivity|].
  cbn [length seq].
  change (vprod (x :: t) (0%nat :: seq 1 (length t)))
    with (x * vprod (x :: t) (seq 1 (length t))).
  rewrite vprod_shift, IH. reflexivity.
Qed.

Lemma fold_left_Rmult_map : forall (A : Type) (f : A -> R) (l : list A) (a : R),
  fold_left (fun p r => p * f r) l a = a * fold_right Rmult 1 (map f l).
Proof.
  intros A f l. induction l as [|x t IH]; intro a; simpl; [lra|].
  rewrite IH. ring.
Qed.

(** X12: the n-ary product going forward.  On a Multiply node with at
    least one input, all pointing into the graph, forward stores the product
    of the input values, and forward_dot stores the sum over the positions
    [i] of [xdot_i] times the product of the values at the other positions,
    exactly, also when some values are 0 (no division is involved).  The
    written tags are current, forward_dot keeps the node's value, and no
    other node changes. *)
Theorem multiply_forward_rules : forall (w : World) (n : nat) (nd : ADNode),
  nth_error (nodes w) n = Some nd ->
  inputs nd <> [] ->
  forallb (valid_ref (nodes w)) (inputs nd) = true ->
  let vals := input_slots (nodes w) SValue (inputs nd) in
  let dots := input_slots (nodes w) SDot (inputs nd) in
  let m := length (inputs nd) in
  (exists w',
     OpTraits_forward Multiply n w = Some (tt, w') /\
     slot_of w' n SValue = Some (vprod vals (seq 0 m)) /\
     tag_of w' n SValue = Some (cur_val_epoch_ (graph w)) /\
     (forall p, p <> n -> nth_error (nodes w') p = nth_error (nodes w) p)) /\
  (exists w',
     OpTraits_forward_dot Multiply n w = Some (tt, w') /\
     slot_of w' n SDot =
       Some (Rsum (map (fun i => nth i dots 0 * vprod vals (others m i)) (seq 0 m))) /\
     slot_of w' n SValue = Some (value nd) /\
     tag_of w' n SDot = Some (cur_dot_epoch_ (graph w)) /\
     tag_of w' n SValue = Some (cur_val_epoch_ (graph w)) /\
     (forall p, p <> n -> nth_error (nodes w') p = nth_error (nodes w) p)).
Proof.
  intros w n nd Hn Hne Hval vals dots m.
  assert (Hok : _nary_ok nd = true) by (apply nary_ok_nonempty; exact Hne).
  assert (Hlen : length vals = m) by apply input_slots_length.
  split.
  - assert (He : eval (OpTraits_forward Multiply n) (nodes w) (graph w) tt
                      (upd n (produced SValue (graph w) (vprod vals (seq 0 m))) (nodes w))).
    { unfold_pass. eapply eval_bind; [apply eval_node_at; eassumption|]. cbv beta.
      rewrite Hok. cbn [negb].
      eapply eval_bind.
      - apply (eval_fold_M _ _ _ (fun p r => p * ref_slot (nodes w) SValue r)).
        intros b r Hr. rewrite forallb_forall in Hval.
        destruct (valid_ref_lookup (nodes w) r (Hval r Hr)) as [p [x [-> Hp]]].
        simpl ref_slot. rewrite Hp. eval_all.
      - cbv beta. rewrite fold_left_Rmult_map, Rmult_1_l.
        fold (input_slots (nodes w) SValue (inputs nd)). fold vals.
        rewrite <- vprod_all, Hlen. eval_all. }
    destruct (eval_run _ _ w tt _ He) as [w' [E [N' _]]].
    exists w'. unfold slot_of, tag_of. rewrite N'.
    split; [exact E|].
    rewrite (nth_error_upd_same n _ _ nd Hn). cbn [option_map].
    split; [reflexivity|]. split; [reflexivity|].
    intros p Hp. apply nth_error_upd_other. congruence.
  - destruct (eval_run _ _ w tt _
                (nary_forward_dot_eval Multiply (nodes w) (graph w) n nd
                   (or_intror (or_introl eq_refl)) Hn Hne Hval))
      as [w' [E [N' _]]].
    fold vals dots in N'.
    assert (Hj : jvp_value Multiply vals dots =
                 Rsum (map (fun i => nth i dots 0 * vprod vals (others m i)) (seq 0 m))).
    { unfold jvp_value. rewrite Hlen. apply Rsum_map_ext_in. intros i Hi.
      apply in_seq in Hi. cbn [partials]. rewrite Hlen.
      rewrite nth_map_seq by lia.
      rewrite <- Hlen. rewrite prefix_suffix_without by lia. ring. }
    rewrite Hj in N'.
    exists w'. unfold slot_of, tag_of. rewrite N', upd_upd.
    split; [exact E|].
    rewrite (nth_error_upd_same n _ _ nd Hn). cbn [option_map].
    repeat (split; [reflexivity|]).
    intros p Hp. apply nth_error_upd_other. congruence.
Qed.

Lemma multiply_forward_rules_witness :
  exists w',
    OpTraits_forward_dot Multiply 3 product_world = Some (tt, w') /\
    slot_of w' 3 SDot = Some 0.
Proof.
  destruct (multiply_forward_rules product_world 3 _ eq_refl) as [_ [w' [E [Hd _]]]].
  - discriminate.
  - reflexivity.
  - exists w'. split; [exact E|]. rewrite Hd. f_equal. vm_compute. lra.
Defined.

(** X13: the n-ary product going backward.  On a Multiply node that is not
    among its own inputs, backward adds to the gradient of every input node,
    for each position [i] at which it is listed, [n.gradient] times the
    product of the values at the other positions: the product computed from
    the prefix and suffix tables without dividing, so exact when values are
    0.  The gradient tags become current, grad_dot is left alone, and nodes
    that are not inputs do not change. *)
Theorem multiply_backward_rule : forall (w : World) (n : nat) (nd : ADNode),
  nth_error (nodes w) n = Some nd ->
  inputs nd <> [] ->
  forallb (valid_ref (nodes w)) (inputs nd) = true ->
  ~ In (Some n) (inputs nd) ->
  let vals := input_slots (nodes w) SValue (inputs nd) in
  let m := length (inputs nd) in
  exists w',
    OpTraits_backward Multiply n w = Some (tt, w') /\
    (forall j nj, nth_error (nodes w) j = Some nj -> In (Some j) (inputs nd) ->
       exists nj', nth_error (nodes w') j = Some nj' /\
         gradient nj' =
           effective SGradient (graph w) nj +
           Rsum (map (fun i => gradient nd * vprod vals (others m i))
                     (positions (inputs nd) j)) /\
         grad_epoch nj' = cur_grad_epoch_ (graph w) /\
         grad_dot nj' = grad_dot nj /\ gdot_epoch nj' = gdot_epoch nj) /\
    (forall j, ~ In (Some j) (inputs nd) ->
       nth_error (nodes w') j = nth_error (nodes w) j).
Proof.
  intros w n nd Hn Hne Hval Hnin vals m.
  assert (Hok : arity_ok Multiply nd = true) by (apply nary_ok_nonempty; exact Hne).
  assert (Hlen : length vals = m) by apply input_slots_length.
  destruct (eval_run _ _ w tt _ (backward_eval Multiply (nodes w) (graph w) n nd Hn Hok Hval Hnin))
    as [w' [E [N' _]]].
  fold vals in N'. cbn [backward_accs] in N'.
  exists w'. rewrite N'. split; [exact E|]. split.
  - intros j nj Hj Hin.
    destruct (single_accs_node (graph w) (nodes w) (inputs nd)
                (fun k => gradient nd * nth k (partials Multiply vals) 0) j nj Hval Hj Hin)
      as [nj' [Hnj' [Hg [Ht [Hgd [Htd _]]]]]].
    exists nj'. split; [exact Hnj'|].
    split; [|repeat (split; [assumption|]); assumption].
    rewrite Hg. f_equal.
    apply Rsum_map_ext_in. intros i Hi. unfold positions in Hi.
    apply filter_In in Hi. destruct Hi as [Hi _]. apply in_seq in Hi.
    cbn [partials]. rewrite nth_map_seq by lia.
    rewrite prefix_suffix_without by lia. rewrite Hlen. reflexivity.
  - intros j Hj. apply single_accs_frame; assumption.
Qed.

Lemma multiply_backward_rule_witness :
  exists w' nj',
    OpTraits_backward Multiply 3 product_world = Some (tt, w') /\
    nth_error (nodes w') 1 = Some nj' /\
    gradient nj' = 10.
Proof.
  destruct (multiply_backward_rule product_world 3 _ eq_refl) as [w' [E [H _]]].
  - discriminate.
  - reflexivity.
  - simpl. intros [H|[H|[H|[]]]]; discriminate.
  - destruct (H 1%nat _ eq_refl) as [nj' [Hn [Hg _]]].
    + simpl. auto.
    + exists w', nj'. split; [exact E|]. split; [exact Hn|].
      rewrite Hg. vm_compute. lra.
Defined.

(** X14: the short cases of the n-ary product's second-order rule.  With
    one or two inputs, among them the [m == 2] fast path, hvp_backward
    leaves in every input node what the formula of the general case gives:
    its grad_dot gains, per position [i],
    [n.grad_dot * prod_{l <> i} v_l + n.gradient * sum_{k <> i} xdot_k *
    prod_{l not in {i,k}} v_l], and its gradient
    [n.gradient * prod_{l <> i} v_l]; for two distinct inputs [a], [b] that
    is [wd * b + w * bdot] and [w * b] at [a]. *)
Theorem multiply_hvp_short : forall (w : World) (n : nat) (nd : ADNode),
  nth_error (nodes w) n = Some nd ->
  (1 <= length (inputs nd) <= 2)%nat ->
  forallb (valid_ref (nodes w)) (inputs nd) = true ->
  ~ In (Some n) (inputs nd) ->
  let ins := inputs nd in
  let vals := input_slots (nodes w) SValue ins in
  let dots := input_slots (nodes w) SDot ins in
  exists w',
    OpTraits_hvp_backward Multiply n w = Some (tt, w') /\
    (forall j nj, nth_error (nodes w) j = Some nj -> In (Some j) ins ->
       exists nj', nth_error (nodes w') j = Some nj' /\
         grad_dot nj' =
           effective SGradDot (graph w) nj +
           Rsum (map (hvp_amount vals dots (gradient nd) (grad_dot nd)) (positions ins j)) /\
         gradient nj' =
           effective SGradient (graph w) nj +
           Rsum (map (fun i => gradient nd * vprod vals (others (length ins) i))
                     (positions ins j)) /\
         grad_epoch nj' = cur_grad_epoch_ (graph w) /\
         gdot_epoch nj' = cur_gdot_epoch_ (graph w)) /\
    (forall j, ~ In (Some j) ins -> nth_error (nodes w') j = nth_error (nodes w) j) /\
    (forall a b na nb, ins = [Some a; Some b] -> a <> b ->
       nth_error (nodes w) a = Some na -> nth_error (nodes w) b = Some nb ->
       exists na', nth_error (nodes w') a = Some na' /\
         gradient na' = effective SGradient (graph w) na + gradient nd * value nb /\
         grad_dot na' = effective SGradDot (graph w) na +
                        (grad_dot nd * value nb + gradient nd * dot nb)).
Proof.
  intros w n nd Hn Hm Hval Hnin ins vals dots.
  assert (Hne : inputs nd <> []) by (intro E; rewrite E in Hm; simpl in Hm; lia).
  assert (Hok : arity_ok Multiply nd = true) by (apply nary_ok_nonempty; exact Hne).
  assert (Hlen : length vals = length ins) by apply input_slots_length.
  destruct (eval_run _ _ w tt _
              (hvp_backward_eval Multiply (nodes w) (graph w) n nd Hn Hok Hval Hnin))
    as [w' [E [N' _]]].
  fold ins vals dots in N'. cbn [hvp_accs] in N'.
  assert (Hnode : forall j nj, nth_error (nodes w) j = Some nj -> In (Some j) ins ->
            exists nj', nth_error (nodes w') j = Some nj' /\
              grad_dot nj' =
                effective SGradDot (graph w) nj +
                Rsum (map (hvp_amount vals dots (gradient nd) (grad_dot nd))
                          (positions ins j)) /\
              gradient nj' =
                effective SGradient (graph w) nj +
                Rsum (map (fun i => gradient nd * vprod vals (others (length ins) i))
                          (positions ins j)) /\
              grad_epoch nj' = cur_grad_epoch_ (graph w) /\
              gdot_epoch nj' = cur_gdot_epoch_ (graph w)).
  { intros j nj Hj Hin. rewrite N'.
    destruct (pair_accs_node (graph w) (nodes w) ins
                (fun k => gradient nd * nth k (partials Multiply vals) 0)
                (fun k => grad_dot nd * nth k (partials Multiply vals) 0 +
                          gradient nd * nth k (hessians Multiply vals dots) 0)
                j nj Hval Hj Hin)
      as [nj' [Hnj' [Hg [Hgd [Ht [Htd _]]]]]].
    exists nj'. split; [exact Hnj'|].
    split; [|split; [|split; assumption]].
    - rewrite Hgd. f_equal.
      apply Rsum_map_ext_in. intros i Hi. unfold positions in Hi.
      apply filter_In in Hi. destruct Hi as [Hi _]. apply in_seq in Hi.
      cbn [partials hessians]. rewrite !nth_map_seq by lia.
      rewrite prefix_suffix_without, sum_term_exact by lia. reflexivity.
    - rewrite Hg. f_equal.
      apply Rsum_map_ext_in. intros i Hi. unfold positions in Hi.
      apply filter_In in Hi. destruct Hi as [Hi _]. apply in_seq in Hi.
      cbn [partials]. rewrite nth_map_seq by lia.
      rewrite prefix_suffix_without by lia. rewrite Hlen. reflexivity. }
  exists w'. split; [exact E|]. split; [exact Hnode|]. split.
  - intros j Hj. rewrite N'. apply pair_accs_frame; assumption.
  - intros a b na nb Hin Hab Ha Hb.
    destruct (Hnode a na Ha) as [na' [Hna' [Hgd [Hg _]]]].
    { rewrite Hin. left. reflexivity. }
    exists na'. split; [exact Hna'|].
    rewrite Hg, Hgd. unfold vals, dots. rewrite Hin.
    rewrite (input_slots_2 _ SValue a b na nb Ha Hb), (input_slots_2 _ SDot a b na nb Ha Hb).
    unfold positions, hvp_amount, cross_term, others, others2, vprod.
    cbn [length seq filter nth ref_is Nat.eqb negb andb map Rsum fold_right slot_get].
    rewrite Nat.eqb_refl.
    replace (b =? a)%nat with false by (symmetry; apply Nat.eqb_neq; congruence).
    cbn [map Rsum fold_right nth Nat.eqb negb andb filter].
    split; f_equal; ring.
Qed.

Definition square_world : World :=
  mkWorld [ mkNode Var [] 3 1 0 0 1 1 0 0;
            mkNode Var [] 4 2 0 0 1 1 0 0;
            mkNode Multiply [Some 0%nat; Some 1%nat] 12 0 1 5 1 1 1 1 ]
          (mkGraph 1 1 1 1) [].

Lemma multiply_hvp_short_witness :
  exists w' na',
    OpTraits_hvp_backward Multiply 2 square_world = Some (tt, w') /\
    nth_error (nodes w') 0 = Some na' /\
    gradient na' = 0 + 1 * 4 /\
    grad_dot na' = 0 + (5 * 4 + 1 * 2).
Proof.
  destruct (multiply_hvp_short square_world 2 _ eq_refl) as [w' [E [_ [_ H]]]].
  - simpl. lia.
  - reflexivity.
  - simpl. intros [H|[H|[]]]; discriminate.
  - destruct (H 0%nat 1%nat (mkNode Var [] 3 1 0 0 1 1 0 0) (mkNode Var [] 4 2 0 0 1 1 0 0)
                eq_refl) as [na' [Hn [Hg Hgd]]];
      [lia | reflexivity | reflexivity |].
    exists w', na'. split; [exact E|]. split; [exact Hn|].
    split; [exact Hg | exact Hgd].
Defined.

(** ** The softmax component *)

Lemma softmax_Z : forall x : list R,
  x <> [] ->
  let e := map (fun xi => exp (xi - xmax_of x)) x in
  fold_left Rplus e 0 = Rsum e /\
  fold_left (fun Z xi => Z + exp (xi - xmax_of x)) x 0 = Rsum e /\
  1 <= Rsum e.
Proof.
  intros x Hne e.
  split; [|split].
  - change (fold_left Rplus e 0) with (fold_left (fun acc v => acc + (fun t : R => t) v) e 0).
    rewrite fold_left_Rplus_map, map_id. lra.
  - rewrite fold_left_Rplus_map. unfold e. lra.
  - apply (softmax_denominator x Hne).
Qed.

Lemma softmax_y_eq : forall x : list R,
  x <> [] ->
  softmax_y x =
  map (fun xi => exp (xi - xmax_of x) / Rsum (map (fun xi => exp (xi - xmax_of x)) x)) x.
Proof.
  intros x Hne. destruct (softmax_Z x Hne) as [HZ [_ H1]].
  unfold softmax_y. cbv zeta. rewrite HZ.
  rewrite Rleb_false by lra. rewrite map_map. reflexivity.
Qed.

Lemma Rsum_map_div : forall (A : Type) (f : A -> R) (c : R) (l : list A),
  Rsum (map (fun a => f a / c) l) = Rsum (map f l) / c.
Proof.
  intros A f c l. induction l as [|a t IH]; simpl; [unfold Rdiv; ring|].
  fold (Rsum (map (fun a => f a / c) t)). fold (Rsum (map f t)). rewrite IH.
  unfold Rdiv. ring.
Qed.

Lemma softmax_y_entry : forall (x : list R) (k : nat),
  x <> [] -> (k < length x)%nat ->
  nth k (softmax_y x) 0 =
  exp (nth k x 0 - xmax_of x) / Rsum (map (fun xi => exp (xi - xmax_of x)) x).
Proof.
  intros x k Hne Hk. rewrite softmax_y_eq by exact Hne.
  set (Z := Rsum (map (fun xi => exp (xi - xmax_of x)) x)).
  rewrite (nth_indep _ 0 ((fun xi => exp (xi - xmax_of x) / Z) 0))
    by (rewrite length_map; exact Hk).
  apply (map_nth (fun xi => exp (xi - xmax_of x) / Z)).
Qed.

Lemma softmax_y_entry_bounds : forall (x : list R) (k : nat),
  x <> [] -> (k < length x)%nat -> 0 < nth k (softmax_y x) 0 <= 1.
Proof.
  intros x k Hne Hk. destruct (softmax_Z x Hne) as [_ [_ H1]].
  rewrite softmax_y_entry by assumption.
  set (Z := Rsum (map (fun xi => exp (xi - xmax_of x)) x)) in *.
  set (xk := nth k x 0).
  assert (Hin : In (exp (xk - xmax_of x)) (map (fun xi => exp (xi - xmax_of x)) x)).
  { apply in_map_iff. exists xk. split; [reflexivity | apply nth_In; exact Hk]. }
  assert (Hle : exp (xk - xmax_of x) <= Z).
  { apply Rsum_ge_member; [|exact Hin].
    intros v Hv. apply in_map_iff in Hv. destruct Hv as [xi [<- _]]. left. apply exp_pos. }
  pose proof (exp_pos (xk - xmax_of x)) as Hp.
  split.
  - apply Rdiv_lt_0_compat; lra.
  - apply Rmult_le_reg_r with Z; [lra|]. unfold Rdiv.
    rewrite Rmult_assoc, Rinv_l by lra. lra.
Qed.

(** X15: the vector [y] that forward_dot, backward and hvp_backward of
    Softmax build from a non-empty input vector is a probability vector: it
    has the length of the input, every entry lies in (0, 1] and the entries
    sum to 1; the guard [if (Z <= 0) Z = 1] never fires. *)
Theorem softmax_y_is_distribution : forall x : list R,
  x <> [] ->
  length (softmax_y x) = length x /\
  (forall k, (k < length x)%nat -> 0 < nth k (softmax_y x) 0 <= 1) /\
  Rsum (softmax_y x) = 1.
Proof.
  intros x Hne. destruct (softmax_Z x Hne) as [_ [_ H1]].
  split; [|split].
  - unfold softmax_y. rewrite !length_map. reflexivity.
  - intros k Hk. apply softmax_y_entry_bounds; assumption.
  - rewrite softmax_y_eq by exact Hne.
    rewrite (Rsum_map_div R (fun xi => exp (xi - xmax_of x))).
    unfold Rdiv. apply Rinv_r. lra.
Qed.

Lemma softmax_y_is_distribution_witness :
  length (softmax_y [0; 0]) = 2%nat /\ Rsum (softmax_y [0; 0]) = 1.
Proof.
  destruct (softmax_y_is_distribution [0; 0]) as [Hl [_ Hs]].
  - discriminate.
  - split; [exact Hl | exact Hs].
Defined.

Lemma Rsum_pick_first : forall (f : nat -> R) (m : nat),
  (0 < m)%nat ->
  Rsum (map (fun k => (if (k =? 0)%nat then 1 else 0) * f k) (seq 0 m)) = f 0%nat.
Proof.
  intros f m Hm.
  rewrite <- (Rsum_single (f 0%nat) 0 m Hm).
  apply Rsum_map_ext_in. intros k _. destruct (k =? 0)%nat eqn:E.
  - apply Nat.eqb_eq in E. subst k. lra.
  - lra.
Qed.

Lemma softmax_y_sum_index : forall x : list R,
  x <> [] -> Rsum (map (fun k => nth k (softmax_y x) 0) (seq 0 (length x))) = 1.
Proof.
  intros x Hne. destruct (softmax_y_eq x Hne) as [].
  assert (Hl : length (softmax_y x) = length x).
  { unfold softmax_y. rewrite !length_map. reflexivity. }
  rewrite <- Hl, Rsum_nth_seq.
  rewrite softmax_y_eq by exact Hne.
  destruct (softmax_Z x Hne) as [_ [_ H1]].
  rewrite (Rsum_map_div R (fun xi => exp (xi - xmax_of x))).
  unfold Rdiv. apply Rinv_r. lra.
Qed.

(** The directional derivative of the softmax component, as the source
    writes it: [y_0 * (xdot_0 - sum_j y_j * xdot_j)]. *)
Lemma jvp_value_softmax : forall vals dots : list R,
  vals <> [] ->
  jvp_value Softmax vals dots =
  nth 0 (softmax_y vals) 0 *
  (nth 0 dots 0 -
   Rsum (map (fun j => nth j (softmax_y vals) 0 * nth j dots 0) (seq 0 (length vals)))).
Proof.
  intros vals dots Hne.
  assert (Hpos : (0 < length vals)%nat) by (destruct vals; [congruence | simpl; lia]).
  unfold jvp_value. cbn [partials].
  rewrite (Rsum_map_ext_in _ _
             (fun k => nth 0 (softmax_y vals) 0
                         * ((if (k =? 0)%nat then 1 else 0) * nth k dots 0)
                       - nth 0 (softmax_y vals) 0
                         * (nth k (softmax_y vals) 0 * nth k dots 0))).
  2:{ intros k Hk. apply in_seq in Hk. rewrite nth_map_seq by lia. ring. }
  rewrite Rsum_map_minus, !Rsum_map_scal.
  rewrite (Rsum_pick_first (fun k => nth k dots 0)) by exact Hpos.
  ring.
Qed.

Lemma input_slots_nonempty : forall ns s ins, ins <> [] -> input_slots ns s ins <> [].
Proof. intros ns s ins H. destruct ins; [congruence | discriminate]. Qed.

(** X16: Softmax going forward.  On a Softmax node with at least one
    input, all pointing into the graph: forward stores the first entry of the
    probability vector the other three passes build (the two ways of guarding
    the denominator agree), a number in (0, 1]; forward_dot stores
    [y_0 * (xdot_0 - sum_j y_j * xdot_j)], which is 0 whenever all input
    tangents are equal.  The written tags are current and no other node
    changes. *)
Theorem softmax_forward_rules : forall (w : World) (n : nat) (nd : ADNode),
  nth_error (nodes w) n = Some nd ->
  inputs nd <> [] ->
  forallb (valid_ref (nodes w)) (inputs nd) = true ->
  let vals := input_slots (nodes w) SValue (inputs nd) in
  let dots := input_slots (nodes w) SDot (inputs nd) in
  let y := softmax_y vals in
  let m := length (inputs nd) in
  (exists w',
     OpTraits_forward Softmax n w = Some (tt, w') /\
     slot_of w' n SValue = Some (nth 0 y 0) /\
     0 < nth 0 y 0 <= 1 /\
     tag_of w' n SValue = Some (cur_val_epoch_ (graph w)) /\
     (forall p, p <> n -> nth_error (nodes w') p = nth_error (nodes w) p)) /\
  (exists w' d,
     OpTraits_forward_dot Softmax n w = Some (tt, w') /\
     slot_of w' n SDot = Some d /\
     d = nth 0 y 0 *
         (nth 0 dots 0 - Rsum (map (fun j => nth j y 0 * nth j dots 0) (seq 0 m))) /\
     ((forall j, (j < m)%nat -> nth j dots 0 = nth 0 dots 0) -> d = 0) /\
     slot_of w' n SValue = Some (value nd) /\
     tag_of w' n SDot = Some (cur_dot_epoch_ (graph w)) /\
     tag_of w' n SValue = Some (cur_val_epoch_ (graph w)) /\
     (forall p, p <> n -> nth_error (nodes w') p = nth_error (nodes w) p)).
Proof.
  intros w n nd Hn Hne Hval vals dots y m.
  assert (Hok : _nary_ok nd = true) by (apply nary_ok_nonempty; exact Hne).
  assert (Hlen : length vals = m) by apply input_slots_length.
  assert (Hvne : vals <> []) by (apply input_slots_nonempty; exact Hne).
  assert (Hpos : (0 < length vals)%nat) by (destruct vals; [congruence | simpl; lia]).
  split.
  - assert (He : eval (OpTraits_forward Softmax n) (nodes w) (graph w) tt
                      (upd n (produced SValue (graph w) (nth 0 y 0)) (nodes w))).
    { unfold_pass. eapply eval_bind; [apply eval_node_at; eassumption|]. cbv beta.
      rewrite Hok. cbn [negb].
      eapply eval_bind; [apply eval_read_values; exact Hval|]. cbv beta zeta.
      fold vals.
      destruct (softmax_Z vals Hvne) as [_ [HZ H1]].
      rewrite HZ, Rgtb_true by lra.
      rewrite <- (softmax_y_entry vals 0 Hvne Hpos). fold y. eval_all. }
    destruct (eval_run _ _ w tt _ He) as [w' [E [N' _]]].
    exists w'. unfold slot_of, tag_of. rewrite N'.
    split; [exact E|].
    rewrite (nth_error_upd_same n _ _ nd Hn). cbn [option_map].
    split; [reflexivity|]. split; [apply softmax_y_entry_bounds; assumption|]. split; [reflexivity|].
    intros p Hp. apply nth_error_upd_other. congruence.
  - destruct (eval_run _ _ w tt _
                (nary_forward_dot_eval Softmax (nodes w) (graph w) n nd
                   (or_intror (or_intror eq_refl)) Hn Hne Hval))
      as [w' [E [N' _]]].
    fold vals dots in N'. rewrite (jvp_value_softmax vals dots Hvne), Hlen in N'.
    fold y in N'.
    exists w', (nth 0 y 0 *
                (nth 0 dots 0 - Rsum (map (fun j => nth j y 0 * nth j dots 0) (seq 0 m)))).
    unfold slot_of, tag_of. rewrite N', upd_upd.
    split; [exact E|].
    rewrite (nth_error_upd_same n _ _ nd Hn). cbn [option_map].
    split; [reflexivity|]. split; [reflexivity|].
    split.
    + intro Hall.
      rewrite (Rsum_map_ext_in _ _ (fun j => nth 0 dots 0 * nth j y 0)).
      2:{ intros j Hj. apply in_seq in Hj. rewrite Hall by lia. ring. }
      rewrite Rsum_map_scal. unfold y. rewrite <- Hlen.
      rewrite softmax_y_sum_index by exact Hvne. ring.
    + repeat (split; [reflexivity|]).
      intros p Hp. apply nth_error_upd_other. congruence.
Qed.

Definition softmax_pair_world : World :=
  mkWorld [ mkNode Var [] 1 3 0 0 1 1 0 0;
            mkNode Var [] 2 3 0 0 1 1 0 0;
            mkNode Softmax [Some 0%nat; Some 1%nat] 0 9 2 0 1 1 1 1 ]
          (mkGraph 1 1 1 1) [].

Lemma softmax_forward_rules_witness :
  exists w',
    OpTraits_forward_dot Softmax 2 softmax_pair_world = Some (tt, w') /\
    slot_of w' 2 SDot = Some 0.
Proof.
  destruct (softmax_forward_rules softmax_pair_world 2 _ eq_refl)
    as [_ [w' [d [E [Hd [_ [Hz _]]]]]]].
  - discriminate.
  - reflexivity.
  - exists w'. split; [exact E|]. rewrite Hd. f_equal. apply Hz.
    intros j Hj. simpl in Hj. destruct j as [|[|j]]; [reflexivity | reflexivity | lia].
Defined.

(** X17: Softmax going backward.  On a Softmax node that is not among its
    own inputs, backward adds to the gradient of every input node, for each
    position [i] at which it is listed,
    [n.gradient * (y_0 * [i = 0] - y_0 * y_i)]; the amounts of all positions
    together sum to 0.  The gradient tags become current, grad_dot is left
    alone, and nodes that are not inputs do not change. *)
Theorem softmax_backward_rule : forall (w : World) (n : nat) (nd : ADNode),
  nth_error (nodes w) n = Some nd ->
  inputs nd <> [] ->
  forallb (valid_ref (nodes w)) (inputs nd) = true ->
  ~ In (Some n) (inputs nd) ->
  let vals := input_slots (nodes w) SValue (inputs nd) in
  let y := softmax_y vals in
  let m := length (inputs nd) in
  let amount := fun i => gradient nd *
                         (nth 0 y 0 * (if (i =? 0)%nat then 1 else 0) - nth 0 y 0 * nth i y 0) in
  exists w',
    OpTraits_backward Softmax n w = Some (tt, w') /\
    (forall j nj, nth_error (nodes w) j = Some nj -> In (Some j) (inputs nd) ->
       exists nj', nth_error (nodes w') j = Some nj' /\
         gradient nj' =
           effective SGradient (graph w) nj + Rsum (map amount (positions (inputs nd) j)) /\
         grad_epoch nj' = cur_grad_epoch_ (graph w) /\
         grad_dot nj' = grad_dot nj /\ gdot_epoch nj' = gdot_epoch nj) /\
    (forall j, ~ In (Some j) (inputs nd) ->
       nth_error (nodes w') j = nth_error (nodes w) j) /\
    Rsum (map amount (seq 0 m)) = 0.
Proof.
  intros w n nd Hn Hne Hval Hnin vals y m amount.
  assert (Hok : arity_ok Softmax nd = true) by (apply nary_ok_nonempty; exact Hne).
  assert (Hlen : length vals = m) by apply input_slots_length.
  assert (Hvne : vals <> []) by (apply input_slots_nonempty; exact Hne).
  assert (Hpos : (0 < m)%nat) by (rewrite <- Hlen; destruct vals; [congruence | simpl; lia]).
  destruct (eval_run _ _ w tt _ (backward_eval Softmax (nodes w) (graph w) n nd Hn Hok Hval Hnin))
    as [w' [E [N' _]]].
  fold vals in N'. cbn [backward_accs] in N'.
  exists w'. rewrite N'. split; [exact E|]. split; [|split].
  - intros j nj Hj Hin.
    destruct (single_accs_node (graph w) (nodes w) (inputs nd)
                (fun k => gradient nd * nth k (partials Softmax vals) 0) j nj Hval Hj Hin)
      as [nj' [Hnj' [Hg [Ht [Hgd [Htd _]]]]]].
    exists nj'. split; [exact Hnj'|].
    split; [|repeat (split; [assumption|]); assumption].
    rewrite Hg. f_equal.
    apply Rsum_map_ext_in. intros i Hi. unfold positions in Hi.
    apply filter_In in Hi. destruct Hi as [Hi _]. apply in_seq in Hi.
    cbn [partials]. rewrite nth_map_seq by lia. reflexivity.
  - intros j Hj. apply single_accs_frame; assumption.
  - unfold amount.
    rewrite (Rsum_map_ext_in _ _
               (fun i => gradient nd * nth 0 y 0 * ((if (i =? 0)%nat then 1 else 0) * 1)
                         - gradient nd * nth 0 y 0 * nth i y 0)).
    2:{ intros i _. ring. }
    rewrite Rsum_map_minus, !Rsum_map_scal.
    rewrite (Rsum_pick_first (fun _ => 1)) by exact Hpos.
    unfold y. rewrite <- Hlen, softmax_y_sum_index by exact Hvne. ring.
Qed.

Lemma softmax_backward_rule_witness :
  exists w',
    OpTraits_backward Softmax 2 softmax_pair_world = Some (tt, w') /\
    (forall j, ~ In (Some j) [Some 0%nat; Some 1%nat] ->
       nth_error (nodes w') j = nth_error (nodes softmax_pair_world) j).
Proof.
  destruct (softmax_backward_rule softmax_pair_world 2 _ eq_refl) as [w' [E [_ [H _]]]].
  - discriminate.
  - reflexivity.
  - simpl. intros [H|[H|[]]]; discriminate.
  - exists w'. split; [exact E | exact H].
Defined.

(** ** Forward and reverse mode agree at every node *)

Lemma eg_apply_accs : forall g us ns j,
  (j < length ns)%nat ->
  eg g (apply_accs g us ns) j = eg g ns j + acc_total us j SGradient.
Proof.
  intros g us ns j Hj. unfold eg. rewrite nth_error_apply_accs.
  destruct (nth_error ns j) as [x|] eqn:E.
  - cbn [option_map]. destruct (node_after_fields g us j x) as [_ [_ Hf]].
    destruct (Hf SGradient) as [He _]. exact He.
  - apply nth_error_None in E. lia.
Qed.

(** X18: the local identity behind the agreement of reverse and forward
    mode.  For every specialised operator other than a constant or variable,
    on a node that passes the arity guard, whose inputs point into the graph
    and are not the node itself: summing, over all nodes, what backward adds
    to the node's gradient (measured from the gradient's starting point)
    times the node's tangent gives [n.gradient] times the tangent forward_dot
    stores at [n]. *)
Theorem node_vjp_matches_jvp :
  forall (o : Operator) (w : World) (n : nat) (nd : ADNode),
  nth_error (nodes w) n = Some nd ->
  is_leaf o = false -> is_other o = false ->
  arity_ok o nd = true ->
  forallb (valid_ref (nodes w)) (inputs nd) = true ->
  ~ In (Some n) (inputs nd) ->
  exists wf wb d,
    OpTraits_forward_dot o n w = Some (tt, wf) /\
    slot_of wf n SDot = Some d /\
    OpTraits_backward o n w = Some (tt, wb) /\
    Rsum (map (fun j => (eg (graph w) (nodes wb) j - eg (graph w) (nodes w) j)
                        * dt (nodes w) j)
              (seq 0 (length (nodes w)))) = gradient nd * d.
Proof.
  intros o w n nd Hn Hleaf Hoth Hok Hval Hnin.
  set (vals := input_slots (nodes w) SValue (inputs nd)).
  set (dots := input_slots (nodes w) SDot (inputs nd)).
  destruct (eval_run _ _ w tt _
              (forward_dot_eval o (nodes w) (graph w) n nd Hn Hoth Hok Hval))
    as [wf [Ef [Nf _]]].
  destruct (eval_run _ _ w tt _ (backward_eval o (nodes w) (graph w) n nd Hn Hok Hval Hnin))
    as [wb [Eb [Nb _]]].
  fold vals dots in Nf. fold vals in Nb.
  exists wf, wb, (jvp_value o vals dots).
  split; [exact Ef|]. split.
  { unfold slot_of. rewrite Nf, (nth_error_upd_same n _ _ nd Hn). cbn [option_map].
    f_equal. apply (dot_of_dot_update o (graph w) _ nd Hleaf). }
  split; [exact Eb|].
  set (us := backward_accs o (inputs nd) vals (gradient nd)) in *.
  pose proof (backward_accs_targets o (nodes w) nd vals (gradient nd) Hoth Hok Hval) as Hacc.
  fold us in Hacc.
  rewrite (Rsum_map_ext_in _ _ (fun j => acc_total us j SGradient * dt (nodes w) j)).
  2:{ intros j Hj. apply in_seq in Hj. rewrite Nb, eg_apply_accs by lia. ring. }
  rewrite (acc_total_swap SGradient (dt (nodes w)) (length (nodes w)) us).
  2:{ intros u Hu. destruct (Hacc u Hu) as [Hs Hin]. split; [exact Hs|].
      rewrite forallb_forall in Hval. specialize (Hval _ Hin).
      apply Nat.ltb_lt. exact Hval. }
  unfold us. apply (backward_accs_identity o (nodes w) nd vals (gradient nd) Hoth Hok Hval).
  apply input_slots_length.
Qed.

Lemma node_vjp_matches_jvp_witness :
  exists wf wb d,
    OpTraits_forward_dot Multiply 3 product_world = Some (tt, wf) /\
    slot_of wf 3 SDot = Some d /\
    OpTraits_backward Multiply 3 product_world = Some (tt, wb) /\
    Rsum (map (fun j => (eg (graph product_world) (nodes wb) j
                         - eg (graph product_world) (nodes product_world) j)
                        * dt (nodes product_world) j)
              (seq 0 4)) = 1 * d.
Proof.
  apply (node_vjp_matches_jvp Multiply product_world 3 _ eq_refl).
  - reflexivity.
  - reflexivity.
  - reflexivity.
  - reflexivity.
  - simpl. intros [H|[H|[H|[]]]]; discriminate.
Defined.

(** ** Softmax: second-order reverse pass *)

Lemma dot_product_index : forall y xd : list R,
  dot_product y xd = Rsum (map (fun j => nth j y 0 * nth j xd 0) (seq 0 (length y))).
Proof.
  intros y xd. unfold dot_product. rewrite fold_left_Rplus_map. lra.
Qed.

Lemma softmax_y_length : forall x : list R, length (softmax_y x) = length x.
Proof. intros x. unfold softmax_y. rewrite !length_map. reflexivity. Qed.

(** X19: Softmax hvp_backward.  On a Softmax node that is not among its own
    inputs, with [sdot = sum_j y_j * xdot_j], hvp_backward adds to every input
    node, for each position [k] at which it is listed,
    [n.gradient * df_k] to the gradient and
    [n.grad_dot * df_k + n.gradient * Hv_k] to grad_dot, where
    [df_k = y_0 * [k = 0] - y_0 * y_k],
    [Hv_0 = y_0 * (1 - 2 y_0) * (xdot_0 - sdot)] and
    [Hv_k = y_0 * y_k * (2 sdot - xdot_0 - xdot_k)] for [k > 0].  The [Hv_k]
    of all positions sum to 0, and so do the grad_dot amounts.  Nodes that
    are not inputs do not change. *)
Theorem softmax_hvp_backward_rule : forall (w : World) (n : nat) (nd : ADNode),
  nth_error (nodes w) n = Some nd ->
  inputs nd <> [] ->
  forallb (valid_ref (nodes w)) (inputs nd) = true ->
  ~ In (Some n) (inputs nd) ->
  let vals := input_slots (nodes w) SValue (inputs nd) in
  let dots := input_slots (nodes w) SDot (inputs nd) in
  let y := softmax_y vals in
  let m := length (inputs nd) in
  let sdot := Rsum (map (fun j => nth j y 0 * nth j dots 0) (seq 0 m)) in
  let df := fun k => nth 0 y 0 * (if (k =? 0)%nat then 1 else 0) - nth 0 y 0 * nth k y 0 in
  let Hv := fun k => if (k =? 0)%nat
                     then nth 0 y 0 * (1 - 2 * nth 0 y 0) * (nth 0 dots 0 - sdot)
                     else nth 0 y 0 * nth k y 0 * (2 * sdot - nth 0 dots 0 - nth k dots 0) in
  let amount := fun k => gradient nd * df k in
  let amount2 := fun k => grad_dot nd * df k + gradient nd * Hv k in
  exists w',
    OpTraits_hvp_backward Softmax n w = Some (tt, w') /\
    (forall j nj, nth_error (nodes w) j = Some nj -> In (Some j) (inputs nd) ->
       exists nj', nth_error (nodes w') j = Some nj' /\
         gradient nj' =
           effective SGradient (graph w) nj + Rsum (map amount (positions (inputs nd) j)) /\
         grad_dot nj' =
           effective SGradDot (graph w) nj + Rsum (map amount2 (positions (inputs nd) j)) /\
         grad_epoch nj' = cur_grad_epoch_ (graph w) /\
         gdot_epoch nj' = cur_gdot_epoch_ (graph w)) /\
    (forall j, ~ In (Some j) (inputs nd) ->
       nth_error (nodes w') j = nth_error (nodes w) j) /\
    Rsum (map Hv (seq 0 m)) = 0 /\
    Rsum (map amount2 (seq 0 m)) = 0.
Proof.
  intros w n nd Hn Hne Hval Hnin vals dots y m sdot df Hv amount amount2.
  assert (Hok : arity_ok Softmax nd = true) by (apply nary_ok_nonempty; exact Hne).
  assert (Hlen : length vals = m) by apply input_slots_length.
  assert (Hvne : vals <> []) by (apply input_slots_nonempty; exact Hne).
  assert (Hpos : (0 < m)%nat) by (rewrite <- Hlen; destruct vals; [congruence | simpl; lia]).
  assert (Hsd : dot_product y dots = sdot).
  { rewrite dot_product_index. unfold y. rewrite softmax_y_length, Hlen. reflexivity. }
  assert (Hy1 : Rsum (map (fun k => nth k y 0) (seq 0 m)) = 1).
  { unfold y. rewrite <- Hlen. apply softmax_y_sum_index. exact Hvne. }
  assert (Hdf0 : Rsum (map df (seq 0 m)) = 0).
  { unfold df.
    rewrite (Rsum_map_ext_in _ _
               (fun i => nth 0 y 0 * ((if (i =? 0)%nat then 1 else 0) * 1)
                         - nth 0 y 0 * nth i y 0)).
    2:{ intros i _. ring. }
    rewrite Rsum_map_minus, !Rsum_map_scal.
    rewrite (Rsum_pick_first (fun _ => 1)) by exact Hpos.
    rewrite Hy1. ring. }
  assert (HHv0 : Rsum (map Hv (seq 0 m)) = 0).
  { set (f := fun k => nth 0 y 0 * (1 - 2 * nth 0 y 0) * (nth 0 dots 0 - sdot)
                       - nth 0 y 0 * nth k y 0 * (2 * sdot - nth 0 dots 0 - nth k dots 0)).
    rewrite (Rsum_map_ext_in _ _
               (fun k => ((if (k =? 0)%nat then 1 else 0) * f k
                          + (nth 0 y 0 * (2 * sdot - nth 0 dots 0)) * nth k y 0)
                         - nth 0 y 0 * (nth k y 0 * nth k dots 0))).
    2:{ intros k _. unfold Hv, f. destruct (k =? 0)%nat eqn:E.
        - apply Nat.eqb_eq in E. subst k. ring.
        - ring. }
    rewrite Rsum_map_minus, Rsum_map_plus, !Rsum_map_scal.
    rewrite (Rsum_pick_first f) by exact Hpos.
    rewrite Hy1. fold sdot. unfold f. ring. }
  destruct (eval_run _ _ w tt _
              (hvp_backward_eval Softmax (nodes w) (graph w) n nd Hn Hok Hval Hnin))
    as [w' [E [N' _]]].
  fold vals dots in N'. cbn [hvp_accs] in N'.
  exists w'. rewrite N'. split; [exact E|]. split; [|split; [|split]].
  - intros j nj Hj Hin.
    destruct (pair_accs_node (graph w) (nodes w) (inputs nd)
                (fun k => gradient nd * nth k (partials Softmax vals) 0)
                (fun k => grad_dot nd * nth k (partials Softmax vals) 0
                          + gradient nd * nth k (hessians Softmax vals dots) 0)
                j nj Hval Hj Hin)
      as [nj' [Hnj' [Hg [Hgd [Ht [Htd _]]]]]].
    exists nj'. split; [exact Hnj'|].
    split; [|split; [|split; assumption]].
    + rewrite Hg. f_equal.
      apply Rsum_map_ext_in. intros i Hi. unfold positions in Hi.
      apply filter_In in Hi. destruct Hi as [Hi _]. apply in_seq in Hi.
      cbn [partials]. rewrite nth_map_seq by lia. reflexivity.
    + rewrite Hgd. f_equal.
      apply Rsum_map_ext_in. intros i Hi. unfold positions in Hi.
      apply filter_In in Hi. destruct Hi as [Hi _]. apply in_seq in Hi.
      cbn [partials hessians]. rewrite !nth_map_seq by lia.
      fold y. rewrite Hsd. reflexivity.
  - intros j Hj. apply pair_accs_frame; assumption.
  - exact HHv0.
  - unfold amount2. rewrite Rsum_map_plus, !Rsum_map_scal, Hdf0, HHv0. ring.
Qed.

Lemma softmax_hvp_backward_rule_witness :
  exists w',
    OpTraits_hvp_backward Softmax 2 softmax_pair_world = Some (tt, w') /\
    (forall j, ~ In (Some j) [Some 0%nat; Some 1%nat] ->
       nth_error (nodes w') j = nth_error (nodes softmax_pair_world) j).
Proof.
  destruct (softmax_hvp_backward_rule softmax_pair_world 2 _ eq_refl) as [w' [E [_ [H _]]]].
  - discriminate.
  - reflexivity.
  - simpl. intros [H|[H|[]]]; discriminate.
  - exists w'. split; [exact E | exact H].
Defined.

(** ** What the forward passes leave alone *)

Lemma leaf_forward_eval : forall o ns g n nd,
  is_leaf o = true ->
  nth_error ns n = Some nd ->
  eval (OpTraits_forward o n) ns g tt (upd n (touched SValue g) ns).
Proof.
  intros o ns g n nd Ho Hn.
  destruct o; try discriminate; unfold_pass; eval_all.
Qed.

(** X20: the frame of the two forward passes, for every operator tag.  On a
    node that passes its arity guard and whose inputs point into the graph,
    forward returns, changes no node other than [n], and at [n] keeps the
    operator, the inputs, dot, gradient, grad_dot and every tag but
    val_epoch; forward_dot likewise keeps value, gradient, grad_dot and the
    two reverse-pass tags.  On a constant or variable both passes keep all
    four slots and only move tags.  The graph's epoch counters are never
    changed. *)
Theorem forward_passes_frame : forall (o : Operator) (w : World) (n : nat) (nd : ADNode),
  nth_error (nodes w) n = Some nd ->
  arity_ok o nd = true ->
  forallb (valid_ref (nodes w)) (inputs nd) = true ->
  (exists wf nd',
     OpTraits_forward o n w = Some (tt, wf) /\ graph wf = graph w /\
     (forall p, p <> n -> nth_error (nodes wf) p = nth_error (nodes w) p) /\
     nth_error (nodes wf) n = Some nd' /\
     keeps (only_slot SValue) (only_slot SValue) nd' nd /\
     (is_leaf o = true -> value nd' = value nd)) /\
  (exists wf nd',
     OpTraits_forward_dot o n w = Some (tt, wf) /\ graph wf = graph w /\
     (forall p, p <> n -> nth_error (nodes wf) p = nth_error (nodes w) p) /\
     nth_error (nodes wf) n = Some nd' /\
     keeps (only_slot SDot) dot_tags nd' nd /\
     (is_leaf o = true -> dot nd' = dot nd)).
Proof.
  intros o w n nd Hn Hok Hval.
  destruct (is_other o) eqn:Hoth.
  { destruct o; try discriminate. destruct w as [ns g t].
    split; exists (mkWorld ns g t), nd; cbn [OpTraits_forward OpTraits_forward_dot];
      (split; [reflexivity|]); (split; [reflexivity|]); (split; [reflexivity|]);
      (split; [exact Hn|]); (split; [apply keeps_refl | reflexivity]). }
  split.
  - destruct (is_leaf o) eqn:Hleaf.
    + destruct (eval_run _ _ w tt _ (leaf_forward_eval o (nodes w) (graph w) n nd Hleaf Hn))
        as [wf [E [N G]]].
      exists wf, (touched SValue (graph w) nd).
      split; [exact E|]. split; [exact G|]. rewrite N. split.
      { intros p Hp. apply nth_error_upd_other. congruence. }
      split; [apply nth_error_upd_same; exact Hn|].
      split; [apply keeps_touched | reflexivity].
    + destruct (forward_eval o (nodes w) (graph w) n nd Hn Hoth Hok Hval) as [F [HF HK]].
      destruct (eval_run _ _ w tt _ HF) as [wf [E [N G]]].
      exists wf, (F nd).
      split; [exact E|]. split; [exact G|]. rewrite N. split.
      { intros p Hp. apply nth_error_upd_other. congruence. }
      split; [apply nth_error_upd_same; exact Hn|].
      split; [apply HK | discriminate].
  - destruct (eval_run _ _ w tt _ (forward_dot_eval o (nodes w) (graph w) n nd Hn Hoth Hok Hval))
      as [wf [E [N G]]].
    eexists wf, _.
    split; [exact E|]. split; [exact G|]. rewrite N. split.
    { intros p Hp. apply nth_error_upd_other. congruence. }
    split; [apply nth_error_upd_same; exact Hn|].
    split; [apply keeps_dot_update_any|].
    intro Hleaf. unfold dot_update. rewrite Hleaf. reflexivity.
Qed.

Lemma forward_passes_frame_witness :
  exists wf nd',
    OpTraits_forward_dot Multiply 3 product_world = Some (tt, wf) /\
    graph wf = graph product_world /\
    (forall p, p <> 3%nat -> nth_error (nodes wf) p = nth_error (nodes product_world) p) /\
    nth_error (nodes wf) 3 = Some nd' /\
    gradient nd' = 1.
Proof.
  destruct (forward_passes_frame Multiply product_world 3 _ eq_refl eq_refl eq_refl)
    as [_ [wf [nd' [E [G [Hp [Hn [[_ [_ [Hs _]]] _]]]]]]]].
  exists wf, nd'. repeat (split; [assumption|]).
  change (slot_get SGradient nd' = 1). rewrite (Hs SGradient eq_refl). reflexivity.
Defined.

(** ** A failed arity guard *)

(** X21: when the arity guard of the node's operator fails (a unary node
    without exactly one non-null input, a binary or Max node without exactly
    two, an n-ary node without inputs), each of the four passes returns the
    world it was given: no slot, tag or counter changes and nothing is read.
    In particular a null input of a unary or binary node is skipped, not
    dereferenced. *)
Theorem failed_guard_noop : forall (o : Operator) (P : Pass) (w : World) (n : nat) (nd : ADNode),
  nth_error (nodes w) n = Some nd ->
  arity_ok o nd = false ->
  OpTraits_pass P o n w = Some (tt, w).
Proof.
  intros o P w n nd Hn Hok.
  destruct o; cbn [arity_ok] in Hok; try discriminate;
    destruct P; unfold_pass; unfold bind, node_at; rewrite Hn, Hok; reflexivity.
Qed.

Lemma failed_guard_noop_witness :
  OpTraits_pass PBackward Log 0 null_input_world = Some (tt, null_input_world).
Proof.
  apply (failed_guard_noop Log PBackward null_input_world 0 _ eq_refl). reflexivity.
Defined.

(** ** Operator names *)

(** X22: [op_name] returns the name constant of the operator's traits, tells
    the seventeen specialised operators apart, and answers "unknown" exactly
    for the tags that have no specialisation. *)
Theorem op_name_distinguishes : forall o1 o2 : Operator,
  op_name o1 = op_name o2 ->
  (o1 = o2 \/ (is_other o1 = true /\ is_other o2 = true)) /\
  op_name o1 = OpTraits_name o1 /\
  (op_name o1 = "unknown"%string <-> is_other o1 = true).
Proof.
  intros o1 o2 H. split; [|split].
  - destruct o1, o2; cbn in H; try discriminate H;
      try (left; reflexivity); right; split; reflexivity.
  - destruct o1; reflexivity.
  - destruct o1; cbn; split; intro E; try discriminate E; reflexivity.
Qed.

Lemma op_name_distinguishes_witness :
  (Softmax = Softmax \/ (is_other Softmax = true /\ is_other Softmax = true)) /\
  op_name Softmax = OpTraits_name Softmax /\
  (op_name Softmax = "unknown"%string <-> is_other Softmax = true).
Proof.
  apply (op_name_distinguishes Softmax Softmax). reflexivity.
Defined.

(** ** Prefix and suffix products *)

(** X23: [build_prefix_suffix] on [m] values returns two vectors of length
    [m + 1] with [pre[0] = 1] and [suf[m] = 1], built by
    [pre[i+1] = pre[i] * v_i] and [suf[i] = suf[i+1] * v_i]; for every
    [i <= m], [pre[i] * suf[i]] is the product of all values, and for every
    [i < m], [pre[i] * suf[i+1]] is the product of all values other than
    [v_i], with no division, so also when some values are 0. *)
Theorem prefix_suffix_products : forall vals : list R,
  let m := length vals in
  let pre := fst (build_prefix_suffix vals) in
  let suf := snd (build_prefix_suffix vals) in
  length pre = (m + 1)%nat /\ length suf = (m + 1)%nat /\
  nth 0 pre 0 = 1 /\ nth m suf 0 = 1 /\
  (forall i, (i < m)%nat ->
     nth (i + 1) pre 0 = nth i pre 0 * nth i vals 0 /\
     nth i suf 0 = nth (i + 1) suf 0 * nth i vals 0) /\
  (forall i, (i <= m)%nat -> nth i pre 0 * nth i suf 0 = fold_right Rmult 1 vals) /\
  (forall i, (i < m)%nat -> nth i pre 0 * nth (i + 1) suf 0 = vprod vals (others m i)).
Proof.
  intros vals m pre suf.
  destruct (build_prefix_suffix_spec vals) as [Hp Hs].
  fold m pre suf in Hp, Hs.
  destruct (pre_loop_spec vals (length vals) (le_n _)) as [Hlp _].
  destruct (suf_loop_spec vals (length vals) (le_n _)) as [Hls _].
  rewrite Nat.sub_diag in Hls.
  split; [exact Hlp|]. split; [exact Hls|].
  split; [rewrite Hp by lia; reflexivity|].
  split; [rewrite Hs by lia; rewrite Nat.sub_diag; reflexivity|].
  split; [|split].
  - intros i Hi. rewrite !Hp, !Hs by lia. split.
    + replace (i + 1)%nat with (S i) by lia. rewrite vprod_seq_S. reflexivity.
    + replace (m - i)%nat with (S (m - (i + 1))) by lia.
      cbn [seq]. replace (S i) with (i + 1)%nat by lia.
      unfold vprod. cbn [fold_right]. ring.
  - intros i Hi. rewrite Hp, Hs by lia.
    rewrite <- vprod_app, <- seq_app.
    replace (i + (m - i))%nat with m by lia.
    apply vprod_all.
  - intros i Hi. rewrite Hp, Hs by lia.
    rewrite others_split by exact Hi.
    rewrite vprod_app. replace (m - (i + 1))%nat with (m - i - 1)%nat by lia.
    reflexivity.
Qed.

(** ** The binary template going forward *)

Lemma jvp_value_binary : forall o B va vb da db,
  binary_rule_of o = Some B ->
  jvp_value o [va; vb] [da; db] = bdfa B va vb * da + bdfb B va vb * db.
Proof.
  intros o B va vb da db HB. unfold jvp_value.
  destruct o; try discriminate; inversion HB; subst B;
    cbn [length seq map nth partials Rsum fold_right]; lra.
Qed.

(** X24: forward and forward_dot of Subtract and Divide.  On a binary node
    with inputs [a] and [b], forward stores [f(a.value, b.value)] in the
    node's value; forward_dot stores
    [dfa(a.value, b.value) * a.dot + dfb(a.value, b.value) * b.dot] in the
    node's dot (for Divide through its own quotient-rule code, which agrees
    with the guarded partials also at [b.value = 0]), marks the value tag and
    leaves the value alone.  The written tags are current and no other node
    changes.  The two inputs may be the same node. *)
Theorem binary_forward_rules :
  forall (o : Operator) (B : BinaryRule) (w : World) (n a b : nat) (nd na nb : ADNode),
  binary_rule_of o = Some B ->
  nth_error (nodes w) n = Some nd ->
  inputs nd = [Some a; Some b] ->
  nth_error (nodes w) a = Some na ->
  nth_error (nodes w) b = Some nb ->
  (exists w',
     OpTraits_forward o n w = Some (tt, w') /\
     slot_of w' n SValue = Some (bf B (value na) (value nb)) /\
     tag_of w' n SValue = Some (cur_val_epoch_ (graph w)) /\
     (forall p, p <> n -> nth_error (nodes w') p = nth_error (nodes w) p)) /\
  (exists w',
     OpTraits_forward_dot o n w = Some (tt, w') /\
     slot_of w' n SDot =
       Some (bdfa B (value na) (value nb) * dot na + bdfb B (value na) (value nb) * dot nb) /\
     slot_of w' n SValue = Some (value nd) /\
     tag_of w' n SDot = Some (cur_dot_epoch_ (graph w)) /\
     tag_of w' n SValue = Some (cur_val_epoch_ (graph w)) /\
     (forall p, p <> n -> nth_error (nodes w') p = nth_error (nodes w) p)).
Proof.
  intros o B w n a b nd na nb HB Hn Hin Ha Hb.
  pose proof (binary_ok_shape nd a b Hin) as Hok.
  split.
  - assert (He : eval (OpTraits_forward o n) (nodes w) (graph w) tt
                      (upd n (produced SValue (graph w) (bf B (value na) (value nb)))
                           (nodes w))).
    { destruct o; try discriminate; inversion HB; subst B;
        unfold_pass;
        (eapply eval_bind; [apply eval_node_at; eassumption|]); cbv beta;
        rewrite Hok, Hin; cbn [negb nth]; eval_all. }
    destruct (eval_run _ _ w tt _ He) as [w' [E [N' _]]].
    exists w'. unfold slot_of, tag_of. rewrite N'.
    split; [exact E|].
    rewrite (nth_error_upd_same n _ _ nd Hn). cbn [option_map].
    split; [reflexivity|]. split; [reflexivity|].
    intros p Hp. apply nth_error_upd_other. congruence.
  - assert (Ho : o = Subtract \/ o = Divide \/ o = Max).
    { destruct o; try discriminate; tauto. }
    destruct (eval_run _ _ w tt _
                (binary_forward_dot_eval o (nodes w) (graph w) n nd a b na nb Ho Hn Hin Ha Hb))
      as [w' [E [N' _]]].
    rewrite Hin, (input_slots_2 _ SValue a b na nb Ha Hb),
            (input_slots_2 _ SDot a b na nb Ha Hb) in N'.
    rewrite (jvp_value_binary o B _ _ _ _ HB) in N'. cbn [slot_get] in N'.
    exists w'. unfold slot_of, tag_of. rewrite N', upd_upd.
    split; [exact E|].
    rewrite (nth_error_upd_same n _ _ nd Hn). cbn [option_map].
    repeat (split; [reflexivity|]).
    intros p Hp. apply nth_error_upd_other. congruence.
Qed.

Lemma binary_forward_rules_witness :
  exists w',
    OpTraits_forward_dot Divide 2 quotient_world = Some (tt, w') /\
    slot_of w' 2 SDot = Some (bdfa DivRule 6 2 * 1 + bdfb DivRule 6 2 * 0).
Proof.
  destruct (binary_forward_rules Divide DivRule quotient_world 2 0 1 _ _ _
              eq_refl eq_refl eq_refl eq_refl eq_refl)
    as [_ [w' [E [Hd _]]]].
  exists w'. split; [exact E | exact Hd].
Defined.
